(** * rieMiner: the prime constellation search engine of [miner.cpp]

    A shallow embedding of the miner's arithmetic core: target derivation,
    primorial alignment, offset computation, bucket filling, the segmented
    sieve with its prefetch ring, candidate extraction, Fermat verification
    and the job dispatch loops, followed by the properties stated about them.

    Conventions.  A [uint32_t] or [uint64_t] is a [Z] whose wrap-around is
    written out with [wrap32] / [wrap64].  A GMP integer ([mpz_t]) is a [Z];
    each GMP function used by the miner has a definition of the same name.
    A byte array used as a bitmap (the sieves, [vfComposite]) is the
    little-endian integer of its bytes, so byte [k] occupies bits
    [8k .. 8k+7] and the [uint64_t] view of word [b] occupies bits
    [64b .. 64b+63] (the miner runs on little-endian machines).  Small fixed
    arrays (the pending ring, the six offsets of a prime, the segment
    buckets) are lists with stdpp's lookup and insert. *)

From Stdlib Require Import ZArith Lia List Bool Zcong Zdivisibility Zpow_facts.
From stdpp Require Import base list.
Import ListNotations.
#[local] Open Scope Z_scope.
#[local] Unset Default Proof Using.

(** ** Machine integers *)

Definition wrap32 (x : Z) : Z := x mod 2 ^ 32.
Definition wrap64 (x : Z) : Z := x mod 2 ^ 64.
Definition wrap8 (x : Z) : Z := x mod 2 ^ 8.

(** [a[i]] for a table read at an unsigned index. *)
Definition zth (l : list Z) (i : Z) : Z := nth (Z.to_nat i) l 0.

(** ** Constants of [miner.cpp] *)

Definition riecoin_sieveBits : Z := 24.
Definition riecoin_sieveSize : Z := Z.shiftl 1 riecoin_sieveBits.
Definition riecoin_sieveWords : Z := riecoin_sieveSize / 64.
Definition max_increments : Z := Z.shiftl 1 29.
Definition maxiter : Z := max_increments / riecoin_sieveSize.
Definition primorial_offset : Z := 16057.
Definition primeTupleOffset : list Z := [0; 4; 2; 4; 2; 4].
Definition denseLimit : Z := 16384.
Definition PENDING_SIZE : Z := 16.
Definition WORK_INDEXES : Z := 64.
Definition OFFSET_STACK_SIZE : Z := 16384.
Definition zeroesBeforeHashInPrime : Z := 8.

(** ** The GMP functions the miner calls *)

Definition mpz_mul_2exp (z k : Z) : Z := z * 2 ^ k.
Definition mpz_tdiv_r (n d : Z) : Z := Z.rem n d.
Definition mpz_abs (z : Z) : Z := Z.abs z.
Definition mpz_add (a b : Z) : Z := a + b.
Definition mpz_sub (a b : Z) : Z := a - b.
Definition mpz_mul_ui (a b : Z) : Z := a * b.
Definition mpz_add_ui (a b : Z) : Z := a + b.
Definition mpz_sub_ui (a b : Z) : Z := a - b.
(** [mpz_tdiv_ui] returns the absolute value of the truncated remainder. *)
Definition mpz_tdiv_ui (n d : Z) : Z := Z.abs (Z.rem n d).
Definition mpz_invert (a m : Z) : Z := Z.invmod a m.
Definition mpz_powm (b e m : Z) : Z := Zpow_mod b e m.
Definition mpz_sizeinbase2 (z : Z) : Z :=
  if z =? 0 then 1 else Z.log2 (Z.abs z) + 1.

(** Limbs of a GMP integer: 64-bit little-endian digits of the magnitude;
    [_mp_size] is the number of limbs, negated for a negative value. *)
Definition mp_d (z : Z) (d : Z) : Z := (Z.abs z / 2 ^ (64 * d)) mod 2 ^ 64.
Definition mp_limbs (z : Z) : Z :=
  if z =? 0 then 0 else Z.log2 (Z.abs z) / 64 + 1.
Definition mp_size (z : Z) : Z := Z.sgn z * mp_limbs z.
(** [z->_mp_d[0]++] : the low limb is incremented in place, with no carry
    into the limbs above it. *)
Definition mp_d0_incr (z : Z) : Z :=
  z - mp_d z 0 + wrap64 (mp_d z 0 + 1).

(** ** Target derivation: [getTargetFromBlock] *)

(** [(powHash[i/8] >> (i % 8)) & 1] *)
Definition hash_bit (powHash : list Z) (i : Z) : bool :=
  negb (Z.land (Z.shiftr (zth powHash (i / 8)) (i mod 8)) 1 =? 0).

(** The loop [for (i = 0; i < 256; i++)], [n] iterations left. *)
Fixpoint target_hash_loop (powHash : list Z) (n : nat) (i : Z) (z : Z) : Z :=
  match n with
  | O => z
  | S n' =>
      let z1 := mpz_mul_2exp z 1 in
      let z2 := if hash_bit powHash i then mp_d0_incr z1 else z1 in
      target_hash_loop powHash n' (i + 1) z2
  end.

(** The part of [getTargetFromBlock] after the two SHA-256 passes. *)
Definition target_from_hash (powHash : list Z) (searchBits : Z) : Z :=
  let z := 1 in
  let z := mpz_mul_2exp z zeroesBeforeHashInPrime in
  let z := target_hash_loop powHash 256 0 z in
  let trailingZeros := wrap32 (searchBits - 1 - zeroesBeforeHashInPrime - 256) in
  mpz_mul_2exp z trailingZeros.

(** [stats.difficulty] as set by [getTargetFromBlock]. *)
Definition target_difficulty (powHash : list Z) (searchBits : Z) : Z :=
  mpz_sizeinbase2 (target_from_hash powHash searchBits).

Section Target.
(** SHA-256 comes from a library outside the miner. *)
Variable sha256 : list Z -> list Z.

Definition getTargetFromBlock (block : list Z) (targetCompact : Z) : Z :=
  let powHash := sha256 (firstn 80 block) in
  let powHash := sha256 (firstn 32 powHash) in
  target_from_hash powHash targetCompact.
End Target.

(** The 256-bit number read bit-reversed from the digest: bit [i % 8] of byte
    [i / 8] is the bit of weight [2^(255 - i)]. *)
Fixpoint hash_value_from (powHash : list Z) (n : nat) (i : Z) : Z :=
  match n with
  | O => 0
  | S n' =>
      (if hash_bit powHash i then 2 ^ Z.of_nat n' else 0)
      + hash_value_from powHash n' (i + 1)
  end.
Definition hash_value (powHash : list Z) : Z := hash_value_from powHash 256 0.

(** ** Primorial alignment in [miningProcess] *)

Definition remainderPrimorial (z_target primorial : Z) : Z :=
  let r := mpz_tdiv_r z_target primorial in
  let r := mpz_abs r in
  let r := mpz_sub primorial r in
  let r := mpz_tdiv_r r primorial in
  let r := mpz_abs r in
  mpz_add_ui r primorial_offset.

(** ** Byte arrays used as bitmaps *)

(** [a[k]] and [a[k] |= v] on the little-endian integer of the array. *)
Definition byte_get (a k : Z) : Z := Z.land (Z.shiftr a (8 * k)) 255.
Definition byte_or (a k v : Z) : Z := Z.lor a (Z.shiftl (wrap8 v) (8 * k)).

(** [a[n >> 3] & (1 << (n & 7))] as a truth value. *)
Definition bitmap_test (a n : Z) : bool :=
  negb (Z.land (byte_get a (Z.shiftr n 3)) (Z.shiftl 1 (Z.land n 7)) =? 0).
(** [a[n >> 3] |= (1 << (n & 7))] *)
Definition bitmap_set (a n : Z) : Z :=
  byte_or a (Z.shiftr n 3) (Z.shiftl 1 (Z.land n 7)).

(** [((uint64_t* ) a)[b]] on a little-endian machine. *)
Definition word64_get (a b : Z) : Z := Z.land (Z.shiftr a (64 * b)) (Z.ones 64).

(** ** [miningInit]: prime table, primorial, inverses, strata *)

(** Inner loop of the sieve of Eratosthenes:
    [for (nComposite = nFactor*nFactor; nComposite < sieveMax; nComposite += nFactor)]. *)
Fixpoint mark_composites (fuel : nat) (sieveMax nFactor nComposite vfComposite : Z)
  : option Z :=
  match fuel with
  | O => None
  | S fuel' =>
      if nComposite <? sieveMax then
        mark_composites fuel' sieveMax nFactor (wrap32 (nComposite + nFactor))
          (bitmap_set vfComposite nComposite)
      else Some vfComposite
  end.

(** Outer loop: [for (nFactor = 2; nFactor*nFactor < sieveMax; nFactor++)]. *)
Fixpoint sieve_factors (fuel : nat) (sieveMax nFactor vfComposite : Z) : option Z :=
  match fuel with
  | O => None
  | S fuel' =>
      if wrap32 (nFactor * nFactor) <? sieveMax then
        if bitmap_test vfComposite nFactor then
          sieve_factors fuel' sieveMax (wrap32 (nFactor + 1)) vfComposite
        else
          match mark_composites fuel' sieveMax nFactor
                  (wrap32 (nFactor * nFactor)) vfComposite with
          | None => None
          | Some vf => sieve_factors fuel' sieveMax (wrap32 (nFactor + 1)) vf
          end
      else Some vfComposite
  end.

(** [for (n = 2; n < sieveMax; n++) if (!composite) primes.push_back(n)]. *)
Fixpoint collect_primes (fuel : nat) (sieveMax n vfComposite : Z) (primes : list Z)
  : option (list Z) :=
  match fuel with
  | O => None
  | S fuel' =>
      if n <? sieveMax then
        collect_primes fuel' sieveMax (wrap32 (n + 1)) vfComposite
          (if bitmap_test vfComposite n then primes else primes ++ [n])
      else Some primes
  end.

Definition generate_primes (fuel : nat) (sieveMax : Z) : option (list Z) :=
  match sieve_factors fuel sieveMax 2 0 with
  | None => None
  | Some vfComposite => collect_primes fuel sieveMax 2 vfComposite []
  end.

(** [mpz_init_set_ui(primorial, primes[0]); for (i = 1; i < primorialNumber; i++) ...] *)
Definition compute_primorial (primes : list Z) (primorialNumber : Z) : Z :=
  foldl (fun P i => mpz_mul_ui P (zth primes i))
        (zth primes 0) (seqZ 1 (primorialNumber - 1)).

(** [inverts.resize(nPrimes); for (i = 5; i < nPrimes; i++) inverts[i] = P^-1 mod primes[i]].
    Where no inverse exists GMP leaves the result unspecified; the model
    stores [Z.invmod]'s value there. *)
Definition compute_inverts (primes : list Z) (P : Z) : list Z :=
  let nPrimes := Z.of_nat (length primes) in
  foldl (fun inv i => <[Z.to_nat i := wrap32 (mpz_invert P (zth primes i))]> inv)
        (replicate (length primes) 0) (seqZ 5 (nPrimes - 5)).

(** Number of indices [i] in [from, nPrimes) whose prime satisfies [test]. *)
Definition count_primes (primes : list Z) (from : Z) (test : Z -> bool) : Z :=
  foldl (fun c i => if test (zth primes i) then c + 1 else c)
        0 (seqZ from (Z.of_nat (length primes) - from)).

(** The tables and counters that [miningInit] leaves behind. *)
Record Miner := {
  primorialNumber : Z;
  threads : Z;
  sieveWorkers : Z;
  primes : list Z;
  inverts : list Z;
  primorial : Z;
  nPrimes : Z;
  entriesPerSegment : Z;
  primeTestStoreOffsetsSize : Z;
  n_dense : Z;
  n_sparse : Z
}.

(** [entriesPerSegment] is derived in floating point by the source; it is
    taken here as the value [eps] that computation produced. *)
Definition miningInit_tables (primes : list Z) (primorialNumber threads eps : Z) : Miner :=
  let P := compute_primorial primes primorialNumber in
  {| primorialNumber := primorialNumber;
     threads := threads;
     sieveWorkers := Z.min (Z.max 1 (Z.quot threads 4)) 8;
     primes := primes;
     inverts := compute_inverts primes P;
     primorial := P;
     nPrimes := Z.of_nat (length primes);
     entriesPerSegment := eps;
     primeTestStoreOffsetsSize := count_primes primes 5 (fun p => p <? max_increments);
     n_dense := count_primes primes primorialNumber (fun p => p <? denseLimit);
     n_sparse := count_primes primes primorialNumber
                   (fun p => negb (p <? denseLimit) && (p <? max_increments)) |}.



(** ** Outcomes of the imperative code *)

(** Ways a run can end other than by returning: [exit(-1)], a failed
    [assert], an access outside an allocation, or a loop still running when
    the model's fuel is spent. *)
Inductive failure := ExitCalled | AssertFailed | OutOfBounds | OutOfFuel.

Inductive result (A : Type) :=
| Ok (a : A)
| Err (e : failure).
Arguments Ok {A} a.
Arguments Err {A} e.

#[global] Instance result_ret : MRet result := fun A a => Ok a.
#[global] Instance result_bind : MBind result := fun A B k r =>
  match r with
  | Ok a => k a
  | Err e => Err e
  end.

(** [for (i = a; i < b; i++) body], on the index list [seqZ a (b - a)]. *)
Fixpoint forM {S : Type} (body : Z -> S -> result S) (idx : list Z) (s : S)
  : result S :=
  match idx with
  | [] => Ok s
  | i :: rest => s' ← body i s; forM body rest s'
  end.

(** ** Work items *)

Inductive riecoinPrimeTestWork :=
| testWork (loop n_indexes : Z) (indexes : list Z)
| modWork (start end_ : Z)
| sieveWork (start end_ sieveId : Z).

(** The candidate indices a [TYPE_CHECK] job carries. *)
Definition job_indexes (w : riecoinPrimeTestWork) : list Z :=
  match w with
  | testWork _ n idx => take (Z.to_nat n) idx
  | _ => []
  end.

(** ** Segment buckets: [put_offsets_in_segments] *)

Record Buckets := {
  segment_counts : list Z;        (* [maxiter] fill counts *)
  segment_hits : list (list Z)    (* [maxiter] arrays of [entriesPerSegment] *)
}.

(** One iteration of the loop of [put_offsets_in_segments]. *)
Definition put_offset (eps : Z) (index : Z) (B : Buckets) : result Buckets :=
  let segment := Z.shiftr index riecoin_sieveBits in
  match segment_counts B !! Z.to_nat segment with
  | None => Err OutOfBounds
  | Some sc =>
      if sc >=? eps then Err ExitCalled
      else
        match segment_hits B !! Z.to_nat segment with
        | None => Err OutOfBounds
        | Some row =>
            if (Z.to_nat sc <? length row)%nat then
              Ok {| segment_counts :=
                      <[Z.to_nat segment := wrap32 (sc + 1)]> (segment_counts B);
                    segment_hits :=
                      <[Z.to_nat segment :=
                          <[Z.to_nat sc :=
                              wrap32 (index - wrap32 (riecoin_sieveSize * segment))]> row]>
                        (segment_hits B) |}
            else Err OutOfBounds
        end
  end.

Definition put_offsets_in_segments (eps : Z) (B : Buckets)
    (offsets : list Z) (n_offsets : Z) : result Buckets :=
  forM (fun i B =>
          match offsets !! Z.to_nat i with
          | None => Err OutOfBounds
          | Some index => put_offset eps index B
          end)
       (seqZ 0 n_offsets) B.

(** The filled part of bucket [k]. *)
Definition bucket (B : Buckets) (k : Z) : list Z :=
  match segment_counts B !! Z.to_nat k, segment_hits B !! Z.to_nat k with
  | Some c, Some row => take (Z.to_nat c) row
  | _, _ => []
  end.

(** The allocation [miningProcess] makes and the fill invariant. *)
Record buckets_wf (eps : Z) (B : Buckets) : Prop := {
  wf_eps : 0 <= eps < 2 ^ 32;
  wf_counts_len : length (segment_counts B) = Z.to_nat maxiter;
  wf_hits_len : length (segment_hits B) = Z.to_nat maxiter;
  wf_rows : forall k row, segment_hits B !! k = Some row -> length row = Z.to_nat eps;
  wf_fill : forall k c, segment_counts B !! k = Some c -> 0 <= c <= eps
}.

(** The entries of a flush that belong to bucket [k], as stored. *)
Definition flushed_to (k : Z) (flushed : list Z) : list Z :=
  map (fun x => x mod riecoin_sieveSize)
      (filter (fun x => Z.shiftr x riecoin_sieveBits = k) flushed).

(** ** The master's [TYPE_MOD] dispatch loop *)

(** [for (base = primeIndex; base < nPrimes; base += incr)] *)
Fixpoint dispatch_mod_loop (fuel : nat) (nPrimes incr base : Z)
    (queue : list riecoinPrimeTestWork) (n_workers : Z)
  : result (list riecoinPrimeTestWork * Z) :=
  match fuel with
  | O => Err OutOfFuel
  | S fuel' =>
      if base <? nPrimes then
        let lim := Z.min nPrimes (wrap32 (base + incr)) in
        dispatch_mod_loop fuel' nPrimes incr (wrap32 (base + incr))
          (queue ++ [modWork base lim]) (n_workers + 1)
      else Ok (queue, n_workers)
  end.

(** The jobs pushed and the number of [workerDoneQueue] tokens awaited. *)
Definition dispatch_mod (fuel : nat) (M : Miner)
  : result (list riecoinPrimeTestWork * Z) :=
  let incr := nPrimes M / 128 in
  dispatch_mod_loop fuel (nPrimes M) incr (primorialNumber M) [] 0.

(** Index [i] lies in the range of the job. *)
Definition in_mod_job (i : Z) (w : riecoinPrimeTestWork) : Prop :=
  match w with
  | modWork s e => s <= i < e
  | _ => False
  end.

(** ** Shared mutable state *)

(** The offsets table [offsets[i][f]] is a map from prime index and bias to
    a [uint32_t]; the allocation [miningProcess] makes for it is not
    modelled. *)
Record Globals := {
  offsets : Z -> Z -> Z;
  buckets : Buckets
}.

(** [a[i][f] = v] *)
Definition set_offset (o : Z -> Z -> Z) (i f v : Z) : Z -> Z -> Z :=
  fun i' f' => if (i' =? i) && (f' =? f) then v else o i' f'.

(** A fresh array of [n] words; the code writes every cell before reading it. *)
Definition new_array (n : Z) : list Z := replicate (Z.to_nat n) 0.

(** ** Offset computation: [update_remainders] *)

(** Loop state of [update_remainders]: the running [remainder], the globals,
    the thread-local [offset_stack] and [n_offsets]. *)
Definition mod_state : Type := Z * Globals * list Z * Z.

Section UpdateRemainders.
Variable M : Miner.

(** Body of [for (f = 0; f < 6; f++)] for the prime [p] at index [i]. *)
Definition update_bias (i p invert : Z) (is_once_only : bool) (f : Z)
    (s : mod_state) : result mod_state :=
  let '(remainder, G, offset_stack, n_offsets) := s in
  let remainder := wrap32 (remainder + zth primeTupleOffset f) in
  let remainder := if remainder >? p then wrap32 (remainder - p) else remainder in
  let pa := wrap32 (p - remainder) in
  let index := wrap64 (pa * invert) in
  let index := index mod p in
  if negb is_once_only then
    Ok (remainder,
        {| offsets := set_offset (offsets G) i f (wrap32 index);
           buckets := buckets G |},
        offset_stack, n_offsets)
  else if index <? max_increments then
    if (0 <=? n_offsets) && (Z.to_nat n_offsets <? length offset_stack)%nat then
      let offset_stack := <[Z.to_nat n_offsets := wrap32 index]> offset_stack in
      let n_offsets := n_offsets + 1 in
      if n_offsets >=? OFFSET_STACK_SIZE then
        B ← put_offsets_in_segments (entriesPerSegment M) (buckets G)
              offset_stack n_offsets;
        Ok (remainder, {| offsets := offsets G; buckets := B |}, offset_stack, 0)
      else Ok (remainder, G, offset_stack, n_offsets)
    else Err OutOfBounds
  else Ok (remainder, G, offset_stack, n_offsets).

(** Body of [for (i = start_i; i < end_i; i++)]. *)
Definition update_prime (tar : Z) (i : Z) (s : Globals * list Z * Z)
  : result (Globals * list Z * Z) :=
  let '(G, offset_stack, n_offsets) := s in
  let p := zth (primes M) i in
  let remainder := wrap32 (mpz_tdiv_ui tar p) in
  let is_once_only := p >=? max_increments in
  let invert := zth (inverts M) i in
  '(_, G, offset_stack, n_offsets) ←
    forM (update_bias i p invert is_once_only) (seqZ 0 6)
         (remainder, G, offset_stack, n_offsets);
  Ok (G, offset_stack, n_offsets).

Definition update_remainders (z_verify_target z_verify_remainderPrimorial : Z)
    (offset_stack : list Z) (start_i end_i : Z) (G : Globals)
  : result (Globals * list Z) :=
  let tar := mpz_add z_verify_target z_verify_remainderPrimorial in
  '(G, offset_stack, n_offsets) ←
    forM (update_prime tar) (seqZ start_i (end_i - start_i)) (G, offset_stack, 0);
  if n_offsets >? 0 then
    B ← put_offsets_in_segments (entriesPerSegment M) (buckets G)
          offset_stack n_offsets;
    Ok ({| offsets := offsets G; buckets := B |}, offset_stack)
  else Ok (G, offset_stack).
End UpdateRemainders.

(** Cumulative bias of constellation member [f]: the sum of
    [primeTupleOffset[0..f]]. *)
Definition cumulativeBias (f : Z) : Z :=
  foldr Z.add 0 (take (Z.to_nat (f + 1)) primeTupleOffset).

(** ** The prefetch ring: [init_pending], [add_to_pending] *)

Definition init_pending (pending : list Z) : list Z :=
  foldl (fun pd i => <[Z.to_nat i := 0]> pd) pending (seqZ 0 PENDING_SIZE).

(** [if (old != 0) { assert(old < riecoin_sieveSize); sieve[old >> 3] |= ... }] *)
Definition mark_pending (sieve old : Z) : result Z :=
  if old =? 0 then Ok sieve
  else if old <? riecoin_sieveSize then Ok (bitmap_set sieve old)
  else Err AssertFailed.

Definition add_to_pending (sieve : Z) (pending : list Z) (pos ent : Z)
  : result (Z * list Z * Z) :=
  match pending !! Z.to_nat pos with
  | None => Err OutOfBounds
  | Some old =>
      sieve ← mark_pending sieve old;
      Ok (sieve, <[Z.to_nat pos := ent]> pending, Z.land (wrap32 (pos + 1)) 15)
  end.

(** The closing loop [for (i = 0; i < PENDING_SIZE; i++)] that empties the ring. *)
Definition flush_pending (sieve : Z) (pending : list Z) : result Z :=
  forM (fun i sieve =>
          match pending !! Z.to_nat i with
          | None => Err OutOfBounds
          | Some old => mark_pending sieve old
          end)
       (seqZ 0 PENDING_SIZE) sieve.

(** ** Sparse stratum: [process_sieve] *)

(** [while (offsets[pno][f] < riecoin_sieveSize) { add_to_pending(...); offsets[pno][f] += p; }]
    on the cell's value [off]. *)
Fixpoint sieve_while_pending (fuel : nat) (p off : Z) (sieve : Z)
    (pending : list Z) (pos : Z) : result (Z * list Z * Z * Z) :=
  match fuel with
  | O => Err OutOfFuel
  | S fuel' =>
      if off <? riecoin_sieveSize then
        '(sieve, pending, pos) ← add_to_pending sieve pending pos off;
        sieve_while_pending fuel' p (wrap32 (off + p)) sieve pending pos
      else Ok (sieve, pending, pos, off)
  end.

Section Sieve.
Variable M : Miner.
Variable startingPrimeIndex : Z.
Variable fuel : nat.

Definition process_sieve_bias (pno p : Z) (f : Z)
    (s : Z * list Z * Z * (Z -> Z -> Z)) : result (Z * list Z * Z * (Z -> Z -> Z)) :=
  let '(sieve, pending, pos, o) := s in
  '(sieve, pending, pos, off) ←
    sieve_while_pending fuel p (o pno f) sieve pending pos;
  Ok (sieve, pending, pos, set_offset o pno f (wrap32 (off - riecoin_sieveSize))).

Definition process_sieve_prime (i : Z) (s : Z * list Z * Z * (Z -> Z -> Z))
  : result (Z * list Z * Z * (Z -> Z -> Z)) :=
  let pno := wrap32 (i + startingPrimeIndex) in
  let p := zth (primes M) pno in
  forM (process_sieve_bias pno p) (seqZ 0 6) s.

Definition process_sieve (sieve : Z) (o : Z -> Z -> Z) (start_i end_i : Z)
  : result (Z * (Z -> Z -> Z)) :=
  let pending := init_pending (new_array PENDING_SIZE) in
  let pending_pos := 0 in
  '(sieve, pending, _, o) ←
    forM process_sieve_prime (seqZ start_i (end_i - start_i))
         (sieve, pending, pending_pos, o);
  sieve ← flush_pending sieve pending;
  Ok (sieve, o).

(** The loop without a ring, as the dense stratum runs it:
    [while (offsets[pno][f] < riecoin_sieveSize) { sieve[..] |= ..; offsets[pno][f] += p; }]
    (its [assert] repeats the loop condition). *)
Fixpoint sieve_while_direct (fuel' : nat) (p off sieve : Z) : result (Z * Z) :=
  match fuel' with
  | O => Err OutOfFuel
  | S fuel'' =>
      if off <? riecoin_sieveSize then
        sieve_while_direct fuel'' p (wrap32 (off + p)) (bitmap_set sieve off)
      else Ok (sieve, off)
  end.

Definition naive_sieve_bias (pno p : Z) (f : Z) (s : Z * (Z -> Z -> Z))
  : result (Z * (Z -> Z -> Z)) :=
  let '(sieve, o) := s in
  '(sieve, off) ← sieve_while_direct fuel p (o pno f) sieve;
  Ok (sieve, set_offset o pno f (wrap32 (off - riecoin_sieveSize))).

Definition naive_sieve_prime (i : Z) (s : Z * (Z -> Z -> Z))
  : result (Z * (Z -> Z -> Z)) :=
  let pno := wrap32 (i + startingPrimeIndex) in
  let p := zth (primes M) pno in
  forM (naive_sieve_bias pno p) (seqZ 0 6) s.

(** Reference sieve for [process_sieve]: for each prime and bias the
    bit of every offset below [riecoin_sieveSize] is set directly. *)
Definition naive_sieve (sieve : Z) (o : Z -> Z -> Z) (start_i end_i : Z)
  : result (Z * (Z -> Z -> Z)) :=
  forM naive_sieve_prime (seqZ start_i (end_i - start_i)) (sieve, o).

(** ** Dense stratum, inline in [miningProcess] *)

(** [if (indexes[j] < indexes[i]) std::swap(indexes[i], indexes[j])] *)
Definition swap_if_less (a : Z -> Z) (i j : Z) : Z -> Z :=
  if a j <? a i then
    fun k => if k =? i then a j else if k =? j then a i else a k
  else a.

Definition silly_sort_indexes (a : Z -> Z) : Z -> Z :=
  foldl (fun a i => foldl (fun a j => swap_if_less a i j) a (seqZ (i + 1) (6 - (i + 1))))
        a (seqZ 0 5).

(** [silly_sort_indexes(offsets[pno])] *)
Definition sort_offsets (o : Z -> Z -> Z) (pno : Z) : Z -> Z -> Z :=
  let sorted := silly_sort_indexes (o pno) in
  fun i f => if i =? pno then sorted f else o i f.

Definition dense_sieve_bias (pno p : Z) (f : Z) (s : Z * (Z -> Z -> Z))
  : result (Z * (Z -> Z -> Z)) :=
  let '(sieve, o) := s in
  '(sieve, off) ← sieve_while_direct fuel p (o pno f) sieve;
  Ok (sieve, set_offset o pno f (wrap32 (off - riecoin_sieveSize))).

Definition dense_sieve_prime (i : Z) (s : Z * (Z -> Z -> Z))
  : result (Z * (Z -> Z -> Z)) :=
  let '(sieve, o) := s in
  let pno := wrap32 (i + startingPrimeIndex) in
  let o := sort_offsets o pno in
  let p := zth (primes M) pno in
  forM (dense_sieve_bias pno p) (seqZ 0 6) (sieve, o).

(** [for (i = 0; i < n_dense; i++)] on the zeroed main bitmap. *)
Definition dense_sieve (sieve : Z) (o : Z -> Z -> Z) : result (Z * (Z -> Z -> Z)) :=
  forM dense_sieve_prime (seqZ 0 (n_dense M)) (sieve, o).
End Sieve.

(** ** One iteration of the master loop of [miningProcess] *)

(** [for (base = n_dense; base < n_dense + n_sparse; base += incr)], pushing
    [TYPE_SIEVE] jobs to the front of the queue. *)
Fixpoint dispatch_sieve_loop (fuel : nat) (n_dense n_sparse sieveWorkers incr base : Z)
    (which_sieve : Z) (queue : list riecoinPrimeTestWork) (n_workers : Z)
  : result (list riecoinPrimeTestWork * Z) :=
  match fuel with
  | O => Err OutOfFuel
  | S fuel' =>
      let total := wrap32 (n_dense + n_sparse) in
      if base <? total then
        let lim := Z.min total (wrap32 (base + incr)) in
        let lim := if wrap32 (lim + 1000) >? total then total else lim in
        let queue := sieveWork base lim which_sieve :: queue in
        let which_sieve := Z.rem (which_sieve + 1) sieveWorkers in
        let n_workers := n_workers + 1 in
        if wrap32 (lim + 1000) >? total then Ok (queue, n_workers)
        else dispatch_sieve_loop fuel' n_dense n_sparse sieveWorkers incr
               (wrap32 (base + incr)) which_sieve queue n_workers
      else Ok (queue, n_workers)
  end.

Definition dispatch_sieve (fuel : nat) (M : Miner)
  : result (list riecoinPrimeTestWork * Z) :=
  let incr := wrap32 (n_sparse M / sieveWorkers M + 1) in
  dispatch_sieve_loop fuel (n_dense M) (n_sparse M) (sieveWorkers M) incr
    (n_dense M) 0 [] 0.

(** [((uint64_t* ) sieve)[i] |= w] *)
Definition word64_or (a i w : Z) : Z := Z.lor a (Z.shiftl (wrap64 w) (64 * i)).

(** The merge loop: every word of every auxiliary bitmap is or-ed into the
    main bitmap. *)
Definition merge_sieves (sieve : Z) (sieves : list Z) : Z :=
  foldl (fun sieve i =>
           foldl (fun sieve aux => word64_or sieve i (word64_get aux i)) sieve sieves)
        sieve (seqZ 0 riecoin_sieveWords).

(** Applying the once-only bucket of iteration [loop] through a ring. *)
Definition apply_once_only (sieve : Z) (B : Buckets) (loop : Z) : result Z :=
  let pending := init_pending (new_array PENDING_SIZE) in
  let pending_pos := 0 in
  match segment_counts B !! Z.to_nat loop, segment_hits B !! Z.to_nat loop with
  | Some count, Some row =>
      '(sieve, pending, _) ←
        forM (fun i '(sieve, pending, pos) =>
                match row !! Z.to_nat i with
                | None => Err OutOfBounds
                | Some ent => add_to_pending sieve pending pos ent
                end)
             (seqZ 0 count) (sieve, pending, pending_pos);
      flush_pending sieve pending
  | _, _ => Err OutOfBounds
  end.

(** ** Candidate extraction *)

(** [__builtin_clzll] on a non-zero 64-bit word. *)
Definition clzll (sb : Z) : Z := 63 - Z.log2 sb.

(** The job under construction, the jobs handed to
    [verifyWorkQueue.push_back] so far, the number of reads made of
    [monitorCurrentBlockHeight], and [do_reset]. *)
Record Extract := {
  w_n_indexes : Z;
  w_indexes : list Z;
  pushed : list riecoinPrimeTestWork;
  clock : nat;
  do_reset : bool
}.

Section Extraction.
(** [monitorCurrentBlockHeight] as seen by successive reads, and
    [block.height]. *)
Variable monitor : nat -> Z.
Variable height : Z.

(** [while (sb != 0)] for word [b]. *)
Fixpoint extract_word (fuel : nat) (loop b sb sb_process_count : Z) (E : Extract)
  : result Extract :=
  match fuel with
  | O => Err OutOfFuel
  | S fuel' =>
      if sb =? 0 then Ok E
      else
        let sb_process_count := sb_process_count + 1 in
        if sb_process_count >? 65 then Err ExitCalled
        else
          let highsb := clzll sb in
          let i := wrap32 (wrap32 (b * 64) + wrap32 (63 - highsb)) in
          let sb := Z.land sb (wrap64 (Z.lnot (Z.shiftl 1 (wrap32 (63 - highsb))))) in
          if (Z.to_nat (w_n_indexes E) <? length (w_indexes E))%nat then
            let indexes := <[Z.to_nat (w_n_indexes E) := i]> (w_indexes E) in
            let n_indexes := w_n_indexes E + 1 in
            let full := n_indexes =? WORK_INDEXES in
            let pushed' :=
              if full then pushed E ++ [testWork loop n_indexes indexes]
              else pushed E in
            let n_indexes := if full then 0 else n_indexes in
            let changed := negb (height =? monitor (clock E)) in
            let E' := {| w_n_indexes := n_indexes; w_indexes := indexes;
                         pushed := pushed'; clock := S (clock E);
                         do_reset := changed |} in
            if changed then Ok E'
            else extract_word fuel' loop b sb sb_process_count E'
          else Err OutOfBounds
  end.

(** [for (b = 0; !do_reset && b < riecoin_sieveWords; b++)] and the final
    push of a partly filled job. *)
Definition extract_candidates (sieve : Z) (loop : Z) (pushed0 : list riecoinPrimeTestWork)
    (clock0 : nat) : result Extract :=
  E ← forM (fun b E =>
              if do_reset E then Ok E
              else
                let sb := wrap64 (Z.lnot (word64_get sieve b)) in
                extract_word 66 loop b sb 0 E)
           (seqZ 0 riecoin_sieveWords)
           {| w_n_indexes := 0; w_indexes := new_array WORK_INDEXES;
              pushed := pushed0; clock := clock0; do_reset := false |};
  if w_n_indexes E >? 0 then
    Ok {| w_n_indexes := 0; w_indexes := w_indexes E;
          pushed := pushed E ++ [testWork loop (w_n_indexes E) (w_indexes E)];
          clock := clock E; do_reset := do_reset E |}
  else Ok E.
End Extraction.

(** ** Constellation verification: the [TYPE_CHECK] branch of [verify_thread] *)

(** The Fermat test [2^(n-1) mod n == 1]. *)
Definition fermat (z_temp : Z) : bool :=
  let z_ft_n := mpz_sub_ui z_temp 1 in
  let z_ft_r := mpz_powm 2 z_ft_n z_temp in
  z_ft_r =? 1.

(** [for (i = 1; i < 6; i++)] with its [break]. *)
Fixpoint fermat_chain (idx : list Z) (z_temp nPrimes : Z) : Z * Z :=
  match idx with
  | [] => (z_temp, nPrimes)
  | i :: rest =>
      let z_temp := mpz_add_ui z_temp (zth primeTupleOffset i) in
      if fermat z_temp then fermat_chain rest z_temp (wrap8 (nPrimes + 1))
      else (z_temp, nPrimes)
  end.

(** [*(uint64_t* ) (nOffset + d*8) = limb] on a little-endian machine. *)
Definition store64 (bytes : list Z) (at_ : Z) (limb : Z) : result (list Z) :=
  forM (fun j bytes =>
          if (Z.to_nat (at_ + j) <? length bytes)%nat then
            Ok (<[Z.to_nat (at_ + j) := Z.land (Z.shiftr limb (8 * j)) 255]> bytes)
          else Err OutOfBounds)
       (seqZ 0 8) bytes.

(** The 32-byte share offset built from [z_temp2]. *)
Definition share_bytes (z_temp2 : Z) : result (list Z) :=
  let nOffset := replicate 32 0 in
  forM (fun d nOffset => store64 nOffset (d * 8) (mp_d z_temp2 d))
       (seqZ 0 (wrap32 (Z.min (32 / 8) (mp_size z_temp2)))) nOffset.

Section Verify.
Variable M : Miner.
Variables z_verify_target z_verify_remainderPrimorial : Z.
(** [arguments.tuples] *)
Variable tuples : Z.

(** The number tested for candidate [index] of iteration [loop]. *)
Definition candidate_value (loop index : Z) : Z :=
  let z_temp := mpz_mul_ui (primorial M) (wrap32 (loop * riecoin_sieveSize)) in
  let z_temp2 := mpz_mul_ui (primorial M) index in
  let z_temp := mpz_add z_temp z_temp2 in
  let z_temp := mpz_add z_temp z_verify_remainderPrimorial in
  mpz_add z_temp z_verify_target.

(** Body of [for (idx = 0; idx < n_indexes; idx++)]: the calls to
    [submitWork] are collected as pairs of offset bytes and prime count. *)
Definition check_candidate (loop index : Z) (submitted : list (list Z * Z))
  : result (list (list Z * Z)) :=
  let z_temp := candidate_value loop index in
  let z_temp2 := mpz_sub z_temp z_verify_target in
  if negb (fermat z_temp) then Ok submitted
  else
    let nPrimes := 1 in
    let '(_, nPrimes) := fermat_chain (seqZ 1 5) z_temp nPrimes in
    if nPrimes <? tuples then Ok submitted
    else
      nOffset ← share_bytes z_temp2;
      Ok (submitted ++ [(nOffset, nPrimes)]).

Definition verify_check (loop n_indexes : Z) (indexes : list Z)
    (submitted : list (list Z * Z)) : result (list (list Z * Z)) :=
  forM (fun idx submitted =>
          match indexes !! Z.to_nat idx with
          | None => Err OutOfBounds
          | Some index => check_candidate loop index submitted
          end)
       (seqZ 0 n_indexes) submitted.
End Verify.

(** The integer a little-endian byte string denotes. *)
Definition readLE (bytes : list Z) : Z := foldr (fun b acc => b + 256 * acc) 0 bytes.

(** ** The master: [miningProcess] for one block *)

Section Master.
Variable M : Miner.
Variable sha256 : list Z -> list Z.
Variable monitor : nat -> Z.
Variable fuel : nat.

(** Workers running the [TYPE_MOD] jobs, taken in queue order; each job
    writes its own rows of [offsets] and fills the buckets under
    [bucket_lock]. *)
Definition run_mod_jobs (z_target z_remainderPrimorial : Z)
    (jobs : list riecoinPrimeTestWork) (s : Globals * list Z)
  : result (Globals * list Z) :=
  foldl (fun r job =>
           '(G, offset_stack) ← r;
           match job with
           | modWork start_i end_i =>
               update_remainders M z_target z_remainderPrimorial
                 offset_stack start_i end_i G
           | _ => Ok (G, offset_stack)
           end)
        (Ok s) jobs.

(** Workers running the [TYPE_SIEVE] jobs of one iteration, each on the
    auxiliary bitmap named by its [sieveId]. *)
Definition run_sieve_jobs (jobs : list riecoinPrimeTestWork)
    (s : list Z * (Z -> Z -> Z)) : result (list Z * (Z -> Z -> Z)) :=
  foldl (fun r job =>
           '(sieves, o) ← r;
           match job with
           | sieveWork start_i end_i sieveId =>
               match sieves !! Z.to_nat sieveId with
               | None => Err OutOfBounds
               | Some aux =>
                   '(aux, o) ← process_sieve M (primorialNumber M) fuel
                                aux o start_i end_i;
                   Ok (<[Z.to_nat sieveId := aux]> sieves, o)
               end
           | _ => Ok (sieves, o)
           end)
        (Ok s) jobs.

(** The merged bitmap of iteration [loop] and the offsets it leaves. *)
Definition sieve_iteration (B : Buckets) (loop : Z) (o : Z -> Z -> Z)
  : result (Z * (Z -> Z -> Z)) :=
  let sieves := replicate (Z.to_nat (sieveWorkers M)) 0 in
  '(jobs, n_workers) ← dispatch_sieve fuel M;
  let sieve := 0 in
  '(sieve, o) ← dense_sieve M (primorialNumber M) fuel sieve o;
  '(sieves, o) ← run_sieve_jobs jobs (sieves, o);
  let sieve := merge_sieves sieve sieves in
  sieve ← apply_once_only sieve B loop;
  Ok (sieve, o).

(** [for (loop = 0; loop < maxiter; loop++)], with its [break] on a
    changed block height.  The state is the offsets table, the jobs pushed
    so far and the number of reads of the height monitor. *)
Fixpoint mining_loops (height : Z) (B : Buckets) (loops : list Z)
    (s : (Z -> Z -> Z) * list riecoinPrimeTestWork * nat)
  : result ((Z -> Z -> Z) * list riecoinPrimeTestWork * nat) :=
  match loops with
  | [] => Ok s
  | loop :: rest =>
      let '(o, pushed0, clock0) := s in
      if negb (height =? monitor clock0) then Ok (o, pushed0, S clock0)
      else
        '(sieve, o) ← sieve_iteration B loop o;
        E ← extract_candidates monitor height sieve loop pushed0 (S clock0);
        mining_loops height B rest (o, pushed E, clock E)
  end.

(** [miningProcess] as run by the master for one block; returns the
    globals it leaves and the [TYPE_CHECK] jobs it pushed. *)
Definition miningProcess (block : list Z) (targetCompact height : Z)
    (G : Globals) (offset_stack : list Z)
  : result (Globals * list riecoinPrimeTestWork) :=
  let z_target := getTargetFromBlock sha256 block targetCompact in
  let z_remainderPrimorial := remainderPrimorial z_target (primorial M) in
  let counts :=
    foldl (fun c i => <[Z.to_nat i := 0]> c)
          (segment_counts (buckets G)) (seqZ 0 maxiter) in
  let G := {| offsets := offsets G;
              buckets := {| segment_counts := counts;
                            segment_hits := segment_hits (buckets G) |} |} in
  '(jobs, n_workers) ← dispatch_mod fuel M;
  '(G, _) ← run_mod_jobs z_target z_remainderPrimorial jobs (G, offset_stack);
  '(o, pushed, _) ←
    mining_loops height (buckets G) (seqZ 0 maxiter) (offsets G, [], O);
  Ok ({| offsets := o; buckets := buckets G |}, pushed).
End Master.

(** Index [i] is covered by exactly one job of the list. *)
Definition in_exactly_one (i : Z) (jobs : list riecoinPrimeTestWork) : Prop :=
  exists l1 w l2,
    jobs = l1 ++ w :: l2 /\ in_mod_job i w
    /\ Forall (fun w' => ~ in_mod_job i w') (l1 ++ l2).

(** ** What [miningInit] establishes *)

(** The prime table lists distinct primes in increasing order, each a
    [uint32_t]. *)
Record prime_table (primes : list Z) : Prop := {
  pt_prime : forall i, 0 <= i < Z.of_nat (length primes) -> Z.prime (zth primes i);
  pt_u32 : forall i, 0 <= i < Z.of_nat (length primes) -> zth primes i < 2 ^ 32;
  pt_sorted : forall i j, 0 <= i < j -> j < Z.of_nat (length primes) ->
              zth primes i < zth primes j
}.

(** The miner's tables were computed by [miningInit] from such a table, with
    a primorial of at least five and at most [nPrimes] primes. *)
Record initialised (M : Miner) : Prop := {
  init_tables : M = miningInit_tables (primes M) (primorialNumber M)
                      (threads M) (entriesPerSegment M);
  init_primes : prime_table (primes M);
  init_m : 5 <= primorialNumber M <= nPrimes M
}.

(** A checker for [prime_table], by trial division. *)
Definition is_prime_b (p : Z) : bool :=
  (1 <? p) && forallb (fun d => negb (p mod d =? 0)) (seqZ 2 (p - 2)).

Fixpoint increasing_b (l : list Z) : bool :=
  match l with
  | a :: (b :: _) as t => (a <? b) && increasing_b t
  | _ => true
  end.

Definition prime_table_b (primes : list Z) : bool :=
  forallb (fun p => is_prime_b p && (p <? 2 ^ 32)) primes && increasing_b primes.

(** Facts about the prime at a sieving index [i >= m]. *)
Record sieving_prime (M : Miner) (i : Z) : Prop := {
  sp_prime : Z.prime (zth (primes M) i);
  sp_lower : 7 <= zth (primes M) i;
  sp_upper : zth (primes M) i + 4 < 2 ^ 32;
  sp_invert : 0 <= zth (inverts M) i < zth (primes M) i;
  sp_inverse : (primorial M * zth (inverts M) i) mod zth (primes M) i = 1;
  sp_coprime : Z.coprime (primorial M) (zth (primes M) i)
}.


(** ** The values [update_remainders] computes, as functions *)

(** The running remainder after adding the increment of bias [f]. *)
Definition next_remainder (p r f : Z) : Z :=
  let r := wrap32 (r + zth primeTupleOffset f) in
  if r >? p then wrap32 (r - p) else r.

(** [index] for a remainder [r], as [update_bias] computes it. *)
Definition bias_index (p invert r : Z) : Z :=
  wrap64 (wrap32 (p - r) * invert) mod p.

(** The remainder after biases [0 .. f]. *)
Definition bias_remainder (M : Miner) (tar i f : Z) : Z :=
  let p := zth (primes M) i in
  foldl (next_remainder p) (wrap32 (mpz_tdiv_ui tar p)) (seqZ 0 (f + 1)).

(** The [index] computed for prime index [i] and bias [f]. *)
Definition offset_index (M : Miner) (tar i f : Z) : Z :=
  bias_index (zth (primes M) i) (zth (inverts M) i) (bias_remainder M tar i f).

(** The indices a once-only prime pushes on the offset stack, in order. *)
Definition once_only_hits (M : Miner) (tar i : Z) : list Z :=
  if zth (primes M) i >=? max_increments then
    filter (fun x => x < max_increments) (map (offset_index M tar i) (seqZ 0 6))
  else [].

(** All indices pushed while processing prime indices [start_i .. end_i). *)
Definition once_only_pushed (M : Miner) (tar start_i end_i : Z) : list Z :=
  concat (map (once_only_hits M tar) (seqZ start_i (end_i - start_i))).

(** The base of the search: [zTarget + zRemainderPrimorial]. *)
Definition search_base (z_target z_remainderPrimorial : Z) : Z :=
  z_target + z_remainderPrimorial.

(** Position [x] of iteration [loop] is a multiple of [p] at bias [f]:
    [base + (loop * sieveSize + x) * P + cumulativeBias f = 0 (mod p)]. *)
Definition hits (M : Miner) (base loop i f x : Z) : Prop :=
  (base + (loop * riecoin_sieveSize + x) * primorial M + cumulativeBias f)
    mod zth (primes M) i = 0.

(** Invariant of the offset stack while [update_remainders] runs from the
    buckets [B0]: the buckets and the unflushed stack together hold what
    was [pushed]. *)
Record stack_inv (eps : Z) (B0 : Buckets) (pushed : list Z)
    (B : Buckets) (offset_stack : list Z) (n_offsets : Z) : Prop := {
  si_wf : buckets_wf eps B;
  si_len : length offset_stack = Z.to_nat OFFSET_STACK_SIZE;
  si_n : 0 <= n_offsets < OFFSET_STACK_SIZE;
  si_range : Forall (fun x => 0 <= x < max_increments)
               (take (Z.to_nat n_offsets) offset_stack);
  si_content : forall k, 0 <= k ->
    bucket B k ++ flushed_to k (take (Z.to_nat n_offsets) offset_stack)
    = bucket B0 k ++ flushed_to k pushed;
  si_pushed : 0 < n_offsets -> pushed <> []
}.

(** The offsets table after [update_remainders] has processed
    [start_i .. end_i): resident primes get their six indices. *)
Definition offsets_after (M : Miner) (tar : Z) (o : Z -> Z -> Z)
    (start_i end_i : Z) : Z -> Z -> Z :=
  fun i f =>
    if (start_i <=? i) && (i <? end_i) && (zth (primes M) i <? max_increments)
       && (0 <=? f) && (f <? 6)
    then offset_index M tar i f
    else o i f.

(** The state the first call of [miningProcess] allocates: zeroed offsets,
    [maxiter] buckets of [entriesPerSegment] words, the worker's offset
    stack. *)
Definition fresh_buckets (eps : Z) : Buckets :=
  {| segment_counts := replicate (Z.to_nat maxiter) 0;
     segment_hits := replicate (Z.to_nat maxiter) (replicate (Z.to_nat eps) 0) |}.

Definition fresh_globals (eps : Z) : Globals :=
  {| offsets := fun _ _ => 0; buckets := fresh_buckets eps |}.

Definition fresh_stack : list Z := new_array OFFSET_STACK_SIZE.

(** ** What a sieve pass does, as functions *)

(** The loop of prime [p] started at offset [off] sets bit [j]. *)
Definition marks (p off j : Z) : bool :=
  (off <=? j) && (j <? riecoin_sieveSize) && ((j - off) mod p =? 0).

(** Number of iterations of that loop, and the offset it stores for the
    next segment. *)
Definition steps (p off : Z) : Z :=
  if off <? riecoin_sieveSize then (riecoin_sieveSize - 1 - off) / p + 1 else 0.
Definition advance (p off : Z) : Z := off + steps p off * p - riecoin_sieveSize.

(** Bit [j] is set by some prime index in [lo, hi) (relative to
    [startingPrimeIndex]) and some bias, for the offsets table [o]. *)
Definition marked_by (M : Miner) (startingPrimeIndex : Z) (o : Z -> Z -> Z)
    (lo hi j : Z) : bool :=
  existsb (fun i =>
             existsb (fun f => marks (zth (primes M) (i + startingPrimeIndex))
                                 (o (i + startingPrimeIndex) f) j)
                     (seqZ 0 6))
          (seqZ lo (hi - lo)).

(** The offsets table after a pass over the prime indices [lo, hi). *)
Definition advance_all (M : Miner) (startingPrimeIndex : Z) (o : Z -> Z -> Z)
    (lo hi : Z) : Z -> Z -> Z :=
  fun pno f =>
    if (lo + startingPrimeIndex <=? pno) && (pno <? hi + startingPrimeIndex)
       && (0 <=? f) && (f <? 6)
    then advance (zth (primes M) pno) (o pno f)
    else o pno f.

(** The state of a prefetch ring: sixteen slots, a position among them, and
    every slot holding a position of the segment. *)
Record ring_ok (pending : list Z) (pos : Z) : Prop := {
  ring_len : length pending = Z.to_nat PENDING_SIZE;
  ring_pos : 0 <= pos < PENDING_SIZE;
  ring_range : Forall (fun x => 0 <= x < riecoin_sieveSize) pending
}.

(** Bit [j] is set in the bitmap or waits, non-zero, in the ring. *)
Definition ring_view (sieve : Z) (pending : list Z) (j : Z) : bool :=
  Z.testbit sieve j || (negb (j =? 0) && existsb (Z.eqb j) pending).

(** What a pass needs of the primes it runs over and of the offsets table. *)
Definition pass_ready (M : Miner) (m : Z) (o : Z -> Z -> Z) (lo hi : Z) : Prop :=
  0 <= lo + m /\ hi + m <= 2 ^ 32
  /\ forall i, lo <= i < hi ->
       0 < zth (primes M) (i + m)
       /\ riecoin_sieveSize + zth (primes M) (i + m) <= 2 ^ 32
       /\ forall f, 0 <= f < 6 -> 0 <= o (i + m) f < 2 ^ 32.


(** The offsets table after a dense pass, which sorts the six offsets of
    each prime before advancing them. *)
Definition dense_advance_all (M : Miner) (startingPrimeIndex : Z) (o : Z -> Z -> Z)
    (lo hi : Z) : Z -> Z -> Z :=
  fun pno f =>
    if (lo + startingPrimeIndex <=? pno) && (pno <? hi + startingPrimeIndex)
       && (0 <=? f) && (f <? 6)
    then advance (zth (primes M) pno) (silly_sort_indexes (o pno) f)
    else o pno f.

(** Two six-element arrays hold the same values. *)
Definition same_values (a b : Z -> Z) : Prop :=
  (forall f, 0 <= f < 6 -> exists g, 0 <= g < 6 /\ b f = a g)
  /\ (forall g, 0 <= g < 6 -> exists f, 0 <= f < 6 /\ a g = b f).

(** Every offset of the prime indices [lo, hi) lies below its prime. *)
Definition offsets_bounded (M : Miner) (o : Z -> Z -> Z) (lo hi : Z) : Prop :=
  forall i f, lo <= i < hi -> 0 <= f < 6 -> 0 <= o i f < zth (primes M) i.

(** ** What extraction emits *)

(** The (iteration, index) pairs a job carries. *)
Definition job_entries (w : riecoinPrimeTestWork) : list (Z * Z) :=
  match w with
  | testWork loop n idx => map (pair loop) (take (Z.to_nat n) idx)
  | _ => []
  end.

(** Everything appended to a [TYPE_CHECK] job so far during iteration
    [loop]: the entries of the jobs pushed and those of the job being
    filled. *)
Definition emitted (loop : Z) (E : Extract) : list (Z * Z) :=
  concat (map job_entries (pushed E))
  ++ map (pair loop) (take (Z.to_nat (w_n_indexes E)) (w_indexes E)).

Record extract_ok (E : Extract) : Prop := {
  eo_len : length (w_indexes E) = Z.to_nat WORK_INDEXES;
  eo_n : 0 <= w_n_indexes E < WORK_INDEXES
}.

(** Byte [i] of the little-endian representation of [z]. *)
Definition le_byte (z i : Z) : Z := (z / 2 ^ (8 * i)) mod 256.

(** The 32-byte share buffer once its first [k] bytes are written. *)
Definition le_prefix (z k : Z) : list Z :=
  (fun i => if i <? k then le_byte z i else 0) <$> seqZ 0 32.

(** The Fermat test to base 2 as a congruence. *)
Definition fermat_passes (v : Z) : Prop := 2 ^ (v - 1) mod v = 1.

(** What [verify_thread] tests for candidate [j] of iteration [loop]. *)
Definition tested_number (M : Miner) (zt zr loop j : Z) : Z :=
  zt + zr + (loop * riecoin_sieveSize + j) * primorial M.

(** A call [submitWork(gwd, off, k)] made for candidate [j]. *)
Record share_ok (M : Miner) (zt zr tuples loop j : Z) (off : list Z) (k : Z)
  : Prop := {
  so_threshold : tuples <= k;
  so_count : 1 <= k <= 6;
  so_length : length off = 32%nat;
  so_bytes : Forall (fun b => 0 <= b < 256) off;
  so_offset : readLE off = (tested_number M zt zr loop j - zt) mod 2 ^ 256;
  so_chain : forall c, 0 <= c < k ->
               fermat_passes (tested_number M zt zr loop j + cumulativeBias c);
  so_stop : k < 6 ->
            ~ fermat_passes (tested_number M zt zr loop j + cumulativeBias k)
}.

(** ** The sieve across iterations *)

(** Prime indices whose offsets stay in the table: dense and sparse. *)
Definition resident (M : Miner) (i : Z) : Prop :=
  primorialNumber M <= i < primorialNumber M + n_dense M + n_sparse M.

(** The offsets table at the start of iteration [loop]: the six offsets of
    a resident prime lie below the prime, and they are the first multiples
    of the prime in the segment for the six biases, in some order. *)
Definition table_at (M : Miner) (base loop : Z) (o : Z -> Z -> Z) : Prop :=
  forall i, resident M i ->
    (forall g, 0 <= g < 6 -> 0 <= o i g < zth (primes M) i)
    /\ (forall f, 0 <= f < 6 -> exists g, 0 <= g < 6 /\ hits M base loop i f (o i g))
    /\ (forall g, 0 <= g < 6 -> exists f, 0 <= f < 6 /\ hits M base loop i f (o i g)).

(** The [TYPE_SIEVE] jobs in the queue, newest first, cut [lo, hi) into
    consecutive ranges, each with a valid bitmap number. *)
Inductive job_chain (sieveWorkers lo : Z) : Z -> list riecoinPrimeTestWork -> Prop :=
| chain_nil : job_chain sieveWorkers lo lo []
| chain_cons s e id jobs :
    job_chain sieveWorkers lo s jobs -> s <= e -> 0 <= id < sieveWorkers ->
    job_chain sieveWorkers lo e (sieveWork s e id :: jobs).

(** Some prime with index in [lo, hi) divides candidate [j] of iteration
    [loop] at some bias. *)
Definition hit_in (M : Miner) (base loop lo hi j : Z) : Prop :=
  exists i f, lo <= i < hi /\ 0 <= f < 6 /\ hits M base loop i f j.

(** Candidate [j] of iteration [loop] is left clear by the sieve: no dense
    prime divides it at any bias and, unless [j = 0], no sieved prime
    does. *)
Definition survives (M : Miner) (base loop j : Z) : Prop :=
  let m := primorialNumber M in
  ~ hit_in M base loop m (m + n_dense M) j
  /\ (j <> 0 -> ~ hit_in M base loop m (nPrimes M) j).

(** The buckets hold, for every iteration, the positions at which a
    once-only prime divides a candidate. *)
Definition buckets_hit (M : Miner) (base : Z) (B : Buckets) : Prop :=
  forall loop j, 0 <= loop < maxiter ->
    (In j (bucket B loop)
     <-> 0 <= j < riecoin_sieveSize
         /\ hit_in M base loop
              (primorialNumber M + n_dense M + n_sparse M) (nPrimes M) j).

(** The indices the [TYPE_MOD] jobs of a queue push on the offset stack. *)
Definition jobs_pushed (M : Miner) (tar : Z) (jobs : list riecoinPrimeTestWork)
  : list Z :=
  concat (map (fun job => match job with
                          | modWork s e => once_only_pushed M tar s e
                          | _ => []
                          end) jobs).

(** The bitmap a [TYPE_SIEVE] job works on. *)
Definition job_sieveId (w : riecoinPrimeTestWork) : Z :=
  match w with
  | sieveWork _ _ id => id
  | _ => -1
  end.

(** A faster checker for [prime_table]: trial division up to the square
    root. *)
Fixpoint no_divisor_from (n : nat) (p d : Z) : bool :=
  match n with
  | O => true
  | S n' => negb (p mod d =? 0) && no_divisor_from n' p (d + 1)
  end.

Definition is_prime_sqrt_b (p : Z) : bool :=
  (1 <? p) && no_divisor_from (Z.to_nat (Z.sqrt p - 1)) p 2.

Definition prime_table_sqrt_b (primes : list Z) : bool :=
  forallb (fun p => is_prime_sqrt_b p && (p <? 2 ^ 32)) primes && increasing_b primes.

(** ** What the search hands to the verifiers *)

(** Every index of every pushed [TYPE_CHECK] job is a position the sieve
    leaves clear. *)
Definition candidates_sound (M : Miner) (base : Z)
    (pushed : list riecoinPrimeTestWork) : Prop :=
  forall loop n idx j,
    In (testWork loop n idx) pushed ->
    In j (job_indexes (testWork loop n idx)) ->
    0 <= loop < maxiter /\ 0 <= j < riecoin_sieveSize /\ survives M base loop j.

(** Every position the sieve leaves clear, in every iteration, is in a
    pushed job. *)
Definition candidates_complete (M : Miner) (base : Z)
    (pushed : list riecoinPrimeTestWork) : Prop :=
  forall loop j,
    0 <= loop < maxiter -> 0 <= j < riecoin_sieveSize -> survives M base loop j ->
    exists n idx, In (testWork loop n idx) pushed
                  /\ In j (job_indexes (testWork loop n idx)).

(** The ways a run of [miningProcess] can end. *)
Definition search_outcome (M : Miner) (base : Z) (monitor : nat -> Z) (height : Z)
    (r : result (Globals * list riecoinPrimeTestWork)) : Prop :=
  match r with
  | Ok (_, pushed) =>
      candidates_sound M base pushed
      /\ ((forall t, monitor t = height) -> candidates_complete M base pushed)
  | Err ExitCalled =>
      exists i, primorialNumber M <= i < nPrimes M
                /\ max_increments <= zth (primes M) i
  | Err _ => False
  end.

(** A well-formed [TYPE_CHECK] job: an iteration below [maxIter] and
    between 1 and [WORK_INDEXES] indexes in an array of [WORK_INDEXES]
    [uint32_t] values. *)
Definition check_job_ok (w : riecoinPrimeTestWork) : Prop :=
  match w with
  | testWork loop n idx =>
      0 <= loop < maxiter /\ 0 < n <= WORK_INDEXES
      /\ length idx = Z.to_nat WORK_INDEXES
      /\ Forall (fun x => 0 <= x < 2 ^ 32) idx
  | _ => False
  end.

(** The extraction state between two candidates. *)
Record extract_inv (E : Extract) : Prop := {
  ei_len : length (w_indexes E) = Z.to_nat WORK_INDEXES;
  ei_n : 0 <= w_n_indexes E < WORK_INDEXES;
  ei_range : Forall (fun x => 0 <= x < 2 ^ 32) (w_indexes E);
  ei_pushed : Forall check_job_ok (pushed E)
}.
(** ** Concrete configurations used by the examples *)

(** The prime table [miningInit] builds for [sieveMax = 1000]. *)
Definition primes_1000 : list Z :=
  Eval vm_compute in default [] (generate_primes 1000 1000).

(** The miner for [sieveMax = 1000], four threads. *)
Definition miner_1000 : Miner := miningInit_tables primes_1000 40 4 105430021.

(** The table for [sieveMax = 500]: 95 primes, fewer than 128. *)
Definition primes_500 : list Z :=
  Eval vm_compute in default [] (generate_primes 500 500).
Definition miner_500 : Miner := miningInit_tables primes_500 40 4 93950188.


(** An arbitrary digest: the bytes 1 .. 32. *)
Definition digest_seq : list Z := seqZ 1 32.


(** A table with all three strata: the 168 primes below 1000 (128 of them
    dense), two sparse primes and one once-only prime above [2^29]. *)
Definition primes_mixed : list Z := primes_1000 ++ [16411; 16417; 536870923].
Definition miner_mixed : Miner := miningInit_tables primes_mixed 40 16 105443821.
(** * Properties *)

(** ** Constants *)

Lemma sieveSize_val : riecoin_sieveSize = 16777216.
Proof. reflexivity. Qed.

Lemma max_increments_val : max_increments = 536870912.
Proof. reflexivity. Qed.

Lemma maxiter_val : maxiter = 32.
Proof. reflexivity. Qed.

(** ** Target derivation *)

Lemma hash_value_from_bound powHash n i :
  0 <= hash_value_from powHash n i < 2 ^ Z.of_nat n.
Proof.
  revert i; induction n as [|n IH]; intros i.
  - simpl. lia.
  - cbn [hash_value_from]. specialize (IH (i + 1)).
    rewrite Nat2Z.inj_succ, Z.pow_succ_r by lia.
    destruct (hash_bit powHash i); lia.
Qed.

Lemma mp_d0_incr_even z : 0 <= z -> mp_d0_incr (z * 2) = z * 2 + 1.
Proof.
  intros Hz. unfold mp_d0_incr, mp_d, wrap64.
  rewrite Z.abs_eq by lia. rewrite Z.mul_0_r, Z.pow_0_r, Z.div_1_r.
  assert (H1 : (z * 2) mod 2 ^ 64 = 2 * (z mod 2 ^ 63)).
  { change (2 ^ 64) with (2 * 2 ^ 63).
    rewrite (Z.mul_comm z 2). rewrite Z.mul_mod_distr_l; lia. }
  rewrite H1.
  assert (0 <= z mod 2 ^ 63 < 2 ^ 63) by (apply Z.mod_pos_bound; lia).
  rewrite (Z.mod_small (2 * (z mod 2 ^ 63) + 1)); lia.
Qed.

Lemma target_hash_loop_eq powHash n i z :
  0 <= z ->
  target_hash_loop powHash n i z
  = z * 2 ^ Z.of_nat n + hash_value_from powHash n i.
Proof.
  revert i z; induction n as [|n IH]; intros i z Hz.
  - simpl. lia.
  - cbn [target_hash_loop hash_value_from]. unfold mpz_mul_2exp.
    rewrite Z.pow_1_r, Nat2Z.inj_succ, Z.pow_succ_r by lia.
    destruct (hash_bit powHash i).
    + rewrite mp_d0_incr_even by lia. rewrite IH by lia. lia.
    + rewrite IH by lia. lia.
Qed.

Lemma hash_value_bound powHash : 0 <= hash_value powHash < 2 ^ 256.
Proof. apply (hash_value_from_bound powHash 256 0). Qed.

Lemma target_from_hash_eq powHash searchBits :
  target_from_hash powHash searchBits
  = (2 ^ 264 + hash_value powHash) * 2 ^ wrap32 (searchBits - 265).
Proof.
  unfold target_from_hash, zeroesBeforeHashInPrime.
  rewrite target_hash_loop_eq by (unfold mpz_mul_2exp; lia).
  unfold mpz_mul_2exp, hash_value.
  replace (searchBits - 1 - 8 - 256) with (searchBits - 265) by lia.
  f_equal.
Qed.

Lemma hash_bit_testbit powHash i :
  0 <= i -> hash_bit powHash i = Z.testbit (zth powHash (i / 8)) (i mod 8).
Proof.
  intros Hi. unfold hash_bit.
  assert (Hm : 0 <= i mod 8) by (apply Z.mod_pos_bound; lia).
  set (x := zth powHash (i / 8)). set (m := i mod 8) in *.
  replace (Z.testbit x m) with (Z.testbit (Z.shiftr x m) 0)
    by (rewrite Z.shiftr_spec by lia; f_equal; lia).
  change 1 with (Z.ones 1). rewrite Z.land_ones by lia.
  change (2 ^ 1) with 2. rewrite <- Z.bit0_mod.
  destruct (Z.testbit (Z.shiftr x m) 0); reflexivity.
Qed.

Lemma testbit_pow2_add_high n v :
  0 <= n -> 0 <= v < 2 ^ n -> Z.testbit (2 ^ n + v) n = true.
Proof.
  intros Hn Hv. apply Z.testbit_true; [lia|].
  replace (2 ^ n + v) with (v + 1 * 2 ^ n) by lia.
  rewrite Z.div_add by lia.
  rewrite Z.div_small by lia. reflexivity.
Qed.

Lemma testbit_small_high n v :
  0 <= n -> 0 <= v < 2 ^ n -> Z.testbit v n = false.
Proof.
  intros Hn Hv. apply Z.testbit_false; [lia|].
  rewrite Z.div_small by lia. reflexivity.
Qed.

Lemma testbit_pow2_add_low n v j :
  0 <= j < n -> Z.testbit (2 ^ n + v) j = Z.testbit v j.
Proof.
  intros Hj. rewrite <- (Z.mod_pow2_bits_low (2 ^ n + v) n j) by lia.
  replace (2 ^ n + v) with (v + 1 * 2 ^ n) by lia.
  rewrite Z.mod_add by lia.
  apply Z.mod_pow2_bits_low; lia.
Qed.

(** Bit [n - 1 - k] of the value read from position [i] on is the [k]-th
    hash bit from [i]. *)
Lemma hash_value_from_testbit powHash n i k :
  (k < n)%nat ->
  Z.testbit (hash_value_from powHash n i) (Z.of_nat n - 1 - Z.of_nat k)
  = hash_bit powHash (i + Z.of_nat k).
Proof.
  revert i k; induction n as [|n IH]; intros i k Hk; [lia|].
  cbn [hash_value_from].
  pose proof (hash_value_from_bound powHash n (i + 1)) as Hb.
  destruct k as [|k].
  - rewrite Z.add_0_r, Nat2Z.inj_succ.
    replace (Z.succ (Z.of_nat n) - 1 - Z.of_nat 0) with (Z.of_nat n) by lia.
    destruct (hash_bit powHash i).
    + apply testbit_pow2_add_high; lia.
    + rewrite Z.add_0_l. apply testbit_small_high; lia.
  - rewrite !Nat2Z.inj_succ.
    replace (Z.succ (Z.of_nat n) - 1 - Z.succ (Z.of_nat k))
      with (Z.of_nat n - 1 - Z.of_nat k) by lia.
    replace (i + Z.succ (Z.of_nat k)) with (i + 1 + Z.of_nat k) by lia.
    rewrite <- (IH (i + 1) k) by lia.
    destruct (hash_bit powHash i); [|reflexivity].
    apply testbit_pow2_add_low; lia.
Qed.

Lemma hash_value_testbit powHash i :
  0 <= i < 256 ->
  Z.testbit (hash_value powHash) (255 - i) = hash_bit powHash i.
Proof.
  intros Hi. unfold hash_value.
  pose proof (hash_value_from_testbit powHash 256 0 (Z.to_nat i) ltac:(lia)) as H.
  rewrite Z2Nat.id in H by lia.
  replace (Z.of_nat 256 - 1 - i) with (255 - i) in H by lia.
  rewrite H. f_equal.
Qed.

Lemma target_from_hash_pos powHash searchBits :
  0 < target_from_hash powHash searchBits.
Proof.
  rewrite target_from_hash_eq.
  pose proof (hash_value_bound powHash).
  assert (0 <= wrap32 (searchBits - 265)) by (apply Z.mod_pos_bound; lia).
  apply Z.mul_pos_pos; [lia|]. apply Z.pow_pos_nonneg; lia.
Qed.

Lemma target_from_hash_bits powHash searchBits :
  mpz_sizeinbase2 (target_from_hash powHash searchBits)
  = 265 + wrap32 (searchBits - 265).
Proof.
  pose proof (target_from_hash_pos powHash searchBits) as Hpos.
  unfold mpz_sizeinbase2.
  destruct (Z.eqb_spec (target_from_hash powHash searchBits) 0) as [E|_]; [lia|].
  rewrite Z.abs_eq by lia. rewrite target_from_hash_eq.
  pose proof (hash_value_bound powHash) as Hh.
  assert (0 <= wrap32 (searchBits - 265)) by (apply Z.mod_pos_bound; lia).
  rewrite Z.log2_mul_pow2 by lia.
  rewrite (Z.log2_unique (2 ^ 264 + hash_value powHash) 264); [lia|lia|].
  change (2 ^ Z.succ 264) with (2 ^ 264 + 2 ^ 264).
  assert (2 ^ 256 <= 2 ^ 264) by (apply Z.pow_le_mono_r; lia).
  lia.
Qed.

Example generate_primes_100 :
  generate_primes 200 100 =
  Some [2; 3; 5; 7; 11; 13; 17; 19; 23; 29; 31; 37; 41; 43; 47; 53; 59; 61; 67;
        71; 73; 79; 83; 89; 97].
Proof. vm_compute. reflexivity. Qed.

Example compute_primorial_5 :
  compute_primorial [2; 3; 5; 7; 11; 13; 17] 5 = 2310.
Proof. reflexivity. Qed.

Lemma target_bits_shift a tz k :
  0 <= tz -> Z.testbit (a * 2 ^ tz) (k + tz) = Z.testbit a k.
Proof.
  intros Htz. destruct (Z.neg_nonneg_cases k) as [Hk|Hk].
  - rewrite (Z.testbit_neg_r a k) by lia.
    rewrite Z.mul_pow2_bits_low; [reflexivity|lia].
  - rewrite Z.mul_pow2_bits by lia. f_equal. lia.
Qed.

(** C6, as amended.  For a compact target of at least 265 bits the derived
    target is [(2^264 + H) * 2^(searchBits - 265)], where [H] reads the
    double-SHA-256 digest bit-reversed (bit [i % 8] of byte [i / 8] has weight
    [2^(255 - i)]): a leading one, eight zero bits, the 256 hash bits and
    [searchBits - 265] zero bits, [searchBits] bits in all. *)
Theorem getTargetFromBlock_layout sha256 block searchBits :
  265 <= searchBits < 2 ^ 32 ->
  let h := sha256 (firstn 32 (sha256 (firstn 80 block))) in
  let H := hash_value h in
  let zTarget := getTargetFromBlock sha256 block searchBits in
  zTarget = (2 ^ 264 + H) * 2 ^ (searchBits - 265)
  /\ 0 <= H < 2 ^ 256
  /\ (forall i, 0 <= i < 256 ->
        Z.testbit H (255 - i) = Z.testbit (zth h (i / 8)) (i mod 8))
  /\ Z.testbit zTarget (searchBits - 1) = true
  /\ (forall k, searchBits - 9 <= k < searchBits - 1 -> Z.testbit zTarget k = false)
  /\ (forall i, 0 <= i < 256 ->
        Z.testbit zTarget (searchBits - 10 - i)
        = Z.testbit (zth h (i / 8)) (i mod 8))
  /\ (forall k, 0 <= k < searchBits - 265 -> Z.testbit zTarget k = false)
  /\ mpz_sizeinbase2 zTarget = searchBits.
Proof.
  intros Hsb h H zTarget.
  assert (Hw : wrap32 (searchBits - 265) = searchBits - 265)
    by (unfold wrap32; apply Z.mod_small; lia).
  assert (Hz : zTarget = (2 ^ 264 + H) * 2 ^ (searchBits - 265)).
  { unfold zTarget, getTargetFromBlock. fold h.
    rewrite target_from_hash_eq, Hw. reflexivity. }
  pose proof (hash_value_bound h) as HH. fold H in HH.
  assert (Hbits : forall i, 0 <= i < 256 ->
            Z.testbit H (255 - i) = Z.testbit (zth h (i / 8)) (i mod 8)).
  { intros i Hi. unfold H. rewrite hash_value_testbit by lia.
    apply hash_bit_testbit; lia. }
  repeat split; try (exact Hz || lia || exact Hbits).
  - rewrite Hz. replace (searchBits - 1) with (264 + (searchBits - 265)) by lia.
    rewrite target_bits_shift by lia. apply testbit_pow2_add_high; lia.
  - intros k Hk. rewrite Hz.
    replace k with ((k - (searchBits - 265)) + (searchBits - 265)) by lia.
    rewrite target_bits_shift by lia.
    rewrite testbit_pow2_add_low by lia.
    apply Z.bits_above_log2; [lia|].
    destruct (Z.eq_dec H 0) as [E|E]; [rewrite E; simpl; lia|].
    apply Z.lt_le_trans with 256; [apply Z.log2_lt_pow2; lia | lia].
  - intros i Hi. rewrite Hz.
    replace (searchBits - 10 - i) with ((255 - i) + (searchBits - 265)) by lia.
    rewrite target_bits_shift by lia.
    rewrite testbit_pow2_add_low by lia. apply Hbits; lia.
  - intros k Hk. rewrite Hz. apply Z.mul_pow2_bits_low; lia.
  - unfold zTarget, getTargetFromBlock. rewrite target_from_hash_bits, Hw. lia.
Qed.

Lemma getTargetFromBlock_layout_witness :
  265 <= 304 < 2 ^ 32
  /\ mpz_sizeinbase2 (getTargetFromBlock (fun _ => digest_seq) (replicate 80 0) 304) = 304.
Proof.
  split; [lia|].
  apply (getTargetFromBlock_layout (fun _ => digest_seq) (replicate 80 0) 304); lia.
Defined.

(** C6 fails below 265 bits: the unsigned subtraction
    [searchBits - 1 - 8 - 256] wraps, so for [searchBits = 264] the target
    is shifted by [2^32 - 1] places and is neither zero-shifted nor 264 bits
    long. *)
Lemma getTargetFromBlock_wraps_below_265 :
  let h := replicate 32 0 in
  let zTarget := getTargetFromBlock (fun _ => h) (replicate 80 0) 264 in
  zTarget <> (2 ^ 264 + hash_value h) * 2 ^ (264 - 265)
  /\ mpz_sizeinbase2 zTarget <> 264
  /\ mpz_sizeinbase2 zTarget = 2 ^ 32 + 264.
Proof.
  intros h zTarget. unfold zTarget, getTargetFromBlock.
  change (firstn 32 h) with h.
  pose proof (target_from_hash_pos h 264) as Hpos.
  rewrite target_from_hash_bits.
  change (wrap32 (264 - 265)) with 4294967295.
  change (2 ^ (264 - 265)) with 0.
  repeat split; lia.
Qed.

(** ** Primorial alignment *)

Lemma remainderPrimorial_eq zTarget P :
  0 <= zTarget -> 0 < P ->
  remainderPrimorial zTarget P = (P - zTarget mod P) mod P + primorial_offset.
Proof.
  intros HT HP. unfold remainderPrimorial, mpz_tdiv_r, mpz_abs, mpz_sub, mpz_add_ui.
  pose proof (Z.mod_pos_bound zTarget P HP) as Hm.
  rewrite (Z.rem_mod_nonneg zTarget P) by lia.
  rewrite (Z.abs_eq (zTarget mod P)) by lia.
  rewrite Z.rem_mod_nonneg by lia.
  pose proof (Z.mod_pos_bound (P - zTarget mod P) P HP) as Hm2.
  rewrite Z.abs_eq by lia. reflexivity.
Qed.

Lemma remainderPrimorial_spec zTarget P :
  0 <= zTarget -> primorial_offset < P ->
  let R := remainderPrimorial zTarget P in
  (zTarget + R) mod P = primorial_offset
  /\ primorial_offset <= R < P + primorial_offset
  /\ (R < P <-> zTarget mod P = 0 \/ primorial_offset < zTarget mod P).
Proof.
  intros HT HP R. unfold primorial_offset in *.
  assert (HP0 : 0 < P) by lia.
  assert (HR : R = (P - zTarget mod P) mod P + 16057)
    by (apply remainderPrimorial_eq; assumption).
  pose proof (Z.mod_pos_bound zTarget P HP0) as Hm.
  destruct (Z.eq_dec (zTarget mod P) 0) as [E|E].
  - assert (HR' : R = 16057).
    { rewrite HR, E, Z.sub_0_r, Z.mod_same by lia. lia. }
    rewrite HR'. repeat split; try lia.
    rewrite (Z.div_mod zTarget P) at 1 by lia. rewrite E.
    replace (P * (zTarget / P) + 0 + 16057)
      with (16057 + (zTarget / P) * P) by lia.
    rewrite Z.mod_add by lia. apply Z.mod_small; lia.
  - assert (HR' : R = P - zTarget mod P + 16057).
    { rewrite HR, Z.mod_small by lia. reflexivity. }
    rewrite HR'. repeat split; try lia.
    rewrite (Z.div_mod zTarget P) at 1 by lia.
    replace (P * (zTarget / P) + zTarget mod P + (P - zTarget mod P + 16057))
      with (16057 + (zTarget / P + 1) * P) by lia.
    rewrite Z.mod_add by lia. apply Z.mod_small; lia.
Qed.



(** ** The [TYPE_MOD] dispatch loop *)

Lemma wrap32_small x : 0 <= x < 2 ^ 32 -> wrap32 x = x.
Proof. intros H. unfold wrap32. apply Z.mod_small; exact H. Qed.

Lemma dispatch_mod_loop_ok nPrimes incr fuel :
  0 < incr -> nPrimes + incr < 2 ^ 32 ->
  forall base queue n,
    0 <= base ->
    (Z.to_nat (nPrimes - base) < fuel)%nat ->
    exists jobs,
      dispatch_mod_loop fuel nPrimes incr base queue n
      = Ok (queue ++ jobs, n + Z.of_nat (length jobs))
      /\ Forall (fun w => exists s e, w = modWork s e /\ base <= s < e /\ e <= nPrimes) jobs
      /\ (forall i, base <= i < nPrimes -> in_exactly_one i jobs).
Proof.
  intros Hincr Hsmall.
  induction fuel as [|fuel IH]; intros base queue n Hbase Hfuel; [lia|].
  cbn [dispatch_mod_loop].
  destruct (Z.ltb_spec base nPrimes) as [Hlt|Hge].
  - rewrite wrap32_small by lia.
    destruct (IH (base + incr) (queue ++ [modWork base (Z.min nPrimes (base + incr))])
                (n + 1) ltac:(lia) ltac:(lia)) as (jobs & Hrun & Hall & Hcov).
    exists (modWork base (Z.min nPrimes (base + incr)) :: jobs).
    rewrite Hrun, <- app_assoc. cbn [app length].
    split; [f_equal; f_equal; lia|]. split.
    + constructor.
      * exists base, (Z.min nPrimes (base + incr)). repeat split; lia.
      * eapply Forall_impl; [exact Hall|].
        intros w (s & e & -> & Hs & He). exists s, e. repeat split; lia.
    + intros i Hi. destruct (Z.lt_ge_cases i (base + incr)) as [Hin|Hout].
      * exists [], (modWork base (Z.min nPrimes (base + incr))), jobs.
        split; [reflexivity|]. split; [simpl; lia|].
        simpl. eapply Forall_impl; [exact Hall|].
        intros w (s & e & -> & Hs & He). simpl. lia.
      * destruct (Hcov i ltac:(lia)) as (l1 & w & l2 & -> & Hw & Hnot).
        exists (modWork base (Z.min nPrimes (base + incr)) :: l1), w, l2.
        split; [reflexivity|]. split; [exact Hw|].
        simpl. constructor; [simpl; lia | exact Hnot].
  - exists []. rewrite app_nil_r. cbn [length]. split; [f_equal; f_equal; lia|].
    split; [constructor|]. intros i Hi. lia.
Qed.

(** With at least 128 primes the dispatch loop ends, its jobs tile
    [[m, nPrimes)] and one token is awaited per job. *)
Lemma dispatch_mod_partition M fuel :
  128 <= nPrimes M < 2 ^ 31 -> 0 <= primorialNumber M ->
  (Z.to_nat (nPrimes M) < fuel)%nat ->
  exists jobs,
    dispatch_mod fuel M = Ok (jobs, Z.of_nat (length jobs))
    /\ (forall i, primorialNumber M <= i < nPrimes M -> in_exactly_one i jobs)
    /\ Forall (fun w => exists s e, w = modWork s e
                 /\ primorialNumber M <= s < e /\ e <= nPrimes M) jobs.
Proof.
  intros Hn Hm Hfuel. unfold dispatch_mod.
  assert (Hincr : 0 < nPrimes M / 128)
    by (apply Z.div_str_pos; lia).
  assert (Hle : nPrimes M / 128 <= nPrimes M)
    by (apply Z.div_le_upper_bound; lia).
  destruct (dispatch_mod_loop_ok (nPrimes M) (nPrimes M / 128) fuel Hincr ltac:(lia)
              (primorialNumber M) [] 0 Hm ltac:(lia)) as (jobs & Hrun & Hall & Hcov).
  exists jobs. rewrite Hrun. simpl. split; [reflexivity|]. split; assumption.
Qed.

Lemma dispatch_mod_loop_stuck nPrimes base fuel :
  0 <= base < nPrimes -> base < 2 ^ 32 ->
  forall queue n, dispatch_mod_loop fuel nPrimes 0 base queue n = Err OutOfFuel.
Proof.
  intros Hb Hb32. induction fuel as [|fuel IH]; intros queue n; [reflexivity|].
  cbn [dispatch_mod_loop].
  destruct (Z.ltb_spec base nPrimes) as [_|Hge]; [|lia].
  rewrite Z.add_0_r, wrap32_small by lia. apply IH.
Qed.

(** C8 fails on the code.  With the 95 primes below 500 the chunk size
    [nPrimes / 128] is zero, [base] never advances from 40 and the dispatch
    loop keeps pushing the empty job [[40, 40)]: no amount of fuel lets it
    return. *)
Theorem dispatch_mod_small_table_diverges :
  nPrimes miner_500 = 95 /\ primorialNumber miner_500 = 40
  /\ forall fuel, dispatch_mod fuel miner_500 = Err OutOfFuel.
Proof.
  split; [reflexivity|]. split; [reflexivity|].
  intros fuel. unfold dispatch_mod.
  change (nPrimes miner_500) with 95. change (primorialNumber miner_500) with 40.
  change (95 / 128) with 0.
  apply dispatch_mod_loop_stuck; lia.
Qed.

(** ** Segment buckets *)

Lemma forM_app {S : Type} (body : Z -> S -> result S) l1 l2 s :
  forM body (l1 ++ l2) s = (s' ← forM body l1 s; forM body l2 s').
Proof.
  revert s; induction l1 as [|i l1 IH]; intros s; simpl; [reflexivity|].
  destruct (body i s) as [s'|e]; simpl; [apply IH | reflexivity].
Qed.

Lemma segment_of_bound x :
  0 <= x < max_increments -> 0 <= Z.shiftr x riecoin_sieveBits < maxiter.
Proof.
  intros Hx. rewrite Z.shiftr_div_pow2 by (unfold riecoin_sieveBits; lia).
  rewrite max_increments_val in Hx. rewrite maxiter_val.
  change (2 ^ riecoin_sieveBits) with 16777216.
  split; [apply Z.div_pos; lia | apply Z.div_lt_upper_bound; lia].
Qed.

Lemma segment_residue x :
  0 <= x < max_increments ->
  wrap32 (x - wrap32 (riecoin_sieveSize * Z.shiftr x riecoin_sieveBits))
  = x mod riecoin_sieveSize.
Proof.
  intros Hx. pose proof (segment_of_bound x Hx) as Hk.
  rewrite maxiter_val in Hk. rewrite max_increments_val in Hx.
  rewrite Z.shiftr_div_pow2 in * by (unfold riecoin_sieveBits; lia).
  change (2 ^ riecoin_sieveBits) with 16777216 in *.
  rewrite sieveSize_val.
  pose proof (Z.div_mod x 16777216 ltac:(lia)) as Hdm.
  pose proof (Z.mod_pos_bound x 16777216 ltac:(lia)) as Hm.
  rewrite (wrap32_small (16777216 * (x / 16777216))) by lia.
  rewrite wrap32_small by lia. lia.
Qed.

Lemma bucket_length eps B k :
  buckets_wf eps B -> Z.of_nat (length (bucket B k)) <= eps.
Proof.
  intros Hwf. unfold bucket.
  destruct (segment_counts B !! Z.to_nat k) as [c|] eqn:Hc; [|simpl; destruct Hwf; lia].
  destruct (segment_hits B !! Z.to_nat k) as [row|] eqn:Hr; [|simpl; destruct Hwf; lia].
  pose proof (wf_fill _ _ Hwf _ _ Hc). rewrite length_take. lia.
Qed.

Lemma bucket_length_count eps B k c :
  buckets_wf eps B -> 0 <= k < maxiter ->
  segment_counts B !! Z.to_nat k = Some c ->
  Z.of_nat (length (bucket B k)) = c.
Proof.
  intros Hwf Hk Hc. unfold bucket. rewrite Hc.
  destruct (segment_hits B !! Z.to_nat k) as [row|] eqn:Hr.
  - pose proof (wf_fill _ _ Hwf _ _ Hc). pose proof (wf_rows _ _ Hwf _ _ Hr).
    rewrite length_take. lia.
  - apply lookup_ge_None in Hr. pose proof (wf_hits_len _ _ Hwf). lia.
Qed.

Lemma put_offset_spec eps x B :
  buckets_wf eps B -> 0 <= x < max_increments ->
  let k := Z.shiftr x riecoin_sieveBits in
  exists c,
    segment_counts B !! Z.to_nat k = Some c
    /\ ((c = eps /\ put_offset eps x B = Err ExitCalled)
        \/ (c < eps /\ exists B',
              put_offset eps x B = Ok B'
              /\ buckets_wf eps B'
              /\ segment_counts B' = <[Z.to_nat k := c + 1]> (segment_counts B)
              /\ bucket B' k = bucket B k ++ [x mod riecoin_sieveSize]
              /\ forall k', 0 <= k' -> k' <> k -> bucket B' k' = bucket B k')).
Proof.
  intros Hwf Hx k. pose proof (segment_of_bound x Hx) as Hk. fold k in Hk.
  pose proof (wf_eps _ _ Hwf) as Heps.
  destruct (lookup_lt_is_Some_2 (segment_counts B) (Z.to_nat k)) as [c Hc].
  { rewrite (wf_counts_len _ _ Hwf). lia. }
  destruct (lookup_lt_is_Some_2 (segment_hits B) (Z.to_nat k)) as [row Hrow].
  { rewrite (wf_hits_len _ _ Hwf). lia. }
  pose proof (wf_fill _ _ Hwf _ _ Hc) as Hfill.
  pose proof (wf_rows _ _ Hwf _ _ Hrow) as Hlen.
  exists c. split; [exact Hc|].
  unfold put_offset. cbv zeta. fold k. rewrite Hc.
  destruct (Z.geb_spec c eps) as [Hge|Hlt]; [left; split; [lia|reflexivity]|].
  right. split; [lia|]. rewrite Hrow.
  destruct (Nat.ltb_spec (Z.to_nat c) (length row)) as [Hin|Hout]; [|lia].
  rewrite segment_residue by exact Hx. rewrite wrap32_small by lia.
  eexists. split; [reflexivity|].
  split; [|split; [reflexivity|split]].
  - constructor; cbn [segment_counts segment_hits].
    + exact Heps.
    + rewrite length_insert. apply (wf_counts_len _ _ Hwf).
    + rewrite length_insert. apply (wf_hits_len _ _ Hwf).
    + intros k' row' Hl. apply list_lookup_insert_Some in Hl.
      destruct Hl as [(<- & <- & _)|(_ & Hl)].
      * rewrite length_insert. exact Hlen.
      * apply (wf_rows _ _ Hwf _ _ Hl).
    + intros k' c' Hl. apply list_lookup_insert_Some in Hl.
      destruct Hl as [(<- & <- & _)|(_ & Hl)]; [lia|].
      apply (wf_fill _ _ Hwf _ _ Hl).
  - unfold bucket; cbn [segment_counts segment_hits].
    rewrite Hc, Hrow.
    rewrite !list_lookup_insert_eq
      by (rewrite ?(wf_counts_len _ _ Hwf), ?(wf_hits_len _ _ Hwf); lia).
    replace (Z.to_nat (c + 1)) with (S (Z.to_nat c)) by lia.
    rewrite (take_S_r _ _ (x mod riecoin_sieveSize))
      by (apply list_lookup_insert_eq; lia).
    rewrite take_insert_ge by lia. reflexivity.
  - intros k' Hk' Hne. unfold bucket; cbn [segment_counts segment_hits].
    rewrite !list_lookup_insert_ne by lia. reflexivity.
Qed.

Lemma flushed_to_snoc k l x :
  flushed_to k (l ++ [x])
  = flushed_to k l
    ++ (if decide (Z.shiftr x riecoin_sieveBits = k)
        then [x mod riecoin_sieveSize] else []).
Proof.
  unfold flushed_to. rewrite filter_app, map_app. f_equal.
  rewrite filter_cons, filter_nil.
  destruct (decide (Z.shiftr x riecoin_sieveBits = k)); reflexivity.
Qed.

Lemma put_offsets_spec_nat eps stack n :
  forall B,
    buckets_wf eps B -> (n <= length stack)%nat ->
    Forall (fun x => 0 <= x < max_increments) (take n stack) ->
    match put_offsets_in_segments eps B stack (Z.of_nat n) with
    | Ok B' =>
        buckets_wf eps B'
        /\ forall k, 0 <= k -> bucket B' k = bucket B k ++ flushed_to k (take n stack)
    | Err ExitCalled =>
        exists k, 0 <= k < maxiter
          /\ eps < Z.of_nat (length (bucket B k ++ flushed_to k (take n stack)))
    | Err _ => False
    end.
Proof.
  induction n as [|n IH]; intros B Hwf Hn Hall.
  - unfold put_offsets_in_segments. rewrite seqZ_nil by lia. simpl.
    split; [exact Hwf|]. intros k _. unfold flushed_to. simpl.
    rewrite app_nil_r. reflexivity.
  - destruct (lookup_lt_is_Some_2 stack n ltac:(lia)) as [x Hx].
    rewrite (take_S_r _ _ _ Hx) in Hall |- *.
    apply Forall_app in Hall. destruct Hall as [Hall Hxr].
    apply Forall_inv in Hxr.
    specialize (IH B Hwf ltac:(lia) Hall).
    unfold put_offsets_in_segments in *.
    rewrite seqZ_S, forM_app. rewrite Z.add_0_l.
    destruct (forM _ (seqZ 0 (Z.of_nat n)) B) as [Bn|e].
    + destruct IH as [Hwfn Hbn]. cbn [mbind result_bind forM].
      rewrite Nat2Z.id, Hx.
      destruct (put_offset_spec eps x Bn Hwfn Hxr) as (c & Hc & Hcase).
      pose proof (segment_of_bound x Hxr) as Hk.
      destruct Hcase as [(-> & ->)|(Hlt & B' & -> & Hwf' & _ & Hsame & Hother)].
      * cbn. exists (Z.shiftr x riecoin_sieveBits). split; [exact Hk|].
        rewrite flushed_to_snoc.
        destruct (decide _) as [_|Hne]; [|contradiction].
        rewrite app_assoc, <- Hbn by lia. rewrite length_app. cbn [length].
        rewrite Nat2Z.inj_add. erewrite bucket_length_count; eauto. lia.
      * cbn. split; [exact Hwf'|]. intros k Hk0.
        rewrite flushed_to_snoc, app_assoc, <- Hbn by lia.
        destruct (decide (Z.shiftr x riecoin_sieveBits = k)) as [<-|Hne].
        -- exact Hsame.
        -- rewrite app_nil_r. apply Hother; [lia | congruence].
    + cbn. destruct e; try contradiction.
      destruct IH as (k & Hk & Hov). exists k. split; [exact Hk|].
      rewrite flushed_to_snoc, app_assoc, length_app. lia.
Qed.

(** ** The tables of [miningInit] *)

Lemma zth_In l i : 0 <= i < Z.of_nat (length l) -> In (zth l i) l.
Proof. intros Hi. unfold zth. apply nth_In. lia. Qed.

Lemma is_prime_b_correct p : is_prime_b p = true -> Z.prime p.
Proof.
  unfold is_prime_b. intros H. apply andb_true_iff in H. destruct H as [H1 H2].
  apply Z.ltb_lt in H1. split; [exact H1|].
  intros n Hn Hdiv. rewrite forallb_forall in H2.
  specialize (H2 n). rewrite <- list_elem_of_In, elem_of_seqZ in H2.
  specialize (H2 ltac:(lia)). apply negb_true_iff, Z.eqb_neq in H2.
  apply H2. apply Z.mod_divide; [lia | exact Hdiv].
Qed.

Lemma increasing_b_nth l :
  increasing_b l = true ->
  forall i j, (i < j)%nat -> (j < length l)%nat -> nth i l 0 < nth j l 0.
Proof.
  induction l as [|a l IH]; intros H i j Hij Hj; [simpl in Hj; lia|].
  destruct l as [|b l]; [simpl in Hj; lia|].
  cbn [increasing_b] in H. apply andb_true_iff in H. destruct H as [Hab Hrest].
  apply Z.ltb_lt in Hab. destruct j as [|j]; [lia|].
  destruct i as [|i].
  - cbn [nth]. destruct j as [|j]; [exact Hab|].
    specialize (IH Hrest 0%nat (S j) ltac:(lia) ltac:(simpl in *; lia)).
    cbn [nth] in IH |- *. lia.
  - apply (IH Hrest i j); simpl in *; lia.
Qed.

Lemma prime_table_b_correct primes :
  prime_table_b primes = true -> prime_table primes.
Proof.
  unfold prime_table_b. intros H. apply andb_true_iff in H. destruct H as [H1 H2].
  rewrite forallb_forall in H1.
  constructor.
  - intros i Hi. specialize (H1 _ (zth_In _ _ Hi)).
    apply andb_true_iff in H1. apply is_prime_b_correct, H1.
  - intros i Hi. specialize (H1 _ (zth_In _ _ Hi)).
    apply andb_true_iff in H1. apply Z.ltb_lt, H1.
  - intros i j Hij Hj. unfold zth. apply increasing_b_nth; [exact H2|lia|lia].
Qed.

Lemma prime_table_lower primes :
  prime_table primes ->
  forall i, 0 <= i < Z.of_nat (length primes) -> i + 2 <= zth primes i.
Proof.
  intros Hpt i Hi.
  assert (H : forall n : nat, Z.of_nat n < Z.of_nat (length primes) ->
                Z.of_nat n + 2 <= zth primes (Z.of_nat n)).
  { induction n as [|n IH]; intros Hn.
    - assert (H0 : 0 <= 0 < Z.of_nat (length primes)) by lia.
      pose proof (Z.prime_ge_2 _ (pt_prime _ Hpt 0 H0)).
      change (Z.of_nat 0) with 0. lia.
    - assert (IH' : Z.of_nat n + 2 <= zth primes (Z.of_nat n)) by (apply IH; lia).
      assert (H1 : 0 <= Z.of_nat n < Z.of_nat (S n)) by lia.
      pose proof (pt_sorted _ Hpt (Z.of_nat n) (Z.of_nat (S n)) H1 Hn).
      lia. }
  specialize (H (Z.to_nat i)). rewrite Z2Nat.id in H by lia. apply H. lia.
Qed.

Lemma prime_below_2_32 p : Z.prime p -> p < 2 ^ 32 -> p + 4 < 2 ^ 32.
Proof.
  intros Hp Hlt. destruct Hp as [H1 Hdiv].
  destruct (Z.eq_dec p (2 ^ 32 - 1)) as [->|N1].
  { exfalso. apply (Hdiv 3); [lia|]. exists 1431655765. reflexivity. }
  destruct (Z.eq_dec p (2 ^ 32 - 2)) as [->|N2].
  { exfalso. apply (Hdiv 2); [lia|]. exists 2147483647. reflexivity. }
  destruct (Z.eq_dec p (2 ^ 32 - 3)) as [->|N3].
  { exfalso. apply (Hdiv 9241); [lia|]. exists 464773. reflexivity. }
  destruct (Z.eq_dec p (2 ^ 32 - 4)) as [->|N4].
  { exfalso. apply (Hdiv 2); [lia|]. exists 2147483646. reflexivity. }
  lia.
Qed.

Lemma compute_primorial_succ primes k :
  (1 <= k)%nat ->
  compute_primorial primes (Z.of_nat (S k))
  = compute_primorial primes (Z.of_nat k) * zth primes (Z.of_nat k).
Proof.
  intros Hk. unfold compute_primorial.
  replace (Z.of_nat (S k) - 1) with (Z.of_nat (S (k - 1))) by lia.
  rewrite seqZ_S, foldl_app. cbn [foldl]. unfold mpz_mul_ui.
  replace (Z.of_nat (k - 1)) with (Z.of_nat k - 1) by lia.
  replace (1 + (Z.of_nat k - 1)) with (Z.of_nat k) by lia. reflexivity.
Qed.

(** The primorial is positive and its prime divisors are its factors. *)
Lemma compute_primorial_factors primes :
  prime_table primes ->
  forall k : nat, (1 <= k)%nat -> Z.of_nat k <= Z.of_nat (length primes) ->
    0 < compute_primorial primes (Z.of_nat k)
    /\ forall q, Z.prime q -> (q | compute_primorial primes (Z.of_nat k)) ->
         exists j, 0 <= j < Z.of_nat k /\ q = zth primes j.
Proof.
  intros Hpt. induction k as [|k IH]; intros Hk Hlen; [lia|].
  destruct (Nat.eq_dec k 0%nat) as [->|Hk0].
  - unfold compute_primorial. rewrite seqZ_nil by lia. cbn [foldl].
    assert (H0 : 0 <= 0 < Z.of_nat (length primes)) by lia.
    pose proof (pt_prime _ Hpt 0 H0) as Hp0.
    pose proof (Z.prime_ge_2 _ Hp0). split; [lia|].
    intros q Hq Hdiv. exists 0. split; [lia|].
    apply (Z.divide_prime_prime _ _ Hq Hp0 Hdiv).
  - rewrite compute_primorial_succ by lia.
    assert (Hk1 : (1 <= k)%nat) by lia.
    assert (Hk2 : Z.of_nat k <= Z.of_nat (length primes)) by lia.
    destruct (IH Hk1 Hk2) as [Hpos Hfac].
    assert (Hk3 : 0 <= Z.of_nat k < Z.of_nat (length primes)) by lia.
    pose proof (pt_prime _ Hpt (Z.of_nat k) Hk3) as Hpk.
    pose proof (Z.prime_ge_2 _ Hpk). split; [lia|].
    intros q Hq Hdiv. apply (Z.divide_prime_mul _ _ _ Hq) in Hdiv.
    destruct Hdiv as [Hd|Hd].
    + destruct (Hfac q Hq Hd) as (j & Hj & ->). exists j. split; [lia|reflexivity].
    + exists (Z.of_nat k). split; [lia|].
      apply (Z.divide_prime_prime _ _ Hq Hpk Hd).
Qed.

Lemma zth_lookup l i x : l !! Z.to_nat i = Some x -> zth l i = x.
Proof. intros H. unfold zth. rewrite nth_lookup, H. reflexivity. Qed.

Lemma foldl_insert_length (g : Z -> Z) idx l0 :
  length (foldl (fun inv i => <[Z.to_nat i := g i]> inv) l0 idx) = length l0.
Proof.
  revert l0; induction idx as [|i idx IH]; intros l0; cbn [foldl]; [reflexivity|].
  rewrite IH, length_insert. reflexivity.
Qed.

Lemma foldl_insert_zth (g : Z -> Z) l0 a (len : nat) i :
  0 <= a -> a <= i < a + Z.of_nat len -> i < Z.of_nat (length l0) ->
  zth (foldl (fun inv i => <[Z.to_nat i := g i]> inv) l0 (seqZ a (Z.of_nat len))) i
  = g i.
Proof.
  intros Ha. induction len as [|len IH]; intros Hi Hlen; [lia|].
  rewrite seqZ_S, foldl_app. cbn [foldl].
  destruct (Z.eq_dec i (a + Z.of_nat len)) as [->|Hne].
  - apply zth_lookup. apply list_lookup_insert_eq.
    rewrite foldl_insert_length. lia.
  - unfold zth. rewrite nth_lookup, list_lookup_insert_ne by lia.
    rewrite <- nth_lookup. apply IH; lia.
Qed.

Lemma compute_inverts_zth primes P i :
  5 <= i < Z.of_nat (length primes) ->
  zth (compute_inverts primes P) i = wrap32 (mpz_invert P (zth primes i)).
Proof.
  intros Hi. unfold compute_inverts.
  replace (Z.of_nat (length primes) - 5)
    with (Z.of_nat (Z.to_nat (Z.of_nat (length primes) - 5))) by lia.
  apply (foldl_insert_zth (fun i => wrap32 (mpz_invert P (zth primes i)))).
  - lia.
  - lia.
  - rewrite length_replicate. lia.
Qed.

Lemma initialised_nPrimes M :
  initialised M -> nPrimes M = Z.of_nat (length (primes M)).
Proof. intros H. rewrite (init_tables _ H) at 1. reflexivity. Qed.

Lemma initialised_primorial M :
  initialised M ->
  primorial M = compute_primorial (primes M) (primorialNumber M).
Proof. intros H. rewrite (init_tables _ H) at 1. reflexivity. Qed.

Lemma initialised_inverts M :
  initialised M -> inverts M = compute_inverts (primes M) (primorial M).
Proof.
  intros H. rewrite (initialised_primorial M H).
  rewrite (init_tables _ H) at 1. reflexivity.
Qed.

Lemma primorial_pos M : initialised M -> 0 < primorial M.
Proof.
  intros H. rewrite (initialised_primorial M H).
  pose proof (init_m _ H) as Hm. pose proof (initialised_nPrimes M H) as Hn.
  replace (primorialNumber M) with (Z.of_nat (Z.to_nat (primorialNumber M))) by lia.
  apply (compute_primorial_factors (primes M) (init_primes _ H)); lia.
Qed.

Lemma initialised_sieving_prime M i :
  initialised M -> primorialNumber M <= i < nPrimes M -> sieving_prime M i.
Proof.
  intros H Hi.
  pose proof (init_m _ H) as Hm. pose proof (initialised_nPrimes M H) as Hn.
  pose proof (init_primes _ H) as Hpt.
  assert (Hi' : 0 <= i < Z.of_nat (length (primes M))) by lia.
  pose proof (pt_prime _ Hpt i Hi') as Hp.
  pose proof (prime_table_lower _ Hpt i Hi') as Hlow.
  pose proof (pt_u32 _ Hpt i Hi') as Hu.
  assert (Hcop : Z.coprime (primorial M) (zth (primes M) i)).
  { unfold Z.coprime. rewrite Z.gcd_comm. apply Z.coprime_prime_l; [exact Hp|].
    intros Hdiv. rewrite (initialised_primorial M H) in Hdiv.
    replace (primorialNumber M) with (Z.of_nat (Z.to_nat (primorialNumber M)))
      in Hdiv by lia.
    destruct (compute_primorial_factors (primes M) Hpt
                (Z.to_nat (primorialNumber M)) ltac:(lia) ltac:(lia)) as [_ Hfac].
    destruct (Hfac _ Hp Hdiv) as (j & Hj & Heq).
    assert (Hji : 0 <= j < i) by lia.
    pose proof (pt_sorted _ Hpt j i Hji ltac:(lia)). lia. }
  assert (Hinv : zth (inverts M) i = Z.invmod (primorial M) (zth (primes M) i)).
  { rewrite (initialised_inverts M H), compute_inverts_zth by lia.
    unfold mpz_invert. apply wrap32_small.
    pose proof (Z.mod_pos_bound
                  (fst (fst (Z.extgcd (primorial M mod zth (primes M) i) (zth (primes M) i))))
                  (zth (primes M) i) ltac:(lia)) as Hb.
    unfold Z.invmod. lia. }
  constructor; try assumption; try lia.
  - apply prime_below_2_32; assumption.
  - rewrite Hinv. unfold Z.invmod. apply Z.mod_pos_bound. lia.
  - rewrite Hinv, Z.mul_comm. apply Z.invmod_coprime; [lia | exact Hcop].
Qed.

(** ** Offset computation *)

Lemma mod0_witness a p : 0 < p -> a mod p = 0 -> exists k, a = p * k.
Proof. intros Hp H. exists (a / p). rewrite (Z.div_mod a p) at 1 by lia. lia. Qed.

Lemma witness_mod0 a p k : 0 < p -> a = p * k -> a mod p = 0.
Proof. intros Hp ->. rewrite Z.mul_comm. apply Z.mod_mul. lia. Qed.

(** The arithmetic behind [index = (pa * invert) mod p]. *)
Lemma index_correct p P inv tarcb r' :
  0 < p -> (P * inv) mod p = 1 -> 0 <= r' <= p -> (r' - tarcb) mod p = 0 ->
  let index := ((p - r') * inv) mod p in
  0 <= index < p /\ (tarcb + index * P) mod p = 0
  /\ forall y, 0 <= y -> (tarcb + y * P) mod p = 0 -> index <= y.
Proof.
  intros Hp Hinv Hr Hcong index.
  assert (Hidx : 0 <= index < p) by (apply Z.mod_pos_bound; lia).
  destruct (mod0_witness _ _ Hp Hcong) as [k Hk].
  pose proof (Z.div_mod (P * inv) p ltac:(lia)) as Hq. rewrite Hinv in Hq.
  set (q := P * inv / p) in *.
  pose proof (Z.div_mod ((p - r') * inv) p ltac:(lia)) as Ht.
  fold index in Ht. set (t := (p - r') * inv / p) in *.
  set (W := 1 - k + (p - r') * q - t * P).
  assert (E1 : tarcb + index * P = p * W).
  { replace tarcb with (r' - p * k) by lia.
    replace index with ((p - r') * inv - p * t) by lia.
    replace ((r' - p * k) + ((p - r') * inv - p * t) * P)
      with ((r' - p * k) + (p - r') * (P * inv) - p * t * P) by ring.
    rewrite Hq. unfold W. ring. }
  split; [exact Hidx|]. split.
  - apply (witness_mod0 _ _ W Hp). exact E1.
  - intros y Hy Hyc. destruct (mod0_witness _ _ Hp Hyc) as [c Hc].
    assert (E2 : (y - index) * P = p * (c - W)) by lia.
    assert (E3 : (y - index) * (P * inv) = p * ((c - W) * inv)).
    { replace ((y - index) * (P * inv)) with ((y - index) * P * inv) by ring.
      rewrite E2. ring. }
    rewrite Hq in E3.
    assert (E4 : y - index = p * ((c - W) * inv - (y - index) * q)) by lia.
    set (z := (c - W) * inv - (y - index) * q) in *.
    destruct (Z.lt_ge_cases z 0) as [Hz|Hz].
    + assert (p * z <= p * (-1)) by (apply Z.mul_le_mono_nonneg_l; lia). lia.
    + assert (0 <= p * z) by (apply Z.mul_nonneg_nonneg; lia). lia.
Qed.

Ltac bias_cases f :=
  let H := fresh in
  assert (H : f = 0 \/ f = 1 \/ f = 2 \/ f = 3 \/ f = 4 \/ f = 5) by lia;
  destruct H as [->|[->|[->|[->|[->| ->]]]]].

Lemma tuple_offset_range f : 0 <= f < 6 -> 0 <= zth primeTupleOffset f <= 4.
Proof. intros Hf. bias_cases f; unfold zth, primeTupleOffset; simpl; lia. Qed.

Lemma cumulativeBias_step f :
  0 <= f < 6 -> cumulativeBias f = cumulativeBias (f - 1) + zth primeTupleOffset f.
Proof. intros Hf. bias_cases f; reflexivity. Qed.

Lemma cumulativeBias_values :
  map cumulativeBias [0; 1; 2; 3; 4; 5] = [0; 4; 6; 10; 12; 16].
Proof. reflexivity. Qed.

Lemma next_remainder_spec p r f c :
  7 <= p -> p + 4 < 2 ^ 32 -> 0 <= f < 6 ->
  0 <= r <= p -> (r - c) mod p = 0 ->
  0 <= next_remainder p r f <= p
  /\ (next_remainder p r f - (c + zth primeTupleOffset f)) mod p = 0.
Proof.
  intros Hp Hu Hf Hr Hc. pose proof (tuple_offset_range f Hf) as Ho.
  unfold next_remainder. cbv zeta.
  rewrite (wrap32_small (r + zth primeTupleOffset f)) by lia.
  assert (Hp0 : 0 < p) by lia.
  destruct (mod0_witness _ _ Hp0 Hc) as [k Hk].
  destruct (Z.gtb_spec (r + zth primeTupleOffset f) p) as [Hgt|Hle].
  - rewrite wrap32_small by lia. split; [lia|].
    apply (witness_mod0 _ _ (k - 1)); lia.
  - split; [lia|]. apply (witness_mod0 _ _ k); lia.
Qed.

Lemma bias_remainder_step M tar i f :
  0 <= f ->
  bias_remainder M tar i f
  = next_remainder (zth (primes M) i) (bias_remainder M tar i (f - 1)) f.
Proof.
  intros Hf. unfold bias_remainder. cbv zeta.
  replace (f + 1) with (Z.of_nat (S (Z.to_nat f))) by lia.
  rewrite seqZ_S, foldl_app. cbn [foldl].
  rewrite Z2Nat.id by lia. rewrite Z.add_0_l.
  replace (f - 1 + 1) with f by lia. reflexivity.
Qed.

Lemma bias_remainder_spec M tar i f :
  sieving_prime M i -> 0 <= tar -> -1 <= f < 6 ->
  let p := zth (primes M) i in
  0 <= bias_remainder M tar i f <= p
  /\ (bias_remainder M tar i f - (tar + cumulativeBias f)) mod p = 0.
Proof.
  intros Hsp Htar Hf p.
  pose proof (sp_lower _ _ Hsp) as Hlow. pose proof (sp_upper _ _ Hsp) as Hup.
  fold p in Hlow, Hup.
  assert (H : forall n : nat, Z.of_nat n - 1 < 6 ->
            0 <= bias_remainder M tar i (Z.of_nat n - 1) <= p
            /\ (bias_remainder M tar i (Z.of_nat n - 1)
                - (tar + cumulativeBias (Z.of_nat n - 1))) mod p = 0).
  { induction n as [|n IH]; intros Hn.
    - change (Z.of_nat 0 - 1) with (-1).
      unfold bias_remainder. cbv zeta. fold p. rewrite seqZ_nil by lia.
      cbn [foldl]. unfold mpz_tdiv_ui.
      rewrite Z.rem_mod_nonneg by lia.
      pose proof (Z.mod_pos_bound tar p ltac:(lia)) as Hm.
      rewrite Z.abs_eq by lia. rewrite wrap32_small by lia.
      split; [lia|]. change (cumulativeBias (-1)) with 0.
      apply (witness_mod0 _ _ (- (tar / p))); [lia|].
      pose proof (Z.div_mod tar p ltac:(lia)). lia.
    - replace (Z.of_nat (S n) - 1) with (Z.of_nat n) in * by lia.
      destruct (IH ltac:(lia)) as [Hr Hc].
      rewrite bias_remainder_step by lia. fold p.
      rewrite cumulativeBias_step by lia. rewrite Z.add_assoc.
      apply next_remainder_spec; try lia; assumption. }
  specialize (H (Z.to_nat (f + 1))).
  replace (Z.of_nat (Z.to_nat (f + 1)) - 1) with f in H by lia.
  apply H. lia.
Qed.

Lemma bias_index_eq p inv r :
  0 <= r <= p -> p < 2 ^ 32 -> 0 <= inv < p ->
  bias_index p inv r = ((p - r) * inv) mod p.
Proof.
  intros Hr Hp Hinv. unfold bias_index.
  rewrite wrap32_small by lia.
  unfold wrap64. rewrite (Z.mod_small ((p - r) * inv)); [reflexivity|].
  split; [apply Z.mul_nonneg_nonneg; lia|].
  apply Z.le_lt_trans with (p * p).
  - apply Z.mul_le_mono_nonneg; lia.
  - change (2 ^ 64) with (2 ^ 32 * 2 ^ 32).
    apply Z.mul_lt_mono_nonneg; lia.
Qed.

(** The computed index is the least non-negative solution of
    [tar + x * P + cumulativeBias f = 0 (mod p)]. *)
Lemma offset_index_spec M tar i f :
  sieving_prime M i -> 0 <= tar -> 0 <= f < 6 ->
  let p := zth (primes M) i in
  let x := offset_index M tar i f in
  0 <= x < p
  /\ (tar + x * primorial M + cumulativeBias f) mod p = 0
  /\ forall y, 0 <= y ->
       (tar + y * primorial M + cumulativeBias f) mod p = 0 -> x <= y.
Proof.
  intros Hsp Htar Hf p x.
  pose proof (sp_lower _ _ Hsp) as Hlow. pose proof (sp_upper _ _ Hsp) as Hup.
  pose proof (sp_invert _ _ Hsp) as Hinv. pose proof (sp_inverse _ _ Hsp) as Hlaw.
  fold p in Hlow, Hup, Hinv, Hlaw.
  destruct (bias_remainder_spec M tar i f Hsp Htar ltac:(lia)) as [Hr Hc].
  fold p in Hr, Hc.
  assert (Hx : x = ((p - bias_remainder M tar i f) * zth (inverts M) i) mod p).
  { unfold x, offset_index. fold p. apply bias_index_eq; lia. }
  destruct (index_correct p (primorial M) (zth (inverts M) i)
              (tar + cumulativeBias f) (bias_remainder M tar i f)
              ltac:(lia) Hlaw Hr Hc) as (Hb & Hz & Hmin).
  rewrite <- Hx in Hb, Hz, Hmin.
  split; [exact Hb|]. split.
  - replace (tar + x * primorial M + cumulativeBias f)
      with (tar + cumulativeBias f + x * primorial M) by lia. exact Hz.
  - intros y Hy Hyz. apply Hmin; [exact Hy|].
    replace (tar + cumulativeBias f + y * primorial M)
      with (tar + y * primorial M + cumulativeBias f) by lia. exact Hyz.
Qed.

Lemma flushed_to_app k a b :
  flushed_to k (a ++ b) = flushed_to k a ++ flushed_to k b.
Proof. unfold flushed_to. rewrite filter_app, map_app. reflexivity. Qed.

Lemma flushed_to_nil k : flushed_to k [] = [].
Proof. reflexivity. Qed.

Lemma take_insert_snoc (l : list Z) n x :
  (n < length l)%nat -> take (S n) (<[n := x]> l) = take n l ++ [x].
Proof.
  intros Hn. rewrite (take_S_r _ _ x) by (apply list_lookup_insert_eq; exact Hn).
  rewrite take_insert_ge by lia. reflexivity.
Qed.

Lemma update_bias_once_eq M i p inv f r G stk n :
  update_bias M i p inv true f (r, G, stk, n)
  = (if bias_index p inv (next_remainder p r f) <? max_increments then
       if (0 <=? n) && (Z.to_nat n <? length stk)%nat then
         let stk' := <[Z.to_nat n := wrap32 (bias_index p inv (next_remainder p r f))]> stk in
         if n + 1 >=? OFFSET_STACK_SIZE then
           B ← put_offsets_in_segments (entriesPerSegment M) (buckets G) stk' (n + 1);
           Ok (next_remainder p r f, {| offsets := offsets G; buckets := B |}, stk', 0)
         else Ok (next_remainder p r f, G, stk', n + 1)
       else Err OutOfBounds
     else Ok (next_remainder p r f, G, stk, n)).
Proof. reflexivity. Qed.

(** Pushing one index on the offset stack, with the flush when it fills. *)
Lemma update_bias_once_only M B0 pushed i p inv f r G stk n :
  0 < p ->
  stack_inv (entriesPerSegment M) B0 pushed (buckets G) stk n ->
  let r' := next_remainder p r f in
  let x := bias_index p inv r' in
  x < 2 ^ 32 ->
  match update_bias M i p inv true f (r, G, stk, n) with
  | Ok (r'', G', stk', n') =>
      r'' = r' /\ offsets G' = offsets G
      /\ stack_inv (entriesPerSegment M) B0
           (pushed ++ filter (fun x => x < max_increments) [x])
           (buckets G') stk' n'
  | Err ExitCalled => True
  | Err _ => False
  end.
Proof.
  intros Hp Hinv r' x Hx32.
  assert (Hx0 : 0 <= x) by (apply Z.mod_pos_bound; exact Hp).
  destruct Hinv as [Hwf Hlen Hn Hrange Hcontent Hpush].
  rewrite update_bias_once_eq. cbv zeta. fold r'. fold x.
  rewrite filter_cons, filter_nil.
  destruct (Z.ltb_spec x max_increments) as [Hlt|Hge].
  - destruct (decide (x < max_increments)) as [_|Hn']; [|contradiction].
    destruct (Z.leb_spec 0 n) as [_|Hneg]; [|lia].
    unfold OFFSET_STACK_SIZE in *.
    destruct (Nat.ltb_spec (Z.to_nat n) (length stk)) as [Hin|Hout]; [|lia].
    cbn [andb]. rewrite (wrap32_small x) by lia.
    assert (Htake : take (Z.to_nat (n + 1)) (<[Z.to_nat n := x]> stk)
                    = take (Z.to_nat n) stk ++ [x]).
    { replace (Z.to_nat (n + 1)) with (S (Z.to_nat n)) by lia.
      apply take_insert_snoc. exact Hin. }
    assert (Hrange' : Forall (fun x => 0 <= x < max_increments)
                        (take (Z.to_nat (n + 1)) (<[Z.to_nat n := x]> stk))).
    { rewrite Htake. apply Forall_app. split; [exact Hrange|].
      constructor; [lia | constructor]. }
    destruct (Z.geb_spec (n + 1) 16384) as [Hfull|Hroom].
    + pose proof (put_offsets_spec_nat (entriesPerSegment M)
                    (<[Z.to_nat n := x]> stk) (Z.to_nat (n + 1)) (buckets G) Hwf) as Hput.
      rewrite Z2Nat.id in Hput by lia.
      specialize (Hput ltac:(rewrite length_insert; lia) Hrange').
      destruct (put_offsets_in_segments _ _ _ _) as [B'|e]; cbn.
      * destruct Hput as [Hwf' Hb]. split; [reflexivity|]. split; [reflexivity|].
        constructor; cbn [buckets].
        -- exact Hwf'.
        -- rewrite length_insert. exact Hlen.
        -- unfold OFFSET_STACK_SIZE. lia.
        -- change (Z.to_nat 0) with 0%nat. rewrite take_0. constructor.
        -- intros k Hk. change (Z.to_nat 0) with 0%nat.
           rewrite take_0, flushed_to_nil, app_nil_r.
           rewrite Hb, Htake, flushed_to_app, app_assoc, Hcontent by lia.
           rewrite flushed_to_app, app_assoc. reflexivity.
        -- lia.
      * destruct e; try contradiction. exact I.
    + cbn. split; [reflexivity|]. split; [reflexivity|].
      constructor.
      * exact Hwf.
      * rewrite length_insert. exact Hlen.
      * unfold OFFSET_STACK_SIZE. lia.
      * exact Hrange'.
      * intros k Hk. rewrite Htake, flushed_to_app, app_assoc, Hcontent by lia.
        rewrite flushed_to_app, app_assoc. reflexivity.
      * intros _ Hnil. apply app_eq_nil in Hnil. destruct Hnil as [_ Hnil].
        discriminate Hnil.
  - destruct (decide (x < max_increments)) as [Hlt|_]; [lia|].
    cbn. rewrite app_nil_r. split; [reflexivity|]. split; [reflexivity|].
    constructor; assumption.
Qed.

Lemma update_bias_resident M i p inv f r G stk n :
  update_bias M i p inv false f (r, G, stk, n)
  = Ok (next_remainder p r f,
        {| offsets := set_offset (offsets G) i f
                        (wrap32 (bias_index p inv (next_remainder p r f)));
           buckets := buckets G |},
        stk, n).
Proof. reflexivity. Qed.

Lemma forM_seqZ_S {S : Type} (body : Z -> S -> result S) a (k : nat) s :
  forM body (seqZ a (Z.of_nat (Datatypes.S k))) s
  = (s' ← forM body (seqZ a (Z.of_nat k)) s; body (a + Z.of_nat k) s').
Proof.
  rewrite seqZ_S, forM_app. destruct (forM body _ s) as [s'|e]; [|reflexivity].
  cbn. destruct (body (a + Z.of_nat k) s'); reflexivity.
Qed.

(** The bias loop of one prime, after [k] of its six iterations. *)
Lemma update_biases_spec M B0 pushed tar i G stk n (k : nat) :
  (k <= 6)%nat -> sieving_prime M i -> 0 <= tar ->
  stack_inv (entriesPerSegment M) B0 pushed (buckets G) stk n ->
  let p := zth (primes M) i in
  let once := p >=? max_increments in
  match forM (update_bias M i p (zth (inverts M) i) once) (seqZ 0 (Z.of_nat k))
          (wrap32 (mpz_tdiv_ui tar p), G, stk, n) with
  | Ok (r', G', stk', n') =>
      r' = bias_remainder M tar i (Z.of_nat k - 1)
      /\ stack_inv (entriesPerSegment M) B0
           (pushed ++ (if once then
                         filter (fun x => x < max_increments)
                           (map (offset_index M tar i) (seqZ 0 (Z.of_nat k)))
                       else []))
           (buckets G') stk' n'
      /\ forall i' f', offsets G' i' f'
           = if (i' =? i) && negb once && (0 <=? f') && (f' <? Z.of_nat k)
             then offset_index M tar i f' else offsets G i' f'
  | Err ExitCalled => once = true
  | Err _ => False
  end.
Proof.
  intros Hk Hsp Htar Hinv p once.
  pose proof (sp_lower _ _ Hsp) as Hlow. pose proof (sp_upper _ _ Hsp) as Hup.
  fold p in Hlow, Hup.
  induction k as [|k IH].
  - rewrite seqZ_nil by lia. cbn [forM].
    split; [unfold bias_remainder; cbv zeta; rewrite seqZ_nil by lia; reflexivity|].
    split.
    + cbn [map]. rewrite filter_nil. destruct once; rewrite app_nil_r; exact Hinv.
    + intros i' f'. destruct (f' <? Z.of_nat 0) eqn:E; [apply Z.ltb_lt in E|].
      * destruct (0 <=? f') eqn:E2; [apply Z.leb_le in E2; lia|].
        rewrite !andb_false_r. reflexivity.
      * rewrite !andb_false_r. reflexivity.
  - rewrite forM_seqZ_S. specialize (IH ltac:(lia)).
    destruct (forM _ (seqZ 0 (Z.of_nat k)) _) as [[[[r' G'] stk'] n']|e]; cbn [mbind result_bind].
    2:{ destruct e; try contradiction. exact IH. }
    destruct IH as (Hr & Hinv' & Hoff). rewrite Z.add_0_l.
    assert (Hnext : next_remainder p r' (Z.of_nat k)
                    = bias_remainder M tar i (Z.of_nat (S k) - 1)).
    { replace (Z.of_nat (S k) - 1) with (Z.of_nat k) by lia.
      rewrite bias_remainder_step by lia. fold p. rewrite Hr. reflexivity. }
    assert (Hidx : bias_index p (zth (inverts M) i) (next_remainder p r' (Z.of_nat k))
                   = offset_index M tar i (Z.of_nat k)).
    { rewrite Hnext. unfold offset_index. fold p.
      replace (Z.of_nat (S k) - 1) with (Z.of_nat k) by lia. reflexivity. }
    destruct (offset_index_spec M tar i (Z.of_nat k) Hsp Htar ltac:(lia))
      as (Hxb & _). fold p in Hxb.
    destruct once eqn:Honce.
    + pose proof (update_bias_once_only M B0 _ i p (zth (inverts M) i)
                    (Z.of_nat k) r' G' stk' n' ltac:(lia) Hinv') as Hstep.
      cbv zeta in Hstep. rewrite Hidx in Hstep. specialize (Hstep ltac:(lia)).
      destruct (update_bias _ _ _ _ _ _ _) as [[[[r'' G''] stk''] n'']|e].
      * destruct Hstep as (-> & Ho & Hinv''). split; [exact Hnext|]. split.
        -- rewrite seqZ_S, map_app, filter_app, Z.add_0_l. cbn [map].
           rewrite app_assoc. exact Hinv''.
        -- intros i' f'. rewrite Ho, Hoff. rewrite !andb_false_r. reflexivity.
      * destruct e; try contradiction. reflexivity.
    + rewrite update_bias_resident. rewrite Hidx, Hnext.
      rewrite wrap32_small by lia.
      split; [reflexivity|]. split; [exact Hinv'|].
      intros i' f'. cbn [offsets]. unfold set_offset. rewrite Hoff.
      cbn [negb]. rewrite !andb_true_r.
      destruct (Z.eqb_spec i' i) as [->|Hne]; cbn [andb]; [|reflexivity].
      destruct (Z.eqb_spec f' (Z.of_nat k)) as [->|Hnf].
      * destruct (Z.leb_spec 0 (Z.of_nat k)); [|lia].
        destruct (Z.ltb_spec (Z.of_nat k) (Z.of_nat (S k))); [|lia]. reflexivity.
      * destruct (Z.leb_spec 0 f'); cbn [andb]; [|reflexivity].
        destruct (Z.ltb_spec f' (Z.of_nat k)), (Z.ltb_spec f' (Z.of_nat (S k)));
          try reflexivity; lia.
Qed.

Lemma update_prime_spec M B0 pushed tar i G stk n :
  sieving_prime M i -> 0 <= tar ->
  stack_inv (entriesPerSegment M) B0 pushed (buckets G) stk n ->
  match update_prime M tar i (G, stk, n) with
  | Ok (G', stk', n') =>
      stack_inv (entriesPerSegment M) B0 (pushed ++ once_only_hits M tar i)
        (buckets G') stk' n'
      /\ forall i' f', offsets G' i' f'
           = if (i' =? i) && (zth (primes M) i <? max_increments)
                && (0 <=? f') && (f' <? 6)
             then offset_index M tar i f' else offsets G i' f'
  | Err ExitCalled => max_increments <= zth (primes M) i
  | Err _ => False
  end.
Proof.
  intros Hsp Htar Hinv.
  pose proof (update_biases_spec M B0 pushed tar i G stk n 6 ltac:(lia) Hsp Htar Hinv)
    as H. cbv zeta in H.
  unfold update_prime. cbv zeta. change (Z.of_nat 6) with 6 in H.
  assert (Honce : (zth (primes M) i >=? max_increments)
                  = negb (zth (primes M) i <? max_increments)).
  { destruct (Z.geb_spec (zth (primes M) i) max_increments),
             (Z.ltb_spec (zth (primes M) i) max_increments); try reflexivity; lia. }
  destruct (forM _ (seqZ 0 6) _) as [[[[r' G'] stk'] n']|e]; cbn [mbind result_bind].
  - destruct H as (_ & Hinv' & Hoff). split.
    + unfold once_only_hits. exact Hinv'.
    + intros i' f'. rewrite Hoff, Honce, negb_involutive. reflexivity.
  - destruct e; try contradiction.
    apply Z.geb_le in H. lia.
Qed.

(** The prime loop of [update_remainders] over [count] indices from [start_i]. *)
Lemma update_primes_spec M B0 tar start_i G stk (count : nat) :
  (forall i, start_i <= i < start_i + Z.of_nat count -> sieving_prime M i) ->
  0 <= tar ->
  stack_inv (entriesPerSegment M) B0 [] (buckets G) stk 0 ->
  match forM (update_prime M tar) (seqZ start_i (Z.of_nat count)) (G, stk, 0) with
  | Ok (G', stk', n') =>
      stack_inv (entriesPerSegment M) B0
        (once_only_pushed M tar start_i (start_i + Z.of_nat count))
        (buckets G') stk' n'
      /\ forall i f, offsets G' i f
           = offsets_after M tar (offsets G) start_i (start_i + Z.of_nat count) i f
  | Err ExitCalled =>
      exists i, start_i <= i < start_i + Z.of_nat count
                /\ max_increments <= zth (primes M) i
  | Err _ => False
  end.
Proof.
  intros Hsp Htar Hinv. induction count as [|count IH].
  - rewrite seqZ_nil by lia. cbn [forM]. split.
    + unfold once_only_pushed. rewrite seqZ_nil by lia. exact Hinv.
    + intros i f. unfold offsets_after.
      destruct (Z.leb_spec start_i i), (Z.ltb_spec i (start_i + Z.of_nat 0));
        cbn [andb]; try reflexivity; lia.
  - rewrite forM_seqZ_S.
    specialize (IH ltac:(intros i Hi; apply Hsp; lia)).
    destruct (forM _ (seqZ start_i (Z.of_nat count)) _) as [[[G' stk'] n']|e];
      cbn [mbind result_bind].
    2:{ destruct e; try contradiction. destruct IH as (i & Hi & Hp).
        exists i. split; [lia | exact Hp]. }
    destruct IH as (Hinv' & Hoff).
    assert (Hspc : sieving_prime M (start_i + Z.of_nat count)) by (apply Hsp; lia).
    pose proof (update_prime_spec M B0 _ tar (start_i + Z.of_nat count) G' stk' n'
                  Hspc Htar Hinv') as Hstep.
    destruct (update_prime _ _ _ _) as [[[G'' stk''] n'']|e].
    + destruct Hstep as (Hinv'' & Hoff''). split.
      * unfold once_only_pushed in *.
        replace (start_i + Z.of_nat (S count) - start_i) with (Z.of_nat (S count)) by lia.
        replace (start_i + Z.of_nat count - start_i) with (Z.of_nat count)
          in Hinv'' by lia.
        rewrite seqZ_S, map_app, concat_app. cbn [map concat].
        rewrite app_nil_r. exact Hinv''.
      * intros i f. rewrite Hoff'', Hoff. unfold offsets_after.
        destruct (Z.eqb_spec i (start_i + Z.of_nat count)) as [->|Hne].
        -- destruct (Z.leb_spec start_i (start_i + Z.of_nat count)); [|lia].
           destruct (Z.ltb_spec (start_i + Z.of_nat count)
                       (start_i + Z.of_nat (S count))); [|lia].
           destruct (Z.ltb_spec (start_i + Z.of_nat count)
                       (start_i + Z.of_nat count)); [lia|].
           cbn [andb].
           destruct (zth (primes M) (start_i + Z.of_nat count) <? max_increments),
                    (0 <=? f), (f <? 6); reflexivity.
        -- cbn [andb].
           destruct (Z.leb_spec start_i i); cbn [andb]; [|reflexivity].
           destruct (Z.ltb_spec i (start_i + Z.of_nat count)),
                    (Z.ltb_spec i (start_i + Z.of_nat (S count)));
             try reflexivity; lia.
    + destruct e; try contradiction.
      exists (start_i + Z.of_nat count). split; [lia | exact Hstep].
Qed.

Lemma stack_inv_init eps B stk :
  buckets_wf eps B -> length stk = Z.to_nat OFFSET_STACK_SIZE ->
  stack_inv eps B [] B stk 0.
Proof.
  intros Hwf Hlen. constructor; try assumption.
  - unfold OFFSET_STACK_SIZE. lia.
  - change (Z.to_nat 0) with 0%nat. rewrite take_0. constructor.
  - intros k _. change (Z.to_nat 0) with 0%nat. rewrite take_0. reflexivity.
  - lia.
Qed.

Lemma once_only_pushed_nonempty M tar start_i end_i :
  once_only_pushed M tar start_i end_i <> [] ->
  exists i, start_i <= i < end_i /\ max_increments <= zth (primes M) i.
Proof.
  unfold once_only_pushed. intros Hne.
  destruct (concat (map (once_only_hits M tar) (seqZ start_i (end_i - start_i))))
    as [|x l] eqn:E; [contradiction|].
  assert (Hin : In x (concat (map (once_only_hits M tar)
                                (seqZ start_i (end_i - start_i)))))
    by (rewrite E; left; reflexivity).
  apply in_concat in Hin. destruct Hin as (l' & Hl' & Hx).
  apply in_map_iff in Hl'. destruct Hl' as (i & <- & Hi).
  apply list_elem_of_In, elem_of_seqZ in Hi.
  exists i. split; [lia|].
  unfold once_only_hits in Hx.
  destruct (Z.geb_spec (zth (primes M) i) max_increments); [lia|].
  destruct Hx.
Qed.

(** What [update_remainders] leaves behind. *)
Lemma update_remainders_spec M zt zr stk start_i end_i G :
  (forall i, start_i <= i < end_i -> sieving_prime M i) ->
  0 <= zt + zr -> start_i <= end_i ->
  buckets_wf (entriesPerSegment M) (buckets G) ->
  length stk = Z.to_nat OFFSET_STACK_SIZE ->
  match update_remainders M zt zr stk start_i end_i G with
  | Ok (G', stk') =>
      buckets_wf (entriesPerSegment M) (buckets G')
      /\ length stk' = Z.to_nat OFFSET_STACK_SIZE
      /\ (forall k, 0 <= k ->
            bucket (buckets G') k
            = bucket (buckets G) k
              ++ flushed_to k (once_only_pushed M (zt + zr) start_i end_i))
      /\ forall i f, offsets G' i f
           = offsets_after M (zt + zr) (offsets G) start_i end_i i f
  | Err ExitCalled =>
      exists i, start_i <= i < end_i /\ max_increments <= zth (primes M) i
  | Err _ => False
  end.
Proof.
  intros Hsp Htar Hse Hwf Hlen.
  unfold update_remainders, mpz_add. cbv zeta.
  pose proof (update_primes_spec M (buckets G) (zt + zr) start_i G stk
                (Z.to_nat (end_i - start_i))) as H.
  rewrite Z2Nat.id in H by lia.
  replace (start_i + (end_i - start_i)) with end_i in H by lia.
  specialize (H Hsp Htar (stack_inv_init _ _ _ Hwf Hlen)).
  destruct (forM _ (seqZ start_i (end_i - start_i)) _) as [[[G' stk'] n']|e];
    cbn [mbind result_bind].
  2:{ destruct e; try contradiction. exact H. }
  destruct H as ([Hwf' Hlen' Hn' Hrange Hcontent Hpush] & Hoff).
  destruct (Z.gtb_spec n' 0) as [Hpos|Hzero].
  - pose proof (put_offsets_spec_nat (entriesPerSegment M) stk' (Z.to_nat n')
                  (buckets G') Hwf') as Hput.
    rewrite Z2Nat.id in Hput by lia.
    unfold OFFSET_STACK_SIZE in *.
    specialize (Hput ltac:(lia) Hrange).
    destruct (put_offsets_in_segments _ _ _ _) as [B'|e]; cbn.
    + destruct Hput as [Hwf'' Hb].
      split; [exact Hwf''|]. split; [exact Hlen'|]. split; [|exact Hoff].
      intros k Hk. rewrite Hb by lia. apply Hcontent; lia.
    + destruct e; try contradiction.
      apply once_only_pushed_nonempty with (tar := zt + zr). apply Hpush. lia.
  - assert (n' = 0) by lia. subst n'. cbn.
    split; [exact Hwf'|]. split; [exact Hlen'|]. split; [|exact Hoff].
    intros k Hk. specialize (Hcontent k Hk).
    change (Z.to_nat 0) with 0%nat in Hcontent.
    rewrite take_0, flushed_to_nil, app_nil_r in Hcontent. exact Hcontent.
Qed.

Lemma fresh_buckets_wf eps : 0 <= eps < 2 ^ 32 -> buckets_wf eps (fresh_buckets eps).
Proof.
  intros Heps. constructor; cbn [fresh_buckets segment_counts segment_hits].
  - exact Heps.
  - apply length_replicate.
  - apply length_replicate.
  - intros k row Hrow. apply lookup_replicate in Hrow. destruct Hrow as [-> _].
    apply length_replicate.
  - intros k c Hc. apply lookup_replicate in Hc. destruct Hc as [-> _]. lia.
Qed.

Lemma fresh_stack_length : length fresh_stack = Z.to_nat OFFSET_STACK_SIZE.
Proof. apply length_replicate. Qed.

Lemma miner_1000_initialised : initialised miner_1000.
Proof.
  constructor.
  - reflexivity.
  - apply prime_table_b_correct. vm_compute. reflexivity.
  - vm_compute. split; discriminate.
Qed.

(** The offsets of the resident primes after [update_remainders]. *)
Lemma update_remainders_resident M zTarget zRemainderPrimorial stk start_i end_i G :
  initialised M ->
  0 <= zTarget + zRemainderPrimorial ->
  primorialNumber M <= start_i -> start_i <= end_i <= nPrimes M ->
  buckets_wf (entriesPerSegment M) (buckets G) ->
  length stk = Z.to_nat OFFSET_STACK_SIZE ->
  match update_remainders M zTarget zRemainderPrimorial stk start_i end_i G with
  | Ok (G', _) =>
      forall i f,
        start_i <= i < end_i -> zth (primes M) i < max_increments -> 0 <= f < 6 ->
        let p := zth (primes M) i in
        let x := offsets G' i f in
        0 <= x < p
        /\ (zTarget + zRemainderPrimorial + x * primorial M + cumulativeBias f)
             mod p = 0
        /\ forall y, 0 <= y ->
             (zTarget + zRemainderPrimorial + y * primorial M + cumulativeBias f)
               mod p = 0 -> x <= y
  | Err ExitCalled =>
      exists i, start_i <= i < end_i /\ max_increments <= zth (primes M) i
  | Err _ => False
  end.
Proof.
  intros Hinit Htar Hm Hse Hwf Hlen.
  assert (Hsp : forall i, start_i <= i < end_i -> sieving_prime M i)
    by (intros i Hi; apply initialised_sieving_prime; [exact Hinit | lia]).
  pose proof (update_remainders_spec M zTarget zRemainderPrimorial stk start_i end_i G
                Hsp Htar ltac:(lia) Hwf Hlen) as H.
  destruct (update_remainders _ _ _ _ _ _ _) as [[G' stk']|e]; [|exact H].
  destruct H as (_ & _ & _ & Hoff).
  intros i f Hi Hres Hf p x. unfold x. rewrite Hoff. unfold offsets_after.
  destruct (Z.leb_spec start_i i); [|lia].
  destruct (Z.ltb_spec i end_i); [|lia].
  destruct (Z.ltb_spec (zth (primes M) i) max_increments); [|lia].
  destruct (Z.leb_spec 0 f); [|lia].
  destruct (Z.ltb_spec f 6); [|lia].
  cbn [andb]. apply offset_index_spec; [apply Hsp; lia | exact Htar | lia].
Qed.

(** C1.  After [update_remainders start end] has run with [m <= start], for
    every prime index [i] in [[start, end)] whose prime is below
    [maxIncrements] and every bias [f] in 0..5 the stored offset [x]
    satisfies [(zTarget + zRemainderPrimorial + x * P + cumulativeBias f)
    mod primes[i] = 0] and is the smallest non-negative integer that does.
    The run can only end otherwise by the bucket-overflow exit, and then a
    once-only prime lies in the range. *)
Theorem update_remainders_offsets M zTarget zRemainderPrimorial stk start_i end_i G :
  initialised M ->
  0 <= zTarget + zRemainderPrimorial ->
  primorialNumber M <= start_i -> start_i <= end_i <= nPrimes M ->
  buckets_wf (entriesPerSegment M) (buckets G) ->
  length stk = Z.to_nat OFFSET_STACK_SIZE ->
  match update_remainders M zTarget zRemainderPrimorial stk start_i end_i G with
  | Ok (G', _) =>
      forall i f,
        start_i <= i < end_i -> zth (primes M) i < max_increments -> 0 <= f < 6 ->
        let p := zth (primes M) i in
        let x := offsets G' i f in
        0 <= x < p
        /\ (zTarget + zRemainderPrimorial + x * primorial M + cumulativeBias f)
             mod p = 0
        /\ forall y, 0 <= y ->
             (zTarget + zRemainderPrimorial + y * primorial M + cumulativeBias f)
               mod p = 0 -> x <= y
  | Err ExitCalled =>
      exists i, start_i <= i < end_i /\ max_increments <= zth (primes M) i
  | Err _ => False
  end.
Proof.
  intros Hinit Htar Hm Hse Hwf Hlen.
  exact (update_remainders_resident M zTarget zRemainderPrimorial stk start_i end_i G
           Hinit Htar Hm Hse Hwf Hlen).
Qed.

Lemma update_remainders_offsets_witness :
  let zTarget := getTargetFromBlock (fun _ => digest_seq) (replicate 80 0) 304 in
  let R := remainderPrimorial zTarget (primorial miner_1000) in
  initialised miner_1000
  /\ 0 <= zTarget + R
  /\ primorialNumber miner_1000 <= 40
  /\ 40 <= 168 <= nPrimes miner_1000
  /\ match update_remainders miner_1000 zTarget R fresh_stack 40 168
             (fresh_globals (entriesPerSegment miner_1000)) with
     | Ok (G', _) =>
         forall i f,
           40 <= i < 168 -> zth (primes miner_1000) i < max_increments -> 0 <= f < 6 ->
           let p := zth (primes miner_1000) i in
           let x := offsets G' i f in
           0 <= x < p
           /\ (zTarget + R + x * primorial miner_1000 + cumulativeBias f) mod p = 0
           /\ forall y, 0 <= y ->
                (zTarget + R + y * primorial miner_1000 + cumulativeBias f) mod p = 0 ->
                x <= y
     | Err ExitCalled =>
         exists i, 40 <= i < 168 /\ max_increments <= zth (primes miner_1000) i
     | Err _ => False
     end.
Proof.
  intros zTarget R.
  assert (H1 : initialised miner_1000) by exact miner_1000_initialised.
  assert (H2 : 0 <= zTarget + R) by (vm_compute; discriminate).
  assert (H3 : primorialNumber miner_1000 <= 40) by (vm_compute; discriminate).
  assert (H4 : 40 <= 168 <= nPrimes miner_1000) by (vm_compute; split; discriminate).
  split; [exact H1|]. split; [exact H2|]. split; [exact H3|]. split; [exact H4|].
  apply (update_remainders_offsets miner_1000 zTarget R fresh_stack 40 168
           (fresh_globals (entriesPerSegment miner_1000)) H1 H2 H3 H4).
  - apply fresh_buckets_wf. vm_compute. split; [discriminate | reflexivity].
  - exact fresh_stack_length.
Defined.

(** ** Bitmaps *)

Lemma shiftr3_land7 n : 0 <= n -> 8 * Z.shiftr n 3 + Z.land n 7 = n.
Proof.
  intros Hn. rewrite Z.shiftr_div_pow2 by lia.
  change 7 with (Z.ones 3). rewrite Z.land_ones by lia.
  change (2 ^ 3) with 8. pose proof (Z.div_mod n 8 ltac:(lia)). lia.
Qed.

Lemma bitmap_set_pow2 a n : 0 <= n -> bitmap_set a n = Z.lor a (2 ^ n).
Proof.
  intros Hn. unfold bitmap_set, byte_or. f_equal.
  assert (Hk : 0 <= Z.land n 7 < 8).
  { change 7 with (Z.ones 3). rewrite Z.land_ones by lia.
    change (2 ^ 3) with 8. apply Z.mod_pos_bound. lia. }
  assert (Hq : 0 <= Z.shiftr n 3) by (apply Z.shiftr_nonneg; lia).
  rewrite Z.shiftl_1_l. unfold wrap8.
  rewrite Z.mod_small.
  - rewrite Z.shiftl_mul_pow2 by lia. rewrite <- Z.pow_add_r by lia.
    f_equal. pose proof (shiftr3_land7 n Hn). lia.
  - split; [apply Z.pow_nonneg; lia|].
    apply Z.pow_lt_mono_r; lia.
Qed.

Lemma bitmap_set_testbit a n j :
  0 <= n -> Z.testbit (bitmap_set a n) j = Z.testbit a j || (j =? n).
Proof.
  intros Hn. rewrite bitmap_set_pow2 by exact Hn.
  rewrite Z.lor_spec, Z.pow2_bits_eqb by exact Hn.
  rewrite (Z.eqb_sym n j). reflexivity.
Qed.

(** ** One sieve loop *)

Lemma steps_nonneg p off : 0 < p -> 0 <= steps p off.
Proof.
  intros Hp. unfold steps. rewrite sieveSize_val.
  destruct (Z.ltb_spec off 16777216); [|lia].
  assert (0 <= (16777216 - 1 - off) / p) by (apply Z.div_pos; lia). lia.
Qed.

Lemma steps_step p off :
  0 < p -> off < riecoin_sieveSize -> steps p off = steps p (off + p) + 1.
Proof.
  intros Hp Hoff. unfold steps. rewrite sieveSize_val in *.
  destruct (Z.ltb_spec off 16777216); [|lia].
  destruct (Z.ltb_spec (off + p) 16777216).
  - replace (16777216 - 1 - off) with ((16777216 - 1 - (off + p)) + 1 * p) by lia.
    rewrite Z.div_add by lia. lia.
  - rewrite Z.div_small by lia. lia.
Qed.

Lemma steps_bound p off :
  0 < p -> 0 <= off -> steps p off <= riecoin_sieveSize.
Proof.
  intros Hp Hoff. unfold steps. rewrite sieveSize_val.
  destruct (Z.ltb_spec off 16777216); [|lia].
  assert ((16777216 - 1 - off) / p <= 16777216 - 1 - off)
    by (apply Z.div_le_upper_bound; nia).
  lia.
Qed.

Lemma advance_range p off :
  0 < p -> 0 <= off < p -> 0 <= advance p off < p.
Proof.
  intros Hp Hoff. unfold advance, steps. rewrite sieveSize_val.
  destruct (Z.ltb_spec off 16777216); [|lia].
  pose proof (Z.div_mod (16777216 - 1 - off) p ltac:(lia)) as Hdm.
  pose proof (Z.mod_pos_bound (16777216 - 1 - off) p Hp) as Hm.
  nia.
Qed.

Lemma marks_step p off j :
  0 < p -> 0 <= off < riecoin_sieveSize ->
  marks p off j = (j =? off) || marks p (off + p) j.
Proof.
  intros Hp Hoff. unfold marks.
  destruct (Z.eqb_spec j off) as [->|Hne].
  - rewrite Z.sub_diag, Z.mod_0_l by lia.
    destruct (Z.leb_spec off off); [|lia].
    destruct (Z.ltb_spec off riecoin_sieveSize); [|lia]. reflexivity.
  - cbn [orb].
    replace (j - off) with ((j - (off + p)) + 1 * p) by lia.
    rewrite Z.mod_add by lia.
    destruct (Z.eqb_spec ((j - (off + p)) mod p) 0) as [E|E];
      [|rewrite !andb_false_r; reflexivity].
    rewrite !andb_true_r.
    destruct (Z.ltb_spec j riecoin_sieveSize); [|rewrite !andb_false_r; reflexivity].
    rewrite !andb_true_r.
    destruct (Z.leb_spec off j), (Z.leb_spec (off + p) j); try reflexivity; try lia.
    exfalso. assert (Hs : 0 <= j - off < p) by lia.
    replace (j - (off + p)) with ((j - off) + (-1) * p) in E by lia.
    rewrite Z.mod_add, Z.mod_small in E by lia. lia.
Qed.

Lemma marks_beyond p off j : riecoin_sieveSize <= off -> marks p off j = false.
Proof.
  intros Hoff. unfold marks.
  destruct (Z.leb_spec off j), (Z.ltb_spec j riecoin_sieveSize);
    try reflexivity; lia.
Qed.

(** The loop without a ring: it ends, adds [p] without wrapping and sets
    exactly the bits [marks] describes. *)
Lemma sieve_while_direct_spec fuel :
  forall p off sieve,
    0 < p -> 0 <= off -> riecoin_sieveSize + p <= 2 ^ 32 ->
    (Z.to_nat (steps p off) < fuel)%nat ->
    exists sieve',
      sieve_while_direct fuel p off sieve = Ok (sieve', off + steps p off * p)
      /\ forall j, Z.testbit sieve' j = Z.testbit sieve j || marks p off j.
Proof.
  induction fuel as [|fuel IH]; intros p off sieve Hp Hoff Hwrap Hfuel; [lia|].
  cbn [sieve_while_direct].
  destruct (Z.ltb_spec off riecoin_sieveSize) as [Hlt|Hge].
  - rewrite wrap32_small by lia.
    pose proof (steps_step p off Hp Hlt) as Hs.
    pose proof (steps_nonneg p (off + p) Hp) as Hnn.
    destruct (IH p (off + p) (bitmap_set sieve off) Hp ltac:(lia) Hwrap ltac:(lia))
      as (sieve' & Hrun & Hbits).
    exists sieve'. rewrite Hrun. split; [f_equal; f_equal; lia|].
    intros j. rewrite Hbits, bitmap_set_testbit by lia.
    rewrite (marks_step p off j) by lia. rewrite orb_assoc. reflexivity.
  - exists sieve. unfold steps.
    destruct (Z.ltb_spec off riecoin_sieveSize); [lia|].
    split; [f_equal; f_equal; lia|].
    intros j. rewrite marks_beyond by lia. rewrite orb_false_r. reflexivity.
Qed.

(** ** The prefetch ring *)

Lemma mark_pending_spec sieve old :
  0 <= old < riecoin_sieveSize ->
  exists sieve',
    mark_pending sieve old = Ok sieve'
    /\ forall j, Z.testbit sieve' j
                 = Z.testbit sieve j || (negb (j =? 0) && (j =? old)).
Proof.
  intros Hold. unfold mark_pending.
  destruct (Z.eqb_spec old 0) as [->|Hne].
  - exists sieve. split; [reflexivity|]. intros j.
    destruct (j =? 0); rewrite orb_false_r; reflexivity.
  - destruct (Z.ltb_spec old riecoin_sieveSize); [|lia].
    eexists. split; [reflexivity|]. intros j.
    rewrite bitmap_set_testbit by lia.
    destruct (Z.eqb_spec j old) as [->|Hjo]; [|rewrite !andb_false_r; reflexivity].
    destruct (Z.eqb_spec old 0); [lia|]. reflexivity.
Qed.

Lemma existsb_lookup (P : Z -> bool) (l : list Z) i old :
  l !! i = Some old ->
  existsb P l = P old || existsb P (take i l ++ drop (S i) l).
Proof.
  intros Hl. rewrite <- (take_drop_middle l i old Hl) at 1.
  rewrite !existsb_app. cbn [existsb].
  destruct (existsb P (take i l)), (P old), (existsb P (drop (S i) l)); reflexivity.
Qed.

Lemma existsb_insert (P : Z -> bool) (l : list Z) i x :
  (i < length l)%nat ->
  existsb P (<[i := x]> l) = P x || existsb P (take i l ++ drop (S i) l).
Proof.
  intros Hi. rewrite insert_take_drop by exact Hi.
  rewrite !existsb_app. cbn [existsb].
  destruct (existsb P (take i l)), (P x), (existsb P (drop (S i) l)); reflexivity.
Qed.

Lemma ring_next_pos pos :
  0 <= pos < PENDING_SIZE -> 0 <= Z.land (wrap32 (pos + 1)) 15 < PENDING_SIZE.
Proof.
  unfold PENDING_SIZE. intros Hpos. rewrite wrap32_small by lia.
  change 15 with (Z.ones 4). rewrite Z.land_ones by lia.
  change (2 ^ 4) with 16. apply Z.mod_pos_bound. lia.
Qed.

Lemma add_to_pending_spec sieve pending pos ent :
  ring_ok pending pos -> 0 <= ent < riecoin_sieveSize ->
  exists sieve' pending' pos',
    add_to_pending sieve pending pos ent = Ok (sieve', pending', pos')
    /\ ring_ok pending' pos'
    /\ (forall j, ring_view sieve' pending' j
                  = ring_view sieve pending j || (negb (j =? 0) && (j =? ent)))
    /\ Z.testbit sieve' 0 = Z.testbit sieve 0.
Proof.
  intros [Hlen Hpos Hrange] Hent. unfold add_to_pending.
  destruct (lookup_lt_is_Some_2 pending (Z.to_nat pos)) as [old Hold];
    [rewrite Hlen; lia|].
  rewrite Hold.
  assert (Holdr : 0 <= old < riecoin_sieveSize).
  { rewrite Forall_forall in Hrange. apply Hrange.
    apply list_elem_of_lookup. exists (Z.to_nat pos). exact Hold. }
  destruct (mark_pending_spec sieve old Holdr) as (sieve' & -> & Hbits).
  cbn [mbind result_bind].
  exists sieve', (<[Z.to_nat pos := ent]> pending), (Z.land (wrap32 (pos + 1)) 15).
  split; [reflexivity|]. split; [|split].
  - constructor.
    + rewrite length_insert. exact Hlen.
    + apply ring_next_pos. exact Hpos.
    + apply Forall_insert; assumption.
  - intros j. unfold ring_view. rewrite Hbits.
    rewrite (existsb_insert _ pending) by (rewrite Hlen; lia).
    rewrite (existsb_lookup _ pending _ old Hold).
    destruct (Z.testbit sieve j), (j =? 0), (j =? old), (j =? ent),
      (existsb (Z.eqb j) (take (Z.to_nat pos) pending ++ drop (S (Z.to_nat pos)) pending));
      reflexivity.
  - rewrite Hbits. rewrite orb_false_r. reflexivity.
Qed.

Lemma init_pending_eq : init_pending (new_array PENDING_SIZE) = replicate 16 0.
Proof. reflexivity. Qed.

Lemma ring_ok_init : ring_ok (init_pending (new_array PENDING_SIZE)) 0.
Proof.
  rewrite init_pending_eq. constructor.
  - reflexivity.
  - unfold PENDING_SIZE. lia.
  - apply Forall_forall. intros x Hx. apply elem_of_replicate in Hx.
    destruct Hx as [-> _]. rewrite sieveSize_val. lia.
Qed.

Lemma ring_view_init sieve j :
  ring_view sieve (init_pending (new_array PENDING_SIZE)) j = Z.testbit sieve j.
Proof.
  rewrite init_pending_eq. unfold ring_view. cbn [replicate existsb].
  destruct (Z.eqb_spec j 0) as [->|Hne]; cbn; rewrite ?orb_false_r; reflexivity.
Qed.

Lemma flush_pending_prefix sieve pending pos (k : nat) :
  ring_ok pending pos -> (k <= 16)%nat ->
  exists sieve',
    forM (fun i sieve =>
            match pending !! Z.to_nat i with
            | None => Err OutOfBounds
            | Some old => mark_pending sieve old
            end) (seqZ 0 (Z.of_nat k)) sieve = Ok sieve'
    /\ forall j, Z.testbit sieve' j
                 = Z.testbit sieve j
                   || (negb (j =? 0) && existsb (Z.eqb j) (take k pending)).
Proof.
  intros [Hlen Hpos Hrange] Hk. induction k as [|k IH].
  - exists sieve. rewrite seqZ_nil by lia. split; [reflexivity|].
    intros j. rewrite take_0. cbn [existsb]. rewrite andb_false_r, orb_false_r.
    reflexivity.
  - destruct (IH ltac:(lia)) as (s & Hrun & Hbits).
    rewrite forM_seqZ_S, Hrun. cbn [mbind result_bind].
    rewrite Z.add_0_l, Nat2Z.id.
    destruct (lookup_lt_is_Some_2 pending k) as [old Hold];
      [rewrite Hlen; unfold PENDING_SIZE; lia|].
    rewrite Hold.
    assert (Holdr : 0 <= old < riecoin_sieveSize).
    { rewrite Forall_forall in Hrange. apply Hrange.
      apply list_elem_of_lookup. exists k. exact Hold. }
    destruct (mark_pending_spec s old Holdr) as (s' & -> & Hbits').
    exists s'. split; [reflexivity|]. intros j.
    rewrite Hbits', Hbits, (take_S_r _ _ _ Hold), existsb_app. cbn [existsb].
    destruct (Z.testbit sieve j), (j =? 0), (j =? old),
      (existsb (Z.eqb j) (take k pending)); reflexivity.
Qed.

Lemma flush_pending_spec sieve pending pos :
  ring_ok pending pos ->
  exists sieve',
    flush_pending sieve pending = Ok sieve'
    /\ (forall j, Z.testbit sieve' j = ring_view sieve pending j)
    /\ Z.testbit sieve' 0 = Z.testbit sieve 0.
Proof.
  intros Hok. destruct (flush_pending_prefix sieve pending pos 16 Hok ltac:(lia))
    as (sieve' & Hrun & Hbits).
  exists sieve'. split; [exact Hrun|].
  assert (Htake : take 16 pending = pending).
  { apply take_ge. rewrite (ring_len _ _ Hok). unfold PENDING_SIZE. lia. }
  rewrite Htake in Hbits. split.
  - intros j. rewrite Hbits. reflexivity.
  - rewrite Hbits. cbn. rewrite orb_false_r. reflexivity.
Qed.

(** The loop with the ring: same iterations and final offset as the direct
    loop; the bits reach the bitmap or wait in the ring, except position 0. *)
Lemma sieve_while_pending_spec fuel :
  forall p off sieve pending pos,
    0 < p -> 0 <= off -> riecoin_sieveSize + p <= 2 ^ 32 ->
    (Z.to_nat (steps p off) < fuel)%nat ->
    ring_ok pending pos ->
    exists sieve' pending' pos',
      sieve_while_pending fuel p off sieve pending pos
      = Ok (sieve', pending', pos', off + steps p off * p)
      /\ ring_ok pending' pos'
      /\ (forall j, ring_view sieve' pending' j
                    = ring_view sieve pending j || (negb (j =? 0) && marks p off j))
      /\ Z.testbit sieve' 0 = Z.testbit sieve 0.
Proof.
  induction fuel as [|fuel IH]; intros p off sieve pending pos Hp Hoff Hwrap Hfuel Hok;
    [lia|].
  cbn [sieve_while_pending].
  destruct (Z.ltb_spec off riecoin_sieveSize) as [Hlt|Hge].
  - destruct (add_to_pending_spec sieve pending pos off Hok ltac:(lia))
      as (s1 & pd1 & pos1 & -> & Hok1 & Hview1 & Hzero1).
    cbn [mbind result_bind]. rewrite wrap32_small by lia.
    pose proof (steps_step p off Hp Hlt) as Hs.
    pose proof (steps_nonneg p (off + p) Hp) as Hnn.
    destruct (IH p (off + p) s1 pd1 pos1 Hp ltac:(lia) Hwrap ltac:(lia) Hok1)
      as (s2 & pd2 & pos2 & Hrun & Hok2 & Hview2 & Hzero2).
    exists s2, pd2, pos2. rewrite Hrun.
    split; [f_equal; f_equal; lia|]. split; [exact Hok2|]. split.
    + intros j. rewrite Hview2, Hview1, (marks_step p off j) by lia.
      destruct (ring_view sieve pending j), (j =? 0), (j =? off),
        (marks p (off + p) j); reflexivity.
    + congruence.
  - exists sieve, pending, pos. unfold steps.
    destruct (Z.ltb_spec off riecoin_sieveSize); [lia|].
    split; [f_equal; f_equal; lia|]. split; [exact Hok|]. split; [|reflexivity].
    intros j. rewrite marks_beyond by lia. rewrite andb_false_r, orb_false_r.
    reflexivity.
Qed.

Lemma advance_wrap p off :
  0 < p -> 0 <= off -> riecoin_sieveSize + p <= 2 ^ 32 -> off < 2 ^ 32 ->
  wrap32 (off + steps p off * p - riecoin_sieveSize) = advance p off
  /\ 0 <= advance p off.
Proof.
  intros Hp Hoff Hwrap H32. unfold advance.
  assert (H : riecoin_sieveSize <= off + steps p off * p
              /\ off + steps p off * p < 2 ^ 32).
  { unfold steps. rewrite sieveSize_val in *.
    destruct (Z.ltb_spec off 16777216); [|lia].
    pose proof (Z.div_mod (16777216 - 1 - off) p ltac:(lia)) as Hdm.
    pose proof (Z.mod_pos_bound (16777216 - 1 - off) p Hp) as Hm.
    nia. }
  rewrite sieveSize_val in *.
  rewrite wrap32_small by lia. lia.
Qed.

(** Case analysis on the integer comparisons of a goal. *)
Ltac zbool :=
  repeat match goal with
    | |- context [Z.eqb ?a ?b] => destruct (Z.eqb_spec a b)
    | |- context [Z.leb ?a ?b] => destruct (Z.leb_spec a b)
    | |- context [Z.ltb ?a ?b] => destruct (Z.ltb_spec a b)
    end;
  cbn [andb orb negb]; try reflexivity; try lia.

(** ** A pass of [process_sieve] *)

Lemma process_sieve_biases_spec fuel pno p (k : nat) sieve pending pos o :
  (k <= 6)%nat -> 0 < p -> riecoin_sieveSize + p <= 2 ^ 32 ->
  (forall f, 0 <= f < 6 -> 0 <= o pno f < 2 ^ 32) ->
  (Z.to_nat riecoin_sieveSize < fuel)%nat ->
  ring_ok pending pos ->
  exists sieve' pending' pos' o',
    forM (process_sieve_bias fuel pno p) (seqZ 0 (Z.of_nat k)) (sieve, pending, pos, o)
    = Ok (sieve', pending', pos', o')
    /\ ring_ok pending' pos'
    /\ (forall j, ring_view sieve' pending' j
                  = ring_view sieve pending j
                    || (negb (j =? 0)
                        && existsb (fun f => marks p (o pno f) j) (seqZ 0 (Z.of_nat k))))
    /\ Z.testbit sieve' 0 = Z.testbit sieve 0
    /\ forall pno' f', o' pno' f'
         = if (pno' =? pno) && (0 <=? f') && (f' <? Z.of_nat k)
           then advance p (o pno f') else o pno' f'.
Proof.
  intros Hk Hp Hwrap Ho Hfuel Hok. induction k as [|k IH].
  - exists sieve, pending, pos, o. rewrite seqZ_nil by lia.
    split; [reflexivity|]. split; [exact Hok|]. split; [|split; [reflexivity|]].
    + intros j. cbn [existsb]. rewrite andb_false_r, orb_false_r. reflexivity.
    + intros pno' f'. zbool.
  - destruct (IH ltac:(lia)) as (s1 & pd1 & pos1 & o1 & Hrun & Hok1 & Hview1 & Hz1 & Ho1).
    rewrite forM_seqZ_S, Hrun. cbn [mbind result_bind]. rewrite Z.add_0_l.
    unfold process_sieve_bias at 1.
    assert (Hcell : o1 pno (Z.of_nat k) = o pno (Z.of_nat k)).
    { rewrite Ho1. zbool. }
    rewrite Hcell.
    destruct (Ho (Z.of_nat k) ltac:(lia)) as [Hc0 Hc32].
    assert (Hfuel' : (Z.to_nat (steps p (o pno (Z.of_nat k))) < fuel)%nat).
    { pose proof (steps_bound p (o pno (Z.of_nat k)) Hp Hc0).
      pose proof (steps_nonneg p (o pno (Z.of_nat k)) Hp). lia. }
    destruct (sieve_while_pending_spec fuel p (o pno (Z.of_nat k)) s1 pd1 pos1
                Hp Hc0 Hwrap Hfuel' Hok1)
      as (s2 & pd2 & pos2 & -> & Hok2 & Hview2 & Hz2).
    cbn [mbind result_bind].
    destruct (advance_wrap p (o pno (Z.of_nat k)) Hp Hc0 Hwrap Hc32) as [-> _].
    eexists s2, pd2, pos2, _. split; [reflexivity|]. split; [exact Hok2|].
    split; [|split; [congruence|]].
    + intros j. rewrite Hview2, Hview1, seqZ_S, existsb_app, Z.add_0_l.
      cbn [existsb]. rewrite orb_false_r.
      destruct (ring_view sieve pending j), (j =? 0),
        (existsb (fun f => marks p (o pno f) j) (seqZ 0 (Z.of_nat k))),
        (marks p (o pno (Z.of_nat k)) j); reflexivity.
    + intros pno' f'. unfold set_offset. rewrite Ho1.
      destruct (Z.eqb_spec pno' pno) as [->|Hne]; cbn [andb]; [|reflexivity].
      destruct (Z.eqb_spec f' (Z.of_nat k)) as [->|Hnf]; zbool.
Qed.

Lemma existsb_ext_in {A : Type} (P Q : A -> bool) (l : list A) :
  (forall x, In x l -> P x = Q x) -> existsb P l = existsb Q l.
Proof.
  induction l as [|a l IH]; intros H; [reflexivity|]. cbn [existsb].
  rewrite (H a (or_introl eq_refl)), IH; [reflexivity|].
  intros x Hx. apply H. right. exact Hx.
Qed.

Lemma process_sieve_primes_spec M m fuel lo (c : nat) sieve o :
  pass_ready M m o lo (lo + Z.of_nat c) ->
  (Z.to_nat riecoin_sieveSize < fuel)%nat ->
  forall pending pos, ring_ok pending pos ->
  exists sieve' pending' pos' o',
    forM (process_sieve_prime M m fuel) (seqZ lo (Z.of_nat c)) (sieve, pending, pos, o)
    = Ok (sieve', pending', pos', o')
    /\ ring_ok pending' pos'
    /\ (forall j, ring_view sieve' pending' j
                  = ring_view sieve pending j
                    || (negb (j =? 0) && marked_by M m o lo (lo + Z.of_nat c) j))
    /\ Z.testbit sieve' 0 = Z.testbit sieve 0
    /\ forall pno f, o' pno f = advance_all M m o lo (lo + Z.of_nat c) pno f.
Proof.
  intros Hready Hfuel pending pos Hok. induction c as [|c IH].
  - exists sieve, pending, pos, o. rewrite seqZ_nil by lia.
    split; [reflexivity|]. split; [exact Hok|]. split; [|split; [reflexivity|]].
    + intros j. unfold marked_by. rewrite (seqZ_nil lo) by lia. cbn [existsb].
      rewrite andb_false_r, orb_false_r. reflexivity.
    + intros pno f. unfold advance_all. zbool.
  - destruct Hready as (Hlo & Hhi & Hprimes).
    assert (Hready' : pass_ready M m o lo (lo + Z.of_nat c)).
    { split; [exact Hlo|]. split; [lia|]. intros i Hi. apply Hprimes. lia. }
    destruct (IH Hready') as (s1 & pd1 & pos1 & o1 & Hrun & Hok1 & Hview1 & Hz1 & Ho1).
    rewrite forM_seqZ_S, Hrun. cbn [mbind result_bind].
    unfold process_sieve_prime at 1. cbv zeta.
    destruct (Hprimes (lo + Z.of_nat c) ltac:(lia)) as (Hp & Hwrap & Hoff).
    rewrite (wrap32_small (lo + Z.of_nat c + m)) by lia.
    set (pno := lo + Z.of_nat c + m) in *.
    assert (Hcell : forall f, o1 pno f = o pno f).
    { intros f. rewrite Ho1. unfold advance_all, pno. zbool. }
    assert (Hoff1 : forall f, 0 <= f < 6 -> 0 <= o1 pno f < 2 ^ 32).
    { intros f Hf. rewrite Hcell. apply Hoff. exact Hf. }
    destruct (process_sieve_biases_spec fuel pno (zth (primes M) pno) 6 s1 pd1 pos1 o1
                ltac:(lia) Hp Hwrap Hoff1 Hfuel Hok1)
      as (s2 & pd2 & pos2 & o2 & Hrun2 & Hok2 & Hview2 & Hz2 & Ho2).
    change (Z.of_nat 6) with 6 in Hrun2, Hview2, Ho2.
    exists s2, pd2, pos2, o2. split; [exact Hrun2|]. split; [exact Hok2|].
    split; [|split; [congruence|]].
    + intros j. rewrite Hview2, Hview1. unfold marked_by.
      replace (lo + Z.of_nat (S c) - lo) with (Z.of_nat (S c)) by lia.
      replace (lo + Z.of_nat c - lo) with (Z.of_nat c) by lia.
      rewrite seqZ_S, existsb_app. cbn [existsb]. rewrite orb_false_r. fold pno.
      rewrite (existsb_ext_in (fun f => marks (zth (primes M) pno) (o1 pno f) j)
                 (fun f => marks (zth (primes M) pno) (o pno f) j))
        by (intros f _; rewrite Hcell; reflexivity).
      destruct (ring_view sieve pending j), (j =? 0),
        (existsb _ (seqZ lo (Z.of_nat c))), (existsb _ (seqZ 0 6)); reflexivity.
    + intros pno' f. rewrite Ho2, (Hcell f), Ho1. unfold advance_all.
      destruct (Z.eqb_spec pno' pno) as [->|Hne]; unfold pno in *; zbool.
Qed.

(** [process_sieve] over [start_i .. end_i): it returns, leaves every
    offset advanced by its loop, sets exactly the marked bits other than
    bit 0 and never touches bit 0. *)
Lemma process_sieve_spec M m fuel sieve o start_i end_i :
  start_i <= end_i -> pass_ready M m o start_i end_i ->
  (Z.to_nat riecoin_sieveSize < fuel)%nat ->
  exists sieve' o',
    process_sieve M m fuel sieve o start_i end_i = Ok (sieve', o')
    /\ (forall j, Z.testbit sieve' j
                  = Z.testbit sieve j
                    || (negb (j =? 0) && marked_by M m o start_i end_i j))
    /\ Z.testbit sieve' 0 = Z.testbit sieve 0
    /\ forall pno f, o' pno f = advance_all M m o start_i end_i pno f.
Proof.
  intros Hse Hready Hfuel. unfold process_sieve. cbv zeta.
  pose proof (process_sieve_primes_spec M m fuel start_i (Z.to_nat (end_i - start_i))
                sieve o) as H.
  rewrite Z2Nat.id in H by lia.
  replace (start_i + (end_i - start_i)) with end_i in H by lia.
  destruct (H Hready Hfuel _ _ ring_ok_init)
    as (s1 & pd1 & pos1 & o1 & -> & Hok1 & Hview1 & Hz1 & Ho1).
  cbn [mbind result_bind].
  destruct (flush_pending_spec s1 pd1 pos1 Hok1) as (s2 & -> & Hbits & Hz2).
  cbn [mbind result_bind]. exists s2, o1.
  split; [reflexivity|]. split; [|split; [congruence | exact Ho1]].
  intros j. rewrite Hbits, Hview1, ring_view_init. reflexivity.
Qed.

(** ** Direct passes: the reference sieve and the dense stratum *)

Lemma direct_biases_spec fuel pno p (k : nat) sieve o :
  (k <= 6)%nat -> 0 < p -> riecoin_sieveSize + p <= 2 ^ 32 ->
  (forall f, 0 <= f < 6 -> 0 <= o pno f < 2 ^ 32) ->
  (Z.to_nat riecoin_sieveSize < fuel)%nat ->
  exists sieve' o',
    forM (dense_sieve_bias fuel pno p) (seqZ 0 (Z.of_nat k)) (sieve, o)
    = Ok (sieve', o')
    /\ (forall j, Z.testbit sieve' j
                  = Z.testbit sieve j
                    || existsb (fun f => marks p (o pno f) j) (seqZ 0 (Z.of_nat k)))
    /\ forall pno' f', o' pno' f'
         = if (pno' =? pno) && (0 <=? f') && (f' <? Z.of_nat k)
           then advance p (o pno f') else o pno' f'.
Proof.
  intros Hk Hp Hwrap Ho Hfuel. induction k as [|k IH].
  - exists sieve, o. rewrite seqZ_nil by lia.
    split; [reflexivity|]. split.
    + intros j. cbn [existsb]. rewrite orb_false_r. reflexivity.
    + intros pno' f'. zbool.
  - destruct (IH ltac:(lia)) as (s1 & o1 & Hrun & Hbits1 & Ho1).
    rewrite forM_seqZ_S, Hrun. cbn [mbind result_bind]. rewrite Z.add_0_l.
    unfold dense_sieve_bias at 1.
    assert (Hcell : o1 pno (Z.of_nat k) = o pno (Z.of_nat k)).
    { rewrite Ho1. zbool. }
    rewrite Hcell.
    destruct (Ho (Z.of_nat k) ltac:(lia)) as [Hc0 Hc32].
    assert (Hfuel' : (Z.to_nat (steps p (o pno (Z.of_nat k))) < fuel)%nat).
    { pose proof (steps_bound p (o pno (Z.of_nat k)) Hp Hc0).
      pose proof (steps_nonneg p (o pno (Z.of_nat k)) Hp). lia. }
    destruct (sieve_while_direct_spec fuel p (o pno (Z.of_nat k)) s1
                Hp Hc0 Hwrap Hfuel') as (s2 & -> & Hbits2).
    cbn [mbind result_bind].
    destruct (advance_wrap p (o pno (Z.of_nat k)) Hp Hc0 Hwrap Hc32) as [-> _].
    eexists s2, _. split; [reflexivity|]. split.
    + intros j. rewrite Hbits2, Hbits1, seqZ_S, existsb_app, Z.add_0_l.
      cbn [existsb]. rewrite orb_false_r, orb_assoc. reflexivity.
    + intros pno' f'. unfold set_offset. rewrite Ho1.
      destruct (Z.eqb_spec pno' pno) as [->|Hne]; cbn [andb]; [|reflexivity].
      destruct (Z.eqb_spec f' (Z.of_nat k)) as [->|Hnf]; zbool.
Qed.

Lemma naive_sieve_spec M m fuel sieve o start_i end_i :
  start_i <= end_i -> pass_ready M m o start_i end_i ->
  (Z.to_nat riecoin_sieveSize < fuel)%nat ->
  exists sieve' o',
    naive_sieve M m fuel sieve o start_i end_i = Ok (sieve', o')
    /\ (forall j, Z.testbit sieve' j
                  = Z.testbit sieve j || marked_by M m o start_i end_i j)
    /\ forall pno f, o' pno f = advance_all M m o start_i end_i pno f.
Proof.
  intros Hse Hready Hfuel. unfold naive_sieve.
  assert (H : forall c : nat,
            pass_ready M m o start_i (start_i + Z.of_nat c) ->
            exists sieve' o',
              forM (naive_sieve_prime M m fuel) (seqZ start_i (Z.of_nat c)) (sieve, o)
              = Ok (sieve', o')
              /\ (forall j, Z.testbit sieve' j
                    = Z.testbit sieve j
                      || marked_by M m o start_i (start_i + Z.of_nat c) j)
              /\ forall pno f, o' pno f
                   = advance_all M m o start_i (start_i + Z.of_nat c) pno f).
  { induction c as [|c IH]; intros Hr.
    - exists sieve, o. rewrite seqZ_nil by lia. split; [reflexivity|]. split.
      + intros j. unfold marked_by. rewrite (seqZ_nil start_i) by lia.
        cbn [existsb]. rewrite orb_false_r. reflexivity.
      + intros pno f. unfold advance_all. zbool.
    - destruct Hr as (Hlo & Hhi & Hprimes).
      assert (Hr' : pass_ready M m o start_i (start_i + Z.of_nat c)).
      { split; [exact Hlo|]. split; [lia|]. intros i Hi. apply Hprimes. lia. }
      destruct (IH Hr') as (s1 & o1 & Hrun & Hbits1 & Ho1).
      rewrite forM_seqZ_S, Hrun. cbn [mbind result_bind].
      unfold naive_sieve_prime at 1. cbv zeta.
      destruct (Hprimes (start_i + Z.of_nat c) ltac:(lia)) as (Hp & Hwrap & Hoff).
      rewrite (wrap32_small (start_i + Z.of_nat c + m)) by lia.
      set (pno := start_i + Z.of_nat c + m) in *.
      assert (Hcell : forall f, o1 pno f = o pno f).
      { intros f. rewrite Ho1. unfold advance_all, pno. zbool. }
      assert (Hoff1 : forall f, 0 <= f < 6 -> 0 <= o1 pno f < 2 ^ 32).
      { intros f Hf. rewrite Hcell. apply Hoff. exact Hf. }
      change (naive_sieve_bias fuel pno (zth (primes M) pno))
        with (dense_sieve_bias fuel pno (zth (primes M) pno)).
      destruct (direct_biases_spec fuel pno (zth (primes M) pno) 6 s1 o1
                  ltac:(lia) Hp Hwrap Hoff1 Hfuel)
        as (s2 & o2 & Hrun2 & Hbits2 & Ho2).
      change (Z.of_nat 6) with 6 in Hrun2, Hbits2, Ho2.
      exists s2, o2. split; [exact Hrun2|]. split.
      + intros j. rewrite Hbits2, Hbits1. unfold marked_by.
        replace (start_i + Z.of_nat (S c) - start_i) with (Z.of_nat (S c)) by lia.
        replace (start_i + Z.of_nat c - start_i) with (Z.of_nat c) by lia.
        rewrite seqZ_S, existsb_app. cbn [existsb]. rewrite orb_false_r. fold pno.
        rewrite (existsb_ext_in (fun f => marks (zth (primes M) pno) (o1 pno f) j)
                   (fun f => marks (zth (primes M) pno) (o pno f) j))
          by (intros f _; rewrite Hcell; reflexivity).
        rewrite orb_assoc. reflexivity.
      + intros pno' f. rewrite Ho2, (Hcell f), Ho1. unfold advance_all.
        destruct (Z.eqb_spec pno' pno) as [->|Hne]; unfold pno in *; zbool. }
  specialize (H (Z.to_nat (end_i - start_i))).
  rewrite Z2Nat.id in H by lia.
  replace (start_i + (end_i - start_i)) with end_i in H by lia.
  exact (H Hready).
Qed.

(** ** Sorting the six offsets *)

Lemma same_values_refl a : same_values a a.
Proof. split; intros f Hf; exists f; split; [exact Hf|reflexivity| exact Hf|reflexivity]. Qed.

Lemma same_values_trans a b c : same_values a b -> same_values b c -> same_values a c.
Proof.
  intros [H1 H2] [H3 H4]. split.
  - intros f Hf. destruct (H3 f Hf) as (g & Hg & ->).
    destruct (H1 g Hg) as (h & Hh & ->). exists h. split; [exact Hh|reflexivity].
  - intros g Hg. destruct (H2 g Hg) as (f & Hf & ->).
    destruct (H4 f Hf) as (h & Hh & ->). exists h. split; [exact Hh|reflexivity].
Qed.

Lemma swap_if_less_same_values a i j :
  0 <= i < 6 -> 0 <= j < 6 -> same_values a (swap_if_less a i j).
Proof.
  intros Hi Hj. unfold swap_if_less.
  destruct (a j <? a i); [|apply same_values_refl].
  split.
  - intros f Hf. destruct (Z.eqb_spec f i) as [->|Hfi].
    + exists j. split; [exact Hj|reflexivity].
    + destruct (Z.eqb_spec f j) as [->|Hfj].
      * exists i. split; [exact Hi|reflexivity].
      * exists f. split; [exact Hf|reflexivity].
  - intros g Hg. destruct (Z.eq_dec g i) as [->|Hgi].
    + destruct (Z.eq_dec i j) as [->|Hij].
      * exists j. split; [exact Hj|]. rewrite Z.eqb_refl. reflexivity.
      * exists j. split; [exact Hj|].
        destruct (Z.eqb_spec j i); [lia|]. rewrite Z.eqb_refl. reflexivity.
    + destruct (Z.eq_dec g j) as [->|Hgj].
      * exists i. split; [exact Hi|]. rewrite Z.eqb_refl. reflexivity.
      * exists g. split; [exact Hg|].
        destruct (Z.eqb_spec g i); [lia|]. destruct (Z.eqb_spec g j); [lia|].
        reflexivity.
Qed.

Lemma foldl_same_values (step : (Z -> Z) -> Z -> Z -> Z) l :
  (forall a x, In x l -> same_values a (step a x)) ->
  forall a, same_values a (foldl step a l).
Proof.
  induction l as [|x l IH]; intros Hstep a; cbn [foldl]; [apply same_values_refl|].
  eapply same_values_trans.
  - apply (Hstep a x). left. reflexivity.
  - apply IH. intros a' x' Hx'. apply Hstep. right. exact Hx'.
Qed.

Lemma silly_sort_same_values a : same_values a (silly_sort_indexes a).
Proof.
  unfold silly_sort_indexes.
  apply (foldl_same_values
           (fun a i => foldl (fun a j => swap_if_less a i j) a (seqZ (i + 1) (6 - (i + 1))))).
  intros a' i Hi. apply list_elem_of_In, elem_of_seqZ in Hi.
  apply (foldl_same_values (fun a j => swap_if_less a i j)).
  intros a'' j Hj. apply list_elem_of_In, elem_of_seqZ in Hj.
  apply swap_if_less_same_values; lia.
Qed.

Lemma swap_if_less_ext a b i j :
  (forall f, a f = b f) -> forall f, swap_if_less a i j f = swap_if_less b i j f.
Proof.
  intros H f. unfold swap_if_less. rewrite !H.
  destruct (b j <? b i); [|apply H].
  destruct (f =? i); [reflexivity|]. destruct (f =? j); [reflexivity | apply H].
Qed.

Lemma foldl_pointwise (step : (Z -> Z) -> Z -> Z -> Z) l :
  (forall a b x, (forall f, a f = b f) -> forall f, step a x f = step b x f) ->
  forall a b, (forall f, a f = b f) -> forall f, foldl step a l f = foldl step b l f.
Proof.
  intros Hstep. induction l as [|x l IH]; intros a b H f; cbn [foldl]; [apply H|].
  apply IH. apply Hstep. exact H.
Qed.

Lemma silly_sort_ext a b :
  (forall f, a f = b f) -> forall f, silly_sort_indexes a f = silly_sort_indexes b f.
Proof.
  unfold silly_sort_indexes.
  apply (foldl_pointwise
           (fun a i => foldl (fun a j => swap_if_less a i j) a (seqZ (i + 1) (6 - (i + 1))))).
  intros a' b' i H'.
  apply (foldl_pointwise (fun a j => swap_if_less a i j)); [|exact H'].
  intros a'' b'' j H''. apply swap_if_less_ext. exact H''.
Qed.

Lemma foldl_outside (step : (Z -> Z) -> Z -> Z -> Z) l f :
  (forall a x, In x l -> step a x f = a f) ->
  forall a, foldl step a l f = a f.
Proof.
  induction l as [|x l IH]; intros Hstep a; cbn [foldl]; [reflexivity|].
  rewrite IH by (intros a' x' Hx'; apply Hstep; right; exact Hx').
  apply Hstep. left. reflexivity.
Qed.

Lemma silly_sort_outside a f : ~ 0 <= f < 6 -> silly_sort_indexes a f = a f.
Proof.
  intros Hf. unfold silly_sort_indexes.
  apply (foldl_outside
           (fun a i => foldl (fun a j => swap_if_less a i j) a (seqZ (i + 1) (6 - (i + 1))))).
  intros a' i Hi. apply list_elem_of_In, elem_of_seqZ in Hi.
  apply (foldl_outside (fun a j => swap_if_less a i j)).
  intros a'' j Hj. apply list_elem_of_In, elem_of_seqZ in Hj.
  unfold swap_if_less. destruct (a'' j <? a'' i); [|reflexivity].
  destruct (Z.eqb_spec f i); [lia|]. destruct (Z.eqb_spec f j); [lia|]. reflexivity.
Qed.

Lemma existsb_same_values (P : Z -> bool) a b :
  same_values a b ->
  existsb (fun f => P (b f)) (seqZ 0 6) = existsb (fun f => P (a f)) (seqZ 0 6).
Proof.
  intros [H1 H2]. apply eq_true_iff_eq. rewrite !existsb_exists. split.
  - intros (f & Hf & HP). apply list_elem_of_In, elem_of_seqZ in Hf.
    destruct (H1 f ltac:(lia)) as (g & Hg & Heq). exists g. split.
    + apply list_elem_of_In, elem_of_seqZ. lia.
    + rewrite <- Heq. exact HP.
  - intros (g & Hg & HP). apply list_elem_of_In, elem_of_seqZ in Hg.
    destruct (H2 g ltac:(lia)) as (f & Hf & Heq). exists f. split.
    + apply list_elem_of_In, elem_of_seqZ. lia.
    + rewrite <- Heq. exact HP.
Qed.

(** ** The dense pass *)

Lemma dense_sieve_primes_spec M m fuel (c : nat) sieve o :
  pass_ready M m o 0 (Z.of_nat c) ->
  (Z.to_nat riecoin_sieveSize < fuel)%nat ->
  exists sieve' o',
    forM (dense_sieve_prime M m fuel) (seqZ 0 (Z.of_nat c)) (sieve, o) = Ok (sieve', o')
    /\ (forall j, Z.testbit sieve' j
                  = Z.testbit sieve j || marked_by M m o 0 (Z.of_nat c) j)
    /\ forall pno f, o' pno f = dense_advance_all M m o 0 (Z.of_nat c) pno f.
Proof.
  intros Hready Hfuel. induction c as [|c IH].
  - exists sieve, o. rewrite seqZ_nil by lia. split; [reflexivity|]. split.
    + intros j. unfold marked_by. rewrite (seqZ_nil 0 (Z.of_nat 0 - 0)) by lia.
      cbn [existsb]. rewrite orb_false_r. reflexivity.
    + intros pno f. unfold dense_advance_all. zbool.
  - destruct Hready as (Hlo & Hhi & Hprimes).
    assert (Hr' : pass_ready M m o 0 (Z.of_nat c)).
    { split; [exact Hlo|]. split; [lia|]. intros i Hi. apply Hprimes. lia. }
    destruct (IH Hr') as (s1 & o1 & Hrun & Hbits1 & Ho1).
    rewrite forM_seqZ_S, Hrun. cbn [mbind result_bind].
    unfold dense_sieve_prime at 1. cbv zeta. rewrite Z.add_0_l.
    destruct (Hprimes (Z.of_nat c) ltac:(lia)) as (Hp & Hwrap & Hoff).
    rewrite (wrap32_small (Z.of_nat c + m)) by lia.
    set (pno := Z.of_nat c + m) in *.
    assert (Hcell : forall f, o1 pno f = o pno f).
    { intros f. rewrite Ho1. unfold dense_advance_all, pno. zbool. }
    pose proof (silly_sort_same_values (o1 pno)) as Hsame.
    assert (Hsorted : forall f, sort_offsets o1 pno pno f = silly_sort_indexes (o1 pno) f).
    { intros f. unfold sort_offsets. rewrite Z.eqb_refl. reflexivity. }
    assert (Hoff1 : forall f, 0 <= f < 6 -> 0 <= sort_offsets o1 pno pno f < 2 ^ 32).
    { intros f Hf. rewrite Hsorted. destruct Hsame as [H1 _].
      destruct (H1 f Hf) as (g & Hg & ->). rewrite Hcell. apply Hoff. exact Hg. }
    destruct (direct_biases_spec fuel pno (zth (primes M) pno) 6 s1 (sort_offsets o1 pno)
                ltac:(lia) Hp Hwrap Hoff1 Hfuel)
      as (s2 & o2 & Hrun2 & Hbits2 & Ho2).
    change (Z.of_nat 6) with 6 in Hrun2, Hbits2, Ho2.
    exists s2, o2. split; [exact Hrun2|]. split.
    + intros j. rewrite Hbits2, Hbits1. unfold marked_by.
      replace (Z.of_nat (S c) - 0) with (Z.of_nat (S c)) by lia.
      replace (Z.of_nat c - 0) with (Z.of_nat c) by lia.
      rewrite seqZ_S, existsb_app. cbn [existsb]. rewrite orb_false_r, Z.add_0_l.
      fold pno.
      rewrite (existsb_ext_in
                 (fun f => marks (zth (primes M) pno) (sort_offsets o1 pno pno f) j)
                 (fun f => marks (zth (primes M) pno) (silly_sort_indexes (o1 pno) f) j))
        by (intros f _; rewrite Hsorted; reflexivity).
      rewrite (existsb_same_values (fun x => marks (zth (primes M) pno) x j)
                 (o1 pno) (silly_sort_indexes (o1 pno)) Hsame).
      rewrite (existsb_ext_in (fun f => marks (zth (primes M) pno) (o1 pno f) j)
                 (fun f => marks (zth (primes M) pno) (o pno f) j))
        by (intros f _; rewrite Hcell; reflexivity).
      rewrite orb_assoc. reflexivity.
    + intros pno' f. rewrite Ho2. unfold dense_advance_all.
      destruct (Z.eqb_spec pno' pno) as [->|Hne].
      * rewrite Hsorted.
        assert (Hext : silly_sort_indexes (o1 pno) f = silly_sort_indexes (o pno) f).
        { apply silly_sort_ext. exact Hcell. }
        rewrite Hext. unfold pno. zbool; apply silly_sort_outside; lia.
      * cbn [andb]. unfold sort_offsets.
        destruct (Z.eqb_spec pno' pno); [contradiction|].
        rewrite Ho1. unfold dense_advance_all, pno in *. zbool.
Qed.

(** ** The strata of the prime table *)

Lemma count_prefix primes from (test : Z -> bool) (k : nat) :
  (forall i j, from <= i <= j -> j < from + Z.of_nat k ->
     test (zth primes j) = true -> test (zth primes i) = true) ->
  let c := foldl (fun c i => if test (zth primes i) then c + 1 else c)
             0 (seqZ from (Z.of_nat k)) in
  0 <= c <= Z.of_nat k
  /\ forall i, from <= i < from + Z.of_nat k -> test (zth primes i) = (i <? from + c).
Proof.
  induction k as [|k IH]; intros Hmono.
  - rewrite seqZ_nil by lia. cbn [foldl]. split; [lia|]. intros i Hi. lia.
  - rewrite seqZ_S, foldl_app. cbn [foldl].
    destruct (IH ltac:(intros i j Hij Hj; apply (Hmono i j); lia)) as [Hc Hpre].
    set (c := foldl _ 0 (seqZ from (Z.of_nat k))) in *.
    destruct (test (zth primes (from + Z.of_nat k))) eqn:Hlast.
    + assert (Hck : c = Z.of_nat k).
      { destruct (Z.eq_dec c (Z.of_nat k)) as [E|E]; [exact E|].
        assert (Hi : from <= from + c < from + Z.of_nat k) by lia.
        pose proof (Hpre _ Hi) as Ht.
        rewrite (Hmono (from + c) (from + Z.of_nat k)) in Ht by (try lia; exact Hlast).
        destruct (Z.ltb_spec (from + c) (from + c)); [lia | discriminate]. }
      split; [lia|]. intros i Hi.
      destruct (Z.eq_dec i (from + Z.of_nat k)) as [->|Hne].
      * rewrite Hlast. symmetry. apply Z.ltb_lt. lia.
      * rewrite Hpre by lia. rewrite Hck. zbool.
    + split; [lia|]. intros i Hi.
      destruct (Z.eq_dec i (from + Z.of_nat k)) as [->|Hne].
      * rewrite Hlast. symmetry. apply Z.ltb_ge. lia.
      * apply Hpre. lia.
Qed.

Lemma count_sum primes from (t1 t2 : Z -> bool) (k : nat) :
  (forall p, t1 p && t2 p = false) ->
  foldl (fun c i => if t1 (zth primes i) then c + 1 else c) 0 (seqZ from (Z.of_nat k))
  + foldl (fun c i => if t2 (zth primes i) then c + 1 else c) 0 (seqZ from (Z.of_nat k))
  = foldl (fun c i => if t1 (zth primes i) || t2 (zth primes i) then c + 1 else c)
      0 (seqZ from (Z.of_nat k)).
Proof.
  intros Hdis. induction k as [|k IH].
  - rewrite seqZ_nil by lia. reflexivity.
  - rewrite seqZ_S, !foldl_app. cbn [foldl]. rewrite <- IH.
    specialize (Hdis (zth primes (from + Z.of_nat k))).
    destruct (t1 (zth primes (from + Z.of_nat k))),
             (t2 (zth primes (from + Z.of_nat k))); cbn in *; try discriminate; lia.
Qed.

Lemma count_ext primes from (t1 t2 : Z -> bool) (k : nat) :
  (forall p, t1 p = t2 p) ->
  foldl (fun c i => if t1 (zth primes i) then c + 1 else c) 0 (seqZ from (Z.of_nat k))
  = foldl (fun c i => if t2 (zth primes i) then c + 1 else c) 0 (seqZ from (Z.of_nat k)).
Proof.
  intros Hext. induction k as [|k IH].
  - rewrite seqZ_nil by lia. reflexivity.
  - rewrite seqZ_S, !foldl_app. cbn [foldl]. rewrite IH, Hext. reflexivity.
Qed.

Lemma count_nonneg primes from (t : Z -> bool) (k : nat) :
  0 <= foldl (fun c i => if t (zth primes i) then c + 1 else c) 0 (seqZ from (Z.of_nat k)).
Proof.
  induction k as [|k IH].
  - rewrite seqZ_nil by lia. cbn. lia.
  - rewrite seqZ_S, !foldl_app. cbn [foldl].
    destruct (t (zth primes (from + Z.of_nat k))); lia.
Qed.

(** The sieving indices [m ..] split into the dense stratum, the sparse
    stratum and the once-only primes, in this order. *)
Lemma initialised_strata M :
  initialised M ->
  let m := primorialNumber M in
  0 <= n_dense M /\ 0 <= n_sparse M
  /\ m + n_dense M + n_sparse M <= nPrimes M
  /\ (forall i, m <= i < nPrimes M ->
        (zth (primes M) i <? denseLimit) = (i <? m + n_dense M))
  /\ (forall i, m <= i < nPrimes M ->
        (zth (primes M) i <? max_increments) = (i <? m + n_dense M + n_sparse M)).
Proof.
  intros Hinit m.
  pose proof (init_m _ Hinit) as Hm. pose proof (initialised_nPrimes M Hinit) as Hn.
  pose proof (init_primes _ Hinit) as Hpt. fold m in Hm.
  set (k := Z.to_nat (nPrimes M - m)).
  assert (Hk : Z.of_nat k = Z.of_nat (length (primes M)) - m) by lia.
  set (A := foldl (fun c i => if zth (primes M) i <? denseLimit then c + 1 else c)
              0 (seqZ m (Z.of_nat k))).
  set (B := foldl (fun c i => if negb (zth (primes M) i <? denseLimit)
                                 && (zth (primes M) i <? max_increments)
                              then c + 1 else c) 0 (seqZ m (Z.of_nat k))).
  set (C := foldl (fun c i => if zth (primes M) i <? max_increments then c + 1 else c)
              0 (seqZ m (Z.of_nat k))).
  assert (Hnd : n_dense M = A).
  { unfold A. rewrite Hk. rewrite (init_tables _ Hinit) at 1. reflexivity. }
  assert (Hns : n_sparse M = B).
  { unfold B. rewrite Hk. rewrite (init_tables _ Hinit) at 1. reflexivity. }
  assert (Hmono : forall bound i j, m <= i <= j -> j < m + Z.of_nat k ->
            (zth (primes M) j <? bound) = true -> (zth (primes M) i <? bound) = true).
  { intros bound i j Hij Hj Ht. apply Z.ltb_lt in Ht. apply Z.ltb_lt.
    destruct (Z.eq_dec i j) as [->|Hne]; [exact Ht|].
    assert (Hij' : 0 <= i < j) by lia.
    assert (Hj' : j < Z.of_nat (length (primes M))) by lia.
    pose proof (pt_sorted _ Hpt i j Hij' Hj'). lia. }
  destruct (count_prefix (primes M) m (fun p => p <? denseLimit) k (Hmono denseLimit))
    as [Hd1 Hd2]. fold A in Hd1, Hd2.
  destruct (count_prefix (primes M) m (fun p => p <? max_increments) k
              (Hmono max_increments)) as [Hr1 Hr2]. fold C in Hr1, Hr2.
  assert (HAB : A + B = C).
  { unfold A, B, C.
    rewrite (count_sum (primes M) m (fun p => p <? denseLimit)
               (fun p => negb (p <? denseLimit) && (p <? max_increments)) k)
      by (intros p; destruct (p <? denseLimit); reflexivity).
    apply (count_ext (primes M) m
             (fun p => (p <? denseLimit) || negb (p <? denseLimit) && (p <? max_increments))
             (fun p => p <? max_increments)).
    intros p. unfold denseLimit. rewrite max_increments_val. zbool. }
  pose proof (count_nonneg (primes M) m
                (fun p => negb (p <? denseLimit) && (p <? max_increments)) k) as HB.
  fold B in HB.
  rewrite Hnd, Hns.
  split; [lia|]. split; [lia|]. split; [lia|]. split.
  - intros i Hi. apply Hd2. lia.
  - intros i Hi. replace (m + A + B) with (m + C) by lia. apply Hr2. lia.
Qed.

Lemma nPrimes_u32 M : initialised M -> nPrimes M < 2 ^ 32.
Proof.
  intros Hinit. pose proof (initialised_nPrimes M Hinit) as Hn.
  pose proof (init_m _ Hinit) as Hm. pose proof (init_primes _ Hinit) as Hpt.
  assert (Hi : 0 <= nPrimes M - 1 < Z.of_nat (length (primes M))) by lia.
  pose proof (prime_table_lower _ Hpt _ Hi). pose proof (pt_u32 _ Hpt _ Hi). lia.
Qed.

(** Resident sieving primes are positive and far from the 32-bit limit. *)
Lemma resident_prime_range M i :
  initialised M ->
  primorialNumber M <= i < primorialNumber M + n_dense M + n_sparse M ->
  7 <= zth (primes M) i < max_increments.
Proof.
  intros Hinit Hi.
  destruct (initialised_strata M Hinit) as (Hd & Hs & Hle & _ & Hres).
  assert (Hi' : primorialNumber M <= i < nPrimes M) by lia.
  pose proof (sp_lower _ _ (initialised_sieving_prime M i Hinit Hi')).
  specialize (Hres i Hi').
  destruct (Z.ltb_spec (zth (primes M) i) max_increments),
           (Z.ltb_spec i (primorialNumber M + n_dense M + n_sparse M));
    try discriminate; lia.
Qed.

Lemma resident_pass_ready M o lo hi :
  initialised M -> 0 <= lo -> hi <= n_dense M + n_sparse M ->
  offsets_bounded M o (lo + primorialNumber M) (hi + primorialNumber M) ->
  pass_ready M (primorialNumber M) o lo hi.
Proof.
  intros Hinit Hlo Hhi Hb.
  destruct (initialised_strata M Hinit) as (Hd & Hs & Hle & _ & _).
  pose proof (init_m _ Hinit) as Hm. pose proof (nPrimes_u32 M Hinit) as H32.
  split; [lia|]. split; [lia|]. intros i Hi.
  pose proof (resident_prime_range M (i + primorialNumber M) Hinit ltac:(lia)) as Hp.
  rewrite max_increments_val in Hp. rewrite sieveSize_val.
  split; [lia|]. split; [lia|]. intros f Hf.
  specialize (Hb (i + primorialNumber M) f ltac:(lia) Hf). lia.
Qed.

Lemma advance_exact p off :
  0 < p -> 0 <= off -> riecoin_sieveSize + p <= 2 ^ 32 -> off < 2 ^ 32 ->
  0 <= steps p off
  /\ advance p off = off + steps p off * p - riecoin_sieveSize
  /\ off + steps p off * p < 2 ^ 32
  /\ (riecoin_sieveSize <= off -> steps p off = 0).
Proof.
  intros Hp Hoff Hwrap H32.
  split; [apply steps_nonneg; exact Hp|]. split; [reflexivity|].
  unfold steps. rewrite sieveSize_val in *.
  destruct (Z.ltb_spec off 16777216); [|lia].
  pose proof (Z.div_mod (16777216 - 1 - off) p ltac:(lia)) as Hdm.
  pose proof (Z.mod_pos_bound (16777216 - 1 - off) p Hp) as Hm.
  split; [nia | lia].
Qed.

(** C9.  [process_sieve], which buffers positions in the 16-slot ring (0
    meaning empty) and then flushes it, agrees with the reference sieve
    that sets each bit directly: both return, their bitmaps agree on every
    position other than 0, [process_sieve] leaves bit 0 as it found it, and
    both leave the same offsets. *)
Theorem process_sieve_refines_naive M m fuel sieve o start_i end_i :
  start_i <= end_i ->
  pass_ready M m o start_i end_i ->
  (Z.to_nat riecoin_sieveSize < fuel)%nat ->
  exists s_ring o_ring s_naive o_naive,
    process_sieve M m fuel sieve o start_i end_i = Ok (s_ring, o_ring)
    /\ naive_sieve M m fuel sieve o start_i end_i = Ok (s_naive, o_naive)
    /\ (forall j, j <> 0 -> Z.testbit s_ring j = Z.testbit s_naive j)
    /\ Z.testbit s_ring 0 = Z.testbit sieve 0
    /\ (forall pno f, o_ring pno f = o_naive pno f).
Proof.
  intros Hse Hready Hfuel.
  destruct (process_sieve_spec M m fuel sieve o start_i end_i Hse Hready Hfuel)
    as (s1 & o1 & Hrun1 & Hbits1 & Hz1 & Ho1).
  destruct (naive_sieve_spec M m fuel sieve o start_i end_i Hse Hready Hfuel)
    as (s2 & o2 & Hrun2 & Hbits2 & Ho2).
  exists s1, o1, s2, o2. split; [exact Hrun1|]. split; [exact Hrun2|].
  split; [|split; [exact Hz1|]].
  - intros j Hj. rewrite Hbits1, Hbits2.
    destruct (Z.eqb_spec j 0); [contradiction|]. reflexivity.
  - intros pno f. rewrite Ho1, Ho2. reflexivity.
Qed.

Lemma miner_1000_strata :
  primorialNumber miner_1000 = 40 /\ n_dense miner_1000 = 128
  /\ n_sparse miner_1000 = 0 /\ nPrimes miner_1000 = 168.
Proof. vm_compute. repeat split; reflexivity. Qed.

Lemma zero_offsets_bounded M lo hi :
  initialised M ->
  primorialNumber M <= lo -> hi <= primorialNumber M + n_dense M + n_sparse M ->
  offsets_bounded M (fun _ _ => 0) lo hi.
Proof.
  intros Hinit Hlo Hhi i f Hi Hf.
  pose proof (resident_prime_range M i Hinit ltac:(lia)). lia.
Qed.

Lemma miner_1000_pass_ready : pass_ready miner_1000 40 (fun _ _ => 0) 0 128.
Proof.
  destruct miner_1000_strata as (Hm & Hd & Hs & Hn).
  pose proof (resident_pass_ready miner_1000 (fun _ _ => 0) 0 128
                miner_1000_initialised) as H.
  rewrite Hm, Hd, Hs in H. apply H; [lia | lia |].
  apply zero_offsets_bounded; [exact miner_1000_initialised | lia | lia].
Qed.

Lemma process_sieve_refines_naive_witness :
  0 <= 128
  /\ pass_ready miner_1000 40 (fun _ _ => 0) 0 128
  /\ (Z.to_nat riecoin_sieveSize < S (Z.to_nat riecoin_sieveSize))%nat
  /\ exists s_ring o_ring s_naive o_naive,
       process_sieve miner_1000 40 (S (Z.to_nat riecoin_sieveSize)) 0 (fun _ _ => 0) 0 128
       = Ok (s_ring, o_ring)
       /\ naive_sieve miner_1000 40 (S (Z.to_nat riecoin_sieveSize)) 0 (fun _ _ => 0) 0 128
          = Ok (s_naive, o_naive)
       /\ (forall j, j <> 0 -> Z.testbit s_ring j = Z.testbit s_naive j)
       /\ Z.testbit s_ring 0 = Z.testbit 0 0
       /\ (forall pno f, o_ring pno f = o_naive pno f).
Proof.
  assert (H1 : 0 <= 128) by lia.
  assert (H3 : (Z.to_nat riecoin_sieveSize < S (Z.to_nat riecoin_sieveSize))%nat)
    by apply Nat.lt_succ_diag_r.
  split; [exact H1|]. split; [exact miner_1000_pass_ready|]. split; [exact H3|].
  exact (process_sieve_refines_naive miner_1000 40 (S (Z.to_nat riecoin_sieveSize)) 0
           (fun _ _ => 0) 0 128 H1 miner_1000_pass_ready H3).
Defined.

Lemma dense_sieve_spec M fuel sieve o :
  initialised M ->
  offsets_bounded M o (primorialNumber M) (primorialNumber M + n_dense M) ->
  (Z.to_nat riecoin_sieveSize < fuel)%nat ->
  exists sieve' o',
    dense_sieve M (primorialNumber M) fuel sieve o = Ok (sieve', o')
    /\ (forall j, Z.testbit sieve' j
                  = Z.testbit sieve j
                    || marked_by M (primorialNumber M) o 0 (n_dense M) j)
    /\ forall pno f, o' pno f
         = dense_advance_all M (primorialNumber M) o 0 (n_dense M) pno f.
Proof.
  intros Hinit Hb Hfuel.
  destruct (initialised_strata M Hinit) as (Hd & Hs & _).
  assert (Hready : pass_ready M (primorialNumber M) o 0 (n_dense M)).
  { apply resident_pass_ready; [exact Hinit | lia | lia |].
    rewrite Z.add_0_l, (Z.add_comm (n_dense M)). exact Hb. }
  pose proof (dense_sieve_primes_spec M (primorialNumber M) fuel
                (Z.to_nat (n_dense M)) sieve o) as H.
  rewrite Z2Nat.id in H by lia. exact (H Hready Hfuel).
Qed.

(** C10.  For the resident sieving primes, [offsets[i][f] < primes[i]] is
    an invariant: [update_remainders] stores values below the prime, and a
    dense or a sparse pass returns and replaces each offset by
    [offset + k * p - sieveSize] for some [k >= 0], computed without
    32-bit wrap-around and again in [[0, p)]; [k = 0] when the offset is
    already at or beyond [sieveSize].  (The dense pass sorts the six
    offsets of a prime first, so its result at bias [f] comes from some
    bias [g].) *)
Theorem offsets_stay_below_prime M fuel :
  initialised M ->
  (Z.to_nat riecoin_sieveSize < fuel)%nat ->
  let m := primorialNumber M in
  let resident o := offsets_bounded M o m (m + n_dense M + n_sparse M) in
  (forall zt zr stk start_i end_i G,
     0 <= zt + zr -> m <= start_i -> start_i <= end_i <= nPrimes M ->
     buckets_wf (entriesPerSegment M) (buckets G) ->
     length stk = Z.to_nat OFFSET_STACK_SIZE ->
     match update_remainders M zt zr stk start_i end_i G with
     | Ok (G', _) =>
         forall i f, start_i <= i < end_i -> zth (primes M) i < max_increments ->
                     0 <= f < 6 -> 0 <= offsets G' i f < zth (primes M) i
     | Err ExitCalled => True
     | Err _ => False
     end)
  /\ (forall sieve o,
        resident o ->
        exists sieve' o',
          dense_sieve M m fuel sieve o = Ok (sieve', o')
          /\ resident o'
          /\ forall i f, m <= i < m + n_dense M -> 0 <= f < 6 ->
               exists g k, 0 <= g < 6 /\ 0 <= k
                 /\ o' i f = o i g + k * zth (primes M) i - riecoin_sieveSize
                 /\ o i g + k * zth (primes M) i < 2 ^ 32
                 /\ (riecoin_sieveSize <= o i g -> k = 0))
  /\ (forall sieve o start_i end_i,
        0 <= start_i <= end_i -> end_i <= n_dense M + n_sparse M ->
        resident o ->
        exists sieve' o',
          process_sieve M m fuel sieve o start_i end_i = Ok (sieve', o')
          /\ resident o'
          /\ forall i f, start_i + m <= i < end_i + m -> 0 <= f < 6 ->
               exists k, 0 <= k
                 /\ o' i f = o i f + k * zth (primes M) i - riecoin_sieveSize
                 /\ o i f + k * zth (primes M) i < 2 ^ 32
                 /\ (riecoin_sieveSize <= o i f -> k = 0)).
Proof.
  intros Hinit Hfuel m resident. pose proof sieveSize_val as HS.
  destruct (initialised_strata M Hinit) as (Hd & Hs & Hle & _ & _). fold m in Hle.
  assert (Hprime : forall i, m <= i < m + n_dense M + n_sparse M ->
            0 < zth (primes M) i /\ riecoin_sieveSize + zth (primes M) i <= 2 ^ 32).
  { intros i Hi. pose proof (resident_prime_range M i Hinit Hi) as Hp.
    rewrite max_increments_val in Hp. rewrite sieveSize_val. lia. }
  split; [|split].
  - intros zt zr stk start_i end_i G Htar Hm Hse Hwf Hlen.
    pose proof (update_remainders_resident M zt zr stk start_i end_i G
                  Hinit Htar Hm Hse Hwf Hlen) as H.
    destruct (update_remainders _ _ _ _ _ _ _) as [[G' stk']|e].
    + intros i f Hi Hres Hf. apply (H i f Hi Hres Hf).
    + destruct e; try contradiction. exact I.
  - intros sieve o Hres.
    assert (Hb : offsets_bounded M o m (m + n_dense M))
      by (intros i f Hi Hf; apply Hres; lia).
    destruct (dense_sieve_spec M fuel sieve o Hinit Hb Hfuel)
      as (sieve' & o' & Hrun & _ & Ho').
    exists sieve', o'. split; [exact Hrun|].
    assert (Hcell : forall i f, m <= i < m + n_dense M -> 0 <= f < 6 ->
              exists g, 0 <= g < 6
                /\ o' i f = advance (zth (primes M) i) (o i g)).
    { intros i f Hi Hf. rewrite Ho'. unfold dense_advance_all. fold m.
      destruct (silly_sort_same_values (o i)) as [H1 _].
      destruct (H1 f Hf) as (g & Hg & ->). exists g. split; [exact Hg|]. zbool. }
    split.
    + intros i f Hi Hf. destruct (Z.lt_ge_cases i (m + n_dense M)) as [Hin|Hout].
      * destruct (Hcell i f ltac:(lia) Hf) as (g & Hg & ->).
        destruct (Hprime i Hi) as [Hp _].
        apply advance_range; [exact Hp | apply Hres; lia].
      * rewrite Ho'. unfold dense_advance_all. fold m.
        destruct (Z.ltb_spec i (n_dense M + m)); [lia|].
        rewrite andb_false_r. cbn [andb]. apply Hres; lia.
    + intros i f Hi Hf. destruct (Hcell i f Hi Hf) as (g & Hg & ->).
      destruct (Hprime i ltac:(lia)) as [Hp Hwrap].
      destruct (Hres i g ltac:(lia) Hg) as [Ho0 Hop].
      destruct (advance_exact (zth (primes M) i) (o i g) Hp Ho0 Hwrap ltac:(lia))
        as (Hk & Heq & Hno & Hzero).
      exists g, (steps (zth (primes M) i) (o i g)).
      repeat split; try assumption; lia.
  - intros sieve o start_i end_i Hse Hend Hres.
    assert (Hready : pass_ready M m o start_i end_i).
    { apply resident_pass_ready; [exact Hinit | lia | lia |].
      intros i f Hi Hf. apply Hres; fold m in Hi; lia. }
    destruct (process_sieve_spec M m fuel sieve o start_i end_i ltac:(lia) Hready Hfuel)
      as (sieve' & o' & Hrun & _ & _ & Ho').
    exists sieve', o'. split; [exact Hrun|]. split.
    + intros i f Hi Hf. rewrite Ho'. unfold advance_all.
      destruct ((start_i + m <=? i) && (i <? end_i + m) && (0 <=? f) && (f <? 6)).
      * destruct (Hprime i Hi) as [Hp _].
        apply advance_range; [exact Hp | apply Hres; lia].
      * apply Hres; lia.
    + intros i f Hi Hf. rewrite Ho'. unfold advance_all.
      destruct (Z.leb_spec (start_i + m) i); [|lia].
      destruct (Z.ltb_spec i (end_i + m)); [|lia].
      destruct (Z.leb_spec 0 f); [|lia]. destruct (Z.ltb_spec f 6); [|lia].
      cbn [andb].
      destruct (Hprime i ltac:(lia)) as [Hp Hwrap].
      destruct (Hres i f ltac:(lia) Hf) as [Ho0 Hop].
      destruct (advance_exact (zth (primes M) i) (o i f) Hp Ho0 Hwrap ltac:(lia))
        as (Hk & Heq & Hno & Hzero).
      exists (steps (zth (primes M) i) (o i f)).
      repeat split; try assumption; lia.
Qed.

Lemma offsets_stay_below_prime_witness :
  initialised miner_1000
  /\ (Z.to_nat riecoin_sieveSize < S (Z.to_nat riecoin_sieveSize))%nat
  /\ exists sieve' o',
       dense_sieve miner_1000 (primorialNumber miner_1000)
         (S (Z.to_nat riecoin_sieveSize)) 0 (fun _ _ => 0) = Ok (sieve', o')
       /\ offsets_bounded miner_1000 o' (primorialNumber miner_1000)
            (primorialNumber miner_1000 + n_dense miner_1000 + n_sparse miner_1000).
Proof.
  assert (H2 : (Z.to_nat riecoin_sieveSize < S (Z.to_nat riecoin_sieveSize))%nat)
    by apply Nat.lt_succ_diag_r.
  split; [exact miner_1000_initialised|]. split; [exact H2|].
  destruct (offsets_stay_below_prime miner_1000 (S (Z.to_nat riecoin_sieveSize))
              miner_1000_initialised H2) as (_ & Hdense & _).
  destruct (Hdense 0 (fun _ _ => 0)) as (sieve' & o' & Hrun & Hres & _).
  - apply zero_offsets_bounded; [exact miner_1000_initialised | lia | lia].
  - exists sieve', o'. split; [exact Hrun | exact Hres].
Defined.

(** C7.  [put_offsets_in_segments] keeps every fill count at most
    [entriesPerSegment] after each write: it checks the count before
    writing, calls [exit] when the bucket is full and never writes outside
    an allocation; otherwise every flushed index [x] (below
    [maxIncrements]) is stored as [x mod sieveSize] at the end of bucket
    [x >> sieveBits], whose count grows by one per entry. *)
Theorem put_offsets_in_segments_bounded eps B stack n_offsets :
  buckets_wf eps B ->
  0 <= n_offsets <= Z.of_nat (length stack) ->
  Forall (fun x => 0 <= x < max_increments) (take (Z.to_nat n_offsets) stack) ->
  (forall j, 0 <= j <= n_offsets ->
     match put_offsets_in_segments eps B stack j with
     | Ok Bj => buckets_wf eps Bj
     | Err ExitCalled => True
     | Err _ => False
     end)
  /\ match put_offsets_in_segments eps B stack n_offsets with
     | Ok B' =>
         forall k, 0 <= k < maxiter ->
           bucket B' k = bucket B k ++ flushed_to k (take (Z.to_nat n_offsets) stack)
           /\ exists c c',
                segment_counts B !! Z.to_nat k = Some c
                /\ segment_counts B' !! Z.to_nat k = Some c'
                /\ c' = c + Z.of_nat (length (flushed_to k (take (Z.to_nat n_offsets) stack)))
                /\ c' <= eps
     | Err ExitCalled =>
         exists k, 0 <= k < maxiter
           /\ eps < Z.of_nat (length (bucket B k
                                       ++ flushed_to k (take (Z.to_nat n_offsets) stack)))
     | Err _ => False
     end.
Proof.
  intros Hwf Hn Hall. split.
  - intros j Hj.
    pose proof (put_offsets_spec_nat eps stack (Z.to_nat j) B Hwf ltac:(lia)) as H.
    rewrite Z2Nat.id in H by lia.
    assert (Hpre : Forall (fun x => 0 <= x < max_increments) (take (Z.to_nat j) stack)).
    { replace (Z.to_nat j) with (Z.to_nat j `min` Z.to_nat n_offsets)%nat by lia.
      rewrite <- take_take. apply Forall_take. exact Hall. }
    specialize (H Hpre).
    destruct (put_offsets_in_segments eps B stack j) as [Bj|e].
    + apply H.
    + destruct e; try contradiction. exact I.
  - pose proof (put_offsets_spec_nat eps stack (Z.to_nat n_offsets) B Hwf ltac:(lia) Hall)
      as H.
    rewrite Z2Nat.id in H by lia.
    destruct (put_offsets_in_segments eps B stack n_offsets) as [B'|e]; [|exact H].
    destruct H as [Hwf' Hb]. intros k Hk. split; [apply Hb; lia|].
    destruct (lookup_lt_is_Some_2 (segment_counts B) (Z.to_nat k)) as [c Hc].
    { rewrite (wf_counts_len _ _ Hwf). lia. }
    destruct (lookup_lt_is_Some_2 (segment_counts B') (Z.to_nat k)) as [c' Hc'].
    { rewrite (wf_counts_len _ _ Hwf'). lia. }
    exists c, c'. split; [exact Hc|]. split; [exact Hc'|].
    pose proof (bucket_length_count eps B k c Hwf Hk Hc) as H1.
    pose proof (bucket_length_count eps B' k c' Hwf' Hk Hc') as H2.
    pose proof (wf_fill _ _ Hwf' _ _ Hc') as H3.
    rewrite Hb, length_app in H2 by lia. lia.
Qed.

Lemma put_offsets_in_segments_bounded_witness :
  let eps := entriesPerSegment miner_1000 in
  let stack := [5; 16777223; 12; 536870911] in
  buckets_wf eps (fresh_buckets eps)
  /\ 0 <= 4 <= Z.of_nat (length stack)
  /\ Forall (fun x => 0 <= x < max_increments) (take (Z.to_nat 4) stack)
  /\ match put_offsets_in_segments eps (fresh_buckets eps) stack 4 with
     | Ok B' =>
         forall k, 0 <= k < maxiter ->
           bucket B' k = bucket (fresh_buckets eps) k
                         ++ flushed_to k (take (Z.to_nat 4) stack)
           /\ exists c c',
                segment_counts (fresh_buckets eps) !! Z.to_nat k = Some c
                /\ segment_counts B' !! Z.to_nat k = Some c'
                /\ c' = c + Z.of_nat (length (flushed_to k (take (Z.to_nat 4) stack)))
                /\ c' <= eps
     | Err ExitCalled =>
         exists k, 0 <= k < maxiter
           /\ eps < Z.of_nat (length (bucket (fresh_buckets eps) k
                                       ++ flushed_to k (take (Z.to_nat 4) stack)))
     | Err _ => False
     end.
Proof.
  intros eps stack.
  assert (H1 : buckets_wf eps (fresh_buckets eps))
    by (apply fresh_buckets_wf; vm_compute; split; [discriminate | reflexivity]).
  assert (H2 : 0 <= 4 <= Z.of_nat (length stack)) by (cbn; lia).
  assert (H3 : Forall (fun x => 0 <= x < max_increments) (take (Z.to_nat 4) stack)).
  { rewrite max_increments_val. repeat constructor; lia. }
  split; [exact H1|]. split; [exact H2|]. split; [exact H3|].
  apply (put_offsets_in_segments_bounded eps (fresh_buckets eps) stack 4 H1 H2 H3).
Defined.

(** ** Candidate extraction *)

Lemma testbit_above x k :
  0 <= x < 2 ^ k -> forall j, k <= j -> Z.testbit x j = false.
Proof.
  intros Hx j Hj. destruct (Z.eq_dec x 0) as [->|Hne]; [apply Z.bits_0|].
  apply Z.bits_above_log2; [lia|].
  assert (Z.log2 x < k) by (apply Z.log2_lt_pow2; lia). lia.
Qed.

Lemma below_pow2_of_bits x k :
  0 <= x -> 0 <= k -> (forall j, k <= j -> Z.testbit x j = false) -> x < 2 ^ k.
Proof.
  intros Hx Hk Hbits.
  assert (Heq : x = x mod 2 ^ k).
  { apply Z.bits_inj'. intros j Hj.
    destruct (Z.lt_ge_cases j k) as [Hlt|Hge].
    - rewrite Z.mod_pow2_bits_low by lia. reflexivity.
    - rewrite Z.mod_pow2_bits_high by lia. apply Hbits. exact Hge. }
  rewrite Heq. apply Z.mod_pos_bound. apply Z.pow_pos_nonneg; lia.
Qed.

Lemma wrap64_lnot_testbit y j :
  0 <= j -> Z.testbit (wrap64 (Z.lnot y)) j = (j <? 64) && negb (Z.testbit y j).
Proof.
  intros Hj. unfold wrap64. destruct (Z.ltb_spec j 64).
  - rewrite Z.mod_pow2_bits_low by lia. rewrite Z.lnot_spec by lia. reflexivity.
  - rewrite Z.mod_pow2_bits_high by lia. reflexivity.
Qed.

Lemma wrap64_range x : 0 <= wrap64 x < 2 ^ 64.
Proof. unfold wrap64. apply Z.mod_pos_bound. lia. Qed.

Lemma word64_get_testbit a b k :
  0 <= b -> 0 <= k -> Z.testbit (word64_get a b) k = (k <? 64) && Z.testbit a (64 * b + k).
Proof.
  intros Hb Hk. unfold word64_get. rewrite Z.land_spec, Z.shiftr_spec by lia.
  rewrite Z.testbit_ones_nonneg by lia.
  rewrite (Z.add_comm k). destruct (Z.ltb_spec k 64).
  - rewrite andb_true_r. reflexivity.
  - rewrite andb_false_r. reflexivity.
Qed.

(** Clearing the highest set bit of a word, as the extraction loop does. *)
Lemma clear_high_bit sb c :
  0 <= c -> 0 < sb < 2 ^ (64 - c) ->
  let k := wrap32 (63 - clzll sb) in
  let sb' := Z.land sb (wrap64 (Z.lnot (Z.shiftl 1 k))) in
  k = Z.log2 sb /\ 0 <= k < 64 - c /\ Z.testbit sb k = true
  /\ 0 <= sb' < 2 ^ (64 - (c + 1))
  /\ forall j, 0 <= j -> Z.testbit sb' j = Z.testbit sb j && negb (j =? k).
Proof.
  intros Hc Hsb k sb'.
  assert (Hlog : 0 <= Z.log2 sb < 64 - c).
  { split; [apply Z.log2_nonneg|]. apply Z.log2_lt_pow2; lia. }
  assert (Hk : k = Z.log2 sb).
  { unfold k, clzll. replace (63 - (63 - Z.log2 sb)) with (Z.log2 sb) by lia.
    apply wrap32_small. lia. }
  assert (Hbits : forall j, 0 <= j -> Z.testbit sb' j = Z.testbit sb j && negb (j =? k)).
  { intros j Hj. unfold sb'. rewrite Z.land_spec, wrap64_lnot_testbit by lia.
    rewrite Z.shiftl_1_l, Z.pow2_bits_eqb by lia. rewrite (Z.eqb_sym k j).
    destruct (Z.ltb_spec j 64); [reflexivity|].
    rewrite (testbit_above sb (64 - c)) by lia. reflexivity. }
  assert (Hsb0 : 0 <= sb').
  { unfold sb'. apply Z.land_nonneg. left. lia. }
  split; [exact Hk|]. split; [lia|]. split.
  - rewrite Hk. apply Z.bit_log2. lia.
  - split; [|exact Hbits]. split; [exact Hsb0|].
    apply Z.lt_le_trans with (2 ^ k).
    + apply below_pow2_of_bits; [exact Hsb0 | lia |].
      intros j Hj. rewrite Hbits by lia.
      destruct (Z.eqb_spec j k); [rewrite andb_false_r; reflexivity|].
      rewrite Z.bits_above_log2 by lia. reflexivity.
    + apply Z.pow_le_mono_r; lia.
Qed.

Lemma sieveWords_val : riecoin_sieveWords = 262144.
Proof. reflexivity. Qed.

(** Appending one index to the job being filled. *)
Lemma append_index_emitted loop E i :
  extract_ok E ->
  let indexes := <[Z.to_nat (w_n_indexes E) := i]> (w_indexes E) in
  let n_indexes := w_n_indexes E + 1 in
  let full := n_indexes =? WORK_INDEXES in
  forall clock' reset',
  let E' := {| w_n_indexes := if full then 0 else n_indexes;
               w_indexes := indexes;
               pushed := if full then pushed E ++ [testWork loop n_indexes indexes]
                         else pushed E;
               clock := clock'; do_reset := reset' |} in
  extract_ok E' /\ emitted loop E' = emitted loop E ++ [(loop, i)].
Proof.
  intros [Hlen Hn] indexes n_indexes full clock' reset' E'.
  unfold WORK_INDEXES in *.
  assert (Htake : take (Z.to_nat (w_n_indexes E + 1)) indexes
                  = take (Z.to_nat (w_n_indexes E)) (w_indexes E) ++ [i]).
  { replace (Z.to_nat (w_n_indexes E + 1)) with (S (Z.to_nat (w_n_indexes E))) by lia.
    apply take_insert_snoc. lia. }
  unfold E', emitted, full, n_indexes. cbn [w_n_indexes w_indexes pushed].
  destruct (Z.eqb_spec (w_n_indexes E + 1) 64) as [Hfull|Hroom].
  - split.
    + constructor; cbn [w_n_indexes w_indexes].
      * unfold indexes. rewrite length_insert. exact Hlen.
      * unfold WORK_INDEXES. lia.
    + rewrite map_app, concat_app. cbn [map concat job_entries].
      rewrite Htake. change (Z.to_nat 0) with 0%nat.
      rewrite ?take_0. cbn [map]. rewrite !app_nil_r, map_app, app_assoc.
      reflexivity.
  - split.
    + constructor; cbn [w_n_indexes w_indexes].
      * unfold indexes. rewrite length_insert. exact Hlen.
      * unfold WORK_INDEXES. lia.
    + rewrite Htake, map_app, app_assoc. reflexivity.
Qed.

(** The loop over the clear bits of one word. *)
Lemma extract_word_spec monitor height loop b :
  0 <= b < riecoin_sieveWords ->
  forall fuel sb c E,
    0 <= c -> 0 <= sb < 2 ^ (64 - c) -> (65 <= c + Z.of_nat fuel) ->
    extract_ok E ->
    exists E' L,
      extract_word monitor height fuel loop b sb c E = Ok E'
      /\ extract_ok E'
      /\ emitted loop E' = emitted loop E ++ map (pair loop) L
      /\ (forall i, In i L ->
            exists k, 0 <= k < 64 /\ Z.testbit sb k = true /\ i = b * 64 + k)
      /\ (do_reset E' = false ->
            forall k, 0 <= k < 64 -> Z.testbit sb k = true -> In (b * 64 + k) L)
      /\ ((forall t, monitor t = height) -> do_reset E = false -> do_reset E' = false).
Proof.
  intros Hb. rewrite sieveWords_val in Hb.
  induction fuel as [|fuel IH]; intros sb c E Hc Hsb Hfuel Hok.
  { exfalso. assert (64 - c < 0) by lia.
    rewrite Z.pow_neg_r in Hsb by lia. lia. }
  cbn [extract_word].
  destruct (Z.eqb_spec sb 0) as [->|Hnz].
  - exists E, []. split; [reflexivity|]. split; [exact Hok|].
    split; [cbn [map]; rewrite app_nil_r; reflexivity|].
    split; [intros i []|]. split.
    + intros _ k Hk Hbit. rewrite Z.bits_0 in Hbit. discriminate.
    + intros _ H. exact H.
  - assert (Hc63 : c <= 63).
    { destruct (Z.le_gt_cases c 63); [assumption|].
      exfalso. assert (H64 : 64 - c <= 0) by lia.
      assert (2 ^ (64 - c) <= 1).
      { destruct (Z.eq_dec (64 - c) 0) as [->|]; [simpl; lia|].
        rewrite Z.pow_neg_r by lia. lia. }
      lia. }
    destruct (Z.gtb_spec (c + 1) 65); [lia|].
    destruct (clear_high_bit sb c Hc ltac:(lia)) as (Hk & Hkr & Hkbit & Hsb' & Hbits').
    set (k0 := wrap32 (63 - clzll sb)) in *.
    set (sb' := Z.land sb (wrap64 (Z.lnot (Z.shiftl 1 k0)))) in *.
    rewrite (wrap32_small (b * 64)) by lia.
    rewrite (wrap32_small (b * 64 + k0)) by lia.
    destruct Hok as [Hlen Hn].
    destruct (Nat.ltb_spec (Z.to_nat (w_n_indexes E)) (length (w_indexes E)))
      as [_|Hout]; [|unfold WORK_INDEXES in *; lia].
    destruct (append_index_emitted loop E (b * 64 + k0)
                {| eo_len := Hlen; eo_n := Hn |} (S (clock E))
                (negb (height =? monitor (clock E)))) as [Hok' Hem'].
    cbv zeta in Hok', Hem'.
    set (E1 := {| w_n_indexes := _; w_indexes := _; pushed := _;
                  clock := S (clock E); do_reset := _ |}) in *.
    destruct (negb (height =? monitor (clock E))) eqn:Hch.
    + exists E1, [b * 64 + k0]. split; [reflexivity|]. split; [exact Hok'|].
      split; [exact Hem'|]. split.
      * intros i [<-|[]]. exists k0. split; [lia|]. split; [exact Hkbit|reflexivity].
      * split.
        -- unfold E1. cbn [do_reset]. discriminate.
        -- intros Hmon _. rewrite Hmon, Z.eqb_refl in Hch. discriminate.
    + destruct (IH sb' (c + 1) E1 ltac:(lia) Hsb' ltac:(lia) Hok')
        as (E2 & L & Hrun & Hok2 & Hem2 & Hsound & Hcompl & Hreset).
      exists E2, ((b * 64 + k0) :: L). split; [exact Hrun|]. split; [exact Hok2|].
      split; [|split; [|split]].
      * rewrite Hem2, Hem', <- app_assoc. reflexivity.
      * intros i [<-|Hi].
        -- exists k0. split; [lia|]. split; [exact Hkbit|reflexivity].
        -- destruct (Hsound i Hi) as (k & Hkk & Hbit & ->).
           exists k. split; [exact Hkk|]. split; [|reflexivity].
           rewrite Hbits' in Hbit by lia. apply andb_true_iff in Hbit. apply Hbit.
      * intros Hno k Hkk Hbit. destruct (Z.eq_dec k k0) as [->|Hne].
        -- left. reflexivity.
        -- right. apply (Hcompl Hno k Hkk). rewrite Hbits' by lia.
           rewrite Hbit. destruct (Z.eqb_spec k k0); [contradiction|]. reflexivity.
      * intros Hmon _. apply (Hreset Hmon). unfold E1. cbn [do_reset].
        reflexivity.
Qed.

Lemma extract_words_spec monitor height sieve loop (nb : nat) E0 :
  Z.of_nat nb <= riecoin_sieveWords -> extract_ok E0 ->
  exists E L,
    forM (fun b E =>
            if do_reset E then Ok E
            else extract_word monitor height 66 loop b
                   (wrap64 (Z.lnot (word64_get sieve b))) 0 E)
         (seqZ 0 (Z.of_nat nb)) E0 = Ok E
    /\ extract_ok E
    /\ emitted loop E = emitted loop E0 ++ map (pair loop) L
    /\ (forall i, In i L -> 0 <= i < 64 * Z.of_nat nb /\ Z.testbit sieve i = false)
    /\ (do_reset E = false ->
          do_reset E0 = false
          /\ forall i, 0 <= i < 64 * Z.of_nat nb -> Z.testbit sieve i = false -> In i L)
    /\ ((forall t, monitor t = height) -> do_reset E0 = false -> do_reset E = false).
Proof.
  intros Hnb Hok0. induction nb as [|nb IH].
  - exists E0, []. rewrite seqZ_nil by lia. split; [reflexivity|].
    split; [exact Hok0|]. split; [cbn [map]; rewrite app_nil_r; reflexivity|].
    split; [intros i []|]. split.
    + intros H. split; [exact H|]. intros i Hi. lia.
    + intros _ H. exact H.
  - destruct (IH ltac:(lia)) as (E1 & L1 & Hrun1 & Hok1 & Hem1 & Hs1 & Hc1 & Hr1).
    rewrite forM_seqZ_S, Hrun1. cbn [mbind result_bind]. rewrite Z.add_0_l.
    destruct (do_reset E1) eqn:Hreset1.
    + exists E1, L1. split; [reflexivity|]. split; [exact Hok1|].
      split; [exact Hem1|]. split; [|split].
      * intros i Hi. destruct (Hs1 i Hi). split; [lia|assumption].
      * intros H. congruence.
      * intros Hmon H0. pose proof (Hr1 Hmon H0). congruence.
    + assert (Hbr : 0 <= Z.of_nat nb < riecoin_sieveWords) by lia.
      set (sb := wrap64 (Z.lnot (word64_get sieve (Z.of_nat nb)))).
      assert (Hsbbit : forall k, 0 <= k < 64 ->
                Z.testbit sb k = negb (Z.testbit sieve (64 * Z.of_nat nb + k))).
      { intros k Hk. unfold sb.
        rewrite wrap64_lnot_testbit, word64_get_testbit by lia.
        destruct (Z.ltb_spec k 64); [reflexivity | lia]. }
      assert (H0c : 0 <= 0) by lia.
      assert (Hf : 65 <= 0 + Z.of_nat 66) by lia.
      destruct (extract_word_spec monitor height loop (Z.of_nat nb) Hbr 66 sb 0 E1
                  H0c (wrap64_range _) Hf Hok1)
        as (E2 & L2 & Hrun2 & Hok2 & Hem2 & Hs2 & Hc2 & Hr2).
      exists E2, (L1 ++ L2). split; [exact Hrun2|]. split; [exact Hok2|].
      split; [|split; [|split]].
      * rewrite Hem2, Hem1, map_app, app_assoc. reflexivity.
      * intros i Hi. apply in_app_or in Hi. destruct Hi as [Hi|Hi].
        -- destruct (Hs1 i Hi). split; [lia|assumption].
        -- destruct (Hs2 i Hi) as (k & Hk & Hbit & ->).
           rewrite Hsbbit in Hbit by lia. apply negb_true_iff in Hbit.
           split; [lia|]. rewrite <- Hbit. f_equal. lia.
      * intros Hno. destruct (Hc1 eq_refl) as [H0 Hcompl1]. split; [exact H0|].
        intros i Hi Hbit. apply in_or_app.
        destruct (Z.lt_ge_cases i (64 * Z.of_nat nb)) as [Hlow|Hhigh].
        -- left. apply Hcompl1; [lia | exact Hbit].
        -- right. replace i with (Z.of_nat nb * 64 + (i - 64 * Z.of_nat nb)) by lia.
           apply (Hc2 Hno); [lia|]. rewrite Hsbbit by lia.
           replace (64 * Z.of_nat nb + (i - 64 * Z.of_nat nb)) with i by lia.
           rewrite Hbit. reflexivity.
      * intros Hmon H0. apply (Hr2 Hmon). exact Hreset1.
Qed.

(** Extraction over a merged bitmap: what is appended to jobs are positions
    of the segment whose bit is clear, and every such position when the
    block height does not change meanwhile. *)
Lemma extract_candidates_spec monitor height sieve loop pushed0 clock0 :
  exists E L,
    extract_candidates monitor height sieve loop pushed0 clock0 = Ok E
    /\ concat (map job_entries (pushed E))
       = concat (map job_entries pushed0) ++ map (pair loop) L
    /\ (forall i, In i L -> 0 <= i < riecoin_sieveSize /\ Z.testbit sieve i = false)
    /\ ((forall t, monitor t = height) ->
          forall i, 0 <= i < riecoin_sieveSize -> Z.testbit sieve i = false -> In i L).
Proof.
  unfold extract_candidates.
  set (E0 := {| w_n_indexes := 0; w_indexes := new_array WORK_INDEXES;
                pushed := pushed0; clock := clock0; do_reset := false |}).
  assert (Hok0 : extract_ok E0).
  { constructor; cbn; [reflexivity | unfold WORK_INDEXES; lia]. }
  pose proof (extract_words_spec monitor height sieve loop
                (Z.to_nat riecoin_sieveWords) E0) as H.
  rewrite Z2Nat.id in H by (rewrite sieveWords_val; lia).
  destruct (H ltac:(lia) Hok0) as (E & L & -> & Hok & Hem & Hs & Hc & Hr).
  cbn [mbind result_bind].
  assert (Hem0 : emitted loop E0 = concat (map job_entries pushed0)).
  { unfold emitted, E0. cbn. rewrite app_nil_r. reflexivity. }
  rewrite Hem0 in Hem.
  assert (H64 : 64 * riecoin_sieveWords = riecoin_sieveSize) by reflexivity.
  rewrite H64 in Hs, Hc.
  assert (Hcompl : (forall t, monitor t = height) ->
            forall i, 0 <= i < riecoin_sieveSize -> Z.testbit sieve i = false -> In i L).
  { intros Hmon. apply Hc. apply (Hr Hmon). reflexivity. }
  destruct (Z.gtb_spec (w_n_indexes E) 0) as [Hpos|Hzero].
  - eexists _, L. split; [reflexivity|]. cbn [pushed].
    split; [|split; [exact Hs | exact Hcompl]].
    rewrite map_app, concat_app. cbn [map concat job_entries].
    rewrite app_nil_r. exact Hem.
  - exists E, L. split; [reflexivity|]. split; [|split; [exact Hs | exact Hcompl]].
    rewrite <- Hem. unfold emitted.
    assert (w_n_indexes E = 0) by (destruct Hok; lia).
    replace (Z.to_nat (w_n_indexes E)) with 0%nat by lia.
    rewrite take_0. cbn [map]. rewrite app_nil_r. reflexivity.
Qed.

Lemma job_entries_In jobs loop i :
  In (loop, i) (concat (map job_entries jobs))
  <-> exists n idx, In (testWork loop n idx) jobs
                    /\ In i (job_indexes (testWork loop n idx)).
Proof.
  split.
  - intros H. apply in_concat in H. destruct H as (l & Hl & Hi).
    apply in_map_iff in Hl. destruct Hl as (w & <- & Hw).
    destruct w as [loop' n idx| |]; cbn [job_entries] in Hi; try destruct Hi.
    apply in_map_iff in Hi. destruct Hi as (i' & Heq & Hi'). inversion Heq; subst.
    exists n, idx. split; [exact Hw | exact Hi'].
  - intros (n & idx & Hw & Hi). apply in_concat.
    exists (job_entries (testWork loop n idx)). split.
    + apply in_map. exact Hw.
    + cbn [job_entries]. apply in_map. exact Hi.
Qed.

(** C5, as amended.  The extractor appends to [TYPE_CHECK] jobs only
    positions of the segment whose bit is clear in the merged bitmap, and,
    while the block height does not change, every such position: index 0
    is appended exactly when bit 0 of word 0 is clear. *)
Theorem extraction_emits_clear_bits monitor height sieve loop pushed0 clock0 :
  exists E L,
    extract_candidates monitor height sieve loop pushed0 clock0 = Ok E
    /\ concat (map job_entries (pushed E))
       = concat (map job_entries pushed0) ++ map (pair loop) L
    /\ (forall i, In i L -> 0 <= i < riecoin_sieveSize /\ Z.testbit sieve i = false)
    /\ ((forall t, monitor t = height) ->
          (In 0 L <-> Z.testbit sieve 0 = false)
          /\ forall i, 0 <= i < riecoin_sieveSize ->
               (In i L <-> Z.testbit sieve i = false)).
Proof.
  destruct (extract_candidates_spec monitor height sieve loop pushed0 clock0)
    as (E & L & Hrun & Hent & Hsound & Hcompl).
  exists E, L. split; [exact Hrun|]. split; [exact Hent|]. split; [exact Hsound|].
  intros Hmon.
  assert (Hall : forall i, 0 <= i < riecoin_sieveSize ->
            (In i L <-> Z.testbit sieve i = false)).
  { intros i Hi. split; [intros H; apply (Hsound i H) | apply (Hcompl Hmon i Hi)]. }
  split; [|exact Hall]. apply Hall. rewrite sieveSize_val. lia.
Qed.

(** C5 fails as stated: on the zeroed bitmap, with the block height
    unchanged, a pushed job carries index 0. *)
Lemma extraction_emits_index_0 :
  exists E,
    extract_candidates (fun _ => 0) 0 0 0 [] 0%nat = Ok E
    /\ exists loop n idx,
         In (testWork loop n idx) (pushed E)
         /\ In 0 (job_indexes (testWork loop n idx)).
Proof.
  destruct (extract_candidates_spec (fun _ => 0) 0 0 0 [] 0%nat)
    as (E & L & Hrun & Hent & _ & Hcompl).
  exists E. split; [exact Hrun|]. exists 0.
  apply job_entries_In. rewrite Hent. cbn [map concat app].
  apply (in_map (pair 0)). apply Hcompl.
  - intros t. reflexivity.
  - rewrite sieveSize_val. lia.
  - apply Z.bits_0.
Qed.

(** ** Verification and share submission *)

Lemma limb_byte z d j :
  0 <= z -> 0 <= d -> 0 <= j < 8 ->
  Z.land (Z.shiftr (mp_d z d) (8 * j)) 255 = le_byte z (d * 8 + j).
Proof.
  intros Hz Hd Hj. unfold mp_d, le_byte. rewrite Z.abs_eq by lia.
  change 255 with (Z.ones 8). rewrite Z.land_ones by lia.
  change 256 with (2 ^ 8).
  rewrite <- !Z.shiftr_div_pow2 by lia.
  apply Z.bits_inj'. intros n Hn.
  destruct (Z.lt_ge_cases n 8) as [Hlt|Hge].
  - rewrite !Z.mod_pow2_bits_low by lia.
    rewrite !Z.shiftr_spec by lia.
    rewrite Z.mod_pow2_bits_low by lia.
    rewrite Z.shiftr_spec by lia. f_equal. lia.
  - rewrite !Z.mod_pow2_bits_high by lia. reflexivity.
Qed.

Lemma le_prefix_length z k : length (le_prefix z k) = 32%nat.
Proof. unfold le_prefix. rewrite length_fmap, length_seqZ. reflexivity. Qed.

Lemma le_prefix_insert z k :
  0 <= k < 32 ->
  <[Z.to_nat k := le_byte z k]> (le_prefix z k) = le_prefix z (k + 1).
Proof.
  intros Hk. apply list_eq. intros n.
  rewrite list_lookup_insert, le_prefix_length. unfold le_prefix.
  rewrite !list_lookup_fmap.
  destruct (decide (Z.to_nat k = n /\ (Z.to_nat k < 32)%nat)) as [[<- _]|Hne].
  - rewrite lookup_seqZ_lt by lia. cbn [fmap option_fmap option_map].
    rewrite Z2Nat.id, Z.add_0_l by lia.
    destruct (k <? k + 1) eqn:E; [reflexivity|]. apply Z.ltb_ge in E. lia.
  - destruct (seqZ 0 32 !! n) as [i|] eqn:Hs; [|reflexivity].
    apply lookup_seqZ in Hs. destruct Hs as [-> Hlt].
    cbn [fmap option_fmap option_map]. f_equal.
    assert (Hnk : Z.of_nat n <> k) by (intros <-; apply Hne; lia).
    destruct (0 + Z.of_nat n <? k) eqn:E1; destruct (0 + Z.of_nat n <? k + 1) eqn:E2;
      try reflexivity;
      [apply Z.ltb_lt in E1; apply Z.ltb_ge in E2
      |apply Z.ltb_ge in E1; apply Z.ltb_lt in E2]; lia.
Qed.

Lemma store64_spec z d :
  0 <= z -> 0 <= d < 4 ->
  store64 (le_prefix z (d * 8)) (d * 8) (mp_d z d) = Ok (le_prefix z (d * 8 + 8)).
Proof.
  intros Hz Hd. unfold store64.
  assert (H : forall j : nat, (j <= 8)%nat ->
            forM (fun j bytes =>
                    if (Z.to_nat (d * 8 + j) <? length bytes)%nat then
                      Ok (<[Z.to_nat (d * 8 + j)
                            := Z.land (Z.shiftr (mp_d z d) (8 * j)) 255]> bytes)
                    else Err OutOfBounds)
                 (seqZ 0 (Z.of_nat j)) (le_prefix z (d * 8))
            = Ok (le_prefix z (d * 8 + Z.of_nat j))).
  { induction j as [|j IH]; intros Hj.
    - cbn. rewrite Z.add_0_r. reflexivity.
    - rewrite forM_seqZ_S, IH by lia. cbn [mbind result_bind].
      rewrite le_prefix_length, Z.add_0_l.
      destruct (Z.to_nat (d * 8 + Z.of_nat j) <? 32)%nat eqn:E;
        [|apply Nat.ltb_ge in E; lia].
      rewrite limb_byte by lia. rewrite le_prefix_insert by lia.
      f_equal. f_equal. lia. }
  exact (H 8%nat (le_n 8)).
Qed.

Lemma le_prefix_full z k :
  0 <= k -> 0 <= z < 2 ^ (8 * k) -> le_prefix z k = le_prefix z 32.
Proof.
  intros Hk Hz. unfold le_prefix. apply list_eq. intros n.
  rewrite !list_lookup_fmap.
  destruct (seqZ 0 32 !! n) as [i|] eqn:Hs; [|reflexivity].
  apply lookup_seqZ in Hs. destruct Hs as [-> Hlt].
  cbn [fmap option_fmap option_map]. f_equal. rewrite Z.add_0_l.
  destruct (Z.of_nat n <? k) eqn:E1; destruct (Z.of_nat n <? 32) eqn:E2;
    try reflexivity.
  - apply Z.ltb_ge in E2. lia.
  - apply Z.ltb_ge in E1. unfold le_byte.
    rewrite Z.div_small; [reflexivity|]. split; [lia|].
    apply Z.lt_le_trans with (2 ^ (8 * k)); [lia|].
    apply Z.pow_le_mono_r; lia.
Qed.

Lemma mp_limbs_bound z :
  0 <= z -> 0 <= mp_limbs z /\ z < 2 ^ (64 * mp_limbs z).
Proof.
  intros Hz. unfold mp_limbs. destruct (z =? 0) eqn:E.
  - apply Z.eqb_eq in E. subst. cbn. lia.
  - apply Z.eqb_neq in E. rewrite Z.abs_eq by lia.
    assert (Hl : 0 <= Z.log2 z) by apply Z.log2_nonneg.
    assert (Hq : 0 <= Z.log2 z / 64) by (apply Z.div_pos; lia).
    split; [lia|].
    destruct (Z.log2_spec z) as [_ Hu]; [lia|].
    apply Z.lt_le_trans with (2 ^ Z.succ (Z.log2 z)); [exact Hu|].
    apply Z.pow_le_mono_r; [lia|].
    pose proof (Z.mod_pos_bound (Z.log2 z) 64) as Hm.
    pose proof (Z.div_mod (Z.log2 z) 64). lia.
Qed.

Lemma share_bytes_spec z : 0 <= z -> share_bytes z = Ok (le_prefix z 32).
Proof.
  intros Hz. unfold share_bytes. cbv zeta.
  destruct (mp_limbs_bound z Hz) as [Hl Hb].
  assert (Hsize : mp_size z = mp_limbs z).
  { unfold mp_size. destruct (Z.eq_dec z 0) as [->|Hne]; [reflexivity|].
    rewrite Z.sgn_pos by lia. lia. }
  rewrite Hsize. change (32 / 8) with 4.
  set (L := Z.min 4 (mp_limbs z)).
  assert (HL : 0 <= L <= 4) by (unfold L; lia).
  rewrite (wrap32_small L) by lia.
  change (replicate 32 0) with (le_prefix z 0).
  assert (H : forall l : nat, (l <= 4)%nat ->
            forM (fun d nOffset => store64 nOffset (d * 8) (mp_d z d))
                 (seqZ 0 (Z.of_nat l)) (le_prefix z 0)
            = Ok (le_prefix z (8 * Z.of_nat l))).
  { induction l as [|l IH]; intros Hl4.
    - reflexivity.
    - rewrite forM_seqZ_S, IH by lia. cbn [mbind result_bind].
      rewrite Z.add_0_l.
      replace (8 * Z.of_nat l) with (Z.of_nat l * 8) by lia.
      rewrite store64_spec by lia. f_equal. f_equal. lia. }
  rewrite <- (Z2Nat.id L) by lia. rewrite H by lia. f_equal.
  rewrite Z2Nat.id by lia.
  destruct (Z.eq_dec L 4) as [->|Hne]; [reflexivity|].
  apply le_prefix_full; [lia|]. split; [lia|].
  replace L with (mp_limbs z) by (unfold L; lia).
  replace (8 * (8 * mp_limbs z)) with (64 * mp_limbs z) by lia. exact Hb.
Qed.

Lemma readLE_le_bytes z s (n : nat) :
  0 <= s ->
  readLE (le_byte z <$> seqZ s (Z.of_nat n)) = (z / 2 ^ (8 * s)) mod 2 ^ (8 * Z.of_nat n).
Proof.
  revert s. induction n as [|n IH]; intros s Hs.
  - cbn. rewrite Z.mod_1_r. reflexivity.
  - rewrite seqZ_cons by lia.
    replace (Z.pred (Z.of_nat (S n))) with (Z.of_nat n) by lia.
    cbn [fmap list_fmap]. unfold readLE. cbn [foldr]. fold (readLE (le_byte z <$> seqZ (Z.succ s) (Z.of_nat n))).
    rewrite IH by lia. unfold le_byte.
    replace (8 * Z.of_nat (S n)) with (8 + 8 * Z.of_nat n) by lia.
    rewrite (Z.pow_add_r 2 8 (8 * Z.of_nat n)) by lia.
    assert (Hp : 0 < 2 ^ (8 * Z.of_nat n)) by (apply Z.pow_pos_nonneg; lia).
    rewrite (Z.rem_mul_r (z / 2 ^ (8 * s)) (2 ^ 8) (2 ^ (8 * Z.of_nat n)))
      by (try exact Hp; lia).
    change (2 ^ 8) with 256.
    replace (8 * Z.succ s) with (8 * s + 8) by lia.
    rewrite (Z.pow_add_r 2 (8 * s) 8) by lia.
    rewrite <- Z.div_div by (try apply Z.pow_pos_nonneg; lia).
    reflexivity.
Qed.

Lemma le_prefix_32 z : le_prefix z 32 = le_byte z <$> seqZ 0 32.
Proof.
  unfold le_prefix. apply list_eq. intros n. rewrite !list_lookup_fmap.
  destruct (seqZ 0 32 !! n) as [i|] eqn:Hs; [|reflexivity].
  apply lookup_seqZ in Hs. destruct Hs as [-> Hlt].
  cbn [fmap option_fmap option_map]. f_equal.
  destruct (0 + Z.of_nat n <? 32) eqn:E; [reflexivity|]. apply Z.ltb_ge in E. lia.
Qed.

Lemma readLE_le_prefix z : readLE (le_prefix z 32) = z mod 2 ^ 256.
Proof.
  rewrite le_prefix_32.
  pose proof (readLE_le_bytes z 0 32 (Z.le_refl 0)) as H.
  change (Z.of_nat 32) with 32 in H. rewrite H.
  change (2 ^ (8 * 0)) with 1. rewrite Z.div_1_r. reflexivity.
Qed.

Lemma le_prefix_bytes z : Forall (fun b => 0 <= b < 256) (le_prefix z 32).
Proof.
  rewrite le_prefix_32. apply Forall_fmap. apply Forall_forall. intros i _.
  cbn. unfold le_byte. apply Z.mod_pos_bound. lia.
Qed.

Lemma fermat_correct v : 0 < v -> (fermat v = true <-> fermat_passes v).
Proof.
  intros Hv. unfold fermat, fermat_passes, mpz_powm, mpz_sub_ui. cbv zeta.
  rewrite Zpow_mod_correct by lia. apply Z.eqb_eq.
Qed.

Lemma fermat_chain_spec n :
  fermat n = true ->
  exists z k,
    fermat_chain (seqZ 1 5) n 1 = (z, k)
    /\ 1 <= k <= 6
    /\ (forall c, 0 <= c < k -> fermat (n + cumulativeBias c) = true)
    /\ (k < 6 -> fermat (n + cumulativeBias k) = false).
Proof.
  intros H0.
  assert (B0 : n + cumulativeBias 0 = n) by (change (cumulativeBias 0) with 0; lia).
  assert (B1 : n + cumulativeBias 1 = n + 4) by reflexivity.
  assert (B2 : n + cumulativeBias 2 = n + 4 + 2) by (change (cumulativeBias 2) with 6; lia).
  assert (B3 : n + cumulativeBias 3 = n + 4 + 2 + 4) by (change (cumulativeBias 3) with 10; lia).
  assert (B4 : n + cumulativeBias 4 = n + 4 + 2 + 4 + 2) by (change (cumulativeBias 4) with 12; lia).
  assert (B5 : n + cumulativeBias 5 = n + 4 + 2 + 4 + 2 + 4) by (change (cumulativeBias 5) with 16; lia).
  change (seqZ 1 5) with [1; 2; 3; 4; 5].
  cbn [fermat_chain]. unfold mpz_add_ui.
  change (zth primeTupleOffset 1) with 4. change (zth primeTupleOffset 2) with 2.
  change (zth primeTupleOffset 3) with 4. change (zth primeTupleOffset 4) with 2.
  change (zth primeTupleOffset 5) with 4.
  change (wrap8 (1 + 1)) with 2. 
  destruct (fermat (n + 4)) eqn:E1.
  2:{ exists (n + 4), 1. split; [reflexivity|]. split; [lia|]. split.
      - intros c Hc. replace c with 0 by lia. rewrite B0. exact H0.
      - intros _. rewrite B1. exact E1. }
  change (wrap8 (2 + 1)) with 3.
  destruct (fermat (n + 4 + 2)) eqn:E2.
  2:{ exists (n + 4 + 2), 2. split; [reflexivity|]. split; [lia|]. split.
      - intros c Hc. assert (Hcs : c = 0 \/ c = 1) by lia.
        destruct Hcs as [->| ->]; congruence.
      - intros _. rewrite B2. exact E2. }
  change (wrap8 (3 + 1)) with 4.
  destruct (fermat (n + 4 + 2 + 4)) eqn:E3.
  2:{ exists (n + 4 + 2 + 4), 3. split; [reflexivity|]. split; [lia|]. split.
      - intros c Hc. assert (Hcs : c = 0 \/ c = 1 \/ c = 2) by lia.
        destruct Hcs as [->|[->| ->]]; congruence.
      - intros _. rewrite B3. exact E3. }
  change (wrap8 (4 + 1)) with 5.
  destruct (fermat (n + 4 + 2 + 4 + 2)) eqn:E4.
  2:{ exists (n + 4 + 2 + 4 + 2), 4. split; [reflexivity|]. split; [lia|]. split.
      - intros c Hc. assert (Hcs : c = 0 \/ c = 1 \/ c = 2 \/ c = 3) by lia.
        destruct Hcs as [->|[->|[->| ->]]]; congruence.
      - intros _. rewrite B4. exact E4. }
  change (wrap8 (5 + 1)) with 6.
  destruct (fermat (n + 4 + 2 + 4 + 2 + 4)) eqn:E5.
  2:{ exists (n + 4 + 2 + 4 + 2 + 4), 5. split; [reflexivity|]. split; [lia|]. split.
      - intros c Hc. assert (Hcs : c = 0 \/ c = 1 \/ c = 2 \/ c = 3 \/ c = 4) by lia.
        destruct Hcs as [->|[->|[->|[->| ->]]]]; congruence.
      - intros _. rewrite B5. exact E5. }
  exists (n + 4 + 2 + 4 + 2 + 4), 6. split; [reflexivity|]. split; [lia|]. split.
  - intros c Hc.
    assert (Hcs : c = 0 \/ c = 1 \/ c = 2 \/ c = 3 \/ c = 4 \/ c = 5) by lia.
    destruct Hcs as [->|[->|[->|[->|[->| ->]]]]]; congruence.
  - lia.
Qed.

Lemma candidate_value_eq M zt zr loop j :
  0 <= loop < maxiter ->
  candidate_value M zt zr loop j = tested_number M zt zr loop j.
Proof.
  intros Hl. rewrite maxiter_val in Hl.
  unfold candidate_value, tested_number, mpz_add, mpz_mul_ui. cbv zeta.
  rewrite wrap32_small by (rewrite sieveSize_val; lia). ring.
Qed.

Lemma check_candidate_spec M zt zr tuples loop j submitted :
  0 < primorial M -> 0 < zt -> 0 <= zr -> 0 <= loop < maxiter -> 0 <= j ->
  exists subs,
    check_candidate M zt zr tuples loop j submitted = Ok (submitted ++ subs)
    /\ forall off k, In (off, k) subs -> share_ok M zt zr tuples loop j off k.
Proof.
  intros HP Hzt Hzr Hl Hj. unfold check_candidate. cbv zeta.
  rewrite candidate_value_eq by exact Hl.
  set (n := tested_number M zt zr loop j).
  assert (Hoff : 0 <= n - zt).
  { unfold n, tested_number. pose proof sieveSize_val as HS.
    assert (0 <= (loop * riecoin_sieveSize + j) * primorial M) by nia. lia. }
  assert (Hn : 0 < n) by lia.
  destruct (fermat n) eqn:E0; cbn [negb].
  2:{ exists []. rewrite app_nil_r. split; [reflexivity | intros ? ? []]. }
  destruct (fermat_chain_spec n E0) as (z & k & -> & Hk & Hchain & Hstop).
  destruct (k <? tuples) eqn:Et.
  { exists []. rewrite app_nil_r. split; [reflexivity | intros ? ? []]. }
  apply Z.ltb_ge in Et. unfold mpz_sub.
  rewrite share_bytes_spec by exact Hoff. cbn [mbind result_bind].
  exists [(le_prefix (n - zt) 32, k)]. split; [reflexivity|].
  intros off k' [Heq|[]]. inversion Heq; subst off k'; clear Heq.
  assert (Hb : forall c, 0 <= c <= 5 -> 0 <= cumulativeBias c).
  { intros c Hc.
    assert (Hcs : c = 0 \/ c = 1 \/ c = 2 \/ c = 3 \/ c = 4 \/ c = 5) by lia.
    destruct Hcs as [->|[->|[->|[->|[->| ->]]]]]; vm_compute; discriminate. }
  split.
  - exact Et.
  - exact Hk.
  - apply le_prefix_length.
  - apply le_prefix_bytes.
  - apply readLE_le_prefix.
  - intros c Hc. apply fermat_correct; [|apply Hchain; exact Hc].
    pose proof (Hb c ltac:(lia)). fold n. lia.
  - intros Hk6 Hpass. fold n in Hpass.
    apply fermat_correct in Hpass; [|pose proof (Hb k ltac:(lia)); lia].
    rewrite (Hstop Hk6) in Hpass. discriminate.
Qed.

(** C3.  Every call to [submitWork] made while a [TYPE_CHECK] job is
    processed is for one of the job's candidates [j]: the prime count [k]
    is at least [arguments.tuples]; the 32-byte buffer holds, little-endian
    and zero-padded, the low 256 bits of [n - zTarget] for
    [n = zTarget + zRemainderPrimorial + (loop*sieveSize + j)*P]; the
    numbers [n], [n+4], [n+6], ... up to the [k]-th pass the Fermat test to
    base 2, and the chain stopped at the first failure: either [k = 6] or
    the next sibling fails. *)
Theorem verify_check_submissions M zt zr tuples loop n_indexes indexes submitted :
  0 < primorial M -> 0 < zt -> 0 <= zr -> 0 <= loop < maxiter ->
  0 <= n_indexes <= Z.of_nat (length indexes) ->
  Forall (fun j => 0 <= j) indexes ->
  exists subs,
    verify_check M zt zr tuples loop n_indexes indexes submitted
      = Ok (submitted ++ subs)
    /\ forall off k, In (off, k) subs ->
         exists j, In j (take (Z.to_nat n_indexes) indexes)
                   /\ share_ok M zt zr tuples loop j off k.
Proof.
  intros HP Hzt Hzr Hl Hn Hidx. unfold verify_check.
  rewrite <- (Z2Nat.id n_indexes) by lia.
  assert (Hlen : (Z.to_nat n_indexes <= length indexes)%nat) by lia.
  rewrite Nat2Z.id. generalize dependent (Z.to_nat n_indexes). clear Hn.
  induction n as [|n IH]; intros Hlen.
  - exists []. rewrite app_nil_r. split; [reflexivity | intros ? ? []].
  - destruct IH as (subs & Hrun & Hsubs); [lia|].
    rewrite forM_seqZ_S, Hrun. cbn [mbind result_bind].
    rewrite Z.add_0_l, Nat2Z.id.
    destruct (lookup_lt_is_Some_2 indexes n ltac:(lia)) as [j Hj].
    rewrite Hj.
    assert (Hj0 : 0 <= j).
    { rewrite Forall_forall in Hidx. apply Hidx.
      eapply list_elem_of_lookup_2. exact Hj. }
    destruct (check_candidate_spec M zt zr tuples loop j (submitted ++ subs)
                HP Hzt Hzr Hl Hj0) as (subs' & Hrun' & Hsubs').
    exists (subs ++ subs'). rewrite Hrun', app_assoc. split; [reflexivity|].
    intros off k Hin. rewrite (take_S_r _ _ _ Hj).
    apply in_app_or in Hin. destruct Hin as [Hin|Hin].
    + destruct (Hsubs off k Hin) as (j' & Hj' & Hok).
      exists j'. split; [apply in_or_app; left; exact Hj' | exact Hok].
    + exists j. split; [apply in_or_app; right; left; reflexivity|].
      apply Hsubs'. exact Hin.
Qed.

Lemma verify_check_submissions_witness :
  let indexes := [0; 1] in
  0 < primorial miner_1000
  /\ 0 <= 0 < maxiter
  /\ 0 <= 2 <= Z.of_nat (length indexes)
  /\ Forall (fun j => 0 <= j) indexes
  /\ exists subs,
       verify_check miner_1000 1 16056 6 0 2 indexes [] = Ok ([] ++ subs)
       /\ forall off k, In (off, k) subs ->
            exists j, In j (take (Z.to_nat 2) indexes)
                      /\ share_ok miner_1000 1 16056 6 0 j off k.
Proof.
  intros indexes.
  assert (H1 : 0 < primorial miner_1000) by (vm_compute; reflexivity).
  assert (H2 : 0 <= 0 < maxiter) by (rewrite maxiter_val; lia).
  assert (H3 : 0 <= 2 <= Z.of_nat (length indexes)) by (cbn; lia).
  assert (H4 : Forall (fun j => 0 <= j) indexes) by (repeat constructor; lia).
  split; [exact H1|]. split; [exact H2|]. split; [exact H3|]. split; [exact H4|].
  apply (verify_check_submissions miner_1000 1 16056 6 0 2 indexes []
           H1 ltac:(lia) ltac:(lia) H2 H3 H4).
Defined.

Example verify_check_sextuplet :
  verify_check miner_1000 1 16056 6 0 2 [0; 1] []
  = Ok [([184; 62; 0; 0; 0; 0; 0; 0; 0; 0; 0; 0; 0; 0; 0; 0;
          0; 0; 0; 0; 0; 0; 0; 0; 0; 0; 0; 0; 0; 0; 0; 0], 6)].
Proof. vm_compute. reflexivity. Qed.

(** ** Multiples of the sieved primes across iterations *)

Lemma hits_next M base loop i f x :
  hits M base (loop + 1) i f x <-> hits M base loop i f (x + riecoin_sieveSize).
Proof.
  unfold hits.
  replace (base + ((loop + 1) * riecoin_sieveSize + x) * primorial M + cumulativeBias f)
    with (base + (loop * riecoin_sieveSize + (x + riecoin_sieveSize)) * primorial M
          + cumulativeBias f) by ring.
  reflexivity.
Qed.

Lemma hits_congr M base loop i f x y :
  0 < zth (primes M) i -> (x - y) mod zth (primes M) i = 0 ->
  hits M base loop i f x -> hits M base loop i f y.
Proof.
  unfold hits. set (p := zth (primes M) i). intros Hp Hxy Hx.
  destruct (mod0_witness _ _ Hp Hxy) as [k2 H2].
  destruct (mod0_witness _ _ Hp Hx) as [k1 H1].
  apply (witness_mod0 _ _ (k1 - k2 * primorial M) Hp).
  replace y with (x - p * k2) by lia. 
  replace (p * (k1 - k2 * primorial M)) with (p * k1 - p * k2 * primorial M) by ring.
  rewrite <- H1. ring.
Qed.

Lemma hits_unique M base loop i f x y :
  sieving_prime M i ->
  hits M base loop i f x -> hits M base loop i f y ->
  (x - y) mod zth (primes M) i = 0.
Proof.
  intros Hsp. pose proof (sp_lower _ _ Hsp) as Hlow.
  pose proof (sp_inverse _ _ Hsp) as Hinv. unfold hits.
  set (p := zth (primes M) i) in *. set (P := primorial M) in *.
  set (inv := zth (inverts M) i) in *.
  assert (Hp : 0 < p) by lia. intros Hx Hy.
  destruct (mod0_witness _ _ Hp Hx) as [k1 H1].
  destruct (mod0_witness _ _ Hp Hy) as [k2 H2].
  pose proof (Z.div_mod (P * inv) p ltac:(lia)) as Hdm. rewrite Hinv in Hdm.
  set (t := P * inv / p) in *.
  assert (E : (x - y) * P = p * (k1 - k2)).
  { replace ((x - y) * P)
      with ((base + (loop * riecoin_sieveSize + x) * P + cumulativeBias f)
            - (base + (loop * riecoin_sieveSize + y) * P + cumulativeBias f)) by ring.
    rewrite H1, H2. ring. }
  apply (witness_mod0 _ _ ((k1 - k2) * inv - (x - y) * t) Hp).
  replace (x - y) with ((x - y) * P * inv - (x - y) * (p * t)) at 1.
  - rewrite E. ring.
  - replace ((x - y) * P * inv) with ((x - y) * (P * inv)) by ring.
    rewrite Hdm. ring.
Qed.

Lemma hits_marks M base loop i f off j :
  sieving_prime M i -> 0 <= off < zth (primes M) i ->
  hits M base loop i f off -> 0 <= j < riecoin_sieveSize ->
  (marks (zth (primes M) i) off j = true <-> hits M base loop i f j).
Proof.
  intros Hsp Hoff Hhit Hj. pose proof (sp_lower _ _ Hsp) as Hlow.
  set (p := zth (primes M) i) in *. assert (Hp : 0 < p) by lia.
  unfold marks. split.
  - intros H. apply andb_true_iff in H. destruct H as [_ H].
    apply Z.eqb_eq in H. apply (hits_congr M base loop i f off j Hp); [|exact Hhit].
    destruct (mod0_witness _ _ Hp H) as [k Hk].
    apply (witness_mod0 _ _ (- k) Hp). lia.
  - intros H. pose proof (hits_unique M base loop i f j off Hsp H Hhit) as Hm.
    fold p in Hm. rewrite Hm, Z.eqb_refl.
    destruct (mod0_witness _ _ Hp Hm) as [k Hk].
    assert (0 <= k) by nia.
    assert (off <= j) by nia.
    destruct (Z.leb_spec off j); [|lia].
    destruct (Z.ltb_spec j riecoin_sieveSize); [|lia]. reflexivity.
Qed.

Lemma resident_sieving_prime M i :
  initialised M -> resident M i -> sieving_prime M i.
Proof.
  intros Hinit Hi. destruct (initialised_strata M Hinit) as (_ & _ & Hle & _).
  apply initialised_sieving_prime; [exact Hinit|]. unfold resident in Hi. cbv zeta in Hle. lia.
Qed.

Lemma marked_by_true M m o lo hi j :
  marked_by M m o lo hi j = true
  <-> exists i g, lo <= i < hi /\ 0 <= g < 6
        /\ marks (zth (primes M) (i + m)) (o (i + m) g) j = true.
Proof.
  unfold marked_by. rewrite existsb_exists. split.
  - intros (i & Hi & H). apply existsb_exists in H. destruct H as (g & Hg & H).
    apply list_elem_of_In, elem_of_seqZ in Hi.
    apply list_elem_of_In, elem_of_seqZ in Hg.
    exists i, g. split; [lia|]. split; [lia | exact H].
  - intros (i & g & Hi & Hg & H). exists i. split.
    + apply list_elem_of_In, elem_of_seqZ. lia.
    + apply existsb_exists. exists g. split; [|exact H].
      apply list_elem_of_In, elem_of_seqZ. lia.
Qed.

Lemma marked_by_hits M base loop o lo hi j :
  initialised M -> table_at M base loop o ->
  0 <= lo -> hi <= n_dense M + n_sparse M ->
  0 <= j < riecoin_sieveSize ->
  (marked_by M (primorialNumber M) o lo hi j = true
   <-> hit_in M base loop (lo + primorialNumber M) (hi + primorialNumber M) j).
Proof.
  intros Hinit Htab Hlo Hhi Hj. rewrite marked_by_true. unfold hit_in.
  set (m := primorialNumber M). split.
  - intros (i & g & Hi & Hg & Hm).
    assert (Hres : resident M (i + m)) by (unfold resident; fold m; lia).
    destruct (Htab _ Hres) as (Hb & _ & Hgf).
    destruct (Hgf g Hg) as (f & Hf & Hhit).
    exists (i + m), f. split; [lia|]. split; [exact Hf|].
    apply (hits_marks M base loop (i + m) f (o (i + m) g) j); try assumption.
    + apply resident_sieving_prime; assumption.
    + apply Hb; exact Hg.
  - intros (i & f & Hi & Hf & Hhit).
    assert (Hres : resident M i) by (unfold resident; fold m; lia).
    destruct (Htab _ Hres) as (Hb & Hfg & _).
    destruct (Hfg f Hf) as (g & Hg & Hhit0).
    exists (i - m), g. replace (i - m + m) with i by lia.
    split; [lia|]. split; [exact Hg|].
    apply (hits_marks M base loop i f (o i g) j); try assumption.
    + apply resident_sieving_prime; assumption.
    + apply Hb; exact Hg.
Qed.

Lemma table_step M base loop o o' :
  initialised M -> table_at M base loop o ->
  (forall i, resident M i ->
     (forall f, 0 <= f < 6 ->
        exists g, 0 <= g < 6 /\ o' i f = advance (zth (primes M) i) (o i g))
     /\ (forall g, 0 <= g < 6 ->
        exists f, 0 <= f < 6 /\ o' i f = advance (zth (primes M) i) (o i g))) ->
  table_at M base (loop + 1) o'.
Proof.
  intros Hinit Htab Hstep i Hres.
  destruct (Htab i Hres) as (Hb & Hfg & Hgf).
  destruct (Hstep i Hres) as (Hfw & Hbw).
  pose proof (resident_prime_range M i Hinit Hres) as Hrange.
  rewrite max_increments_val in Hrange.
  set (p := zth (primes M) i) in *. assert (Hp : 0 < p) by lia.
  assert (Hadv : forall g f, 0 <= g < 6 -> hits M base loop i f (o i g) ->
            hits M base (loop + 1) i f (advance p (o i g))).
  { intros g f Hg Hhit. apply hits_next.
    destruct (advance_exact p (o i g) Hp) as (Hk & Heq & _).
    - apply Hb; exact Hg.
    - rewrite sieveSize_val. lia.
    - specialize (Hb g Hg). lia.
    - apply (hits_congr M base loop i f (o i g)); [exact Hp| |exact Hhit].
      apply (witness_mod0 _ _ (- steps p (o i g)) Hp). fold p. rewrite Heq. ring. }
  split; [|split].
  - intros f Hf. destruct (Hfw f Hf) as (g & Hg & ->).
    apply advance_range; [exact Hp | apply Hb; exact Hg].
  - intros f Hf. destruct (Hfg f Hf) as (g & Hg & Hhit).
    destruct (Hbw g Hg) as (f' & Hf' & Heq).
    exists f'. split; [exact Hf'|]. rewrite Heq. apply Hadv; assumption.
  - intros f' Hf'. destruct (Hfw f' Hf') as (g & Hg & ->).
    destruct (Hgf g Hg) as (f & Hf & Hhit).
    exists f. split; [exact Hf|]. apply Hadv; assumption.
Qed.

(** ** The sparse stratum: dispatch and workers *)

Lemma job_chain_le sw lo hi jobs : job_chain sw lo hi jobs -> lo <= hi.
Proof. induction 1; lia. Qed.

Lemma dispatch_sieve_loop_spec nd ns sw incr fuel :
  0 <= nd -> 0 <= ns -> nd + ns < 2 ^ 31 -> 1 <= sw -> 1 <= incr <= ns + 1 ->
  forall base ws queue n,
    nd <= base <= nd + ns -> 0 <= ws < sw ->
    job_chain sw nd base queue ->
    (Z.to_nat (nd + ns - base) < fuel)%nat ->
    exists queue' n',
      dispatch_sieve_loop fuel nd ns sw incr base ws queue n = Ok (queue', n')
      /\ job_chain sw nd (nd + ns) queue'.
Proof.
  intros Hnd Hns Htot Hsw Hincr.
  induction fuel as [|fuel IH]; intros base ws queue n Hbase Hws Hchain Hfuel; [lia|].
  cbn [dispatch_sieve_loop]. cbv zeta.
  rewrite (wrap32_small (nd + ns)) by lia.
  destruct (Z.ltb_spec base (nd + ns)) as [Hlt|Hge].
  - rewrite (wrap32_small (base + incr)) by lia.
    set (lim0 := Z.min (nd + ns) (base + incr)).
    assert (Hlim0 : base < lim0 <= nd + ns) by (unfold lim0; lia).
    rewrite (wrap32_small (lim0 + 1000)) by lia.
    rewrite !Z.gtb_ltb.
    destruct (Z.ltb_spec (nd + ns) (lim0 + 1000)) as [Hlast|Hmore].
    + rewrite (wrap32_small (nd + ns + 1000)) by lia.
      destruct (Z.ltb_spec (nd + ns) (nd + ns + 1000)); [|lia].
      eexists _, _. split; [reflexivity|].
      apply chain_cons; [exact Hchain | lia | exact Hws].
    + rewrite (wrap32_small (lim0 + 1000)) by lia.
      destruct (Z.ltb_spec (nd + ns) (lim0 + 1000)); [lia|].
      assert (Hl : lim0 = base + incr) by (unfold lim0; lia).
      apply IH.
      * lia.
      * apply Z.rem_bound_pos; lia.
      * rewrite <- Hl. apply chain_cons; [exact Hchain | lia | exact Hws].
      * lia.
  - replace (nd + ns) with base by lia.
    eexists _, _. split; [reflexivity | exact Hchain].
Qed.

Lemma initialised_sieveWorkers M : initialised M -> 1 <= sieveWorkers M <= 8.
Proof.
  intros Hinit. rewrite (init_tables M Hinit).
  cbn [miningInit_tables sieveWorkers]. lia.
Qed.

Lemma dispatch_sieve_spec M fuel :
  initialised M -> nPrimes M < 2 ^ 31 ->
  (Z.to_nat (nPrimes M) < fuel)%nat ->
  exists jobs n,
    dispatch_sieve fuel M = Ok (jobs, n)
    /\ job_chain (sieveWorkers M) (n_dense M) (n_dense M + n_sparse M) jobs.
Proof.
  intros Hinit Hn Hfuel.
  destruct (initialised_strata M Hinit) as (Hd & Hs & Hle & _).
  pose proof (init_m M Hinit) as Hm. cbv zeta in Hle.
  pose proof (initialised_sieveWorkers M Hinit) as Hsw.
  unfold dispatch_sieve. cbv zeta.
  assert (Hq : 0 <= n_sparse M / sieveWorkers M <= n_sparse M).
  { split; [apply Z.div_pos; lia|].
    apply Z.div_le_upper_bound; [lia|]. nia. }
  rewrite (wrap32_small (n_sparse M / sieveWorkers M + 1)) by lia.
  apply dispatch_sieve_loop_spec; try lia.
  apply chain_nil.
Qed.

Lemma marked_by_app M m o lo mid hi j :
  lo <= mid <= hi ->
  marked_by M m o lo hi j = marked_by M m o lo mid j || marked_by M m o mid hi j.
Proof.
  intros H. unfold marked_by.
  replace (hi - lo) with ((mid - lo) + (hi - mid)) by lia.
  rewrite seqZ_app by lia. rewrite existsb_app.
  replace (lo + (mid - lo)) with mid by lia. reflexivity.
Qed.

Lemma marked_by_ext M m o o' lo hi j :
  (forall i f, lo <= i < hi -> 0 <= f < 6 -> o' (i + m) f = o (i + m) f) ->
  marked_by M m o' lo hi j = marked_by M m o lo hi j.
Proof.
  intros H. unfold marked_by. apply existsb_ext_in. intros i Hi.
  apply list_elem_of_In, elem_of_seqZ in Hi.
  apply existsb_ext_in. intros f Hf.
  apply list_elem_of_In, elem_of_seqZ in Hf.
  rewrite H by lia. reflexivity.
Qed.

Lemma run_sieve_jobs_cons M fuel job jobs s :
  run_sieve_jobs M fuel (job :: jobs) s
  = match run_sieve_jobs M fuel [job] s with
    | Ok s' => run_sieve_jobs M fuel jobs s'
    | Err e => Err e
    end.
Proof.
  unfold run_sieve_jobs. cbn [foldl].
  match goal with |- foldl ?f ?x jobs = _ => destruct x as [s'|e] end;
    [reflexivity|].
  induction jobs as [|j js IH]; [reflexivity | exact IH].
Qed.

Lemma run_sieve_jobs_spec M fuel lo :
  initialised M -> (Z.to_nat riecoin_sieveSize < fuel)%nat -> 0 <= lo ->
  forall hi jobs,
    job_chain (sieveWorkers M) lo hi jobs ->
    hi <= n_dense M + n_sparse M ->
    forall sieves o,
      length sieves = Z.to_nat (sieveWorkers M) ->
      offsets_bounded M o (lo + primorialNumber M) (hi + primorialNumber M) ->
      exists sieves' o',
        run_sieve_jobs M fuel jobs (sieves, o) = Ok (sieves', o')
        /\ length sieves' = length sieves
        /\ (forall j, existsb (fun aux => Z.testbit aux j) sieves'
                      = existsb (fun aux => Z.testbit aux j) sieves
                        || (negb (j =? 0)
                            && marked_by M (primorialNumber M) o lo hi j))
        /\ forall pno f, o' pno f = advance_all M (primorialNumber M) o lo hi pno f.
Proof.
  intros Hinit Hfuel Hlo. set (m := primorialNumber M).
  induction 1 as [|s e id jobs Hchain IH Hse Hid]; intros Hhi sieves o Hlen Hb.
  - exists sieves, o. split; [reflexivity|]. split; [reflexivity|]. split.
    + intros j. unfold marked_by. rewrite Z.sub_diag. cbn.
      rewrite andb_false_r, orb_false_r. reflexivity.
    + intros pno f. unfold advance_all. zbool.
  - pose proof (job_chain_le _ _ _ _ Hchain) as Hls.
    rewrite run_sieve_jobs_cons.
    destruct (lookup_lt_is_Some_2 sieves (Z.to_nat id) ltac:(lia)) as [aux Haux].
    assert (Hready : pass_ready M m o s e).
    { apply resident_pass_ready; [exact Hinit | lia | exact Hhi |].
      intros i f Hi Hf. apply Hb; [fold m; lia | exact Hf]. }
    destruct (process_sieve_spec M m fuel aux o s e Hse Hready Hfuel)
      as (aux' & o1 & Hrun & Hbits & _ & Ho1).
    assert (Hstep : run_sieve_jobs M fuel [sieveWork s e id] (sieves, o)
                    = Ok (<[Z.to_nat id := aux']> sieves, o1)).
    { unfold run_sieve_jobs. cbn [foldl mbind result_bind]. rewrite Haux.
      fold m. rewrite Hrun. reflexivity. }
    rewrite Hstep.
    assert (Hsame : forall i f, i < s + m -> o1 i f = o i f).
    { intros i f Hi. rewrite Ho1. unfold advance_all. zbool. }
    destruct (IH ltac:(lia) (<[Z.to_nat id := aux']> sieves) o1) as (sieves' & o' & Hrun' & Hlen' & Hbits' & Ho').
    + rewrite length_insert. exact Hlen.
    + intros i f Hi Hf. rewrite Hsame by (fold m in Hi; lia).
      apply Hb; [fold m in Hi |- *; lia | exact Hf].
    + exists sieves', o'. split; [exact Hrun'|]. split.
      { rewrite Hlen', length_insert. reflexivity. }
      split.
      * intros j. rewrite Hbits'.
        rewrite (marked_by_ext M m o o1 lo s j)
          by (intros i f Hi Hf; apply Hsame; lia).
        rewrite (marked_by_app M m o lo s e j) by lia.
        rewrite (existsb_insert _ sieves (Z.to_nat id) aux') by lia.
        rewrite (existsb_lookup _ sieves (Z.to_nat id) aux Haux).
        rewrite Hbits.
        destruct (Z.testbit aux j), (negb (j =? 0)), (marked_by M m o lo s j),
          (marked_by M m o s e j),
          (existsb (fun aux0 => Z.testbit aux0 j)
             (take (Z.to_nat id) sieves ++ drop (S (Z.to_nat id)) sieves));
          reflexivity.
      * intros pno f. rewrite Ho'. unfold advance_all. rewrite Ho1.
        unfold advance_all. fold m. zbool.
Qed.

(** ** Merging the bitmaps and applying the once-only bucket *)

Lemma word64_or_get_testbit a aux i j :
  0 <= i -> 0 <= j ->
  Z.testbit (word64_or a i (word64_get aux i)) j
  = Z.testbit a j || ((64 * i <=? j) && (j <? 64 * i + 64) && Z.testbit aux j).
Proof.
  intros Hi Hj. unfold word64_or.
  assert (Hw : wrap64 (word64_get aux i) = word64_get aux i).
  { unfold wrap64, word64_get. rewrite Z.land_ones by lia.
    rewrite Z.mod_mod by lia. reflexivity. }
  rewrite Hw, Z.lor_spec, Z.shiftl_spec by lia. f_equal.
  destruct (Z.leb_spec (64 * i) j) as [Hle|Hlt].
  - rewrite word64_get_testbit by lia.
    replace (64 * i + (j - 64 * i)) with j by lia.
    destruct (Z.ltb_spec (j - 64 * i) 64), (Z.ltb_spec j (64 * i + 64));
      try lia; reflexivity.
  - rewrite Z.testbit_neg_r by lia. reflexivity.
Qed.

Lemma merge_word_testbit sieves i j :
  0 <= i -> 0 <= j ->
  forall a,
    Z.testbit (foldl (fun sieve aux => word64_or sieve i (word64_get aux i)) a sieves) j
    = Z.testbit a j
      || ((64 * i <=? j) && (j <? 64 * i + 64)
          && existsb (fun aux => Z.testbit aux j) sieves).
Proof.
  intros Hi Hj. induction sieves as [|aux sieves IH]; intros a; cbn [foldl existsb].
  - rewrite andb_false_r, orb_false_r. reflexivity.
  - rewrite IH, word64_or_get_testbit by lia.
    destruct (Z.testbit a j), (64 * i <=? j), (j <? 64 * i + 64), (Z.testbit aux j),
      (existsb (fun aux0 => Z.testbit aux0 j) sieves); reflexivity.
Qed.

Lemma merge_words_testbit sieves j (n : nat) a :
  0 <= j ->
  Z.testbit
    (foldl (fun sieve i =>
              foldl (fun sieve aux => word64_or sieve i (word64_get aux i)) sieve sieves)
           a (seqZ 0 (Z.of_nat n))) j
  = Z.testbit a j
    || ((j <? 64 * Z.of_nat n) && existsb (fun aux => Z.testbit aux j) sieves).
Proof.
  intros Hj. induction n as [|n IH].
  - cbn [foldl seqZ]. change (seqZ 0 (Z.of_nat 0)) with (@nil Z). cbn [foldl].
    destruct (Z.ltb_spec j (64 * Z.of_nat 0)); [lia|].
    rewrite orb_false_r. reflexivity.
  - rewrite seqZ_S, foldl_app. cbn [foldl].
    rewrite merge_word_testbit by lia. rewrite IH. rewrite Z.add_0_l.
    destruct (Z.ltb_spec j (64 * Z.of_nat n)),
      (Z.leb_spec (64 * Z.of_nat n) j),
      (Z.ltb_spec j (64 * Z.of_nat n + 64)),
      (Z.ltb_spec j (64 * Z.of_nat (S n))); try lia;
      destruct (Z.testbit a j), (existsb (fun aux => Z.testbit aux j) sieves);
      reflexivity.
Qed.

Lemma merge_sieves_spec sieve sieves j :
  0 <= j < riecoin_sieveSize ->
  Z.testbit (merge_sieves sieve sieves) j
  = Z.testbit sieve j || existsb (fun aux => Z.testbit aux j) sieves.
Proof.
  intros Hj. rewrite sieveSize_val in Hj. unfold merge_sieves.
  rewrite sieveWords_val. change 262144 with (Z.of_nat (Z.to_nat 262144)).
  rewrite merge_words_testbit by lia.
  rewrite Z2Nat.id by lia.
  destruct (Z.ltb_spec j (64 * 262144)); [|lia]. reflexivity.
Qed.

Lemma apply_once_only_spec eps sieve B loop :
  buckets_wf eps B -> 0 <= loop < maxiter ->
  Forall (fun x => 0 <= x < riecoin_sieveSize) (bucket B loop) ->
  exists sieve',
    apply_once_only sieve B loop = Ok sieve'
    /\ (forall j, Z.testbit sieve' j
                  = Z.testbit sieve j
                    || (negb (j =? 0) && existsb (Z.eqb j) (bucket B loop)))
    /\ Z.testbit sieve' 0 = Z.testbit sieve 0.
Proof.
  intros Hwf Hloop Hrange. unfold apply_once_only. cbv zeta.
  destruct (lookup_lt_is_Some_2 (segment_counts B) (Z.to_nat loop)) as [count Hc].
  { rewrite (wf_counts_len _ _ Hwf). lia. }
  destruct (lookup_lt_is_Some_2 (segment_hits B) (Z.to_nat loop)) as [row Hr].
  { rewrite (wf_hits_len _ _ Hwf). lia. }
  pose proof (wf_rows _ _ Hwf _ _ Hr) as Hrow.
  pose proof (wf_fill _ _ Hwf _ _ Hc) as Hfill.
  unfold bucket in Hrange |- *. rewrite Hc, Hr in Hrange |- *.
  assert (H : forall c : nat, (c <= Z.to_nat count)%nat ->
            exists sieve' pending' pos',
              forM (fun i '(sieve, pending, pos) =>
                      match row !! Z.to_nat i with
                      | None => Err OutOfBounds
                      | Some ent => add_to_pending sieve pending pos ent
                      end)
                   (seqZ 0 (Z.of_nat c))
                   (sieve, init_pending (new_array PENDING_SIZE), 0)
              = Ok (sieve', pending', pos')
              /\ ring_ok pending' pos'
              /\ (forall j, ring_view sieve' pending' j
                            = Z.testbit sieve j
                              || (negb (j =? 0) && existsb (Z.eqb j) (take c row)))
              /\ Z.testbit sieve' 0 = Z.testbit sieve 0).
  { induction c as [|c IH]; intros Hcle.
    - eexists _, _, _. split; [reflexivity|]. split; [exact ring_ok_init|]. split.
      + intros j. rewrite ring_view_init, take_0. cbn [existsb].
        rewrite andb_false_r, orb_false_r. reflexivity.
      + reflexivity.
    - destruct (IH ltac:(lia)) as (s1 & pd1 & pos1 & Hrun & Hok & Hview & Hz).
      rewrite forM_seqZ_S, Hrun. cbn [mbind result_bind].
      rewrite Z.add_0_l, Nat2Z.id.
      destruct (lookup_lt_is_Some_2 row c ltac:(lia)) as [ent Hent].
      rewrite Hent.
      assert (Hent_range : 0 <= ent < riecoin_sieveSize).
      { rewrite Forall_forall in Hrange. apply Hrange.
        apply (list_elem_of_lookup_2 _ c). rewrite lookup_take_lt by lia. exact Hent. }
      destruct (add_to_pending_spec s1 pd1 pos1 ent Hok Hent_range)
        as (s2 & pd2 & pos2 & Hrun2 & Hok2 & Hview2 & Hz2).
      exists s2, pd2, pos2. split; [exact Hrun2|]. split; [exact Hok2|]. split.
      + intros j. rewrite Hview2, Hview, (take_S_r _ _ _ Hent), existsb_app.
        cbn [existsb]. rewrite orb_false_r.
        destruct (Z.testbit sieve j), (negb (j =? 0)), (existsb (Z.eqb j) (take c row)),
          (j =? ent); reflexivity.
      + rewrite Hz2. exact Hz. }
  destruct (H (Z.to_nat count) (le_n _)) as (s1 & pd1 & pos1 & Hrun & Hok & Hview & Hz).
  rewrite Z2Nat.id in Hrun by lia. rewrite Hrun. cbn [mbind result_bind].
  destruct (flush_pending_spec s1 pd1 pos1 Hok) as (s2 & Hrun2 & Hbits & Hz2).
  exists s2. split; [exact Hrun2|]. split.
  - intros j. rewrite Hbits. apply Hview.
  - rewrite Hz2. exact Hz.
Qed.

(** ** One iteration of the sieve *)

Lemma existsb_replicate_zero (n : nat) j :
  existsb (fun aux => Z.testbit aux j) (replicate n 0) = false.
Proof.
  induction n as [|n IH]; [reflexivity|]. cbn [replicate existsb].
  rewrite IH, Z.bits_0. reflexivity.
Qed.

Lemma existsb_eqb_In j l : existsb (Z.eqb j) l = true <-> In j l.
Proof.
  rewrite existsb_exists. split.
  - intros (x & Hx & E). apply Z.eqb_eq in E. subst. exact Hx.
  - intros H. exists j. split; [exact H | apply Z.eqb_refl].
Qed.

Lemma hit_in_split M base loop lo mid hi j :
  lo <= mid <= hi ->
  (hit_in M base loop lo hi j
   <-> hit_in M base loop lo mid j \/ hit_in M base loop mid hi j).
Proof.
  intros H. unfold hit_in. split.
  - intros (i & f & Hi & Hf & Hh). destruct (Z.lt_ge_cases i mid).
    + left. exists i, f. split; [lia|]. split; assumption.
    + right. exists i, f. split; [lia|]. split; assumption.
  - intros [(i & f & Hi & Hf & Hh)|(i & f & Hi & Hf & Hh)];
      exists i, f; (split; [lia|]); split; assumption.
Qed.

Lemma sieve_iteration_spec M fuel base B loop o :
  initialised M -> nPrimes M < 2 ^ 31 ->
  (Z.to_nat riecoin_sieveSize < fuel)%nat -> (Z.to_nat (nPrimes M) < fuel)%nat ->
  table_at M base loop o ->
  buckets_wf (entriesPerSegment M) B -> 0 <= loop < maxiter ->
  Forall (fun x => 0 <= x < riecoin_sieveSize) (bucket B loop) ->
  let m := primorialNumber M in
  exists sieve o',
    sieve_iteration M fuel B loop o = Ok (sieve, o')
    /\ table_at M base (loop + 1) o'
    /\ forall j, 0 <= j < riecoin_sieveSize ->
         Z.testbit sieve j
         = marked_by M m o 0 (n_dense M) j
           || (negb (j =? 0)
               && (marked_by M m o (n_dense M) (n_dense M + n_sparse M) j
                   || existsb (Z.eqb j) (bucket B loop))).
Proof.
  intros Hinit Hn Hfuel Hfuel' Htab Hwf Hloop Hrange m.
  destruct (initialised_strata M Hinit) as (Hd & Hs & Hle & _). fold m in Hle.
  unfold sieve_iteration. cbv zeta.
  destruct (dispatch_sieve_spec M fuel Hinit Hn Hfuel') as (jobs & nw & -> & Hchain).
  cbn [mbind result_bind].
  assert (Hb : forall lo hi, m <= lo -> hi <= m + n_dense M + n_sparse M ->
            offsets_bounded M o lo hi).
  { intros lo hi Hlo Hhi i f Hi Hf.
    destruct (Htab i) as (Hbi & _); [unfold resident; fold m; lia|].
    apply Hbi; exact Hf. }
  assert (Hbd : offsets_bounded M o m (m + n_dense M)) by (apply Hb; lia).
  destruct (dense_sieve_spec M fuel 0 o Hinit Hbd Hfuel)
    as (sieve1 & o1 & -> & Hbits1 & Ho1).
  cbn [mbind result_bind]. fold m in Hbits1, Ho1.
  assert (Hsame : forall i f, m + n_dense M <= i -> o1 i f = o i f).
  { intros i f Hi. rewrite Ho1. unfold dense_advance_all. zbool. }
  destruct (run_sieve_jobs_spec M fuel (n_dense M) Hinit Hfuel Hd _ _ Hchain
              ltac:(lia) (replicate (Z.to_nat (sieveWorkers M)) 0) o1)
    as (sieves' & o2 & -> & _ & Hbits2 & Ho2).
  { apply length_replicate. }
  { intros i f Hi Hf. rewrite Hsame by (fold m in Hi; lia).
    apply (Hb (n_dense M + m) (n_dense M + n_sparse M + m)); fold m; lia. }
  cbn [mbind result_bind]. fold m in Hbits2, Ho2.
  destruct (apply_once_only_spec (entriesPerSegment M)
              (merge_sieves sieve1 sieves') B loop Hwf Hloop Hrange)
    as (sieve3 & -> & Hbits3 & _).
  cbn [mbind result_bind].
  exists sieve3, o2. split; [reflexivity|]. split.
  - apply (table_step M base loop o o2 Hinit Htab).
    intros i Hres. unfold resident in Hres. fold m in Hres.
    assert (Hrow : forall f, 0 <= f < 6 ->
              o2 i f = advance (zth (primes M) i)
                         (if i <? m + n_dense M then silly_sort_indexes (o i) f
                          else o i f)).
    { intros f Hf. rewrite Ho2. unfold advance_all.
      destruct (Z.ltb_spec i (m + n_dense M)) as [Hdense|Hsparse].
      - destruct (Z.leb_spec (n_dense M + m) i); [lia|]. cbn [andb].
        rewrite Ho1. unfold dense_advance_all. zbool.
      - rewrite Hsame by lia. zbool. }
    destruct (silly_sort_same_values (o i)) as [Hs1 Hs2].
    split.
    + intros f Hf. rewrite (Hrow f Hf).
      destruct (i <? m + n_dense M).
      * destruct (Hs1 f Hf) as (g & Hg & ->). exists g. split; [exact Hg | reflexivity].
      * exists f. split; [exact Hf | reflexivity].
    + intros g Hg. destruct (i <? m + n_dense M) eqn:E.
      * destruct (Hs2 g Hg) as (f & Hf & Heq). exists f. split; [exact Hf|].
        rewrite (Hrow f Hf), Heq. reflexivity.
      * exists g. split; [exact Hg|]. rewrite (Hrow g Hg). reflexivity.
  - intros j Hj. rewrite Hbits3, merge_sieves_spec by exact Hj.
    rewrite Hbits1, Hbits2, Z.bits_0, existsb_replicate_zero.
    rewrite (marked_by_ext M m o o1 (n_dense M) (n_dense M + n_sparse M) j)
      by (intros i f Hi Hf; apply Hsame; lia).
    cbn [orb].
    destruct (marked_by M m o 0 (n_dense M) j), (negb (j =? 0)),
      (marked_by M m o (n_dense M) (n_dense M + n_sparse M) j),
      (existsb (Z.eqb j) (bucket B loop)); reflexivity.
Qed.

Lemma sieve_clear_iff M base B loop o j sieve :
  initialised M -> table_at M base loop o -> buckets_hit M base B ->
  0 <= loop < maxiter -> 0 <= j < riecoin_sieveSize ->
  let m := primorialNumber M in
  Z.testbit sieve j
  = marked_by M m o 0 (n_dense M) j
    || (negb (j =? 0)
        && (marked_by M m o (n_dense M) (n_dense M + n_sparse M) j
            || existsb (Z.eqb j) (bucket B loop))) ->
  (Z.testbit sieve j = false <-> survives M base loop j).
Proof.
  intros Hinit Htab Hbh Hloop Hj m Hbits.
  destruct (initialised_strata M Hinit) as (Hd & Hs & Hle & _). fold m in Hle.
  pose proof (marked_by_hits M base loop o 0 (n_dense M) j Hinit Htab
                ltac:(lia) ltac:(lia) Hj) as Hdense.
  pose proof (marked_by_hits M base loop o (n_dense M) (n_dense M + n_sparse M) j
                Hinit Htab Hd ltac:(lia) Hj) as Hsparse.
  fold m in Hdense, Hsparse.
  replace (0 + m) with m in Hdense by lia.
  replace (n_dense M + m) with (m + n_dense M) in * by lia.
  replace (n_dense M + n_sparse M + m) with (m + n_dense M + n_sparse M) in * by lia.
  pose proof (Hbh loop j Hloop) as Honce. fold m in Honce.
  rewrite <- existsb_eqb_In in Honce.
  unfold survives. fold m.
  rewrite (hit_in_split M base loop m (m + n_dense M) (nPrimes M) j) by lia.
  rewrite (hit_in_split M base loop (m + n_dense M) (m + n_dense M + n_sparse M)
             (nPrimes M) j) by lia.
  rewrite Hbits.
  destruct (marked_by M m o 0 (n_dense M) j) eqn:E1.
  { cbn [orb]. split; [discriminate|]. intros [H _]. exfalso. apply H.
    apply Hdense. reflexivity. }
  cbn [orb].
  assert (Hnd : ~ hit_in M base loop m (m + n_dense M) j).
  { intros H. apply Hdense in H. discriminate. }
  destruct (Z.eqb_spec j 0) as [Hj0|Hj0]; cbn [negb andb].
  { split; [|reflexivity]. intros _. split; [exact Hnd|]. intros H; contradiction. }
  destruct (marked_by M m o (n_dense M) (n_dense M + n_sparse M) j) eqn:E2.
  { cbn [orb]. split; [discriminate|]. intros [_ H]. exfalso. apply (H Hj0).
    right. left. apply Hsparse. reflexivity. }
  cbn [orb].
  assert (Hns : ~ hit_in M base loop (m + n_dense M) (m + n_dense M + n_sparse M) j).
  { intros H. apply Hsparse in H. discriminate. }
  destruct (existsb (Z.eqb j) (bucket B loop)) eqn:E3.
  { split; [discriminate|]. intros [_ H]. exfalso. apply (H Hj0).
    right. right. apply Honce. reflexivity. }
  split; [|reflexivity]. intros _. split; [exact Hnd|]. intros _ [H|[H|H]].
  - exact (Hnd H).
  - exact (Hns H).
  - assert (Ht : false = true) by (apply Honce; split; [exact Hj | exact H]).
    discriminate.
Qed.

(** ** The [TYPE_MOD] phase *)

Lemma run_mod_jobs_err M zt zr jobs e :
  foldl (fun r job =>
           '(G, offset_stack) ← r;
           match job with
           | modWork start_i end_i =>
               update_remainders M zt zr offset_stack start_i end_i G
           | _ => Ok (G, offset_stack)
           end) (Err e) jobs = Err e.
Proof. induction jobs as [|j js IH]; [reflexivity | exact IH]. Qed.

Lemma run_mod_jobs_spec M zt zr jobs :
  initialised M -> 0 <= zt + zr ->
  Forall (fun w => exists s e, w = modWork s e
            /\ primorialNumber M <= s < e /\ e <= nPrimes M) jobs ->
  forall G stk,
    buckets_wf (entriesPerSegment M) (buckets G) ->
    length stk = Z.to_nat OFFSET_STACK_SIZE ->
    match run_mod_jobs M zt zr jobs (G, stk) with
    | Ok (G', stk') =>
        buckets_wf (entriesPerSegment M) (buckets G')
        /\ (forall k, 0 <= k ->
              bucket (buckets G') k
              = bucket (buckets G) k ++ flushed_to k (jobs_pushed M (zt + zr) jobs))
        /\ (forall i f, offsets G' i f = offsets G i f
                        \/ offsets G' i f = offset_index M (zt + zr) i f)
        /\ (forall i f, Exists (in_mod_job i) jobs ->
              zth (primes M) i < max_increments -> 0 <= f < 6 ->
              offsets G' i f = offset_index M (zt + zr) i f)
    | Err ExitCalled =>
        exists i, primorialNumber M <= i < nPrimes M
                  /\ max_increments <= zth (primes M) i
    | Err _ => False
    end.
Proof.
  intros Hinit Htar. induction 1 as [|w jobs (s & e & -> & Hs & He) Hjobs IH];
    intros G stk Hwf Hlen.
  - unfold run_mod_jobs, jobs_pushed. cbn [foldl map concat].
    split; [exact Hwf|]. split.
    + intros k Hk. rewrite flushed_to_nil, app_nil_r. reflexivity.
    + split; [intros; left; reflexivity|]. intros i f H. inversion H.
  - unfold run_mod_jobs. cbn [foldl mbind result_bind].
    assert (Hsp : forall i, s <= i < e -> sieving_prime M i)
      by (intros i Hi; apply initialised_sieving_prime; [exact Hinit | lia]).
    pose proof (update_remainders_spec M zt zr stk s e G Hsp Htar ltac:(lia) Hwf Hlen)
      as Hstep.
    destruct (update_remainders M zt zr stk s e G) as [[G1 stk1]|err].
    2:{ rewrite run_mod_jobs_err. destruct err; try contradiction.
        destruct Hstep as (i & Hi & Hp). exists i. split; [lia | exact Hp]. }
    destruct Hstep as (Hwf1 & Hlen1 & Hb1 & Ho1).
    specialize (IH G1 stk1 Hwf1 Hlen1). unfold run_mod_jobs in IH.
    match goal with |- match ?x with _ => _ end =>
      destruct x as [[G' stk']|err] end; [|exact IH].
    destruct IH as (Hwf' & Hb' & HoA & HoB).
    split; [exact Hwf'|]. split; [|split].
    + intros k Hk. rewrite Hb', Hb1 by exact Hk.
      unfold jobs_pushed. cbn [map concat]. rewrite flushed_to_app, app_assoc.
      reflexivity.
    + intros i f. destruct (HoA i f) as [H|H]; [|right; exact H].
      rewrite H, Ho1. unfold offsets_after.
      destruct (_ && _); [right | left]; reflexivity.
    + intros i f Hex Hp Hf. apply Exists_cons in Hex. destruct Hex as [Hin|Hex].
      * cbn [in_mod_job] in Hin.
        assert (H1 : offsets G1 i f = offset_index M (zt + zr) i f).
        { rewrite Ho1. unfold offsets_after. zbool. }
        destruct (HoA i f) as [H|H]; [rewrite H; exact H1 | exact H].
      * apply HoB; assumption.
Qed.

Lemma In_flushed_to k L j :
  In j (flushed_to k L)
  <-> exists x, In x L /\ Z.shiftr x riecoin_sieveBits = k
                /\ x mod riecoin_sieveSize = j.
Proof.
  unfold flushed_to. rewrite in_map_iff. split.
  - intros (x & Hx & Hin). apply list_elem_of_In, list_elem_of_filter in Hin.
    destruct Hin as [Hk Hin]. exists x. split; [apply list_elem_of_In; exact Hin|].
    split; assumption.
  - intros (x & Hin & Hk & Hx). exists x. split; [exact Hx|].
    apply list_elem_of_In, list_elem_of_filter. split; [exact Hk|].
    apply list_elem_of_In. exact Hin.
Qed.

Lemma In_once_only_hits M tar i x :
  In x (once_only_hits M tar i)
  <-> max_increments <= zth (primes M) i /\ x < max_increments
      /\ exists f, 0 <= f < 6 /\ x = offset_index M tar i f.
Proof.
  unfold once_only_hits. rewrite Z.geb_leb.
  destruct (Z.leb_spec max_increments (zth (primes M) i)) as [Hle|Hlt].
  - rewrite <- list_elem_of_In, list_elem_of_filter, list_elem_of_In, in_map_iff.
    split.
    + intros (Hx & f & <- & Hf). apply list_elem_of_In, elem_of_seqZ in Hf.
      split; [exact Hle|]. split; [exact Hx|]. exists f. split; [lia | reflexivity].
    + intros (_ & Hx & f & Hf & ->). split; [exact Hx|]. exists f.
      split; [reflexivity|]. apply list_elem_of_In, elem_of_seqZ. lia.
  - split; [intros [] | intros (H & _); lia].
Qed.

Lemma In_once_only_pushed M tar s e x :
  In x (once_only_pushed M tar s e)
  <-> exists i, s <= i < e /\ In x (once_only_hits M tar i).
Proof.
  unfold once_only_pushed. rewrite in_concat. split.
  - intros (l & Hl & Hx). apply in_map_iff in Hl. destruct Hl as (i & <- & Hi).
    apply list_elem_of_In, elem_of_seqZ in Hi. exists i. split; [lia | exact Hx].
  - intros (i & Hi & Hx). exists (once_only_hits M tar i). split; [|exact Hx].
    apply in_map_iff. exists i. split; [reflexivity|].
    apply list_elem_of_In, elem_of_seqZ. lia.
Qed.

Lemma In_jobs_pushed M tar jobs x :
  In x (jobs_pushed M tar jobs)
  <-> exists i, Exists (in_mod_job i) jobs /\ In x (once_only_hits M tar i).
Proof.
  unfold jobs_pushed. rewrite in_concat. split.
  - intros (l & Hl & Hx). apply in_map_iff in Hl. destruct Hl as (w & <- & Hw).
    destruct w as [| s e |]; try destruct Hx.
    apply In_once_only_pushed in Hx. destruct Hx as (i & Hi & Hx).
    exists i. split; [|exact Hx]. apply Exists_exists. exists (modWork s e).
    split; [apply list_elem_of_In; exact Hw | exact Hi].
  - intros (i & Hex & Hx). apply Exists_exists in Hex.
    destruct Hex as (w & Hw & Hi). destruct w as [| s e |]; try (destruct Hi; fail).
    exists (once_only_pushed M tar s e). split.
    + apply in_map_iff. exists (modWork s e). split; [reflexivity|].
      apply list_elem_of_In. exact Hw.
    + apply In_once_only_pushed. exists i. split; [exact Hi | exact Hx].
Qed.

Lemma hits_zero M base i f x :
  hits M base 0 i f x
  <-> (base + x * primorial M + cumulativeBias f) mod zth (primes M) i = 0.
Proof. unfold hits. rewrite Z.mul_0_l, Z.add_0_l. reflexivity. Qed.

Lemma hits_flat M base loop i f j :
  hits M base loop i f j <-> hits M base 0 i f (loop * riecoin_sieveSize + j).
Proof. unfold hits. rewrite Z.mul_0_l, Z.add_0_l. reflexivity. Qed.

Lemma segment_split x loop j :
  0 <= j < riecoin_sieveSize ->
  (Z.shiftr x riecoin_sieveBits = loop /\ x mod riecoin_sieveSize = j
   <-> x = loop * riecoin_sieveSize + j).
Proof.
  intros Hj. rewrite Z.shiftr_div_pow2 by (unfold riecoin_sieveBits; lia).
  change (2 ^ riecoin_sieveBits) with 16777216. rewrite sieveSize_val in *.
  split.
  - intros [H1 H2]. pose proof (Z.div_mod x 16777216 ltac:(lia)). lia.
  - intros ->. split.
    + rewrite Z.div_add_l by lia. rewrite Z.div_small by lia. lia.
    + rewrite Z.add_comm, Z.mod_add by lia. apply Z.mod_small. lia.
Qed.

Lemma offset_index_hits M tar i f :
  sieving_prime M i -> 0 <= tar -> 0 <= f < 6 ->
  0 <= offset_index M tar i f < zth (primes M) i
  /\ hits M tar 0 i f (offset_index M tar i f).
Proof.
  intros Hsp Htar Hf.
  destruct (offset_index_spec M tar i f Hsp Htar Hf) as (Hr & Hh & _).
  split; [exact Hr|]. apply hits_zero. exact Hh.
Qed.

Lemma mod_phase_spec M fuel zt zr G stk :
  initialised M -> 128 <= nPrimes M < 2 ^ 31 ->
  (Z.to_nat (nPrimes M) < fuel)%nat -> 0 <= zt + zr ->
  buckets_wf (entriesPerSegment M) (buckets G) ->
  (forall k, 0 <= k -> bucket (buckets G) k = []) ->
  length stk = Z.to_nat OFFSET_STACK_SIZE ->
  exists jobs n,
    dispatch_mod fuel M = Ok (jobs, n)
    /\ match run_mod_jobs M zt zr jobs (G, stk) with
       | Ok (G', stk') =>
           buckets_wf (entriesPerSegment M) (buckets G')
           /\ table_at M (zt + zr) 0 (offsets G')
           /\ buckets_hit M (zt + zr) (buckets G')
       | Err ExitCalled =>
           exists i, primorialNumber M <= i < nPrimes M
                     /\ max_increments <= zth (primes M) i
       | Err _ => False
       end.
Proof.
  intros Hinit Hn Hfuel Htar Hwf Hempty Hlen.
  pose proof (init_m M Hinit) as Hm.
  destruct (dispatch_mod_partition M fuel Hn ltac:(lia) Hfuel)
    as (jobs & Hrun & Hcover & Hjobs).
  exists jobs, (Z.of_nat (length jobs)). split; [exact Hrun|].
  pose proof (run_mod_jobs_spec M zt zr jobs Hinit Htar Hjobs G stk Hwf Hlen) as H.
  destruct (run_mod_jobs M zt zr jobs (G, stk)) as [[G' stk']|err]; [|exact H].
  destruct H as (Hwf' & Hb & _ & Ho).
  destruct (initialised_strata M Hinit) as (Hd & Hs & Hle & _ & Hres).
  cbv zeta in Hle, Hres. set (m := primorialNumber M) in *.
  assert (Hex : forall i, m <= i < nPrimes M -> Exists (in_mod_job i) jobs).
  { intros i Hi. destruct (Hcover i Hi) as (l1 & w & l2 & -> & Hw & _).
    apply Exists_app. right. apply Exists_cons_hd. exact Hw. }
  assert (Hin : forall i, Exists (in_mod_job i) jobs -> m <= i < nPrimes M).
  { intros i Hi. apply Exists_exists in Hi. destruct Hi as (w & Hw & Hi).
    rewrite Forall_forall in Hjobs. destruct (Hjobs w Hw) as (s & e & -> & Hs' & He).
    cbn [in_mod_job] in Hi. lia. }
  split; [exact Hwf'|]. split.
  - intros i Hi. unfold resident in Hi. fold m in Hi.
    assert (Hsp : sieving_prime M i)
      by (apply initialised_sieving_prime; [exact Hinit | fold m; lia]).
    assert (Hp : zth (primes M) i < max_increments).
    { apply Z.ltb_lt. rewrite Hres by lia. apply Z.ltb_lt. lia. }
    assert (Hval : forall g, 0 <= g < 6 ->
              offsets G' i g = offset_index M (zt + zr) i g)
      by (intros g Hg; apply Ho; [apply Hex; lia | exact Hp | exact Hg]).
    split; [|split].
    + intros g Hg. rewrite (Hval g Hg). apply offset_index_hits; assumption.
    + intros f Hf. exists f. split; [exact Hf|]. rewrite (Hval f Hf).
      apply offset_index_hits; assumption.
    + intros g Hg. exists g. split; [exact Hg|]. rewrite (Hval g Hg).
      apply offset_index_hits; assumption.
  - intros loop j Hloop. fold m. rewrite Hb, Hempty by lia. cbn [app].
    rewrite In_flushed_to. rewrite maxiter_val in Hloop. split.
    + intros (x & Hx & Hseg & Hmod).
      apply In_jobs_pushed in Hx. destruct Hx as (i & Hi & Hx).
      apply Hin in Hi. apply In_once_only_hits in Hx.
      destruct Hx as (Hp & Hxm & f & Hf & Hxi).
      assert (Hsp : sieving_prime M i)
        by (apply initialised_sieving_prime; [exact Hinit | fold m; lia]).
      destruct (offset_index_hits M (zt + zr) i f Hsp Htar Hf) as (Hr & Hh).
      rewrite <- Hxi in Hr, Hh.
      assert (Hj : 0 <= j < riecoin_sieveSize).
      { rewrite <- Hmod. apply Z.mod_pos_bound. rewrite sieveSize_val. lia. }
      split; [exact Hj|].
      exists i, f. split.
      * split; [|lia]. destruct (Z.lt_ge_cases i (m + n_dense M + n_sparse M)) as [Hlt|]; [|lia].
        assert (Ht : (zth (primes M) i <? max_increments) = true)
          by (rewrite Hres by lia; apply Z.ltb_lt; exact Hlt).
        apply Z.ltb_lt in Ht. lia.
      * split; [exact Hf|]. apply hits_flat.
        assert (Heq : x = loop * riecoin_sieveSize + j)
          by (apply segment_split; [exact Hj | split; assumption]).
        rewrite <- Heq. exact Hh.
    + intros (Hj & i & f & Hi & Hf & Hh).
      assert (Hsp : sieving_prime M i)
        by (apply initialised_sieving_prime; [exact Hinit | fold m; lia]).
      assert (Hp : max_increments <= zth (primes M) i).
      { destruct (Z.lt_ge_cases (zth (primes M) i) max_increments) as [Hlt|]; [|assumption].
        apply Z.ltb_lt in Hlt. rewrite Hres in Hlt by lia. apply Z.ltb_lt in Hlt. lia. }
      set (x := loop * riecoin_sieveSize + j).
      assert (Hx : 0 <= x < max_increments).
      { unfold x. rewrite max_increments_val. rewrite sieveSize_val in *. lia. }
      apply hits_flat in Hh. fold x in Hh.
      destruct (offset_index_hits M (zt + zr) i f Hsp Htar Hf) as (Hr & Hh').
      pose proof (hits_unique M (zt + zr) 0 i f x _ Hsp Hh Hh') as Hu.
      assert (Heq : x = offset_index M (zt + zr) i f).
      { apply Z.mod_divide in Hu; [|lia]. destruct Hu as [k Hk].
        assert (k = 0) by nia. lia. }
      exists x. split; [|apply segment_split; [exact Hj | reflexivity]].
      apply In_jobs_pushed. exists i. split; [apply Hex; lia|].
      apply In_once_only_hits. split; [exact Hp|]. split; [lia|].
      exists f. split; [exact Hf | exact Heq].
Qed.

(** ** The iterations of one block *)

Lemma result_bind_Ok {A B : Type} (k : A -> result B) (a : A) : mbind k (Ok a) = k a.
Proof. reflexivity. Qed.

Lemma result_bind_Err {A B : Type} (k : A -> result B) (e : failure) :
  mbind k (Err e) = Err e.
Proof. reflexivity. Qed.

Lemma mining_loops_cons M monitor fuel height B loop rest o pushed0 clock0 :
  mining_loops M monitor fuel height B (loop :: rest) (o, pushed0, clock0)
  = if negb (height =? monitor clock0) then Ok (o, pushed0, S clock0)
    else
      '(sieve, o) ← sieve_iteration M fuel B loop o;
      E ← extract_candidates monitor height sieve loop pushed0 (S clock0);
      mining_loops M monitor fuel height B rest (o, pushed E, clock E).
Proof. reflexivity. Qed.

Lemma mining_loops_spec M monitor fuel base height B :
  initialised M -> nPrimes M < 2 ^ 31 ->
  (Z.to_nat riecoin_sieveSize < fuel)%nat -> (Z.to_nat (nPrimes M) < fuel)%nat ->
  buckets_wf (entriesPerSegment M) B -> buckets_hit M base B ->
  forall (k : nat) L o pushed0 clock0,
    0 <= L -> L + Z.of_nat k <= maxiter -> table_at M base L o ->
    exists o' pushed' clock' New,
      mining_loops M monitor fuel height B (seqZ L (Z.of_nat k)) (o, pushed0, clock0)
      = Ok (o', pushed', clock')
      /\ concat (map job_entries pushed') = concat (map job_entries pushed0) ++ New
      /\ (forall l j, In (l, j) New ->
            L <= l < L + Z.of_nat k /\ 0 <= j < riecoin_sieveSize
            /\ survives M base l j)
      /\ ((forall t, monitor t = height) ->
          forall l j, L <= l < L + Z.of_nat k -> 0 <= j < riecoin_sieveSize ->
            survives M base l j -> In (l, j) New).
Proof.
  intros Hinit Hn Hfuel Hfuel' Hwf Hbh.
  induction k as [|k IH]; intros L o pushed0 clock0 HL Hk Htab.
  - exists o, pushed0, clock0, []. split; [reflexivity|]. split.
    + rewrite app_nil_r. reflexivity.
    + split; [intros l j []|]. intros _ l j Hl. lia.
  - rewrite seqZ_cons by lia.
    replace (Z.pred (Z.of_nat (S k))) with (Z.of_nat k) by lia.
    rewrite mining_loops_cons.
    destruct (height =? monitor clock0) eqn:Eh; cbn [negb].
    2:{ exists o, pushed0, (S clock0), []. split; [reflexivity|]. split.
        - rewrite app_nil_r. reflexivity.
        - split; [intros l j []|]. intros Hmon. rewrite Hmon, Z.eqb_refl in Eh.
          discriminate. }
    assert (Hloop : 0 <= L < maxiter) by lia.
    assert (Hrange : Forall (fun x => 0 <= x < riecoin_sieveSize) (bucket B L)).
    { apply Forall_forall. intros x Hx. apply list_elem_of_In in Hx.
      apply (Hbh L x Hloop) in Hx. apply Hx. }
    destruct (sieve_iteration_spec M fuel base B L o Hinit Hn Hfuel Hfuel' Htab Hwf
                Hloop Hrange) as (sieve & o1 & -> & Htab1 & Hbits).
    rewrite result_bind_Ok; cbv beta iota.
    destruct (extract_candidates_spec monitor height sieve L pushed0 (S clock0))
      as (E & Lst & -> & Hent & Hsound & Hcompl).
    rewrite result_bind_Ok; cbv beta iota.
    assert (Hclear : forall j, 0 <= j < riecoin_sieveSize ->
              (Z.testbit sieve j = false <-> survives M base L j)).
    { intros j Hj. apply (sieve_clear_iff M base B L o j sieve Hinit Htab Hbh Hloop Hj).
      apply Hbits. exact Hj. }
    replace (Z.succ L) with (L + 1) by lia.
    destruct (IH (L + 1) o1 (pushed E) (clock E) ltac:(lia) ltac:(lia) Htab1)
      as (o' & pushed' & clock' & New & -> & Hent' & Hsound' & Hcompl').
    exists o', pushed', clock', (map (pair L) Lst ++ New).
    split; [reflexivity|]. split.
    + rewrite Hent', Hent, app_assoc. reflexivity.
    + split.
      * intros l j Hin. apply in_app_or in Hin. destruct Hin as [Hin|Hin].
        -- apply in_map_iff in Hin. destruct Hin as (j' & Heq & Hj').
           inversion Heq; subst l j'; clear Heq.
           destruct (Hsound j Hj') as [Hj Hbit].
           split; [lia|]. split; [exact Hj|]. apply Hclear; assumption.
        -- destruct (Hsound' l j Hin) as (Hl & Hj & Hs).
           split; [lia|]. split; assumption.
      * intros Hmon l j Hl Hj Hs. apply in_or_app.
        destruct (Z.eq_dec l L) as [->|Hne].
        -- left. apply in_map. apply (Hcompl Hmon j Hj). apply Hclear; assumption.
        -- right. apply (Hcompl' Hmon l j); [lia | exact Hj | exact Hs].
Qed.

Lemma reset_counts_spec eps B :
  buckets_wf eps B ->
  let B0 := {| segment_counts :=
                 foldl (fun c i => <[Z.to_nat i := 0]> c)
                       (segment_counts B) (seqZ 0 maxiter);
               segment_hits := segment_hits B |} in
  buckets_wf eps B0 /\ forall k, 0 <= k -> bucket B0 k = [].
Proof.
  intros Hwf B0.
  assert (Hlen : length (segment_counts B0) = Z.to_nat maxiter).
  { unfold B0. cbn [segment_counts].
    rewrite (foldl_insert_length (fun _ => 0)). apply (wf_counts_len _ _ Hwf). }
  assert (Hzero : forall k c, segment_counts B0 !! k = Some c -> c = 0).
  { intros k c Hc. pose proof (lookup_lt_Some _ _ _ Hc) as Hk. rewrite Hlen in Hk.
    rewrite <- (Nat2Z.id k) in Hc. apply zth_lookup in Hc. rewrite <- Hc.
    unfold B0. cbn [segment_counts].
    rewrite <- (Z2Nat.id maxiter) by (rewrite maxiter_val; lia).
    apply (foldl_insert_zth (fun _ => 0)); [lia | lia |].
    rewrite (wf_counts_len _ _ Hwf). lia. }
  split.
  - constructor.
    + apply (wf_eps _ _ Hwf).
    + exact Hlen.
    + apply (wf_hits_len _ _ Hwf).
    + apply (wf_rows _ _ Hwf).
    + intros k c Hc. rewrite (Hzero k c Hc). pose proof (wf_eps _ _ Hwf). lia.
  - intros k Hk. unfold bucket.
    destruct (segment_counts B0 !! Z.to_nat k) as [c|] eqn:Hc; [|reflexivity].
    rewrite (Hzero _ _ Hc). destruct (segment_hits B0 !! Z.to_nat k); reflexivity.
Qed.

Lemma getTargetFromBlock_pos sha256 block targetCompact :
  0 < getTargetFromBlock sha256 block targetCompact.
Proof. unfold getTargetFromBlock. apply target_from_hash_pos. Qed.

Lemma search_base_nonneg M zt :
  initialised M -> 0 < zt -> 0 <= zt + remainderPrimorial zt (primorial M).
Proof.
  intros Hinit Hzt. pose proof (primorial_pos M Hinit) as HP.
  rewrite remainderPrimorial_eq by lia.
  pose proof (Z.mod_pos_bound (primorial M - zt mod primorial M) (primorial M) HP).
  unfold primorial_offset. lia.
Qed.

Lemma miningProcess_spec M sha256 monitor fuel block targetCompact height G stk :
  initialised M -> 128 <= nPrimes M < 2 ^ 31 ->
  (Z.to_nat riecoin_sieveSize < fuel)%nat -> (Z.to_nat (nPrimes M) < fuel)%nat ->
  buckets_wf (entriesPerSegment M) (buckets G) ->
  length stk = Z.to_nat OFFSET_STACK_SIZE ->
  let zt := getTargetFromBlock sha256 block targetCompact in
  let base := search_base zt (remainderPrimorial zt (primorial M)) in
  match miningProcess M sha256 monitor fuel block targetCompact height G stk with
  | Ok (G', pushed) =>
      (forall l j, In (l, j) (concat (map job_entries pushed)) ->
         0 <= l < maxiter /\ 0 <= j < riecoin_sieveSize /\ survives M base l j)
      /\ ((forall t, monitor t = height) ->
          forall l j, 0 <= l < maxiter -> 0 <= j < riecoin_sieveSize ->
            survives M base l j -> In (l, j) (concat (map job_entries pushed)))
  | Err ExitCalled =>
      exists i, primorialNumber M <= i < nPrimes M
                /\ max_increments <= zth (primes M) i
  | Err _ => False
  end.
Proof.
  intros Hinit Hn Hfuel Hfuel' Hwf Hlen. cbv zeta.
  pose proof (getTargetFromBlock_pos sha256 block targetCompact) as Hzt.
  unfold miningProcess.
  generalize dependent (getTargetFromBlock sha256 block targetCompact).
  intros zt Hzt. cbv zeta. unfold search_base.
  pose proof (search_base_nonneg M zt Hinit Hzt) as Hbase.
  set (zr := remainderPrimorial zt (primorial M)) in *.
  destruct (reset_counts_spec _ _ Hwf) as [Hwf0 Hempty].
  set (G0 := {| offsets := offsets G; buckets := _ |}).
  destruct (mod_phase_spec M fuel zt zr G0 stk
              Hinit Hn Hfuel' Hbase Hwf0 Hempty Hlen) as (jobs & nw & -> & Hmod).
  rewrite result_bind_Ok; cbv beta iota.
  destruct (run_mod_jobs M zt zr jobs (G0, stk))
    as [[G1 stk1]|err]; [|rewrite !result_bind_Err; exact Hmod].
  destruct Hmod as (Hwf1 & Htab & Hbh). rewrite result_bind_Ok; cbv beta iota.
  assert (Hn31 : nPrimes M < 2 ^ 31) by lia.
  pose proof (mining_loops_spec M monitor fuel (zt + zr) height (buckets G1) Hinit
                Hn31 Hfuel Hfuel' Hwf1 Hbh (Z.to_nat maxiter) 0 (offsets G1) [] O
                (Z.le_refl 0)) as Hloops.
  rewrite Z2Nat.id in Hloops by (rewrite maxiter_val; lia).
  destruct (Hloops (Z.le_refl _) Htab)
    as (o' & pushed' & clock' & New & -> & Hent & Hsound & Hcompl).
  rewrite result_bind_Ok; cbv beta iota. cbn [map concat app] in Hent. rewrite Hent.
  split.
  - intros l j Hin. destruct (Hsound l j Hin) as (Hl & Hj & Hs).
    split; [lia|]. split; assumption.
  - intros Hmon l j Hl Hj Hs. apply (Hcompl Hmon l j); [lia | exact Hj | exact Hs].
Qed.

(** ** The prime table of [miningInit] *)

Lemma land_pow2_eqb x r :
  0 <= r -> (Z.land x (2 ^ r) =? 0) = negb (Z.testbit x r).
Proof.
  intros Hr. destruct (Z.testbit x r) eqn:E; cbn [negb].
  - apply Z.eqb_neq. intros H.
    assert (Hb : Z.testbit (Z.land x (2 ^ r)) r = true)
      by (rewrite Z.land_spec, E, Z.pow2_bits_true by lia; reflexivity).
    rewrite H, Z.bits_0 in Hb. discriminate.
  - apply Z.eqb_eq. apply Z.bits_inj'. intros j Hj.
    rewrite Z.land_spec, Z.bits_0, Z.pow2_bits_eqb by lia.
    destruct (Z.eqb_spec r j) as [<-|]; [rewrite E; reflexivity|].
    apply andb_false_r.
Qed.

Lemma bitmap_test_testbit a n : 0 <= n -> bitmap_test a n = Z.testbit a n.
Proof.
  intros Hn. unfold bitmap_test, byte_get.
  assert (Hk : 0 <= Z.land n 7 < 8).
  { change 7 with (Z.ones 3). rewrite Z.land_ones by lia.
    change (2 ^ 3) with 8. apply Z.mod_pos_bound. lia. }
  assert (Hq : 0 <= Z.shiftr n 3) by (apply Z.shiftr_nonneg; lia).
  rewrite Z.shiftl_1_l, land_pow2_eqb, negb_involutive by lia.
  change 255 with (Z.ones 8).
  rewrite Z.land_spec, Z.shiftr_spec, Z.ones_spec_low by lia.
  rewrite andb_true_r. f_equal. pose proof (shiftr3_land7 n Hn). lia.
Qed.

Lemma mark_composites_spec sieveMax nFactor fuel :
  0 < nFactor -> sieveMax + nFactor <= 2 ^ 32 ->
  forall nComposite vf,
    0 <= nComposite ->
    (Z.to_nat (sieveMax - nComposite) < fuel)%nat ->
    exists vf',
      mark_composites fuel sieveMax nFactor nComposite vf = Some vf'
      /\ forall j, Z.testbit vf' j
                   = Z.testbit vf j
                     || ((nComposite <=? j) && (j <? sieveMax)
                         && ((j - nComposite) mod nFactor =? 0)).
Proof.
  intros HF Hwrap. induction fuel as [|fuel IH]; intros nC vf HnC Hfuel; [lia|].
  cbn [mark_composites].
  destruct (Z.ltb_spec nC sieveMax) as [Hlt|Hge].
  - rewrite wrap32_small by lia.
    destruct (IH (nC + nFactor) (bitmap_set vf nC) ltac:(lia) ltac:(lia))
      as (vf' & -> & Hbits).
    exists vf'. split; [reflexivity|]. intros j.
    rewrite Hbits, bitmap_set_testbit by lia.
    replace (j - (nC + nFactor)) with (j - nC + (-1) * nFactor) by lia.
    rewrite Z.mod_add by lia.
    destruct (Z.eqb_spec j nC) as [->|Hne].
    + rewrite Z.sub_diag, Z.mod_0_l by lia.
      destruct (Z.leb_spec nC nC); [|lia]. destruct (Z.ltb_spec nC sieveMax); [|lia].
      cbn. rewrite !orb_true_r. reflexivity.
    + rewrite orb_false_r. f_equal.
      destruct (Z.leb_spec (nC + nFactor) j), (Z.leb_spec nC j); try lia;
        cbn [andb]; try reflexivity.
      destruct (Z.ltb_spec j sieveMax); cbn [andb]; [|reflexivity].
      destruct (Z.eqb_spec ((j - nC) mod nFactor) 0) as [Hm|]; [|reflexivity].
      exfalso. rewrite Z.mod_small in Hm by lia. lia.
  - exists vf. split; [reflexivity|]. intros j.
    destruct (Z.leb_spec nC j), (Z.ltb_spec j sieveMax); try lia;
      cbn [andb]; rewrite orb_false_r; reflexivity.
Qed.

Lemma sieve_factors_spec sieveMax fuel :
  sieveMax <= 4294836225 ->
  forall nFactor vf,
    2 <= nFactor <= 65535 ->
    (Z.to_nat (sieveMax - nFactor) < fuel)%nat ->
    (forall j, 0 <= j ->
       (Z.testbit vf j = true
        <-> j < sieveMax /\ exists d, 2 <= d < nFactor /\ d * d <= j /\ (d | j))) ->
    exists vf' F,
      sieve_factors fuel sieveMax nFactor vf = Some vf'
      /\ 2 <= F /\ sieveMax <= F * F
      /\ (forall j, 0 <= j ->
            (Z.testbit vf' j = true
             <-> j < sieveMax /\ exists d, 2 <= d < F /\ d * d <= j /\ (d | j))).
Proof.
  intros Hmax. induction fuel as [|fuel IH]; intros nF vf HnF Hfuel Hinv; [lia|].
  cbn [sieve_factors].
  assert (Hsq : 0 <= nF * nF <= 4294836225) by nia.
  rewrite (wrap32_small (nF * nF)) by lia.
  destruct (Z.ltb_spec (nF * nF) sieveMax) as [Hlt|Hge].
  2:{ exists vf, nF. split; [reflexivity|]. split; [lia|]. split; [lia | exact Hinv]. }
  assert (HnF' : nF < 65535) by nia.
  assert (HnFs : nF < sieveMax) by nia.
  rewrite (wrap32_small (nF + 1)) by lia.
  rewrite bitmap_test_testbit by lia.
  destruct (Z.testbit vf nF) eqn:Ebit.
  - apply IH; [lia | lia |]. intros j Hj. rewrite (Hinv j Hj). split.
    + intros (Hjs & d & Hd & Hdd & Hdiv). split; [exact Hjs|].
      exists d. split; [lia|]. split; assumption.
    + intros (Hjs & d & Hd & Hdd & Hdiv). split; [exact Hjs|].
      destruct (Z.eq_dec d nF) as [->|Hne].
      * apply (Hinv nF) in Ebit; [|lia].
        destruct Ebit as (_ & d' & Hd' & Hdd' & Hdiv').
        exists d'. split; [exact Hd'|].
        assert (nF <= nF * nF) by nia. split; [lia|].
        apply (Z.divide_trans _ nF); assumption.
      * exists d. split; [lia|]. split; assumption.
  - destruct (mark_composites_spec sieveMax nF fuel ltac:(lia) ltac:(lia) (nF * nF) vf
                ltac:(lia) ltac:(nia)) as (vf1 & -> & Hbits).
    apply IH; [lia | lia |]. intros j Hj. rewrite Hbits. rewrite orb_true_iff.
    rewrite (Hinv j Hj). rewrite !andb_true_iff, Z.leb_le, Z.ltb_lt, Z.eqb_eq.
    split.
    + intros [(Hjs & d & Hd & Hdd & Hdiv)|((Hle & Hjs) & Hm)].
      * split; [exact Hjs|]. exists d. split; [lia|]. split; assumption.
      * split; [exact Hjs|]. exists nF. split; [lia|]. split; [exact Hle|].
        apply Z.mod_divide in Hm; [|lia]. destruct Hm as [k Hk].
        exists (k + nF). lia.
    + intros (Hjs & d & Hd & Hdd & Hdiv).
      destruct (Z.eq_dec d nF) as [->|Hne].
      * right. split; [split; assumption|]. destruct Hdiv as [k Hk].
        apply Z.mod_divide; [lia|]. exists (k - nF). lia.
      * left. split; [exact Hjs|]. exists d. split; [lia|]. split; assumption.
Qed.

Lemma prime_by_small_divisors j :
  2 <= j -> (forall d, 2 <= d -> d * d <= j -> ~ (d | j)) -> Z.prime j.
Proof.
  intros Hj Hnone. split; [lia|]. intros n Hn Hdiv.
  destruct (Z.le_gt_cases (n * n) j) as [Hle|Hgt].
  - exact (Hnone n ltac:(lia) Hle Hdiv).
  - destruct Hdiv as [k Hk].
    assert (Hk1 : 1 < k) by nia.
    apply (Hnone k ltac:(lia)); [nia|]. exists n. lia.
Qed.

Lemma prime_no_small_divisor j d :
  Z.prime j -> 2 <= d -> d * d <= j -> ~ (d | j).
Proof.
  intros [Hj Hp] Hd Hdd. apply Hp. nia.
Qed.

Lemma collect_primes_spec sieveMax vf fuel :
  sieveMax < 2 ^ 32 ->
  forall n acc,
    0 <= n <= sieveMax ->
    (Z.to_nat (sieveMax - n) < fuel)%nat ->
    (forall x, In x acc -> x < n) ->
    (forall i j x y, (i < j)%nat -> acc !! i = Some x -> acc !! j = Some y -> x < y) ->
    exists primes,
      collect_primes fuel sieveMax n vf acc = Some primes
      /\ (forall x, In x primes
                    <-> In x acc \/ (n <= x < sieveMax /\ Z.testbit vf x = false))
      /\ (forall i j x y, (i < j)%nat ->
            primes !! i = Some x -> primes !! j = Some y -> x < y).
Proof.
  intros Hmax. induction fuel as [|fuel IH]; intros n acc Hn Hfuel Hacc Hsorted; [lia|].
  cbn [collect_primes].
  destruct (Z.ltb_spec n sieveMax) as [Hlt|Hge].
  2:{ exists acc. split; [reflexivity|]. split; [|exact Hsorted].
      intros x. split; [intros H; left; exact H|]. intros [H|H]; [exact H | lia]. }
  rewrite wrap32_small by lia. rewrite bitmap_test_testbit by lia.
  destruct (Z.testbit vf n) eqn:Ebit.
  - destruct (IH (n + 1) acc ltac:(lia) ltac:(lia)) as (primes & -> & Hin & Hs).
    + intros x Hx. specialize (Hacc x Hx). lia.
    + exact Hsorted.
    + exists primes. split; [reflexivity|]. split; [|exact Hs].
      intros x. rewrite (Hin x). split.
      * intros [H|[H1 H2]]; [left; exact H | right; split; [lia | exact H2]].
      * intros [H|[H1 H2]]; [left; exact H|]. right. split; [|exact H2].
        destruct (Z.eq_dec x n) as [->|]; [congruence | lia].
  - destruct (IH (n + 1) (acc ++ [n]) ltac:(lia) ltac:(lia)) as (primes & -> & Hin & Hs).
    + intros x Hx. apply in_app_or in Hx. destruct Hx as [Hx|[<-|[]]]; [|lia].
      specialize (Hacc x Hx). lia.
    + intros i j x y Hij Hi Hj.
      apply lookup_app_Some in Hi. apply lookup_app_Some in Hj.
      destruct Hj as [Hj|[Hjl Hj]].
      * destruct Hi as [Hi|[Hil _]]; [exact (Hsorted i j x y Hij Hi Hj)|].
        apply lookup_lt_Some in Hj. lia.
      * destruct Hi as [Hi|[Hil Hi]].
        -- apply list_lookup_singleton_Some in Hj. destruct Hj as [_ <-].
           apply Hacc. apply list_elem_of_In. eapply list_elem_of_lookup_2. exact Hi.
        -- apply list_lookup_singleton_Some in Hi. apply list_lookup_singleton_Some in Hj.
           lia.
    + exists primes. split; [reflexivity|]. split; [|exact Hs].
      intros x. rewrite (Hin x). rewrite in_app_iff. cbn [In]. split.
      * intros [[H|[<-|[]]]|[H1 H2]].
        -- left; exact H.
        -- right. split; [lia | exact Ebit].
        -- right. split; [lia | exact H2].
      * intros [H|[H1 H2]]; [left; left; exact H|].
        destruct (Z.eq_dec x n) as [->|]; [left; right; left; reflexivity|].
        right. split; [lia | exact H2].
Qed.

Lemma generate_primes_spec fuel sieveMax :
  2 <= sieveMax <= 4294836225 -> (Z.to_nat sieveMax <= fuel)%nat ->
  exists primes,
    generate_primes fuel sieveMax = Some primes
    /\ (forall p, In p primes <-> Z.prime p /\ p < sieveMax)
    /\ (forall i j x y, (i < j)%nat ->
          primes !! i = Some x -> primes !! j = Some y -> x < y).
Proof.
  intros Hmax Hfuel. unfold generate_primes.
  destruct (sieve_factors_spec sieveMax fuel ltac:(lia) 2 0 ltac:(lia) ltac:(lia))
    as (vf & F & -> & HF & HFF & Hinv).
  { intros j Hj. rewrite Z.bits_0. split; [discriminate|].
    intros (_ & d & Hd & _). lia. }
  destruct (collect_primes_spec sieveMax vf fuel ltac:(lia) 2 [] ltac:(lia) ltac:(lia))
    as (primes & -> & Hin & Hs).
  { intros x []. }
  { intros i j x y _ Hi. rewrite lookup_nil in Hi. discriminate. }
  exists primes. split; [reflexivity|]. split; [|exact Hs].
  intros p. rewrite (Hin p). cbn [In]. split.
  - intros [[]|[Hp Hbit]]. split; [|lia].
    apply prime_by_small_divisors; [lia|]. intros d Hd Hdd Hdiv.
    assert (Hset : Z.testbit vf p = true).
    { apply Hinv; [lia|]. split; [lia|]. exists d. split; [nia|]. split; assumption. }
    rewrite Hbit in Hset. discriminate.
  - intros [Hprime Hp]. right. pose proof (Z.prime_ge_2 _ Hprime) as H2.
    split; [lia|]. destruct (Z.testbit vf p) eqn:Ebit; [|reflexivity].
    apply Hinv in Ebit; [|lia]. destruct Ebit as (_ & d & Hd & Hdd & Hdiv).
    exfalso. exact (prime_no_small_divisor p d Hprime ltac:(lia) Hdd Hdiv).
Qed.

Lemma sorted_lookup_prime_table primes sieveMax :
  sieveMax <= 2 ^ 32 ->
  (forall p, In p primes -> Z.prime p /\ p < sieveMax) ->
  (forall i j x y, (i < j)%nat ->
     primes !! i = Some x -> primes !! j = Some y -> x < y) ->
  prime_table primes.
Proof.
  intros Hmax Hin Hs.
  assert (Hl : forall i, 0 <= i < Z.of_nat (length primes) ->
            primes !! Z.to_nat i = Some (zth primes i)).
  { intros i Hi. destruct (lookup_lt_is_Some_2 primes (Z.to_nat i) ltac:(lia)) as [x Hx].
    rewrite (zth_lookup _ _ _ Hx). exact Hx. }
  constructor.
  - intros i Hi. apply Hin, zth_In, Hi.
  - intros i Hi. destruct (Hin _ (zth_In _ _ Hi)). lia.
  - intros i j Hij Hj. apply (Hs (Z.to_nat i) (Z.to_nat j)); [lia| |]; apply Hl; lia.
Qed.

Lemma no_divisor_from_spec p n :
  forall d, 0 < d -> no_divisor_from n p d = true ->
    forall x, d <= x < d + Z.of_nat n -> ~ (x | p).
Proof.
  induction n as [|n IH]; intros d Hd H x Hx; [lia|].
  cbn [no_divisor_from] in H. apply andb_true_iff in H. destruct H as [H1 H2].
  destruct (Z.eq_dec x d) as [->|Hne].
  - apply negb_true_iff, Z.eqb_neq in H1. intros Hdiv. apply H1.
    apply Z.mod_divide; [lia | exact Hdiv].
  - apply (IH (d + 1)); [lia | exact H2 | lia].
Qed.

Lemma is_prime_sqrt_b_correct p : is_prime_sqrt_b p = true -> Z.prime p.
Proof.
  unfold is_prime_sqrt_b. intros H. apply andb_true_iff in H. destruct H as [H1 H2].
  apply Z.ltb_lt in H1. apply prime_by_small_divisors; [lia|].
  intros d Hd Hdd. apply Z.sqrt_le_square in Hdd; [|lia|lia].
  apply (no_divisor_from_spec p _ 2 ltac:(lia) H2). lia.
Qed.

Lemma prime_table_sqrt_b_correct primes :
  prime_table_sqrt_b primes = true -> prime_table primes.
Proof.
  unfold prime_table_sqrt_b. intros H. apply andb_true_iff in H. destruct H as [H1 H2].
  rewrite forallb_forall in H1.
  constructor.
  - intros i Hi. specialize (H1 _ (zth_In _ _ Hi)).
    apply andb_true_iff in H1. apply is_prime_sqrt_b_correct, H1.
  - intros i Hi. specialize (H1 _ (zth_In _ _ Hi)).
    apply andb_true_iff in H1. apply Z.ltb_lt, H1.
  - intros i j Hij Hj. unfold zth. apply increasing_b_nth; [exact H2|lia|lia].
Qed.

Lemma miner_mixed_initialised : initialised miner_mixed.
Proof.
  constructor.
  - reflexivity.
  - apply prime_table_sqrt_b_correct. vm_compute. reflexivity.
  - vm_compute. split; discriminate.
Qed.

Lemma miner_mixed_strata :
  primorialNumber miner_mixed = 40 /\ n_dense miner_mixed = 128
  /\ n_sparse miner_mixed = 2 /\ nPrimes miner_mixed = 171
  /\ sieveWorkers miner_mixed = 4.
Proof. vm_compute. repeat split; reflexivity. Qed.

(** ** Bitmaps of the sparse jobs *)

Lemma dispatch_sieve_loop_ids nd ns sw incr fuel :
  0 <= nd -> 0 <= ns -> nd + ns < 2 ^ 31 -> 1 <= sw -> 1 <= incr <= ns + 1 ->
  ns < sw * incr ->
  forall queue n,
    let k := Z.of_nat (length queue) in
    nd + k * incr <= nd + ns -> k < sw -> n = k ->
    job_chain sw nd (nd + k * incr) queue ->
    map job_sieveId queue = reverse (seqZ 0 k) ->
    (Z.to_nat (nd + ns - (nd + k * incr)) < fuel)%nat ->
    exists queue',
      dispatch_sieve_loop fuel nd ns sw incr (nd + k * incr) k queue n
      = Ok (queue', Z.of_nat (length queue'))
      /\ job_chain sw nd (nd + ns) queue'
      /\ Z.of_nat (length queue') <= sw
      /\ map job_sieveId queue' = reverse (seqZ 0 (Z.of_nat (length queue'))).
Proof.
  intros Hnd Hns Htot Hsw Hincr Hcover.
  induction fuel as [|fuel IH]; intros queue n k Hbase Hk Hn Hchain Hids Hfuel; [lia|].
  cbn [dispatch_sieve_loop]. cbv zeta.
  set (base := nd + k * incr) in *.
  assert (Hk0 : 0 <= k) by (unfold k; lia).
  rewrite (wrap32_small (nd + ns)) by lia.
  assert (Hpush : forall e, 
            map job_sieveId (sieveWork base e k :: queue)
            = reverse (seqZ 0 (Z.of_nat (length (sieveWork base e k :: queue))))).
  { intros e. cbn [map job_sieveId length]. rewrite Nat2Z.inj_succ.
    rewrite <- Z.add_1_r. fold k. rewrite seqZ_app by lia.
    rewrite reverse_app, Hids. rewrite Z.add_0_l. reflexivity. }
  destruct (Z.ltb_spec base (nd + ns)) as [Hlt|Hge].
  - rewrite (wrap32_small (base + incr)) by lia.
    set (lim0 := Z.min (nd + ns) (base + incr)).
    assert (Hlim0 : base < lim0 <= nd + ns) by (unfold lim0; lia).
    rewrite (wrap32_small (lim0 + 1000)) by lia.
    rewrite !Z.gtb_ltb.
    destruct (Z.ltb_spec (nd + ns) (lim0 + 1000)) as [Hlast|Hmore].
    + rewrite (wrap32_small (nd + ns + 1000)) by lia.
      destruct (Z.ltb_spec (nd + ns) (nd + ns + 1000)); [|lia].
      exists (sieveWork base (nd + ns) k :: queue). split.
      { cbn [length]. rewrite Nat2Z.inj_succ. fold k. subst n.
        replace (Z.succ k) with (k + 1) by lia. reflexivity. }
      split; [apply chain_cons; [exact Hchain | lia | lia]|].
      split; [cbn [length]; rewrite Nat2Z.inj_succ; fold k; lia|].
      apply Hpush.
    + rewrite (wrap32_small (lim0 + 1000)) by lia.
      destruct (Z.ltb_spec (nd + ns) (lim0 + 1000)); [lia|].
      assert (Hl : lim0 = base + incr) by (unfold lim0; lia).
      assert (Hk1 : k + 1 < sw) by (unfold base in *; nia).
      rewrite Z.rem_small by lia.
      specialize (IH (sieveWork base lim0 k :: queue) (n + 1)).
      cbn [length] in IH. rewrite Nat2Z.inj_succ in IH. fold k in IH.
      replace (nd + Z.succ k * incr) with (base + incr) in IH by (unfold base; lia).
      replace (Z.succ k) with (k + 1) in IH by lia.
      apply IH.
      * lia.
      * exact Hk1.
      * lia.
      * rewrite <- Hl. apply chain_cons; [exact Hchain | lia | lia].
      * pose proof (Hpush lim0) as Hp. cbn [length] in Hp.
        rewrite Nat2Z.inj_succ in Hp. fold k in Hp.
        replace (Z.succ k) with (k + 1) in Hp by lia. exact Hp.
      * lia.
  - assert (Hend : base = nd + ns) by lia.
    exists queue. fold k. subst n. split; [reflexivity|].
    split; [rewrite <- Hend; exact Hchain|]. split; [lia | exact Hids].
Qed.


Lemma dispatch_sieve_ids M fuel :
  initialised M -> nPrimes M < 2 ^ 31 ->
  (Z.to_nat (nPrimes M) < fuel)%nat ->
  exists jobs,
    dispatch_sieve fuel M = Ok (jobs, Z.of_nat (length jobs))
    /\ job_chain (sieveWorkers M) (n_dense M) (n_dense M + n_sparse M) jobs
    /\ Z.of_nat (length jobs) <= sieveWorkers M
    /\ NoDup (map job_sieveId jobs).
Proof.
  intros Hinit Hn Hfuel.
  destruct (initialised_strata M Hinit) as (Hd & Hs & Hle & _).
  pose proof (init_m M Hinit) as Hm. cbv zeta in Hle.
  pose proof (initialised_sieveWorkers M Hinit) as Hsw.
  unfold dispatch_sieve. cbv zeta.
  assert (Hq : 0 <= n_sparse M / sieveWorkers M <= n_sparse M).
  { split; [apply Z.div_pos; lia|].
    apply Z.div_le_upper_bound; [lia|]. nia. }
  rewrite (wrap32_small (n_sparse M / sieveWorkers M + 1)) by lia.
  set (incr := n_sparse M / sieveWorkers M + 1).
  assert (Hcover : n_sparse M < sieveWorkers M * incr).
  { unfold incr. pose proof (Z.div_mod (n_sparse M) (sieveWorkers M) ltac:(lia)).
    pose proof (Z.mod_pos_bound (n_sparse M) (sieveWorkers M) ltac:(lia)). lia. }
  pose proof (dispatch_sieve_loop_ids (n_dense M) (n_sparse M) (sieveWorkers M) incr fuel
                Hd Hs ltac:(lia) ltac:(lia) ltac:(unfold incr; lia) Hcover [] 0) as H.
  cbn [length] in H. change (Z.of_nat 0) with 0 in H.
  rewrite Z.mul_0_l, Z.add_0_r in H.
  destruct H as (jobs & Hrun & Hchain & Hlen & Hids);
    [lia | lia | reflexivity | apply chain_nil | reflexivity | lia |].
  exists jobs. split; [exact Hrun|]. split; [exact Hchain|]. split; [exact Hlen|].
  rewrite Hids, reverse_Permutation. apply NoDup_seqZ.
Qed.




(** ** Further consequences *)

Lemma fresh_buckets_empty eps k : bucket (fresh_buckets eps) k = [].
Proof.
  unfold bucket, fresh_buckets. cbn [segment_counts segment_hits].
  destruct (replicate (Z.to_nat maxiter) 0 !! Z.to_nat k) as [c|] eqn:Hc; [|reflexivity].
  apply lookup_replicate in Hc. destruct Hc as [-> _].
  destruct (replicate (Z.to_nat maxiter) (replicate (Z.to_nat eps) 0) !! Z.to_nat k);
    reflexivity.
Qed.

Lemma table_at_initial M base :
  initialised M -> 0 <= base ->
  table_at M base 0 (fun i f => offset_index M base i f).
Proof.
  intros Hinit Hbase i Hres.
  pose proof (resident_sieving_prime M i Hinit Hres) as Hsp.
  split; [|split].
  - intros g Hg. apply offset_index_hits; assumption.
  - intros f Hf. exists f. split; [exact Hf|]. apply offset_index_hits; assumption.
  - intros g Hg. exists g. split; [exact Hg|]. apply offset_index_hits; assumption.
Qed.

Lemma dense_sieve_hits M fuel base loop o :
  initialised M -> table_at M base loop o ->
  (Z.to_nat riecoin_sieveSize < fuel)%nat ->
  let m := primorialNumber M in
  exists sieve' o',
    dense_sieve M m fuel 0 o = Ok (sieve', o')
    /\ forall j, 0 <= j < riecoin_sieveSize ->
         (Z.testbit sieve' j = true <-> hit_in M base loop m (m + n_dense M) j).
Proof.
  intros Hinit Htab Hfuel m.
  destruct (initialised_strata M Hinit) as (Hd & Hs & Hle & _). fold m in Hle.
  assert (Hb : offsets_bounded M o m (m + n_dense M)).
  { intros i f Hi Hf. destruct (Htab i) as (Hbi & _); [unfold resident; fold m; lia|].
    apply Hbi; exact Hf. }
  destruct (dense_sieve_spec M fuel 0 o Hinit Hb Hfuel) as (sieve' & o' & Hrun & Hbits & _).
  exists sieve', o'. split; [exact Hrun|]. intros j Hj.
  rewrite Hbits, Z.bits_0. cbn [orb].
  pose proof (marked_by_hits M base loop o 0 (n_dense M) j Hinit Htab
                ltac:(lia) ltac:(lia) Hj) as H.
  fold m in H. replace (0 + m) with m in H by lia.
  replace (n_dense M + m) with (m + n_dense M) in H by lia. exact H.
Qed.

Lemma stale_block_spec M sha256 monitor fuel block targetCompact height G stk :
  initialised M -> 128 <= nPrimes M < 2 ^ 31 ->
  (Z.to_nat (nPrimes M) < fuel)%nat ->
  buckets_wf (entriesPerSegment M) (buckets G) ->
  length stk = Z.to_nat OFFSET_STACK_SIZE ->
  monitor O <> height ->
  let zt := getTargetFromBlock sha256 block targetCompact in
  let base := search_base zt (remainderPrimorial zt (primorial M)) in
  match miningProcess M sha256 monitor fuel block targetCompact height G stk with
  | Ok (G', pushed) =>
      pushed = []
      /\ buckets_wf (entriesPerSegment M) (buckets G')
      /\ table_at M base 0 (offsets G')
      /\ buckets_hit M base (buckets G')
  | Err ExitCalled =>
      exists i, primorialNumber M <= i < nPrimes M
                /\ max_increments <= zth (primes M) i
  | Err _ => False
  end.
Proof.
  intros Hinit Hn Hfuel' Hwf Hlen Hstale. cbv zeta. unfold search_base.
  pose proof (getTargetFromBlock_pos sha256 block targetCompact) as Hzt.
  unfold miningProcess.
  generalize dependent (getTargetFromBlock sha256 block targetCompact).
  intros zt Hzt. cbv zeta.
  pose proof (search_base_nonneg M zt Hinit Hzt) as Hbase.
  set (zr := remainderPrimorial zt (primorial M)) in *.
  destruct (reset_counts_spec _ _ Hwf) as [Hwf0 Hempty].
  set (G0 := {| offsets := offsets G; buckets := _ |}).
  destruct (mod_phase_spec M fuel zt zr G0 stk
              Hinit Hn Hfuel' Hbase Hwf0 Hempty Hlen) as (jobs & nw & -> & Hmod).
  rewrite result_bind_Ok; cbv beta iota.
  destruct (run_mod_jobs M zt zr jobs (G0, stk))
    as [[G1 stk1]|err]; [|rewrite !result_bind_Err; exact Hmod].
  rewrite result_bind_Ok; cbv beta iota.
  rewrite (seqZ_cons 0 maxiter) by (rewrite maxiter_val; lia).
  rewrite mining_loops_cons.
  destruct (Z.eqb_spec height (monitor O)) as [Heq|Hne]; [congruence|].
  cbn [negb]. rewrite result_bind_Ok; cbv beta iota.
  cbn [offsets buckets]. split; [reflexivity | exact Hmod].
Qed.

Lemma miner_mixed_ready :
  initialised miner_mixed
  /\ 128 <= nPrimes miner_mixed < 2 ^ 31
  /\ (Z.to_nat riecoin_sieveSize < S (Z.to_nat riecoin_sieveSize))%nat
  /\ (Z.to_nat (nPrimes miner_mixed) < S (Z.to_nat riecoin_sieveSize))%nat
  /\ buckets_wf (entriesPerSegment miner_mixed)
       (buckets (fresh_globals (entriesPerSegment miner_mixed)))
  /\ length fresh_stack = Z.to_nat OFFSET_STACK_SIZE.
Proof.
  destruct miner_mixed_strata as (_ & _ & _ & Hn & _).
  split; [exact miner_mixed_initialised|]. split; [rewrite Hn; lia|].
  split; [apply Nat.lt_succ_diag_r|]. split; [rewrite Hn, sieveSize_val; lia|].
  split; [|exact fresh_stack_length].
  apply fresh_buckets_wf. vm_compute. split; [discriminate | reflexivity].
Qed.

Lemma mixed_base_nonneg :
  let zt := getTargetFromBlock (fun _ => digest_seq) (replicate 80 0) 304 in
  0 <= zt + remainderPrimorial zt (primorial miner_mixed).
Proof.
  intros zt. apply search_base_nonneg; [exact miner_mixed_initialised|].
  apply getTargetFromBlock_pos.
Qed.

(** ** Sorting the six offsets *)

Lemma swap_if_less_perm a i j :
  0 <= i < 6 -> 0 <= j < 6 -> i <> j ->
  Permutation (map (swap_if_less a i j) (seqZ 0 6)) (map a (seqZ 0 6)).
Proof.
  intros Hi Hj Hij. unfold swap_if_less.
  destruct (a j <? a i); [|reflexivity].
  change (seqZ 0 6) with [0; 1; 2; 3; 4; 5].
  assert (Hi' : i = 0 \/ i = 1 \/ i = 2 \/ i = 3 \/ i = 4 \/ i = 5) by lia.
  assert (Hj' : j = 0 \/ j = 1 \/ j = 2 \/ j = 3 \/ j = 4 \/ j = 5) by lia.
  destruct Hi' as [->|[->|[->|[->|[->| ->]]]]];
    destruct Hj' as [->|[->|[->|[->|[->| ->]]]]];
    try (exfalso; apply Hij; reflexivity);
    cbn [map Z.eqb Pos.eqb]; solve_Permutation.
Qed.

Lemma swap_if_less_facts a i j :
  i <> j ->
  let r := swap_if_less a i j in
  r i <= r j /\ r i <= a i
  /\ ((r i = a i /\ r j = a j) \/ (r i = a j /\ r j = a i))
  /\ forall k, k <> i -> k <> j -> r k = a k.
Proof.
  intros Hij r. unfold r, swap_if_less.
  destruct (Z.ltb_spec (a j) (a i)) as [Hlt|Hge].
  - rewrite Z.eqb_refl. destruct (Z.eqb_spec j i) as [->|_]; [contradiction|].
    rewrite Z.eqb_refl. split; [lia|]. split; [lia|]. split; [right; split; reflexivity|].
    intros k Hki Hkj. destruct (Z.eqb_spec k i); [contradiction|].
    destruct (Z.eqb_spec k j); [contradiction|]. reflexivity.
  - split; [lia|]. split; [lia|]. split; [left; split; reflexivity|]. reflexivity.
Qed.

Lemma sort_pass_spec i js :
  0 <= i < 6 -> (forall k, In k js -> i < k < 6) ->
  forall a,
    let r := foldl (fun a j => swap_if_less a i j) a js in
    r i <= a i
    /\ (forall k, In k js -> r i <= r k)
    /\ (forall k, k <> i -> ~ In k js -> r k = a k)
    /\ (forall k, i <= k < 6 -> exists k', i <= k' < 6 /\ r k = a k')
    /\ Permutation (map r (seqZ 0 6)) (map a (seqZ 0 6)).
Proof.
  intros Hi. induction js as [|j js IH]; intros Hjs a; cbn [foldl]; cbv zeta.
  - split; [lia|]. split; [intros k []|]. split; [reflexivity|].
    split; [|reflexivity]. intros k Hk. exists k. split; [exact Hk | reflexivity].
  - assert (Hj : i < j < 6) by (apply Hjs; left; reflexivity).
    destruct (swap_if_less_facts a i j ltac:(lia)) as (Hle & Hdec & Hcases & Hother).
    destruct (IH (fun k Hk => Hjs k (or_intror Hk)) (swap_if_less a i j))
      as (Hri & Hmin & Hsame & Hvals & Hperm).
    set (a' := swap_if_less a i j) in *.
    set (r := foldl (fun a0 j0 => swap_if_less a0 i j0) a' js) in *.
    split; [lia|]. split; [|split; [|split]].
    + intros k [<-|Hk]; [|apply Hmin; exact Hk].
      destruct (in_dec Z.eq_dec j js) as [Hin|Hnin]; [apply Hmin; exact Hin|].
      rewrite (Hsame j ltac:(lia) Hnin). lia.
    + intros k Hki Hnin. rewrite (Hsame k Hki (fun H => Hnin (or_intror H))).
      apply Hother; [exact Hki|]. intros ->. apply Hnin. left. reflexivity.
    + intros k Hk. destruct (Hvals k Hk) as (k' & Hk' & ->).
      destruct (Z.eq_dec k' i) as [->|Hni].
      * destruct Hcases as [[-> _]|[-> _]]; [exists i | exists j]; split; (lia || reflexivity).
      * destruct (Z.eq_dec k' j) as [->|Hnj].
        -- destruct Hcases as [[_ ->]|[_ ->]]; [exists j | exists i];
             split; (lia || reflexivity).
        -- exists k'. split; [exact Hk'|]. apply Hother; assumption.
    + rewrite Hperm. apply swap_if_less_perm; lia.
Qed.

(** ** Completeness of the verification *)

Lemma cumulativeBias_nonneg c : 0 <= c <= 5 -> 0 <= cumulativeBias c.
Proof.
  intros Hc.
  assert (Hcs : c = 0 \/ c = 1 \/ c = 2 \/ c = 3 \/ c = 4 \/ c = 5) by lia.
  destruct Hcs as [->|[->|[->|[->|[->| ->]]]]]; vm_compute; discriminate.
Qed.

Lemma check_candidate_shape M zt zr tuples loop j submitted :
  0 < primorial M -> 0 < zt -> 0 <= zr -> 0 <= loop < maxiter -> 0 <= j ->
  1 <= tuples <= 6 ->
  let n := tested_number M zt zr loop j in
  (check_candidate M zt zr tuples loop j submitted = Ok submitted
   /\ exists c, 0 <= c < tuples /\ ~ fermat_passes (n + cumulativeBias c))
  \/ (exists off k,
        check_candidate M zt zr tuples loop j submitted = Ok (submitted ++ [(off, k)])
        /\ share_ok M zt zr tuples loop j off k).
Proof.
  intros HP Hzt Hzr Hl Hj Ht n.
  destruct (check_candidate_spec M zt zr tuples loop j submitted HP Hzt Hzr Hl Hj)
    as (subs & Hrun & Hok).
  assert (Hoff : 0 <= n - zt).
  { unfold n, tested_number. pose proof sieveSize_val as HS.
    assert (0 <= (loop * riecoin_sieveSize + j) * primorial M) by nia. lia. }
  assert (Hn : 0 < n) by lia.
  revert Hrun. unfold check_candidate. cbv zeta.
  rewrite candidate_value_eq by exact Hl. fold n.
  destruct (fermat n) eqn:E0; cbn [negb].
  2:{ intros _. left. split; [reflexivity|]. exists 0. split; [lia|].
      change (cumulativeBias 0) with 0. rewrite Z.add_0_r. intros Hp.
      apply fermat_correct in Hp; [|exact Hn]. rewrite E0 in Hp. discriminate. }
  destruct (fermat_chain_spec n E0) as (z & k & -> & Hk & Hchain & Hstop).
  destruct (Z.ltb_spec k tuples) as [Hlt|Hge].
  { intros _. left. split; [reflexivity|]. exists k. split; [lia|]. intros Hp.
    pose proof (cumulativeBias_nonneg k ltac:(lia)).
    apply fermat_correct in Hp; [|lia]. rewrite (Hstop ltac:(lia)) in Hp. discriminate. }
  unfold mpz_sub. rewrite share_bytes_spec by exact Hoff.
  rewrite result_bind_Ok. intros Hrun. right.
  exists (le_prefix (n - zt) 32), k. split; [reflexivity|].
  apply Hok. injection Hrun as Hrun. apply app_inv_head in Hrun. rewrite <- Hrun.
  left. reflexivity.
Qed.

(** ** The jobs handed to the verifiers *)

Lemma extract_word_inv monitor height loop b :
  0 <= loop < maxiter ->
  forall fuel sb c E E',
    extract_word monitor height fuel loop b sb c E = Ok E' ->
    extract_inv E -> extract_inv E'.
Proof.
  intros Hloop. induction fuel as [|fuel IH]; intros sb c E E' Hrun Hinv;
    [discriminate|].
  cbn [extract_word] in Hrun. cbv zeta in Hrun.
  destruct (sb =? 0); [injection Hrun as <-; exact Hinv|].
  destruct (c + 1 >? 65); [discriminate|].
  destruct (Z.to_nat (w_n_indexes E) <? length (w_indexes E))%nat; [|discriminate].
  destruct Hinv as [Hlen Hn Hrange Hpushed]. unfold WORK_INDEXES in *.
  match type of Hrun with
  | (if ?ch then Ok ?E1 else _) = _ => assert (Hinv1 : extract_inv E1)
  end.
  { constructor; cbn [w_indexes w_n_indexes pushed]; unfold WORK_INDEXES.
    - rewrite length_insert. exact Hlen.
    - destruct (Z.eqb_spec (w_n_indexes E + 1) 64); lia.
    - apply Forall_insert; [exact Hrange|]. unfold wrap32.
      apply Z.mod_pos_bound. lia.
    - destruct (Z.eqb_spec (w_n_indexes E + 1) 64) as [Hfull|]; [|exact Hpushed].
      apply Forall_app. split; [exact Hpushed|]. apply Forall_singleton.
      cbn [check_job_ok]. unfold WORK_INDEXES. split; [exact Hloop|]. split; [lia|].
      split; [rewrite length_insert; exact Hlen|].
      apply Forall_insert; [exact Hrange|]. unfold wrap32.
      apply Z.mod_pos_bound. lia. }
  destruct (negb (height =? monitor (clock E))).
  - injection Hrun as <-. exact Hinv1.
  - exact (IH _ _ _ _ Hrun Hinv1).
Qed.

Lemma extract_words_inv monitor height sieve loop words :
  0 <= loop < maxiter ->
  forall E E',
    forM (fun b E =>
            if do_reset E then Ok E
            else
              let sb := wrap64 (Z.lnot (word64_get sieve b)) in
              extract_word monitor height 66 loop b sb 0 E)
         words E = Ok E' ->
    extract_inv E -> extract_inv E'.
Proof.
  intros Hloop. induction words as [|b words IH]; intros E E' Hrun Hinv.
  - injection Hrun as <-. exact Hinv.
  - cbn [forM] in Hrun. cbv zeta in Hrun.
    destruct (do_reset E).
    + rewrite result_bind_Ok in Hrun. exact (IH _ _ Hrun Hinv).
    + destruct (extract_word monitor height 66 loop b
                  (wrap64 (Z.lnot (word64_get sieve b))) 0 E) as [E1|e] eqn:Hw.
      * rewrite result_bind_Ok in Hrun.
        exact (IH _ _ Hrun (extract_word_inv monitor height loop b Hloop _ _ _ _ _ Hw Hinv)).
      * rewrite result_bind_Err in Hrun. discriminate.
Qed.

Lemma new_array_replicate n : new_array n = replicate (Z.to_nat n) 0.
Proof. reflexivity. Qed.

Lemma extract_candidates_jobs monitor height sieve loop pushed0 clock0 E :
  0 <= loop < maxiter ->
  extract_candidates monitor height sieve loop pushed0 clock0 = Ok E ->
  Forall check_job_ok pushed0 -> Forall check_job_ok (pushed E).
Proof.
  intros Hloop. unfold extract_candidates. intros Hrun Hp0.
  match type of Hrun with
  | mbind _ (forM ?body ?words ?E0) = _ =>
      destruct (forM body words E0) as [E1|e] eqn:Hw;
        [|rewrite result_bind_Err in Hrun; discriminate];
      assert (Hinv : extract_inv E1)
  end.
  { apply (extract_words_inv monitor height sieve loop _ Hloop _ _ Hw).
    constructor; cbn [w_indexes w_n_indexes pushed].
    - rewrite new_array_replicate. apply length_replicate.
    - unfold WORK_INDEXES. lia.
    - rewrite new_array_replicate. apply Forall_replicate. lia.
    - exact Hp0. }
  rewrite result_bind_Ok in Hrun. destruct Hinv as [Hlen Hn Hrange Hpushed].
  rewrite Z.gtb_ltb in Hrun.
  destruct (Z.ltb_spec 0 (w_n_indexes E1)) as [Hpos|Hzero].
  - injection Hrun as <-. cbn [pushed]. apply Forall_app. split; [exact Hpushed|].
    apply Forall_singleton. cbn [check_job_ok]. split; [exact Hloop|].
    split; [lia|]. split; assumption.
  - injection Hrun as <-. exact Hpushed.
Qed.

Lemma mining_loops_jobs M monitor fuel height B loops :
  Forall (fun l => 0 <= l < maxiter) loops ->
  forall o pushed0 clock0 o' pushed' clock',
    mining_loops M monitor fuel height B loops (o, pushed0, clock0)
    = Ok (o', pushed', clock') ->
    Forall check_job_ok pushed0 -> Forall check_job_ok pushed'.
Proof.
  induction 1 as [|loop rest Hloop Hrest IH]; intros o pushed0 clock0 o' pushed' clock'.
  - cbn [mining_loops]. intros Hrun Hp0. injection Hrun as _ <- _. exact Hp0.
  - rewrite mining_loops_cons.
    destruct (negb (height =? monitor clock0)).
    { intros Hrun Hp0. injection Hrun as _ <- _. exact Hp0. }
    destruct (sieve_iteration M fuel B loop o) as [[sieve o1]|e];
      [|rewrite result_bind_Err; discriminate].
    rewrite result_bind_Ok; cbv beta iota.
    destruct (extract_candidates monitor height sieve loop pushed0 (S clock0))
      as [E|e] eqn:Hx; [|rewrite result_bind_Err; discriminate].
    rewrite result_bind_Ok. intros Hrun Hp0.
    apply (IH _ _ _ _ _ _ Hrun).
    exact (extract_candidates_jobs monitor height sieve loop pushed0 (S clock0) E
             Hloop Hx Hp0).
Qed.

(** * Further properties of the miner's functions *)

(** ** Job dispatch *)

(** X1.  For a table of at least 128 primes the [TYPE_MOD] dispatch loop
    of [miningProcess] ends, the number of [workerDoneQueue] tokens it
    then awaits is the number of jobs pushed, every job is a non-empty
    range inside [[primorialNumber, nPrimes)] and every prime index of that
    interval lies in exactly one job. *)
Theorem dispatch_mod_covers M fuel :
  128 <= nPrimes M < 2 ^ 31 -> 0 <= primorialNumber M ->
  (Z.to_nat (nPrimes M) < fuel)%nat ->
  exists jobs,
    dispatch_mod fuel M = Ok (jobs, Z.of_nat (length jobs))
    /\ (forall i, primorialNumber M <= i < nPrimes M -> in_exactly_one i jobs)
    /\ Forall (fun w => exists s e, w = modWork s e
                 /\ primorialNumber M <= s < e /\ e <= nPrimes M) jobs.
Proof.
  intros Hn Hm Hfuel. exact (dispatch_mod_partition M fuel Hn Hm Hfuel).
Qed.

Lemma dispatch_mod_covers_witness :
  128 <= nPrimes miner_1000 < 2 ^ 31
  /\ 0 <= primorialNumber miner_1000
  /\ (Z.to_nat (nPrimes miner_1000) < 200)%nat
  /\ exists jobs,
       dispatch_mod 200 miner_1000 = Ok (jobs, Z.of_nat (length jobs))
       /\ (forall i, primorialNumber miner_1000 <= i < nPrimes miner_1000 ->
             in_exactly_one i jobs)
       /\ Forall (fun w => exists s e, w = modWork s e
                    /\ primorialNumber miner_1000 <= s < e
                    /\ e <= nPrimes miner_1000) jobs.
Proof.
  destruct miner_1000_strata as (Hm & _ & _ & Hn).
  assert (H1 : 128 <= nPrimes miner_1000 < 2 ^ 31) by (rewrite Hn; lia).
  assert (H2 : 0 <= primorialNumber miner_1000) by (rewrite Hm; lia).
  assert (H3 : (Z.to_nat (nPrimes miner_1000) < 200)%nat) by (rewrite Hn; lia).
  split; [exact H1|]. split; [exact H2|]. split; [exact H3|].
  exact (dispatch_mod_covers miner_1000 200 H1 H2 H3).
Defined.

(** ** The tables of [miningInit] *)

(** X3.  Because the prime table is increasing, the counters [n_dense]
    and [n_sparse] that [miningInit] computes cut the sieving indices into
    three consecutive runs: the primes below [denseLimit] are exactly the
    indices [[m, m + n_dense)], and the primes below [maxIncrements]
    exactly the indices [[m, m + n_dense + n_sparse)]; what remains up to
    [nPrimes] are the once-only primes. *)
Theorem miningInit_strata M :
  initialised M ->
  let m := primorialNumber M in
  0 <= n_dense M /\ 0 <= n_sparse M
  /\ m + n_dense M + n_sparse M <= nPrimes M
  /\ (forall i, m <= i < nPrimes M ->
        (zth (primes M) i < denseLimit <-> i < m + n_dense M))
  /\ (forall i, m <= i < nPrimes M ->
        (zth (primes M) i < max_increments <-> i < m + n_dense M + n_sparse M)).
Proof.
  intros Hinit m.
  destruct (initialised_strata M Hinit) as (Hd & Hs & Hle & Hdense & Hres).
  fold m in Hle, Hdense, Hres.
  split; [exact Hd|]. split; [exact Hs|]. split; [exact Hle|]. split.
  - intros i Hi. rewrite <- !Z.ltb_lt, (Hdense i Hi). reflexivity.
  - intros i Hi. rewrite <- !Z.ltb_lt, (Hres i Hi). reflexivity.
Qed.

Lemma miningInit_strata_witness :
  initialised miner_1000
  /\ let m := primorialNumber miner_1000 in
     0 <= n_dense miner_1000 /\ 0 <= n_sparse miner_1000
     /\ m + n_dense miner_1000 + n_sparse miner_1000 <= nPrimes miner_1000
     /\ (forall i, m <= i < nPrimes miner_1000 ->
           (zth (primes miner_1000) i < denseLimit <-> i < m + n_dense miner_1000))
     /\ (forall i, m <= i < nPrimes miner_1000 ->
           (zth (primes miner_1000) i < max_increments
            <-> i < m + n_dense miner_1000 + n_sparse miner_1000)).
Proof.
  split; [exact miner_1000_initialised|].
  exact (miningInit_strata miner_1000 miner_1000_initialised).
Defined.

(** X4.  For every sieving index [i] in [[primorialNumber, nPrimes)] the
    entry [inverts[i]] that [miningInit] stores is the inverse of the
    primorial modulo [primes[i]]: it lies in [[0, primes[i])] and
    [primorial * inverts[i] = 1 (mod primes[i])]; the prime is at least 7
    and does not divide the primorial. *)
Theorem miningInit_inverts M i :
  initialised M -> primorialNumber M <= i < nPrimes M ->
  let p := zth (primes M) i in
  Z.prime p /\ 7 <= p
  /\ 0 <= zth (inverts M) i < p
  /\ (primorial M * zth (inverts M) i) mod p = 1
  /\ ~ (p | primorial M).
Proof.
  intros Hinit Hi p.
  pose proof (initialised_sieving_prime M i Hinit Hi) as Hsp.
  split; [apply (sp_prime _ _ Hsp)|]. split; [apply (sp_lower _ _ Hsp)|].
  split; [apply (sp_invert _ _ Hsp)|]. split; [apply (sp_inverse _ _ Hsp)|].
  intros Hdiv. pose proof (sp_inverse _ _ Hsp) as Hinv. fold p in Hinv.
  pose proof (sp_lower _ _ Hsp) as Hlow. fold p in Hlow.
  destruct Hdiv as [k Hk]. rewrite Hk in Hinv.
  replace (k * p * zth (inverts M) i) with (k * zth (inverts M) i * p) in Hinv by ring.
  rewrite Z.mod_mul in Hinv by lia. discriminate.
Qed.

Lemma miningInit_inverts_witness :
  initialised miner_1000
  /\ primorialNumber miner_1000 <= 100 < nPrimes miner_1000
  /\ let p := zth (primes miner_1000) 100 in
     Z.prime p /\ 7 <= p
     /\ 0 <= zth (inverts miner_1000) 100 < p
     /\ (primorial miner_1000 * zth (inverts miner_1000) 100) mod p = 1
     /\ ~ (p | primorial miner_1000).
Proof.
  destruct miner_1000_strata as (Hm & _ & _ & Hn).
  assert (H : primorialNumber miner_1000 <= 100 < nPrimes miner_1000)
    by (rewrite Hm, Hn; lia).
  split; [exact miner_1000_initialised|]. split; [exact H|].
  exact (miningInit_inverts miner_1000 100 miner_1000_initialised H).
Defined.

(** X2.  The [TYPE_SIEVE] dispatch loop of an iteration ends and cuts the
    sparse indices [[n_dense, n_dense + n_sparse)] into consecutive
    ranges, one job each; it pushes at most [sieveWorkers] jobs, the count
    it returns is their number, and no two jobs name the same auxiliary
    bitmap. *)
Theorem dispatch_sieve_partition M fuel :
  initialised M -> nPrimes M < 2 ^ 31 ->
  (Z.to_nat (nPrimes M) < fuel)%nat ->
  exists jobs,
    dispatch_sieve fuel M = Ok (jobs, Z.of_nat (length jobs))
    /\ job_chain (sieveWorkers M) (n_dense M) (n_dense M + n_sparse M) jobs
    /\ Z.of_nat (length jobs) <= sieveWorkers M
    /\ NoDup (map job_sieveId jobs).
Proof.
  intros Hinit Hn Hfuel. exact (dispatch_sieve_ids M fuel Hinit Hn Hfuel).
Qed.

Lemma dispatch_sieve_partition_witness :
  initialised miner_mixed
  /\ nPrimes miner_mixed < 2 ^ 31
  /\ (Z.to_nat (nPrimes miner_mixed) < 200)%nat
  /\ exists jobs,
       dispatch_sieve 200 miner_mixed = Ok (jobs, Z.of_nat (length jobs))
       /\ job_chain (sieveWorkers miner_mixed) (n_dense miner_mixed)
            (n_dense miner_mixed + n_sparse miner_mixed) jobs
       /\ Z.of_nat (length jobs) <= sieveWorkers miner_mixed
       /\ NoDup (map job_sieveId jobs).
Proof.
  destruct miner_mixed_strata as (_ & _ & _ & Hn & _).
  assert (H1 : nPrimes miner_mixed < 2 ^ 31) by (rewrite Hn; lia).
  assert (H2 : (Z.to_nat (nPrimes miner_mixed) < 200)%nat) by (rewrite Hn; lia).
  split; [exact miner_mixed_initialised|]. split; [exact H1|]. split; [exact H2|].
  exact (dispatch_sieve_partition miner_mixed 200 miner_mixed_initialised H1 H2).
Defined.

(** X5.  For [2 <= sieveMax <= 65535^2] the sieve of Eratosthenes of
    [miningInit] ends and the table it builds lists exactly the primes
    below [sieveMax], each once, in increasing order (the bound keeps
    [nFactor * nFactor] and [nComposite + nFactor] within a [uint32_t]). *)
Theorem generate_primes_correct fuel sieveMax :
  2 <= sieveMax <= 4294836225 -> (Z.to_nat sieveMax <= fuel)%nat ->
  exists primes,
    generate_primes fuel sieveMax = Some primes
    /\ prime_table primes
    /\ forall p, In p primes <-> Z.prime p /\ p < sieveMax.
Proof.
  intros Hmax Hfuel.
  destruct (generate_primes_spec fuel sieveMax Hmax Hfuel) as (primes & Hrun & Hin & Hs).
  exists primes. split; [exact Hrun|]. split; [|exact Hin].
  apply (sorted_lookup_prime_table primes sieveMax); [lia| |exact Hs].
  intros p Hp. apply Hin. exact Hp.
Qed.

Lemma generate_primes_correct_witness :
  2 <= 100 <= 4294836225
  /\ (Z.to_nat 100 <= 100)%nat
  /\ exists primes,
       generate_primes 100 100 = Some primes
       /\ prime_table primes
       /\ forall p, In p primes <-> Z.prime p /\ p < 100.
Proof.
  assert (H1 : 2 <= 100 <= 4294836225) by lia.
  assert (H2 : (Z.to_nat 100 <= 100)%nat) by lia.
  split; [exact H1|]. split; [exact H2|].
  exact (generate_primes_correct 100 100 H1 H2).
Defined.



(** ** Once-only primes and the buckets *)

(** X7.  [update_remainders] leaves the rows of [offsets] of once-only
    primes (those at or above [maxIncrements]) untouched; instead each
    bucket [k] is extended, in stack order, by the indices below
    [maxIncrements] that the once-only primes of the range computed and
    that fall into segment [k], stored modulo [sieveSize].  The fill
    invariant of the buckets is kept, and the run can end otherwise only
    by the exit on a full bucket. *)
Theorem update_remainders_once_only M zt zr stk start_i end_i G :
  initialised M -> 0 <= zt + zr ->
  primorialNumber M <= start_i -> start_i <= end_i <= nPrimes M ->
  buckets_wf (entriesPerSegment M) (buckets G) ->
  length stk = Z.to_nat OFFSET_STACK_SIZE ->
  match update_remainders M zt zr stk start_i end_i G with
  | Ok (G', stk') =>
      buckets_wf (entriesPerSegment M) (buckets G')
      /\ length stk' = Z.to_nat OFFSET_STACK_SIZE
      /\ (forall k, 0 <= k ->
            bucket (buckets G') k
            = bucket (buckets G) k
              ++ flushed_to k (once_only_pushed M (zt + zr) start_i end_i))
      /\ (forall x, In x (once_only_pushed M (zt + zr) start_i end_i)
            <-> exists i f, start_i <= i < end_i /\ 0 <= f < 6
                  /\ max_increments <= zth (primes M) i
                  /\ x = offset_index M (zt + zr) i f /\ x < max_increments)
      /\ (forall i f, max_increments <= zth (primes M) i ->
            offsets G' i f = offsets G i f)
  | Err ExitCalled =>
      exists i, start_i <= i < end_i /\ max_increments <= zth (primes M) i
  | Err _ => False
  end.
Proof.
  intros Hinit Htar Hm Hse Hwf Hlen.
  assert (Hsp : forall i, start_i <= i < end_i -> sieving_prime M i)
    by (intros i Hi; apply initialised_sieving_prime; [exact Hinit | lia]).
  pose proof (update_remainders_spec M zt zr stk start_i end_i G
                Hsp Htar (proj1 Hse) Hwf Hlen) as H.
  destruct (update_remainders M zt zr stk start_i end_i G) as [[G' stk']|e]; [|exact H].
  destruct H as (Hwf' & Hlen' & Hb & Ho).
  split; [exact Hwf'|]. split; [exact Hlen'|]. split; [exact Hb|]. split.
  - intros x. rewrite In_once_only_pushed. split.
    + intros (i & Hi & Hx). apply In_once_only_hits in Hx.
      destruct Hx as (Hp & Hxm & f & Hf & Hxi).
      exists i, f. split; [exact Hi|]. split; [exact Hf|]. split; [exact Hp|].
      split; assumption.
    + intros (i & f & Hi & Hf & Hp & Hxi & Hxm). exists i. split; [exact Hi|].
      apply In_once_only_hits. split; [exact Hp|]. split; [exact Hxm|].
      exists f. split; assumption.
  - intros i f Hp. rewrite Ho. unfold offsets_after.
    destruct (Z.ltb_spec (zth (primes M) i) max_increments); [lia|].
    rewrite andb_false_r. reflexivity.
Qed.

Lemma update_remainders_once_only_witness :
  initialised miner_mixed
  /\ 0 <= 123456789012345678901234567890 + 16057
  /\ primorialNumber miner_mixed <= 40
  /\ 40 <= 171 <= nPrimes miner_mixed
  /\ buckets_wf (entriesPerSegment miner_mixed)
       (buckets (fresh_globals (entriesPerSegment miner_mixed)))
  /\ length fresh_stack = Z.to_nat OFFSET_STACK_SIZE
  /\ match update_remainders miner_mixed 123456789012345678901234567890 16057
             fresh_stack 40 171 (fresh_globals (entriesPerSegment miner_mixed)) with
     | Ok (G', stk') =>
         buckets_wf (entriesPerSegment miner_mixed) (buckets G')
         /\ length stk' = Z.to_nat OFFSET_STACK_SIZE
         /\ (forall k, 0 <= k ->
               bucket (buckets G') k
               = bucket (buckets (fresh_globals (entriesPerSegment miner_mixed))) k
                 ++ flushed_to k
                      (once_only_pushed miner_mixed
                         (123456789012345678901234567890 + 16057) 40 171))
         /\ (forall x, In x (once_only_pushed miner_mixed
                               (123456789012345678901234567890 + 16057) 40 171)
               <-> exists i f, 40 <= i < 171 /\ 0 <= f < 6
                     /\ max_increments <= zth (primes miner_mixed) i
                     /\ x = offset_index miner_mixed
                              (123456789012345678901234567890 + 16057) i f
                     /\ x < max_increments)
         /\ (forall i f, max_increments <= zth (primes miner_mixed) i ->
               offsets G' i f
               = offsets (fresh_globals (entriesPerSegment miner_mixed)) i f)
     | Err ExitCalled =>
         exists i, 40 <= i < 171 /\ max_increments <= zth (primes miner_mixed) i
     | Err _ => False
     end.
Proof.
  destruct miner_mixed_ready as (Hinit & Hn & _ & _ & Hwf & Hlen).
  destruct miner_mixed_strata as (Hm & _ & _ & Hnp & _).
  assert (H1 : 0 <= 123456789012345678901234567890 + 16057) by lia.
  assert (H2 : primorialNumber miner_mixed <= 40) by (rewrite Hm; lia).
  assert (H3 : 40 <= 171 <= nPrimes miner_mixed) by (rewrite Hnp; lia).
  split; [exact Hinit|]. split; [exact H1|]. split; [exact H2|]. split; [exact H3|].
  split; [exact Hwf|]. split; [exact Hlen|].
  exact (update_remainders_once_only miner_mixed 123456789012345678901234567890 16057
           fresh_stack 40 171 (fresh_globals (entriesPerSegment miner_mixed))
           Hinit H1 H2 H3 Hwf Hlen).
Defined.

(** The indices the once-only prime 536870923 of the mixed table pushes
    for that base, and where the first of them is stored. *)
Example once_only_pushed_mixed :
  once_only_pushed miner_mixed (123456789012345678901234567890 + 16057) 40 171
  = [342205384; 513407604; 62137791; 233340011; 318941121; 490143341]
  /\ flushed_to 20 [342205384; 513407604; 62137791; 233340011; 318941121; 490143341]
     = [6661064].
Proof. split; vm_compute; reflexivity. Qed.

(** X8.  Once the workers have run every [TYPE_MOD] job the master
    pushed, starting from emptied buckets: for each resident (dense or
    sparse) prime the six stored offsets lie below the prime and are, bias
    by bias, the first candidate of iteration 0 the prime divides; and
    bucket [loop] holds position [j] exactly when some once-only prime
    divides candidate [j] of iteration [loop] at some bias. *)
Theorem type_mod_phase M fuel zt zr G stk :
  initialised M -> 128 <= nPrimes M < 2 ^ 31 ->
  (Z.to_nat (nPrimes M) < fuel)%nat -> 0 <= zt + zr ->
  buckets_wf (entriesPerSegment M) (buckets G) ->
  (forall k, 0 <= k -> bucket (buckets G) k = []) ->
  length stk = Z.to_nat OFFSET_STACK_SIZE ->
  exists jobs n,
    dispatch_mod fuel M = Ok (jobs, n)
    /\ match run_mod_jobs M zt zr jobs (G, stk) with
       | Ok (G', stk') =>
           buckets_wf (entriesPerSegment M) (buckets G')
           /\ table_at M (zt + zr) 0 (offsets G')
           /\ buckets_hit M (zt + zr) (buckets G')
       | Err ExitCalled =>
           exists i, primorialNumber M <= i < nPrimes M
                     /\ max_increments <= zth (primes M) i
       | Err _ => False
       end.
Proof.
  intros Hinit Hn Hfuel Htar Hwf Hempty Hlen.
  exact (mod_phase_spec M fuel zt zr G stk Hinit Hn Hfuel Htar Hwf Hempty Hlen).
Qed.

Lemma type_mod_phase_witness :
  initialised miner_mixed
  /\ 128 <= nPrimes miner_mixed < 2 ^ 31
  /\ (Z.to_nat (nPrimes miner_mixed) < S (Z.to_nat riecoin_sieveSize))%nat
  /\ 0 <= 123456789012345678901234567890 + 16057
  /\ buckets_wf (entriesPerSegment miner_mixed)
       (buckets (fresh_globals (entriesPerSegment miner_mixed)))
  /\ (forall k, 0 <= k ->
        bucket (buckets (fresh_globals (entriesPerSegment miner_mixed))) k = [])
  /\ length fresh_stack = Z.to_nat OFFSET_STACK_SIZE
  /\ exists jobs n,
       dispatch_mod (S (Z.to_nat riecoin_sieveSize)) miner_mixed = Ok (jobs, n)
       /\ match run_mod_jobs miner_mixed 123456789012345678901234567890 16057 jobs
                  (fresh_globals (entriesPerSegment miner_mixed), fresh_stack) with
          | Ok (G', stk') =>
              buckets_wf (entriesPerSegment miner_mixed) (buckets G')
              /\ table_at miner_mixed (123456789012345678901234567890 + 16057) 0
                   (offsets G')
              /\ buckets_hit miner_mixed (123456789012345678901234567890 + 16057)
                   (buckets G')
          | Err ExitCalled =>
              exists i, primorialNumber miner_mixed <= i < nPrimes miner_mixed
                        /\ max_increments <= zth (primes miner_mixed) i
          | Err _ => False
          end.
Proof.
  destruct miner_mixed_ready as (Hinit & Hn & _ & Hfuel & Hwf & Hlen).
  assert (H1 : 0 <= 123456789012345678901234567890 + 16057) by lia.
  assert (H2 : forall k, 0 <= k ->
            bucket (buckets (fresh_globals (entriesPerSegment miner_mixed))) k = [])
    by (intros k _; apply fresh_buckets_empty).
  split; [exact Hinit|]. split; [exact Hn|]. split; [exact Hfuel|]. split; [exact H1|].
  split; [exact Hwf|]. split; [exact H2|]. split; [exact Hlen|].
  exact (type_mod_phase miner_mixed (S (Z.to_nat riecoin_sieveSize))
           123456789012345678901234567890 16057
           (fresh_globals (entriesPerSegment miner_mixed)) fresh_stack
           Hinit Hn Hfuel H1 Hwf H2 Hlen).
Defined.

(** ** The bitmap of one iteration *)

(** X9.  The merge loop of [miningProcess] or-s the auxiliary bitmaps
    into the main one: afterwards a position of the segment is set exactly
    when it was set in the main bitmap or in one of the auxiliary ones. *)
Theorem merge_sieves_or sieve sieves j :
  0 <= j < riecoin_sieveSize ->
  Z.testbit (merge_sieves sieve sieves) j
  = Z.testbit sieve j || existsb (fun aux => Z.testbit aux j) sieves.
Proof. intros Hj. exact (merge_sieves_spec sieve sieves j Hj). Qed.

Lemma merge_sieves_or_witness :
  0 <= 70 < riecoin_sieveSize
  /\ Z.testbit (merge_sieves 5 [2 ^ 70; 8]) 70
     = Z.testbit 5 70 || existsb (fun aux => Z.testbit aux 70) [2 ^ 70; 8].
Proof.
  assert (H : 0 <= 70 < riecoin_sieveSize) by (rewrite sieveSize_val; lia).
  split; [exact H|]. exact (merge_sieves_or 5 [2 ^ 70; 8] 70 H).
Defined.

(** X10.  Applying the once-only bucket of an iteration sets every
    non-zero position the bucket holds and nothing else; a position 0 in
    the bucket is dropped by the ring, so bit 0 is left as it was. *)
Theorem apply_once_only_marks eps sieve B loop :
  buckets_wf eps B -> 0 <= loop < maxiter ->
  Forall (fun x => 0 <= x < riecoin_sieveSize) (bucket B loop) ->
  exists sieve',
    apply_once_only sieve B loop = Ok sieve'
    /\ (forall j, Z.testbit sieve' j = true
                  <-> Z.testbit sieve j = true \/ (j <> 0 /\ In j (bucket B loop)))
    /\ Z.testbit sieve' 0 = Z.testbit sieve 0.
Proof.
  intros Hwf Hloop Hrange.
  destruct (apply_once_only_spec eps sieve B loop Hwf Hloop Hrange)
    as (sieve' & Hrun & Hbits & Hz).
  exists sieve'. split; [exact Hrun|]. split; [|exact Hz].
  intros j. rewrite Hbits, orb_true_iff, andb_true_iff, negb_true_iff, Z.eqb_neq.
  rewrite existsb_eqb_In. reflexivity.
Qed.

Lemma apply_once_only_marks_witness :
  let B := {| segment_counts := <[0%nat := 3]> (replicate 32 0);
              segment_hits := <[0%nat := [0; 9; 70; 0]]> (replicate 32 [0; 0; 0; 0]) |} in
  buckets_wf 4 B
  /\ 0 <= 0 < maxiter
  /\ Forall (fun x => 0 <= x < riecoin_sieveSize) (bucket B 0)
  /\ exists sieve',
       apply_once_only 0 B 0 = Ok sieve'
       /\ (forall j, Z.testbit sieve' j = true
                     <-> Z.testbit 0 j = true \/ (j <> 0 /\ In j (bucket B 0)))
       /\ Z.testbit sieve' 0 = Z.testbit 0 0.
Proof.
  intros B.
  assert (H1 : buckets_wf 4 B).
  { constructor.
    - lia.
    - reflexivity.
    - reflexivity.
    - intros k row Hk.
      assert (HF : Forall (fun r : list Z => length r = Z.to_nat 4) (segment_hits B))
        by (repeat constructor).
      rewrite Forall_lookup in HF. exact (HF k row Hk).
    - intros k c Hk.
      assert (HF : Forall (fun c => 0 <= c <= 4) (segment_counts B))
        by (repeat constructor; lia).
      rewrite Forall_lookup in HF. exact (HF k c Hk). }
  assert (H2 : 0 <= 0 < maxiter) by (rewrite maxiter_val; lia).
  assert (H3 : Forall (fun x => 0 <= x < riecoin_sieveSize) (bucket B 0))
    by (rewrite sieveSize_val; repeat constructor; lia).
  split; [exact H1|]. split; [exact H2|]. split; [exact H3|].
  exact (apply_once_only_marks 4 0 B 0 H1 H2 H3).
Defined.

(** The bucket of that witness holds 0, 9 and 70: bits 9 and 70 are set,
    bit 0 is not. *)
Example apply_once_only_drops_zero :
  apply_once_only 0
    {| segment_counts := <[0%nat := 3]> (replicate 32 0);
       segment_hits := <[0%nat := [0; 9; 70; 0]]> (replicate 32 [0; 0; 0; 0]) |} 0
  = Ok (2 ^ 9 + 2 ^ 70).
Proof. vm_compute. reflexivity. Qed.

(** X11.  [add_to_pending] never loses a non-zero position: a position
    is set in the bitmap or waits in the ring afterwards exactly when it
    did before or is the new entry, unless the entry is 0, which is never
    written; the ring keeps its sixteen slots and a position among them,
    and bit 0 of the bitmap is not changed. *)
Theorem add_to_pending_keeps sieve pending pos ent :
  ring_ok pending pos -> 0 <= ent < riecoin_sieveSize ->
  exists sieve' pending' pos',
    add_to_pending sieve pending pos ent = Ok (sieve', pending', pos')
    /\ ring_ok pending' pos'
    /\ (forall j, ring_view sieve' pending' j
                  = ring_view sieve pending j || (negb (j =? 0) && (j =? ent)))
    /\ Z.testbit sieve' 0 = Z.testbit sieve 0.
Proof.
  intros Hok Hent. exact (add_to_pending_spec sieve pending pos ent Hok Hent).
Qed.

Lemma add_to_pending_keeps_witness :
  ring_ok (init_pending (new_array PENDING_SIZE)) 0
  /\ 0 <= 77 < riecoin_sieveSize
  /\ exists sieve' pending' pos',
       add_to_pending 0 (init_pending (new_array PENDING_SIZE)) 0 77
       = Ok (sieve', pending', pos')
       /\ ring_ok pending' pos'
       /\ (forall j, ring_view sieve' pending' j
                     = ring_view 0 (init_pending (new_array PENDING_SIZE)) j
                       || (negb (j =? 0) && (j =? 77)))
       /\ Z.testbit sieve' 0 = Z.testbit 0 0.
Proof.
  assert (H : 0 <= 77 < riecoin_sieveSize) by (rewrite sieveSize_val; lia).
  split; [exact ring_ok_init|]. split; [exact H|].
  exact (add_to_pending_keeps 0 (init_pending (new_array PENDING_SIZE)) 0 77
           ring_ok_init H).
Defined.

(** X12.  Run on the zeroed bitmap with the offsets table of iteration
    [loop], the dense loop of [miningProcess] sets a position of the
    segment, position 0 included, exactly when some dense prime divides
    the candidate at that position at one of the six biases. *)
Theorem dense_sieve_marks_multiples M fuel base loop o :
  initialised M -> table_at M base loop o ->
  (Z.to_nat riecoin_sieveSize < fuel)%nat ->
  let m := primorialNumber M in
  exists sieve' o',
    dense_sieve M m fuel 0 o = Ok (sieve', o')
    /\ forall j, 0 <= j < riecoin_sieveSize ->
         (Z.testbit sieve' j = true <-> hit_in M base loop m (m + n_dense M) j).
Proof.
  intros Hinit Htab Hfuel. exact (dense_sieve_hits M fuel base loop o Hinit Htab Hfuel).
Qed.

Lemma dense_sieve_marks_multiples_witness :
  initialised miner_mixed
  /\ table_at miner_mixed 1234567 0 (fun i f => offset_index miner_mixed 1234567 i f)
  /\ (Z.to_nat riecoin_sieveSize < S (Z.to_nat riecoin_sieveSize))%nat
  /\ let m := primorialNumber miner_mixed in
     exists sieve' o',
       dense_sieve miner_mixed m (S (Z.to_nat riecoin_sieveSize)) 0
         (fun i f => offset_index miner_mixed 1234567 i f) = Ok (sieve', o')
       /\ forall j, 0 <= j < riecoin_sieveSize ->
            (Z.testbit sieve' j = true
             <-> hit_in miner_mixed 1234567 0 m (m + n_dense miner_mixed) j).
Proof.
  destruct miner_mixed_ready as (Hinit & _ & Hfuel & _).
  assert (H : table_at miner_mixed 1234567 0
                (fun i f => offset_index miner_mixed 1234567 i f))
    by (apply table_at_initial; [exact Hinit | lia]).
  split; [exact Hinit|]. split; [exact H|]. split; [exact Hfuel|].
  exact (dense_sieve_marks_multiples miner_mixed (S (Z.to_nat riecoin_sieveSize))
           1234567 0 (fun i f => offset_index miner_mixed 1234567 i f) Hinit H Hfuel).
Defined.

(** ** The search over one block *)

(** X13.  What [miningProcess] hands to the verifiers.  Every index [j]
    pushed in a [TYPE_CHECK] job of iteration [loop] is a position of the
    segment at which no dense prime divides the candidate
    [base + (loop * sieveSize + j) * P] at any of the six biases and,
    unless [j = 0], no prime of the table from [primorialNumber] on does.
    While the block height does not change the converse holds: every such
    position of every iteration is pushed.  The search ends otherwise only
    by the exit on a full bucket, which needs a once-only prime. *)
Theorem miningProcess_candidates M sha256 monitor fuel block targetCompact height G stk :
  initialised M -> 128 <= nPrimes M < 2 ^ 31 ->
  (Z.to_nat riecoin_sieveSize < fuel)%nat -> (Z.to_nat (nPrimes M) < fuel)%nat ->
  buckets_wf (entriesPerSegment M) (buckets G) ->
  length stk = Z.to_nat OFFSET_STACK_SIZE ->
  let zt := getTargetFromBlock sha256 block targetCompact in
  let base := search_base zt (remainderPrimorial zt (primorial M)) in
  search_outcome M base monitor height
    (miningProcess M sha256 monitor fuel block targetCompact height G stk).
Proof.
  intros Hinit Hn Hfuel Hfuel' Hwf Hlen. cbv zeta.
  pose proof (miningProcess_spec M sha256 monitor fuel block targetCompact height G stk
                Hinit Hn Hfuel Hfuel' Hwf Hlen) as H.
  cbv zeta in H. unfold search_outcome.
  destruct (miningProcess M sha256 monitor fuel block targetCompact height G stk)
    as [[G' pushed]|e]; [|exact H].
  destruct H as [Hsound Hcompl]. split.
  - intros loop n idx j Hjob Hj. apply Hsound. apply job_entries_In.
    exists n, idx. split; assumption.
  - intros Hmon loop j Hloop Hj Hs. apply job_entries_In.
    apply (Hcompl Hmon loop j Hloop Hj Hs).
Qed.

Lemma miningProcess_candidates_witness :
  let M := miner_mixed in
  let sha256 : list Z -> list Z := fun _ => digest_seq in
  let monitor : nat -> Z := fun _ => 7 in
  let fuel := S (Z.to_nat riecoin_sieveSize) in
  let G := fresh_globals (entriesPerSegment M) in
  initialised M
  /\ 128 <= nPrimes M < 2 ^ 31
  /\ (Z.to_nat riecoin_sieveSize < fuel)%nat
  /\ (Z.to_nat (nPrimes M) < fuel)%nat
  /\ buckets_wf (entriesPerSegment M) (buckets G)
  /\ length fresh_stack = Z.to_nat OFFSET_STACK_SIZE
  /\ let zt := getTargetFromBlock sha256 (replicate 80 0) 304 in
     let base := search_base zt (remainderPrimorial zt (primorial M)) in
     search_outcome M base monitor 7
       (miningProcess M sha256 monitor fuel (replicate 80 0) 304 7 G fresh_stack).
Proof.
  intros M sha256 monitor fuel G.
  destruct miner_mixed_ready as (Hinit & Hn & Hfuel & Hfuel' & Hwf & Hlen).
  split; [exact Hinit|]. split; [exact Hn|]. split; [exact Hfuel|].
  split; [exact Hfuel'|]. split; [exact Hwf|]. split; [exact Hlen|].
  exact (miningProcess_candidates M sha256 monitor fuel (replicate 80 0) 304 7
           G fresh_stack Hinit Hn Hfuel Hfuel' Hwf Hlen).
Defined.

(** X14.  If the block height has already changed when the first
    iteration starts, [miningProcess] pushes no [TYPE_CHECK] job and
    returns the state its [TYPE_MOD] phase computed: the buckets, emptied
    and refilled, hold exactly the once-only hits of every iteration, and
    the offsets of every resident prime are its first hits of iteration 0,
    so no sieve pass has advanced them.  The run ends otherwise only by
    the exit on a full bucket. *)
Theorem miningProcess_stale_block M sha256 monitor fuel block targetCompact height G stk :
  initialised M -> 128 <= nPrimes M < 2 ^ 31 ->
  (Z.to_nat (nPrimes M) < fuel)%nat ->
  buckets_wf (entriesPerSegment M) (buckets G) ->
  length stk = Z.to_nat OFFSET_STACK_SIZE ->
  monitor O <> height ->
  let zt := getTargetFromBlock sha256 block targetCompact in
  let base := search_base zt (remainderPrimorial zt (primorial M)) in
  match miningProcess M sha256 monitor fuel block targetCompact height G stk with
  | Ok (G', pushed) =>
      pushed = []
      /\ buckets_wf (entriesPerSegment M) (buckets G')
      /\ table_at M base 0 (offsets G')
      /\ buckets_hit M base (buckets G')
  | Err ExitCalled =>
      exists i, primorialNumber M <= i < nPrimes M
                /\ max_increments <= zth (primes M) i
  | Err _ => False
  end.
Proof.
  intros Hinit Hn Hfuel Hwf Hlen Hstale.
  exact (stale_block_spec M sha256 monitor fuel block targetCompact height G stk
           Hinit Hn Hfuel Hwf Hlen Hstale).
Qed.

Lemma miningProcess_stale_block_witness :
  let M := miner_mixed in
  let sha256 := fun _ : list Z => digest_seq in
  let monitor := fun _ : nat => 8 in
  let G := fresh_globals (entriesPerSegment M) in
  let zt := getTargetFromBlock sha256 (replicate 80 0) 304 in
  let base := search_base zt (remainderPrimorial zt (primorial M)) in
  initialised M
  /\ 128 <= nPrimes M < 2 ^ 31
  /\ (Z.to_nat (nPrimes M) < 200)%nat
  /\ buckets_wf (entriesPerSegment M) (buckets G)
  /\ length fresh_stack = Z.to_nat OFFSET_STACK_SIZE
  /\ monitor O <> 7
  /\ match miningProcess M sha256 monitor 200 (replicate 80 0) 304 7 G fresh_stack with
     | Ok (G', pushed) =>
         pushed = []
         /\ buckets_wf (entriesPerSegment M) (buckets G')
         /\ table_at M base 0 (offsets G')
         /\ buckets_hit M base (buckets G')
     | Err ExitCalled =>
         exists i, primorialNumber M <= i < nPrimes M
                   /\ max_increments <= zth (primes M) i
     | Err _ => False
     end.
Proof.
  intros M sha256 monitor G zt base.
  destruct miner_mixed_ready as (Hinit & Hn & _ & _ & Hwf & Hlen).
  destruct miner_mixed_strata as (_ & _ & _ & Hnp & _).
  assert (H1 : (Z.to_nat (nPrimes M) < 200)%nat) by (unfold M; rewrite Hnp; lia).
  assert (H2 : monitor O <> 7) by (unfold monitor; lia).
  split; [exact Hinit|]. split; [exact Hn|]. split; [exact H1|].
  split; [exact Hwf|]. split; [exact Hlen|]. split; [exact H2|].
  exact (miningProcess_stale_block M sha256 monitor 200 (replicate 80 0) 304 7
           G fresh_stack Hinit Hn H1 Hwf Hlen H2).
Defined.

(** X15.  [silly_sort_indexes] sorts the six offsets of a prime: the result is
    in ascending order on the indexes 0..5 and holds the same six values, each
    as often as the input. *)
Theorem silly_sort_indexes_sorts a :
  let r := silly_sort_indexes a in
  (forall x y, 0 <= x < y -> y < 6 -> r x <= r y)
  /\ Permutation (map r (seqZ 0 6)) (map a (seqZ 0 6)).
Proof.
  cbv zeta. unfold silly_sort_indexes.
  change (seqZ 0 5) with [0; 1; 2; 3; 4]. cbn [foldl].
  change (seqZ (0 + 1) (6 - (0 + 1))) with [1; 2; 3; 4; 5].
  change (seqZ (1 + 1) (6 - (1 + 1))) with [2; 3; 4; 5].
  change (seqZ (2 + 1) (6 - (2 + 1))) with [3; 4; 5].
  change (seqZ (3 + 1) (6 - (3 + 1))) with [4; 5].
  change (seqZ (4 + 1) (6 - (4 + 1))) with [5].
  assert (Hin : forall i js k, js = map (fun d => i + d) (seqZ 1 (5 - i)) ->
            0 <= i < 5 -> In k js -> i < k < 6).
  { intros i js k -> Hi Hk. apply in_map_iff in Hk. destruct Hk as (d & <- & Hd).
    apply list_elem_of_In, elem_of_seqZ in Hd. lia. }
  destruct (sort_pass_spec 0 [1; 2; 3; 4; 5] ltac:(lia)
              (fun k => Hin 0 _ k eq_refl ltac:(lia)) a) as (_ & M0 & S0 & V0 & P0).
  set (a0 := foldl (fun a j => swap_if_less a 0 j) a [1; 2; 3; 4; 5]) in *.
  destruct (sort_pass_spec 1 [2; 3; 4; 5] ltac:(lia)
              (fun k => Hin 1 _ k eq_refl ltac:(lia)) a0) as (_ & M1 & S1 & V1 & P1).
  set (a1 := foldl (fun a j => swap_if_less a 1 j) a0 [2; 3; 4; 5]) in *.
  destruct (sort_pass_spec 2 [3; 4; 5] ltac:(lia)
              (fun k => Hin 2 _ k eq_refl ltac:(lia)) a1) as (_ & M2 & S2 & V2 & P2).
  set (a2 := foldl (fun a j => swap_if_less a 2 j) a1 [3; 4; 5]) in *.
  destruct (sort_pass_spec 3 [4; 5] ltac:(lia)
              (fun k => Hin 3 _ k eq_refl ltac:(lia)) a2) as (_ & M3 & S3 & V3 & P3).
  set (a3 := foldl (fun a j => swap_if_less a 3 j) a2 [4; 5]) in *.
  destruct (sort_pass_spec 4 [5] ltac:(lia)
              (fun k => Hin 4 _ k eq_refl ltac:(lia)) a3) as (_ & M4 & S4 & V4 & P4).
  set (a4 := foldl (fun a j => swap_if_less a 4 j) a3 [5]) in *.
  split; [|rewrite P4, P3, P2, P1; exact P0].
  assert (Hmem : forall lo k, lo < k < 6 -> In k (map (fun d => lo + d) (seqZ 1 (5 - lo)))).
  { intros lo k Hk. apply in_map_iff. exists (k - lo). split; [lia|].
    apply list_elem_of_In, elem_of_seqZ. lia. }
  (* the prefix sorted so far stays below everything to its right *)
  assert (I0 : forall y, 0 < y < 6 -> a0 0 <= a0 y)
    by (intros y Hy; apply M0; exact (Hmem 0 y Hy)).
  assert (I1 : forall x y, 0 <= x < 2 -> x < y < 6 -> a1 x <= a1 y).
  { intros x y Hx Hy. destruct (Z.eq_dec x 1) as [->|Hne].
    - apply M1. exact (Hmem 1 y Hy).
    - assert (x = 0) by lia. subst x.
      rewrite (S1 0) by (try lia; intros H; apply (Hin 1 _ 0 eq_refl) in H; lia).
      destruct (Z.eq_dec y 1) as [->|Hy1].
      + destruct (V1 1 ltac:(lia)) as (k' & Hk' & ->). apply I0. lia.
      + destruct (V1 y ltac:(lia)) as (k' & Hk' & ->). apply I0. lia. }
  assert (I2 : forall x y, 0 <= x < 3 -> x < y < 6 -> a2 x <= a2 y).
  { intros x y Hx Hy. destruct (Z.eq_dec x 2) as [->|Hne].
    - apply M2. exact (Hmem 2 y Hy).
    - rewrite (S2 x) by (try lia; intros H; apply (Hin 2 _ x eq_refl) in H; lia).
      destruct (Z.lt_ge_cases y 2) as [Hlt|Hge].
      + rewrite (S2 y) by (try lia; intros H; apply (Hin 2 _ y eq_refl) in H; lia).
        apply I1; lia.
      + destruct (V2 y ltac:(lia)) as (k' & Hk' & ->). apply I1; lia. }
  assert (I3 : forall x y, 0 <= x < 4 -> x < y < 6 -> a3 x <= a3 y).
  { intros x y Hx Hy. destruct (Z.eq_dec x 3) as [->|Hne].
    - apply M3. exact (Hmem 3 y Hy).
    - rewrite (S3 x) by (try lia; intros H; apply (Hin 3 _ x eq_refl) in H; lia).
      destruct (Z.lt_ge_cases y 3) as [Hlt|Hge].
      + rewrite (S3 y) by (try lia; intros H; apply (Hin 3 _ y eq_refl) in H; lia).
        apply I2; lia.
      + destruct (V3 y ltac:(lia)) as (k' & Hk' & ->). apply I2; lia. }
  intros x y Hx Hy. destruct (Z.eq_dec x 4) as [->|Hne].
  - apply M4. exact (Hmem 4 y ltac:(lia)).
  - rewrite (S4 x) by (try lia; intros H; apply (Hin 4 _ x eq_refl) in H; lia).
    destruct (Z.lt_ge_cases y 4) as [Hlt|Hge].
    + rewrite (S4 y) by (try lia; intros H; apply (Hin 4 _ y eq_refl) in H; lia).
      apply I3; lia.
    + destruct (V4 y ltac:(lia)) as (k' & Hk' & ->). apply I3; lia.
Qed.

(** X16.  The [TYPE_CHECK] branch of [verify_thread] misses no candidate: the run
    succeeds, submits at most one share per index of the job, and every index
    whose first [tuples] numbers of the constellation all pass the Fermat test
    gets a share that describes it. *)
Theorem verify_check_complete M zt zr tuples loop n_indexes indexes submitted :
  0 < primorial M -> 0 < zt -> 0 <= zr -> 0 <= loop < maxiter ->
  0 <= n_indexes <= Z.of_nat (length indexes) ->
  Forall (fun j => 0 <= j) indexes ->
  1 <= tuples <= 6 ->
  exists subs,
    verify_check M zt zr tuples loop n_indexes indexes submitted
      = Ok (submitted ++ subs)
    /\ Z.of_nat (length subs) <= n_indexes
    /\ forall j, In j (take (Z.to_nat n_indexes) indexes) ->
         (forall c, 0 <= c < tuples ->
            fermat_passes (tested_number M zt zr loop j + cumulativeBias c)) ->
         exists off k, In (off, k) subs /\ share_ok M zt zr tuples loop j off k.
Proof.
  intros HP Hzt Hzr Hl Hn Hidx Ht. unfold verify_check.
  rewrite <- (Z2Nat.id n_indexes) by lia.
  assert (Hlen : (Z.to_nat n_indexes <= length indexes)%nat) by lia.
  rewrite Nat2Z.id. generalize dependent (Z.to_nat n_indexes). clear Hn.
  induction n as [|n IH]; intros Hlen.
  - exists []. rewrite app_nil_r. split; [reflexivity|]. split; [cbn; lia|].
    intros j Hj. rewrite take_0 in Hj. destruct Hj.
  - destruct IH as (subs & Hrun & Hcount & Hsubs); [lia|].
    rewrite forM_seqZ_S, Hrun. rewrite result_bind_Ok.
    rewrite Z.add_0_l, Nat2Z.id.
    destruct (lookup_lt_is_Some_2 indexes n ltac:(lia)) as [j Hj].
    rewrite Hj.
    assert (Hj0 : 0 <= j).
    { rewrite Forall_forall in Hidx. apply Hidx.
      eapply list_elem_of_lookup_2. exact Hj. }
    rewrite (take_S_r _ _ _ Hj).
    destruct (check_candidate_shape M zt zr tuples loop j (submitted ++ subs)
                HP Hzt Hzr Hl Hj0 Ht) as [(Hskip & c & Hc & Hfail)|(off & k & Hsub & Hok)].
    + exists subs. rewrite Hskip. split; [reflexivity|]. split; [lia|].
      intros j' Hj' Hpass. apply in_app_or in Hj'. destruct Hj' as [Hj'|[<-|[]]].
      * apply Hsubs; assumption.
      * exfalso. apply Hfail. apply Hpass. exact Hc.
    + exists (subs ++ [(off, k)]). rewrite Hsub, app_assoc. split; [reflexivity|].
      split; [rewrite length_app; cbn [length]; lia|].
      intros j' Hj' Hpass. apply in_app_or in Hj'. destruct Hj' as [Hj'|[<-|[]]].
      * destruct (Hsubs j' Hj' Hpass) as (off' & k' & Hin & Hok').
        exists off', k'. split; [apply in_or_app; left; exact Hin | exact Hok'].
      * exists off, k. split; [apply in_or_app; right; left; reflexivity | exact Hok].
Qed.

Lemma verify_check_complete_witness :
  let indexes := [0; 1] in
  0 < primorial miner_1000
  /\ 0 <= 0 < maxiter
  /\ 0 <= 2 <= Z.of_nat (length indexes)
  /\ Forall (fun j => 0 <= j) indexes
  /\ 1 <= 6 <= 6
  /\ exists subs,
       verify_check miner_1000 1 16056 6 0 2 indexes [] = Ok ([] ++ subs)
       /\ Z.of_nat (length subs) <= 2
       /\ forall j, In j (take (Z.to_nat 2) indexes) ->
            (forall c, 0 <= c < 6 ->
               fermat_passes (tested_number miner_1000 1 16056 0 j + cumulativeBias c)) ->
            exists off k, In (off, k) subs /\ share_ok miner_1000 1 16056 6 0 j off k.
Proof.
  intros indexes.
  assert (H1 : 0 < primorial miner_1000) by (vm_compute; reflexivity).
  assert (H2 : 0 <= 0 < maxiter) by (rewrite maxiter_val; lia).
  assert (H3 : 0 <= 2 <= Z.of_nat (length indexes)) by (cbn; lia).
  assert (H4 : Forall (fun j => 0 <= j) indexes) by (repeat constructor; lia).
  assert (H5 : 1 <= 6 <= 6) by lia.
  split; [exact H1|]. split; [exact H2|]. split; [exact H3|]. split; [exact H4|].
  split; [exact H5|].
  apply (verify_check_complete miner_1000 1 16056 6 0 2 indexes []
           H1 ltac:(lia) ltac:(lia) H2 H3 H4 H5).
Defined.

(** X17.  Every [TYPE_CHECK] job that [miningProcess] hands to the verifiers is
    well formed: its loop number is below [maxiter], it carries between 1 and
    [WORK_INDEXES] candidate indexes in an array of [WORK_INDEXES] 32-bit
    values, so that a verifier never reads past the array. *)
Theorem miningProcess_jobs_well_formed M sha256 monitor fuel block targetCompact height G stk :
  match miningProcess M sha256 monitor fuel block targetCompact height G stk with
  | Ok (_, pushed) => Forall check_job_ok pushed
  | Err _ => True
  end.
Proof.
  unfold miningProcess.
  generalize (getTargetFromBlock sha256 block targetCompact). intros zt. cbv zeta.
  destruct (dispatch_mod fuel M) as [[jobs nw]|e];
    [|rewrite result_bind_Err; exact I].
  rewrite result_bind_Ok; cbv beta iota.
  match goal with
  | |- context [run_mod_jobs M zt ?zr jobs ?s] =>
      destruct (run_mod_jobs M zt zr jobs s) as [[G1 stk1]|e]
  end; [|rewrite !result_bind_Err; exact I].
  rewrite result_bind_Ok; cbv beta iota.
  destruct (mining_loops M monitor fuel height (buckets G1) (seqZ 0 maxiter)
              (offsets G1, [], O)) as [[[o' pushed'] clock']|e] eqn:Hloops;
    [|rewrite result_bind_Err; exact I].
  rewrite result_bind_Ok; cbv beta iota.
  apply (mining_loops_jobs M monitor fuel height (buckets G1) (seqZ 0 maxiter)
           ltac:(apply Forall_forall; intros l Hl; apply elem_of_seqZ in Hl; lia)
           _ _ _ _ _ _ Hloops).
  constructor.
Qed.

(** X18.  For every block the remainder [R] the master computes aligns the
    base, [(zTarget + R) mod P = primorialOffset], and lies in
    [primorialOffset <= R < P + primorialOffset]; it is below [P] exactly
    when [zTarget mod P] is zero or exceeds [primorialOffset]. *)
Theorem remainderPrimorial_aligned sha256 block searchBits P :
  primorial_offset < P ->
  let zTarget := getTargetFromBlock sha256 block searchBits in
  let R := remainderPrimorial zTarget P in
  (zTarget + R) mod P = primorial_offset
  /\ primorial_offset <= R < P + primorial_offset
  /\ (R < P <-> zTarget mod P = 0 \/ primorial_offset < zTarget mod P).
Proof.
  intros HP zTarget R. apply remainderPrimorial_spec; [|exact HP].
  unfold zTarget, getTargetFromBlock.
  apply Z.lt_le_incl, target_from_hash_pos.
Qed.

Lemma remainderPrimorial_aligned_witness :
  primorial_offset < primorial miner_1000
  /\ (getTargetFromBlock (fun _ => digest_seq) (replicate 80 0) 304
      + remainderPrimorial
          (getTargetFromBlock (fun _ => digest_seq) (replicate 80 0) 304)
          (primorial miner_1000)) mod primorial miner_1000 = primorial_offset.
Proof.
  assert (H : primorial_offset < primorial miner_1000) by (vm_compute; reflexivity).
  split; [exact H|].
  apply (remainderPrimorial_aligned (fun _ => digest_seq) (replicate 80 0) 304
           (primorial miner_1000) H).
Defined.
